(** * Chess rule engine and search: a shallow embedding

    The development follows the JavaScript sources:
    - [ChessEngineCore] (move generation, [movePiece], [undoMove],
      [completePromotion], check and terminal detection);
    - [ChessEngineSystem] (the search layer working on a core engine:
      [makeMove]/[undoMove], [minimax], [getBestMoveMinMax]);
    - [StockfishLikeEngine] (the hint worker: [search], [orderMoves],
      [isKingInCheck]);
    - the stand-alone [ChessEngine] whose [movePiece]/[completePromotion]
      pair handles promotion.

    Numbers are [Z]; a board is a list of rows of optional pieces, read and
    written by index; objects mutated in place are modelled by explicit
    state passing; a raised [TypeError] is the [Threw] outcome. *)

From Stdlib Require Import ZArith Bool Lia Permutation Sorted.
From stdpp Require Import base option list.

Open Scope Z_scope.

(** ** Data model *)

Inductive Color := White | Black.
Inductive PieceType := Pawn | Knight | Bishop | Rook | Queen | King.

(** [{ type, color, hasMoved }] *)
Record Piece := mkPiece { ptype : PieceType; pcolor : Color; hasMoved : bool }.

Definition Square : Type := Z * Z.
Abbreviation Board := (list (list (option Piece))).

#[global] Instance Color_eq_dec : EqDecision Color.
Proof. solve_decision. Defined.
#[global] Instance PieceType_eq_dec : EqDecision PieceType.
Proof. solve_decision. Defined.
#[global] Instance Piece_eq_dec : EqDecision Piece.
Proof. solve_decision. Defined.

Definition color_eqb (a b : Color) : bool := bool_decide (a = b).
Definition type_eqb (a b : PieceType) : bool := bool_decide (a = b).

(** [color === 'white' ? 'black' : 'white'] *)
Definition opponent (color : Color) : Color :=
  match color with White => Black | Black => White end.

(** The outcome of a call that may raise. *)
Inductive Outcome (A : Type) := Returned (a : A) | Threw.
Arguments Returned {A} a.
Arguments Threw {A}.

(** [isInBounds = (r, c) => r >= 0 && r < 8 && c >= 0 && c < 8] *)
Definition isInBounds (r c : Z) : bool :=
  (0 <=? r) && (r <? 8) && (0 <=? c) && (c <? 8).

(** [board[r][c]] read as a truth value: an absent column reads
    [undefined], which the source treats like [null].  Every read through
    [getPiece] is guarded in the source by [isInBounds] or uses loop
    indices in [0,8); the reads at caller-supplied squares go through
    [readCell], which keeps the [TypeError] of an absent row. *)
Definition getPiece (b : Board) (r c : Z) : option Piece :=
  if isInBounds r c then
    match b !! Z.to_nat r with
    | Some row => match row !! Z.to_nat c with Some cell => cell | None => None end
    | None => None
    end
  else None.

(** [board[r][c] = v], for a square of the grid. *)
Definition setPiece (b : Board) (r c : Z) (v : option Piece) : Board :=
  if isInBounds r c then
    match b !! Z.to_nat r with
    | Some row => <[Z.to_nat r := <[Z.to_nat c := v]> row]> b
    | None => b
    end
  else b.

(** [board[r][c]] at a caller-supplied square: [board[r]] is [undefined]
    outside the rows, and indexing it raises. *)
Definition readCell (b : Board) (r c : Z) : Outcome (option Piece) :=
  if (0 <=? r) && (r <? Z.of_nat (length b)) then Returned (getPiece b r c) else Threw.

(** The 8×8 grid. *)
Definition wf_board (b : Board) : Prop :=
  length b = 8%nat ∧ Forall (λ row, length row = 8%nat) b.

(** Loop indices [0..7], and the squares in the order of the nested
    [for (row) for (col)] loops. *)
Definition idx8 : list Z := [0; 1; 2; 3; 4; 5; 6; 7].
Definition allSquares : list Square :=
  flat_map (λ r, map (λ c, (r, c)) idx8) idx8.
Arguments allSquares : simpl never.

(** ** ChessEngineCore: attack detection *)

(** [isPathClear]: the [while (r !== toRow || c !== toCol)] loop.  The
    loop is run with fuel; [None] is the run that does not finish. *)
Fixpoint isPathClear_loop (fuel : nat) (b : Board) (r c toRow toCol dy dx : Z)
  : option bool :=
  match fuel with
  | O => None
  | S fuel' =>
      if negb (r =? toRow) || negb (c =? toCol) then
        match getPiece b r c with
        | Some _ => Some false
        | None => isPathClear_loop fuel' b (r + dy) (c + dx) toRow toCol dy dx
        end
      else Some true
  end.

Definition isPathClear (b : Board) (fromRow fromCol toRow toCol : Z) : bool :=
  let dx := Z.sgn (toCol - fromCol) in
  let dy := Z.sgn (toRow - fromRow) in
  match isPathClear_loop 8 b (fromRow + dy) (fromCol + dx) toRow toCol dy dx with
  | Some res => res
  | None => false
  end.

(** [canAttackSquare]; the caller has checked that a piece stands on the
    origin. *)
Definition canAttackSquare (b : Board) (fromRow fromCol toRow toCol : Z) : bool :=
  match getPiece b fromRow fromCol with
  | None => false
  | Some piece =>
      let dx := toCol - fromCol in
      let dy := toRow - fromRow in
      match ptype piece with
      | Pawn =>
          let dir := match pcolor piece with White => -1 | Black => 1 end in
          (dy =? dir) && (Z.abs dx =? 1)
      | Rook =>
          ((dx =? 0) || (dy =? 0)) && isPathClear b fromRow fromCol toRow toCol
      | Bishop =>
          (Z.abs dx =? Z.abs dy) && isPathClear b fromRow fromCol toRow toCol
      | Queen =>
          ((dx =? 0) || (dy =? 0) || (Z.abs dx =? Z.abs dy))
          && isPathClear b fromRow fromCol toRow toCol
      | Knight =>
          ((Z.abs dx =? 2) && (Z.abs dy =? 1)) || ((Z.abs dx =? 1) && (Z.abs dy =? 2))
      | King =>
          (Z.abs dx <=? 1) && (Z.abs dy <=? 1) && (negb (dx =? 0) || negb (dy =? 0))
      end
  end.

(** [isSquareAttacked(row, col, defendingColor)] *)
Definition isSquareAttacked (b : Board) (row col : Z) (defendingColor : Color) : bool :=
  let attackingColor := opponent defendingColor in
  existsb (λ '(r, c),
    match getPiece b r c with
    | Some piece => color_eqb (pcolor piece) attackingColor && canAttackSquare b r c row col
    | None => false
    end) allSquares.

(** [findKing(color)]: the first king of that colour in row-major order,
    [null] when there is none. *)
Definition findKing (b : Board) (color : Color) : option Square :=
  find (λ '(r, c),
    match getPiece b r c with
    | Some piece => type_eqb (ptype piece) King && color_eqb (pcolor piece) color
    | None => false
    end) allSquares.

(** [isKingInCheck(color)]: [if (!kingPos) return false] *)
Definition isKingInCheck (b : Board) (color : Color) : bool :=
  match findKing b color with
  | None => false
  | Some (row, col) => isSquareAttacked b row col color
  end.

(** ** ChessEngineCore: game state *)

(** The [moveData] record stored in the history and in [lastMove]. *)
Record MoveData := mkMoveData {
  md_from : Square;
  md_to : Square;
  md_piece : Piece;                (* [{ ...piece }], copied before the move *)
  md_captured : option Piece;      (* copy of [board[toRow][toCol]], or [null] *)
  boardState : Board               (* deep copy of the board before the move *)
}.

(** The fields of [ChessEngineCore] that the rules read or write
    ([config.allowUndo] and [config.maxMoveHistory] included; the
    selection, clock and orientation fields belong to the user
    interface and no method below touches them). *)
Record Engine := mkEngine {
  board : Board;
  turn : Color;
  moveHistory : list MoveData;
  capturedWhite : list Piece;      (* [capturedPieces.white] *)
  capturedBlack : list Piece;      (* [capturedPieces.black] *)
  check : bool;
  gameOver : bool;
  lastMove : option MoveData;
  promotingPawn : option Square;
  moveCount : Z;
  checksGiven : Z;
  castlesPerformed : Z;
  enPassantCount : Z;
  allowUndo : bool;
  maxMoveHistory : Z
}.

Definition set_board (e : Engine) (b : Board) : Engine :=
  mkEngine b (turn e) (moveHistory e) (capturedWhite e) (capturedBlack e)
    (check e) (gameOver e) (lastMove e) (promotingPawn e) (moveCount e)
    (checksGiven e) (castlesPerformed e) (enPassantCount e) (allowUndo e)
    (maxMoveHistory e).

Definition set_turn (e : Engine) (t : Color) : Engine :=
  mkEngine (board e) t (moveHistory e) (capturedWhite e) (capturedBlack e)
    (check e) (gameOver e) (lastMove e) (promotingPawn e) (moveCount e)
    (checksGiven e) (castlesPerformed e) (enPassantCount e) (allowUndo e)
    (maxMoveHistory e).

Definition set_check (e : Engine) (c : bool) : Engine :=
  mkEngine (board e) (turn e) (moveHistory e) (capturedWhite e) (capturedBlack e)
    c (gameOver e) (lastMove e) (promotingPawn e) (moveCount e)
    (checksGiven e) (castlesPerformed e) (enPassantCount e) (allowUndo e)
    (maxMoveHistory e).

Definition set_lastMove (e : Engine) (m : option MoveData) : Engine :=
  mkEngine (board e) (turn e) (moveHistory e) (capturedWhite e) (capturedBlack e)
    (check e) (gameOver e) m (promotingPawn e) (moveCount e)
    (checksGiven e) (castlesPerformed e) (enPassantCount e) (allowUndo e)
    (maxMoveHistory e).

Lemma set_board_id e : set_board e (board e) = e.
Proof. by destruct e. Qed.

(** [setupBoard] *)
Definition backRankTypes : list PieceType :=
  [Rook; Knight; Bishop; Queen; King; Bishop; Knight; Rook].

Definition emptyRow : list (option Piece) := replicate 8 None.
Definition emptyBoard : Board := replicate 8 emptyRow.

Definition startBoard : Board :=
  [ map (λ t, Some (mkPiece t Black false)) backRankTypes;
    replicate 8 (Some (mkPiece Pawn Black false));
    emptyRow; emptyRow; emptyRow; emptyRow;
    replicate 8 (Some (mkPiece Pawn White false));
    map (λ t, Some (mkPiece t White false)) backRankTypes ].

(** [new ChessEngineCore(config)]: [setupBoard] then [resetGameState]. *)
Definition newEngine (allowUndo0 : bool) (maxMoveHistory0 : Z) : Engine :=
  mkEngine startBoard White [] [] [] false false None None 0 0 0 0
    allowUndo0 maxMoveHistory0.

(** The default configuration [{ allowUndo: true, maxMoveHistory: 100 }]. *)
Definition defaultEngine : Engine := newEngine true 100.

(** ** ChessEngineCore: move generation *)

Definition isOpponentAt (b : Board) (r c : Z) (opponentColor : Color) : bool :=
  match getPiece b r c with
  | Some p => color_eqb (pcolor p) opponentColor
  | None => false
  end.

Definition isEmptyAt (b : Board) (r c : Z) : bool :=
  match getPiece b r c with Some _ => false | None => true end.

(** [addDirectionalMoves(dr, dc)]: the [while (isInBounds(r, c))] ray. *)
Fixpoint addDirectionalMoves_loop (fuel : nat) (b : Board) (opponentColor : Color)
  (r c dr dc : Z) : list Square :=
  match fuel with
  | O => []
  | S fuel' =>
      if isInBounds r c then
        match getPiece b r c with
        | None => (r, c) :: addDirectionalMoves_loop fuel' b opponentColor (r + dr) (c + dc) dr dc
        | Some p => if color_eqb (pcolor p) opponentColor then [(r, c)] else []
        end
      else []
  end.

Definition addDirectionalMoves (b : Board) (opponentColor : Color) (row col : Z)
  (d : Z * Z) : list Square :=
  addDirectionalMoves_loop 8 b opponentColor (row + d.1) (col + d.2) d.1 d.2.

(** The en-passant test of [calculatePawnMoves] on [this.lastMove]. *)
Definition enPassantAllowed (lm : option MoveData) (opponentColor : Color)
  (row c : Z) : bool :=
  match lm with
  | None => false
  | Some m =>
      type_eqb (ptype (md_piece m)) Pawn
      && color_eqb (pcolor (md_piece m)) opponentColor
      && (Z.abs ((md_from m).1 - (md_to m).1) =? 2)
      && ((md_to m).1 =? row) && ((md_to m).2 =? c)
  end.

(** [calculatePawnMoves] *)
Definition calculatePawnMoves (b : Board) (lm : option MoveData) (row col : Z)
  (piece : Piece) (color opponentColor : Color) : list Square :=
  let dir := match color with White => -1 | Black => 1 end in
  let forward :=
    if isInBounds (row + dir) col && isEmptyAt b (row + dir) col then
      (row + dir, col) ::
      (if negb (hasMoved piece) && isInBounds (row + 2 * dir) col
          && isEmptyAt b (row + 2 * dir) col
       then [(row + 2 * dir, col)] else [])
    else [] in
  let diagonal (dc : Z) :=
    let r := row + dir in
    let c := col + dc in
    if isInBounds r c then
      (if isOpponentAt b r c opponentColor then [(r, c)] else [])
      ++ (if isEmptyAt b r c && enPassantAllowed lm opponentColor row c
          then [(r, c)] else [])
    else [] in
  forward ++ diagonal (-1) ++ diagonal 1.

Definition knightOffsets : list (Z * Z) :=
  [(-2, -1); (-2, 1); (-1, -2); (-1, 2); (1, -2); (1, 2); (2, -1); (2, 1)].

Definition kingOffsets : list (Z * Z) :=
  [(-1, -1); (-1, 0); (-1, 1); (0, -1); (0, 1); (1, -1); (1, 0); (1, 1)].

(** The shared body of the knight and king loops: an in-bounds square
    that is empty or holds an opponent. *)
Definition stepMoves (b : Board) (opponentColor : Color) (row col : Z)
  (offsets : list (Z * Z)) : list Square :=
  flat_map (λ d,
    let r := row + d.1 in
    let c := col + d.2 in
    if isInBounds r c && (isEmptyAt b r c || isOpponentAt b r c opponentColor)
    then [(r, c)] else []) offsets.

Definition calculateKnightMoves (b : Board) (row col : Z) (opponentColor : Color)
  : list Square :=
  stepMoves b opponentColor row col knightOffsets.

Definition isUnmovedRook (b : Board) (r c : Z) : bool :=
  match getPiece b r c with
  | Some p => type_eqb (ptype p) Rook && negb (hasMoved p)
  | None => false
  end.

(** [calculateCastlingMoves] *)
Definition calculateCastlingMoves (b : Board) (row col : Z) (piece : Piece)
  (color : Color) : list Square :=
  if hasMoved piece || isKingInCheck b color then []
  else
    let backRank := match color with White => 7 | Black => 0 end in
    if negb (row =? backRank) then []
    else
      (if isUnmovedRook b backRank 7
          && isEmptyAt b backRank 5 && isEmptyAt b backRank 6
          && negb (isSquareAttacked b backRank 5 color)
          && negb (isSquareAttacked b backRank 6 color)
       then [(backRank, 6)] else [])
      ++
      (if isUnmovedRook b backRank 0
          && isEmptyAt b backRank 1 && isEmptyAt b backRank 2 && isEmptyAt b backRank 3
          && negb (isSquareAttacked b backRank 2 color)
          && negb (isSquareAttacked b backRank 3 color)
       then [(backRank, 2)] else []).

(** [calculateKingMoves] *)
Definition calculateKingMoves (b : Board) (row col : Z) (piece : Piece)
  (color opponentColor : Color) : list Square :=
  stepMoves b opponentColor row col kingOffsets
  ++ calculateCastlingMoves b row col piece color.

Definition rookDirs : list (Z * Z) := [(-1, 0); (1, 0); (0, -1); (0, 1)].
Definition bishopDirs : list (Z * Z) := [(-1, -1); (-1, 1); (1, -1); (1, 1)].
Definition queenDirs : list (Z * Z) :=
  [(-1, 0); (1, 0); (0, -1); (0, 1); (-1, -1); (-1, 1); (1, -1); (1, 1)].

(** The [switch (piece.type)] of [calculatePossibleMoves]: the
    pseudo-legal destinations, in the order they are pushed. *)
Definition pseudoMoves (b : Board) (lm : option MoveData) (row col : Z)
  (piece : Piece) : list Square :=
  let color := pcolor piece in
  let opponentColor := opponent color in
  match ptype piece with
  | Pawn => calculatePawnMoves b lm row col piece color opponentColor
  | Rook => flat_map (addDirectionalMoves b opponentColor row col) rookDirs
  | Bishop => flat_map (addDirectionalMoves b opponentColor row col) bishopDirs
  | Queen => flat_map (addDirectionalMoves b opponentColor row col) queenDirs
  | Knight => calculateKnightMoves b row col opponentColor
  | King => calculateKingMoves b row col piece color opponentColor
  end.

(** [wouldBeInCheck]: the move is made on the board itself, the check
    test runs, and the two squares are written back.  The board after
    the call is returned with the answer. *)
Definition wouldBeInCheck (b : Board) (fromRow fromCol toRow toCol : Z)
  (color : Color) : bool * Board :=
  let originalPiece := getPiece b toRow toCol in
  let b1 := setPiece b toRow toCol (getPiece b fromRow fromCol) in
  let b2 := setPiece b1 fromRow fromCol None in
  let inCheck := isKingInCheck b2 color in
  let b3 := setPiece b2 fromRow fromCol (getPiece b2 toRow toCol) in
  let b4 := setPiece b3 toRow toCol originalPiece in
  (inCheck, b4).

(** [moves.filter(([r, c]) => !this.wouldBeInCheck(row, col, r, c, color))],
    with the board threaded through the calls in order. *)
Fixpoint filterLegal (b : Board) (row col : Z) (color : Color)
  (moves : list Square) : list Square * Board :=
  match moves with
  | [] => ([], b)
  | (r, c) :: rest =>
      let '(inCheck, b') := wouldBeInCheck b row col r c color in
      let '(kept, b'') := filterLegal b' row col color rest in
      (if inCheck then kept else (r, c) :: kept, b'')
  end.

(** [calculatePossibleMoves(row, col)]: the legal destinations and the
    engine after the call. *)
Definition calculatePossibleMoves (e : Engine) (row col : Z) : list Square * Engine :=
  match getPiece (board e) row col with
  | None => ([], e)
  | Some piece =>
      if negb (color_eqb (pcolor piece) (turn e)) then ([], e)
      else
        let '(moves, b') :=
          filterLegal (board e) row col (pcolor piece)
            (pseudoMoves (board e) (lastMove e) row col piece) in
        (moves, set_board e b')
  end.

(** ** ChessEngineCore: terminal status *)

(** [hasNoLegalMoves]: the scan returns [false] at the first owned piece
    with a legal move. *)
Fixpoint hasNoLegalMoves_loop (e : Engine) (squares : list Square) : bool * Engine :=
  match squares with
  | [] => (true, e)
  | (row, col) :: rest =>
      match getPiece (board e) row col with
      | Some piece =>
          if color_eqb (pcolor piece) (turn e) then
            let '(moves, e') := calculatePossibleMoves e row col in
            if (0 <? Z.of_nat (length moves)) then (false, e')
            else hasNoLegalMoves_loop e' rest
          else hasNoLegalMoves_loop e rest
      | None => hasNoLegalMoves_loop e rest
      end
  end.

Definition hasNoLegalMoves (e : Engine) : bool * Engine :=
  hasNoLegalMoves_loop e allSquares.

(** [isCheckmate]: [if (!this.check) return false; return this.hasNoLegalMoves();] *)
Definition isCheckmate (e : Engine) : bool * Engine :=
  if negb (check e) then (false, e) else hasNoLegalMoves e.

(** [isStalemate]: [if (this.check) return false; return this.hasNoLegalMoves();] *)
Definition isStalemate (e : Engine) : bool * Engine :=
  if check e then (false, e) else hasNoLegalMoves e.

(** ** ChessEngineCore: applying and undoing moves *)

Inductive MoveResult := Valid | Promotion | Castle | Invalid.

#[global] Instance MoveResult_eq_dec : EqDecision MoveResult.
Proof. solve_decision. Defined.

(** [capturedPieces[piece.color].push(piece)] *)
Definition pushCaptured (e : Engine) (p : Piece) : Engine :=
  match pcolor p with
  | White =>
      mkEngine (board e) (turn e) (moveHistory e) (capturedWhite e ++ [p]) (capturedBlack e)
        (check e) (gameOver e) (lastMove e) (promotingPawn e) (moveCount e)
        (checksGiven e) (castlesPerformed e) (enPassantCount e) (allowUndo e)
        (maxMoveHistory e)
  | Black =>
      mkEngine (board e) (turn e) (moveHistory e) (capturedWhite e) (capturedBlack e ++ [p])
        (check e) (gameOver e) (lastMove e) (promotingPawn e) (moveCount e)
        (checksGiven e) (castlesPerformed e) (enPassantCount e) (allowUndo e)
        (maxMoveHistory e)
  end.

(** [executeCastling] *)
Definition executeCastling (e : Engine) (fromRow fromCol toRow toCol : Z) : Engine :=
  let isKingside := toCol >? fromCol in
  let rookFromCol := if isKingside then 7 else 0 in
  let rookToCol := if isKingside then 5 else 3 in
  let b := board e in
  let b1 := setPiece b toRow toCol (getPiece b fromRow fromCol) in
  let b2 := setPiece b1 fromRow fromCol None in
  let b3 := setPiece b2 toRow rookToCol (getPiece b2 fromRow rookFromCol) in
  let b4 := setPiece b3 fromRow rookFromCol None in
  mkEngine b4 (turn e) (moveHistory e) (capturedWhite e) (capturedBlack e)
    (check e) (gameOver e) (lastMove e) (promotingPawn e) (moveCount e)
    (checksGiven e) (castlesPerformed e + 1) (enPassantCount e) (allowUndo e)
    (maxMoveHistory e).

(** [executeEnPassant]; [capturedPawn.color] raises when the square
    beside the pawn is empty. *)
Definition executeEnPassant (e : Engine) (fromRow fromCol toRow toCol : Z)
  : Outcome Engine :=
  let b := board e in
  let b1 := setPiece b toRow toCol (getPiece b fromRow fromCol) in
  let b2 := setPiece b1 fromRow fromCol None in
  match getPiece b2 fromRow toCol with
  | None => Threw
  | Some capturedPawn =>
      let e1 := pushCaptured (set_board e b2) capturedPawn in
      let b3 := setPiece b2 fromRow toCol None in
      Returned
        (mkEngine b3 (turn e1) (moveHistory e1) (capturedWhite e1) (capturedBlack e1)
           (check e1) (gameOver e1) (lastMove e1) (promotingPawn e1) (moveCount e1)
           (checksGiven e1) (castlesPerformed e1) (enPassantCount e1 + 1) (allowUndo e1)
           (maxMoveHistory e1))
  end.

(** The regular branch of [movePiece]. *)
Definition executeRegular (e : Engine) (piece : Piece) (fromRow fromCol toRow toCol : Z)
  : Engine :=
  let e1 := match getPiece (board e) toRow toCol with
            | Some target => pushCaptured e target
            | None => e
            end in
  let b1 := setPiece (board e1) toRow toCol (Some piece) in
  set_board e1 (setPiece b1 fromRow fromCol None).

(** [this.board[toRow][toCol].hasMoved = true] *)
Definition markMoved (b : Board) (toRow toCol : Z) : Outcome Board :=
  match getPiece b toRow toCol with
  | None => Threw
  | Some p => Returned (setPiece b toRow toCol (Some (mkPiece (ptype p) (pcolor p) true)))
  end.

(** [moveHistory.push(moveData)] followed by the eviction
    [if (maxMoveHistory && length > maxMoveHistory) moveHistory.shift()]. *)
Definition pushHistory (h : list MoveData) (maxHistory : Z) (m : MoveData)
  : list MoveData :=
  let h' := h ++ [m] in
  if negb (maxHistory =? 0) && (Z.of_nat (length h') >? maxHistory) then tail h' else h'.

(** The part of [movePiece] after the special-move dispatch: mark the
    piece as moved, note a promotion, record the move, switch turns and
    recompute check and game-over. *)
Definition finishMove (e : Engine) (piece : Piece) (moveData : MoveData)
  (result : MoveResult) (toRow toCol : Z) : Outcome (MoveResult * Engine) :=
  match markMoved (board e) toRow toCol with
  | Threw => Threw
  | Returned b1 =>
      let promotes := type_eqb (ptype piece) Pawn && ((toRow =? 0) || (toRow =? 7)) in
      let promoting := if promotes then Some (toRow, toCol) else promotingPawn e in
      let result' := if promotes then Promotion else result in
      let history := pushHistory (moveHistory e) (maxMoveHistory e) moveData in
      let turn' := opponent (turn e) in
      let check' := isKingInCheck b1 turn' in
      let checks' := if check' then checksGiven e + 1 else checksGiven e in
      let e2 :=
        mkEngine b1 turn' history (capturedWhite e) (capturedBlack e)
          check' (gameOver e) (Some moveData) promoting (moveCount e + 1)
          checks' (castlesPerformed e) (enPassantCount e) (allowUndo e)
          (maxMoveHistory e) in
      let '(mate, e3) := isCheckmate e2 in
      let '(over, e4) := if mate then (true, e3) else isStalemate e3 in
      Returned
        (result',
         mkEngine (board e4) (turn e4) (moveHistory e4) (capturedWhite e4) (capturedBlack e4)
           (check e4) over (lastMove e4) (promotingPawn e4) (moveCount e4)
           (checksGiven e4) (castlesPerformed e4) (enPassantCount e4) (allowUndo e4)
           (maxMoveHistory e4))
  end.

(** [movePiece(fromRow, fromCol, toRow, toCol)] *)
Definition movePiece (e : Engine) (fromRow fromCol toRow toCol : Z)
  : Outcome (MoveResult * Engine) :=
  match readCell (board e) fromRow fromCol with
  | Threw => Threw
  | Returned None => Returned (Invalid, e)
  | Returned (Some piece) =>
      if negb (color_eqb (pcolor piece) (turn e)) then Returned (Invalid, e)
      else
        let '(possibleMoves, e1) := calculatePossibleMoves e fromRow fromCol in
        match find (λ '(r, c), (r =? toRow) && (c =? toCol)) possibleMoves with
        | None => Returned (Invalid, e1)
        | Some _ =>
            let moveData :=
              mkMoveData (fromRow, fromCol) (toRow, toCol) piece
                (getPiece (board e1) toRow toCol) (board e1) in
            if type_eqb (ptype piece) King && (Z.abs (toCol - fromCol) =? 2) then
              finishMove (executeCastling e1 fromRow fromCol toRow toCol)
                piece moveData Castle toRow toCol
            else if type_eqb (ptype piece) Pawn && isEmptyAt (board e1) toRow toCol
                    && negb (fromCol =? toCol) then
              match executeEnPassant e1 fromRow fromCol toRow toCol with
              | Threw => Threw
              | Returned e2 => finishMove e2 piece moveData Valid toRow toCol
              end
            else
              finishMove (executeRegular e1 piece fromRow fromCol toRow toCol)
                piece moveData Valid toRow toCol
        end
  end.

(** [capturedArray.findIndex(...)] and [splice(index, 1)]: drop the first
    entry with the type and colour of the captured piece. *)
Fixpoint removeFirstMatch (captured : Piece) (l : list Piece) : list Piece :=
  match l with
  | [] => []
  | p :: rest =>
      if type_eqb (ptype p) (ptype captured) && color_eqb (pcolor p) (pcolor captured)
      then rest else p :: removeFirstMatch captured rest
  end.

(** [undoMove()] *)
Definition undoMove (e : Engine) : bool * Engine :=
  if negb (allowUndo e) || (Z.of_nat (length (moveHistory e)) =? 0) then (false, e)
  else
    match last (moveHistory e) with
    | None => (false, e)
    | Some lastMove0 =>
        let history := removelast (moveHistory e) in
        let capW := match md_captured lastMove0 with
                    | Some cp => match pcolor cp with
                                 | White => removeFirstMatch cp (capturedWhite e)
                                 | Black => capturedWhite e
                                 end
                    | None => capturedWhite e
                    end in
        let capB := match md_captured lastMove0 with
                    | Some cp => match pcolor cp with
                                 | Black => removeFirstMatch cp (capturedBlack e)
                                 | White => capturedBlack e
                                 end
                    | None => capturedBlack e
                    end in
        let turn' := opponent (turn e) in
        (true,
         mkEngine (boardState lastMove0) turn' history capW capB
           (isKingInCheck (boardState lastMove0) turn') false (last history)
           (promotingPawn e) (moveCount e - 1)
           (checksGiven e) (castlesPerformed e) (enPassantCount e) (allowUndo e)
           (maxMoveHistory e))
    end.

(** [completePromotion(pieceType)]: [if (!this.promotingPawn) return;] and
    then the pawn's square is overwritten; reading [.color] of an empty
    square raises. *)
Definition completePromotion (e : Engine) (pieceType : PieceType) : Outcome Engine :=
  match promotingPawn e with
  | None => Returned e
  | Some (row, col) =>
      match readCell (board e) row col with
      | Threw => Threw
      | Returned None => Threw
      | Returned (Some p) =>
          Returned
            (mkEngine (setPiece (board e) row col (Some (mkPiece pieceType (pcolor p) true)))
               (turn e) (moveHistory e) (capturedWhite e) (capturedBlack e)
               (check e) (gameOver e) (lastMove e) None (moveCount e)
               (checksGiven e) (castlesPerformed e) (enPassantCount e) (allowUndo e)
               (maxMoveHistory e))
      end
  end.

(** ** Scores *)

(** JavaScript numbers as used by the searches: integers (centipawns)
    with the two infinities that seed the bounds. *)
Inductive Score := NegInf | Fin (z : Z) | PosInf.

#[global] Instance Score_eq_dec : EqDecision Score.
Proof. solve_decision. Defined.

(** [a < b] *)
Definition score_ltb (a b : Score) : bool :=
  match a, b with
  | NegInf, NegInf => false
  | NegInf, _ => true
  | Fin _, NegInf => false
  | Fin x, Fin y => x <? y
  | Fin _, PosInf => true
  | PosInf, _ => false
  end.

(** [a <= b] *)
Definition score_leb (a b : Score) : bool := negb (score_ltb b a).

(** [Math.max(a, b)] and [Math.min(a, b)] *)
Definition score_max (a b : Score) : Score := if score_ltb a b then b else a.
Definition score_min (a b : Score) : Score := if score_ltb b a then b else a.

(** Unary minus. *)
Definition score_neg (a : Score) : Score :=
  match a with NegInf => PosInf | Fin z => Fin (- z) | PosInf => NegInf end.

(** ** ChessEngineSystem: the search layer over a core engine *)

Module System.

(** [{ from: { r, c }, to: { r, c } }] *)
Record Move := mkMove { from : Square; to : Square }.

(** [originalState] of a [moveResult]. *)
Record OriginalState := mkOriginalState {
  os_piece : Piece;
  os_captured : option Piece;
  os_turn : Color;
  os_lastMove : option MoveData;
  os_check : bool
}.

(** A successful [moveResult]: [{ success: true, originalState, move }]. *)
Record MoveResult := mkMoveResult { originalState : OriginalState; move : Move }.

(** [getAllPossibleMoves(engine, color)] *)
Fixpoint getAllPossibleMoves_loop (e : Engine) (color : Color) (squares : list Square)
  : list Move * Engine :=
  match squares with
  | [] => ([], e)
  | (row, col) :: rest =>
      match getPiece (board e) row col with
      | Some piece =>
          if color_eqb (pcolor piece) color then
            let '(possibleMoves, e') := calculatePossibleMoves e row col in
            let '(moves, e'') := getAllPossibleMoves_loop e' color rest in
            (map (λ t, mkMove (row, col) t) possibleMoves ++ moves, e'')
          else getAllPossibleMoves_loop e color rest
      | None => getAllPossibleMoves_loop e color rest
      end
  end.

Definition getAllPossibleMoves (e : Engine) (color : Color) : list Move * Engine :=
  getAllPossibleMoves_loop e color allSquares.

(** [makeMove(engine, move)]; [None] is [{ success: false }].  The piece
    object is written to the destination, the origin is cleared, and
    [piece.hasMoved = true] changes the object where the board still
    refers to it. *)
Definition makeMove (e : Engine) (m : Move) : option MoveResult * Engine :=
  let '(fr, fc) := from m in
  let '(tr, tc) := to m in
  match getPiece (board e) fr fc with
  | None => (None, e)
  | Some piece =>
      let captured := getPiece (board e) tr tc in
      let os := mkOriginalState piece captured (turn e) (lastMove e) (check e) in
      let b1 := setPiece (board e) tr tc (Some piece) in
      let b2 := setPiece b1 fr fc None in
      let b3 := match getPiece b2 tr tc with
                | Some _ => setPiece b2 tr tc (Some (mkPiece (ptype piece) (pcolor piece) true))
                | None => b2
                end in
      let turn' := opponent (turn e) in
      let e' := set_check (set_turn (set_board e b3) turn') (isKingInCheck b3 turn') in
      (Some (mkMoveResult os m), e')
  end.

(** [undoMove(engine, moveResult)]; the guarded assignment
    [board[from.r][from.c].hasMoved = originalState.piece.hasMoved]
    rewrites the flag of the object standing on the origin. *)
Definition undoMove (e : Engine) (r : MoveResult) : Engine :=
  let os := originalState r in
  let '(fr, fc) := from (move r) in
  let '(tr, tc) := to (move r) in
  let b1 := setPiece (board e) fr fc (Some (os_piece os)) in
  let b2 := setPiece b1 tr tc (os_captured os) in
  let b3 := match getPiece b2 fr fc with
            | Some p => setPiece b2 fr fc (Some (mkPiece (ptype p) (pcolor p) (hasMoved (os_piece os))))
            | None => b2
            end in
  set_check (set_lastMove (set_turn (set_board e b3) (os_turn os)) (os_lastMove os)) (os_check os).

Section Search.

(** The static evaluator [evaluatePosition(engine, forColor)].  Its
    terms read the engine and leave it as they found it
    ([evaluateMobility] sets [engine.turn] and puts it back); the search
    only compares its values. *)
Variable evaluatePosition : Engine → Color → Score.

(** The [for (const move of allMoves)] loop of [minimax], for the
    maximizing and for the minimizing side; [rec] is the recursive call
    at [depth - 1]. *)
Fixpoint minimax_loop (rec : Engine → Score → Score → option (Score * Engine))
  (isMaximizing : bool) (moves : list Move) (e : Engine) (best alpha beta : Score)
  : option (Score * Engine) :=
  match moves with
  | [] => Some (best, e)
  | m :: rest =>
      match makeMove e m with
      | (None, e1) => minimax_loop rec isMaximizing rest e1 best alpha beta
      | (Some moveResult, e1) =>
          match rec e1 alpha beta with
          | None => None
          | Some (evaluation, e2) =>
              let e3 := undoMove e2 moveResult in
              if isMaximizing then
                let maxEval := score_max best evaluation in
                let alpha' := score_max alpha evaluation in
                if score_leb beta alpha' then Some (maxEval, e3)
                else minimax_loop rec isMaximizing rest e3 maxEval alpha' beta
              else
                let minEval := score_min best evaluation in
                let beta' := score_min beta evaluation in
                if score_leb beta' alpha then Some (minEval, e3)
                else minimax_loop rec isMaximizing rest e3 minEval alpha beta'
          end
      end
  end.

(** [minimax(engine, depth, isMaximizing, alpha, beta)]; [None] is a
    run that needs more than [fuel] nested calls. *)
Fixpoint minimax (fuel : nat) (e : Engine) (depth : Z) (isMaximizing : bool)
  (alpha beta : Score) : option (Score * Engine) :=
  match fuel with
  | O => None
  | S fuel' =>
      if (depth =? 0) || gameOver e then
        Some (evaluatePosition e (if isMaximizing then White else Black), e)
      else
        let color := if isMaximizing then White else Black in
        let '(allMoves, e0) := getAllPossibleMoves e color in
        minimax_loop
          (λ e1 a b, minimax fuel' e1 (depth - 1) (negb isMaximizing) a b)
          isMaximizing allMoves e0
          (if isMaximizing then NegInf else PosInf) alpha beta
  end.

(** The root loop of [getBestMoveMinMax]: the best move and score so
    far, updated on a strict improvement. *)
Fixpoint bestMove_loop (fuel : nat) (depth : Z) (isMaximizing : bool)
  (moves : list Move) (e : Engine) (bestMove : option Move) (bestScore : Score)
  : option (option Move * Score * Engine) :=
  match moves with
  | [] => Some (bestMove, bestScore, e)
  | m :: rest =>
      match makeMove e m with
      | (None, e1) => bestMove_loop fuel depth isMaximizing rest e1 bestMove bestScore
      | (Some moveResult, e1) =>
          match minimax fuel e1 (depth - 1) (negb isMaximizing) NegInf PosInf with
          | None => None
          | Some (score, e2) =>
              let e3 := undoMove e2 moveResult in
              if (if isMaximizing then score_ltb bestScore score else score_ltb score bestScore)
              then bestMove_loop fuel depth isMaximizing rest e3 (Some m) score
              else bestMove_loop fuel depth isMaximizing rest e3 bestMove bestScore
          end
      end
  end.

(** [getBestMoveMinMax(engine, color, depth)].  [shuffleArray] is the
    in-place shuffle applied to the move list, the only use of
    [Math.random] in this method.  The result is
    [bestMove || allMoves[0]], with the final [bestScore] and the engine
    after the call. *)
Definition getBestMoveMinMax (shuffleArray : list Move → list Move) (fuel : nat)
  (e : Engine) (color : Color) (depth : Z) : option (option Move * Score * Engine) :=
  let isMaximizing := color_eqb color White in
  let '(allMoves0, e0) := getAllPossibleMoves e color in
  let allMoves := shuffleArray allMoves0 in
  match bestMove_loop fuel depth isMaximizing allMoves e0 None
          (if isMaximizing then NegInf else PosInf) with
  | None => None
  | Some (bestMove, bestScore, e1) =>
      Some (match bestMove with Some m => Some m | None => head allMoves end,
            bestScore, e1)
  end.

(** The score the root loop computes for one move. *)
Definition rootScore (fuel : nat) (e : Engine) (isMaximizing : bool) (depth : Z)
  (m : Move) : option Score :=
  match makeMove e m with
  | (None, _) => None
  | (Some _, e1) =>
      match minimax fuel e1 (depth - 1) (negb isMaximizing) NegInf PosInf with
      | None => None
      | Some (score, _) => Some score
      end
  end.

End Search.

(** [evaluateMaterial(engine, forColor)], one term of the evaluator. *)
Definition pieceValue (t : PieceType) : Z :=
  match t with
  | Pawn => 100 | Knight => 320 | Bishop => 330 | Rook => 500 | Queen => 900
  | King => 20000
  end.

Definition evaluateMaterial (e : Engine) (forColor : Color) : Score :=
  Fin (fold_left (λ score '(row, col),
    match getPiece (board e) row col with
    | Some piece =>
        if color_eqb (pcolor piece) forColor
        then score + pieceValue (ptype piece) else score - pieceValue (ptype piece)
    | None => score
    end) allSquares 0).

(** [shuffleArray(array)]: the Fisher–Yates loop
    [for (i = length - 1; i > 0; i--)], with [js] the successive values
    of [Math.floor(Math.random() * (i + 1))]. *)
Definition swap {A} (l : list A) (i j : nat) : list A :=
  match l !! i, l !! j with
  | Some x, Some y => <[j := x]> (<[i := y]> l)
  | _, _ => l
  end.

Fixpoint shuffle_loop {A} (i : nat) (js : list nat) (l : list A) : list A :=
  match i with
  | O => l
  | S i' =>
      match js with
      | [] => l
      | j :: js' => shuffle_loop i' js' (swap l i j)
      end
  end.

Definition shuffleArray {A} (js : list nat) (l : list A) : list A :=
  shuffle_loop (length l - 1) js l.

End System.

(** ** StockfishLikeEngine: the hint worker *)

Module Stockfish.

(** [{ from: { r, c }, to: { r, c }, piece: { ...piece } }] *)
Record Move := mkMove { from : Square; to : Square; piece : Piece }.

(** [this.pieceValues] *)
Definition pieceValues (t : PieceType) : Z :=
  match t with
  | Pawn => 100 | Knight => 320 | Bishop => 330 | Rook => 500 | Queen => 900
  | King => 20000
  end.

(** [isValidSquare], [isSquareEmpty], [isOpponentPiece] *)
Definition isValidSquare (row col : Z) : bool :=
  (0 <=? row) && (row <? 8) && (0 <=? col) && (col <? 8).

Definition isSquareEmpty (b : Board) (row col : Z) : bool :=
  isValidSquare row col && match getPiece b row col with Some _ => false | None => true end.

Definition isOpponentPiece (b : Board) (row col : Z) (opponentColor : Color) : bool :=
  isValidSquare row col &&
  match getPiece b row col with
  | Some p => color_eqb (pcolor p) opponentColor
  | None => false
  end.

(** [addSlidingMoves], one direction. *)
Fixpoint addSlidingMoves_loop (fuel : nat) (b : Board) (opponentColor : Color)
  (newRow newCol dr dc : Z) : list Square :=
  match fuel with
  | O => []
  | S fuel' =>
      if isValidSquare newRow newCol then
        if isSquareEmpty b newRow newCol then
          (newRow, newCol)
          :: addSlidingMoves_loop fuel' b opponentColor (newRow + dr) (newCol + dc) dr dc
        else if isOpponentPiece b newRow newCol opponentColor then [(newRow, newCol)]
        else []
      else []
  end.

Definition addSlidingMoves (b : Board) (row col : Z) (directions : list (Z * Z))
  (opponentColor : Color) : list Square :=
  flat_map (λ d, addSlidingMoves_loop 8 b opponentColor (row + d.1) (col + d.2) d.1 d.2)
    directions.

Definition stepTargets (b : Board) (row col : Z) (offsets : list (Z * Z))
  (opponentColor : Color) : list Square :=
  flat_map (λ d,
    let newRow := row + d.1 in
    let newCol := col + d.2 in
    if isValidSquare newRow newCol
       && (isSquareEmpty b newRow newCol || isOpponentPiece b newRow newCol opponentColor)
    then [(newRow, newCol)] else []) offsets.

Definition ringOffsets : list (Z * Z) :=
  [(-1, -1); (-1, 0); (-1, 1); (0, -1); (0, 1); (1, -1); (1, 0); (1, 1)].

(** [calculatePossibleMoves(board, row, col)]: pseudo-legal moves. *)
Definition calculatePossibleMoves (b : Board) (row col : Z) : list Square :=
  match getPiece b row col with
  | None => []
  | Some p =>
      let color := pcolor p in
      let opponentColor := opponent color in
      match ptype p with
      | Pawn =>
          let direction := match color with White => -1 | Black => 1 end in
          let startRow := match color with White => 6 | Black => 1 end in
          (if isSquareEmpty b (row + direction) col then
             (row + direction, col)
             :: (if (row =? startRow) && isSquareEmpty b (row + 2 * direction) col
                 then [(row + 2 * direction, col)] else [])
           else [])
          ++ (if isOpponentPiece b (row + direction) (col - 1) opponentColor
              then [(row + direction, col - 1)] else [])
          ++ (if isOpponentPiece b (row + direction) (col + 1) opponentColor
              then [(row + direction, col + 1)] else [])
      | Rook => addSlidingMoves b row col [(-1, 0); (1, 0); (0, -1); (0, 1)] opponentColor
      | Knight => stepTargets b row col knightOffsets opponentColor
      | Bishop => addSlidingMoves b row col [(-1, -1); (-1, 1); (1, -1); (1, 1)] opponentColor
      | Queen => addSlidingMoves b row col ringOffsets opponentColor
      | King => stepTargets b row col ringOffsets opponentColor
      end
  end.

(** [addSlidingAttacks], one direction: every square up to and including
    the first occupied one. *)
Fixpoint addSlidingAttacks_loop (fuel : nat) (b : Board) (newRow newCol dr dc : Z)
  : list Square :=
  match fuel with
  | O => []
  | S fuel' =>
      if isValidSquare newRow newCol then
        (newRow, newCol) ::
        match getPiece b newRow newCol with
        | Some _ => []
        | None => addSlidingAttacks_loop fuel' b (newRow + dr) (newCol + dc) dr dc
        end
      else []
  end.

Definition addSlidingAttacks (b : Board) (row col : Z) (directions : list (Z * Z))
  : list Square :=
  flat_map (λ d, addSlidingAttacks_loop 8 b (row + d.1) (col + d.2) d.1 d.2) directions.

Definition validOffsets (row col : Z) (offsets : list (Z * Z)) : list Square :=
  flat_map (λ d, if isValidSquare (row + d.1) (col + d.2)
                 then [(row + d.1, col + d.2)] else []) offsets.

(** [getAttackSquares(board, row, col)] *)
Definition getAttackSquares (b : Board) (row col : Z) : list Square :=
  match getPiece b row col with
  | None => []
  | Some p =>
      match ptype p with
      | Pawn =>
          let direction := match pcolor p with White => -1 | Black => 1 end in
          (if isValidSquare (row + direction) (col - 1)
           then [(row + direction, col - 1)] else [])
          ++ (if isValidSquare (row + direction) (col + 1)
              then [(row + direction, col + 1)] else [])
      | Rook => addSlidingAttacks b row col [(-1, 0); (1, 0); (0, -1); (0, 1)]
      | Knight => validOffsets row col knightOffsets
      | Bishop => addSlidingAttacks b row col [(-1, -1); (-1, 1); (1, -1); (1, 1)]
      | Queen => addSlidingAttacks b row col ringOffsets
      | King => validOffsets row col ringOffsets
      end
  end.

(** [squareAttackedBy(board, row, col, attackerColor)] *)
Definition squareAttackedBy (b : Board) (row col : Z) (attackerColor : Color) : bool :=
  existsb (λ '(r, c),
    match getPiece b r c with
    | Some p =>
        color_eqb (pcolor p) attackerColor
        && existsb (λ '(ar, ac), (ar =? row) && (ac =? col)) (getAttackSquares b r c)
    | None => false
    end) allSquares.

(** The king search at the head of [isKingInCheck]. *)
Definition findKingPos (b : Board) (color : Color) : option Square :=
  find (λ '(r, c),
    match getPiece b r c with
    | Some p => type_eqb (ptype p) King && color_eqb (pcolor p) color
    | None => false
    end) allSquares.

(** [isKingInCheck(board, color)]:
    [if (!kingPos) return false; // No king found] *)
Definition isKingInCheck (b : Board) (color : Color) : bool :=
  match findKingPos b color with
  | None => false
  | Some (r, c) => squareAttackedBy b r c (opponent color)
  end.

(** [isMoveLegal(board, move, color)]: make the move on the board, test,
    undo; the board after the call is returned with the answer. *)
Definition isMoveLegal (b : Board) (m : Move) (color : Color) : bool * Board :=
  let '(fr, fc) := from m in
  let '(tr, tc) := to m in
  let captured := getPiece b tr tc in
  let b1 := setPiece b tr tc (getPiece b fr fc) in
  let b2 := setPiece b1 fr fc None in
  let isLegal := negb (isKingInCheck b2 color) in
  let b3 := setPiece b2 fr fc (getPiece b2 tr tc) in
  let b4 := setPiece b3 tr tc captured in
  (isLegal, b4).

(** The [pieceMoves.forEach] of [generateAllLegalMoves] for one piece. *)
Fixpoint legalOf (b : Board) (color : Color) (r c : Z) (p : Piece)
  (targets : list Square) : list Move * Board :=
  match targets with
  | [] => ([], b)
  | t :: rest =>
      let m := mkMove (r, c) t p in
      let '(isLegal, b') := isMoveLegal b m color in
      let '(moves, b'') := legalOf b' color r c p rest in
      (if isLegal then m :: moves else moves, b'')
  end.

(** [generateAllLegalMoves(board, color)] *)
Fixpoint generateAllLegalMoves_loop (b : Board) (color : Color) (squares : list Square)
  : list Move * Board :=
  match squares with
  | [] => ([], b)
  | (r, c) :: rest =>
      match getPiece b r c with
      | Some p =>
          if color_eqb (pcolor p) color then
            let '(mine, b') := legalOf b color r c p (calculatePossibleMoves b r c) in
            let '(moves, b'') := generateAllLegalMoves_loop b' color rest in
            (mine ++ moves, b'')
          else generateAllLegalMoves_loop b color rest
      | None => generateAllLegalMoves_loop b color rest
      end
  end.

Definition generateAllLegalMoves (b : Board) (color : Color) : list Move * Board :=
  generateAllLegalMoves_loop b color allSquares.

(** The score [orderMoves] gives a move: victim value minus attacker
    value for a capture, [0] otherwise. *)
Definition orderScore (b : Board) (m : Move) : Z :=
  match getPiece b (to m).1 (to m).2 with
  | Some captured => 0 + (pieceValues (ptype captured) - pieceValues (ptype (piece m)))
  | None => 0
  end.

(** The comparator passed to [sort]: [scoreB - scoreA]. *)
Definition orderCompare (b : Board) (x y : Move) : Z := orderScore b y - orderScore b x.

(** [moves.sort(compare)].  [Array.prototype.sort] is stable; the
    comparator orders moves by one number each, so every stable sort
    returns the same array, here built by insertion: an element goes
    before the first later element it does not compare greater than. *)
Fixpoint sortInsert (cmp : Move → Move → Z) (x : Move) (l : list Move) : list Move :=
  match l with
  | [] => [x]
  | y :: rest => if cmp x y <=? 0 then x :: y :: rest else y :: sortInsert cmp x rest
  end.

Definition sortBy (cmp : Move → Move → Z) (l : list Move) : list Move :=
  foldr (sortInsert cmp) [] l.

(** [orderMoves(board, moves)] *)
Definition orderMoves (b : Board) (moves : list Move) : list Move :=
  sortBy (orderCompare b) moves.

(** [makeMove(board, move)] returns [{ captured }]; [unmakeMove] *)
Definition makeMove (b : Board) (m : Move) : option Piece * Board :=
  let captured := getPiece b (to m).1 (to m).2 in
  let b1 := setPiece b (to m).1 (to m).2 (getPiece b (from m).1 (from m).2) in
  (captured, setPiece b1 (from m).1 (from m).2 None).

Definition unmakeMove (b : Board) (m : Move) (captured : option Piece) : Board :=
  let b1 := setPiece b (from m).1 (from m).2 (getPiece b (to m).1 (to m).2) in
  setPiece b1 (to m).1 (to m).2 captured.

(** A capture, as [generateCaptures] and [orderMoves] test it: the
    destination square is occupied, [board[move.to.r][move.to.c]]. *)
Definition isCapture (b : Board) (m : Move) : bool :=
  match getPiece b (to m).1 (to m).2 with Some _ => true | None => false end.

(** [generateCaptures(board, color)] *)
Definition generateCaptures (b : Board) (color : Color) : list Move * Board :=
  let '(moves, b') := generateAllLegalMoves b color in
  (List.filter (isCapture b') moves, b').

(** The mate score of [search]: [-9999 + (4 - depth)]. *)
Definition mateScore (depth : Z) : Z := -9999 + (4 - depth).

Section Search.

(** The static evaluator [evaluate(board, color)]; it reads the board
    and leaves it as it was. *)
Variable evaluate : Board → Color → Score.

(** The capture loop of [quiescenceSearch]. *)
Fixpoint quiescence_loop (rec : Board → Score → Score → option (Score * Board))
  (standPat : Score) (moves : list Move) (b : Board) (alpha beta : Score)
  : option (Score * Board) :=
  match moves with
  | [] => Some (alpha, b)
  | m :: rest =>
      let captureValue :=
        match getPiece b (to m).1 (to m).2 with
        | Some p => pieceValues (ptype p)
        | None => 0
        end in
      let skip :=
        match standPat with
        | Fin s => score_ltb (Fin (s + captureValue + 200)) alpha
        | NegInf => score_ltb NegInf alpha
        | PosInf => false
        end in
      if skip then quiescence_loop rec standPat rest b alpha beta
      else
        let '(captured, b1) := makeMove b m in
        match rec b1 (score_neg beta) (score_neg alpha) with
        | None => None
        | Some (s, b2) =>
            let score := score_neg s in
            let b3 := unmakeMove b2 m captured in
            if score_leb beta score then Some (beta, b3)
            else quiescence_loop rec standPat rest b3 (score_max alpha score) beta
        end
  end.

(** [quiescenceSearch(board, color, depth, alpha, beta)] *)
Fixpoint quiescenceSearch (fuel : nat) (b : Board) (color : Color) (depth : Z)
  (alpha beta : Score) : option (Score * Board) :=
  match fuel with
  | O => None
  | S fuel' =>
      if depth >? 6 then Some (evaluate b color, b)
      else
        let standPat := evaluate b color in
        if score_leb beta standPat then Some (beta, b)
        else
          let alpha1 := score_max alpha standPat in
          let '(captures, b1) := generateCaptures b color in
          quiescence_loop
            (λ b' a' b'', quiescenceSearch fuel' b' (opponent color) (depth + 1) a' b'')
            standPat (orderMoves b1 captures) b1 alpha1 beta
  end.

(** The move loop of [search]. *)
Fixpoint search_loop (rec : Board → Score → Score → option (Score * Board))
  (moves : list Move) (b : Board) (alpha beta : Score) : option (Score * Board) :=
  match moves with
  | [] => Some (alpha, b)
  | m :: rest =>
      let '(captured, b1) := makeMove b m in
      match rec b1 (score_neg beta) (score_neg alpha) with
      | None => None
      | Some (s, b2) =>
          let score := score_neg s in
          let b3 := unmakeMove b2 m captured in
          if score_leb beta score then Some (beta, b3)
          else search_loop rec rest b3 (score_max alpha score) beta
      end
  end.

(** [search(board, color, depth, alpha, beta)]; [None] is a run that
    needs more than [fuel] nested calls. *)
Fixpoint search (fuel : nat) (b : Board) (color : Color) (depth : Z)
  (alpha beta : Score) : option (Score * Board) :=
  match fuel with
  | O => None
  | S fuel' =>
      if depth =? 0 then quiescenceSearch 8 b color 0 alpha beta
      else
        let '(moves, b1) := generateAllLegalMoves b color in
        if Z.of_nat (length moves) =? 0 then
          if isKingInCheck b1 color then Some (Fin (mateScore depth), b1)
          else Some (Fin 0, b1)
        else
          search_loop (λ b' a' b'', search fuel' b' (opponent color) (depth - 1) a' b'')
            (orderMoves b1 moves) b1 alpha beta
  end.

End Search.

End Stockfish.

(** ** ChessEngine: the stand-alone engine with deferred promotion *)

Module ChessEngine.

(** The [move] record of [movePiece], with the fields that the methods
    below read or set ([captured] is read by this class's [undoMove]
    only). *)
Record Move := mkMove {
  mv_from : Square;
  mv_to : Square;
  mv_piece : Piece;
  mv_promotion : bool;
  mv_castling : option (bool * Z * Z);   (* [{ isKingside, rookFrom, rookTo }] *)
  mv_enPassant : bool
}.

Record State := mkState {
  board : Board;
  turn : Color;
  moveHistory : list Move;
  capturedWhite : list (option Piece);    (* [capturedPieces.white] *)
  capturedBlack : list (option Piece);    (* [capturedPieces.black] *)
  check : bool;
  gameOver : bool;
  lastMove : option Move;
  promotingPawn : option Square;
  moveCount : Z;
  checksGiven : Z;
  castlesPerformed : Z;
  enPassantCount : Z
}.

Definition set_board (s : State) (b : Board) : State :=
  mkState b (turn s) (moveHistory s) (capturedWhite s) (capturedBlack s) (check s)
    (gameOver s) (lastMove s) (promotingPawn s) (moveCount s) (checksGiven s)
    (castlesPerformed s) (enPassantCount s).

(** [addDirectionalMoves] of [calculateRawMoves] and of
    [calculatePossibleMoves]. *)
Fixpoint ray (fuel : nat) (b : Board) (opponentColor : Color) (r c dr dc : Z)
  : list Square :=
  match fuel with
  | O => []
  | S fuel' =>
      if isInBounds r c then
        match getPiece b r c with
        | None => (r, c) :: ray fuel' b opponentColor (r + dr) (c + dc) dr dc
        | Some p => if color_eqb (pcolor p) opponentColor then [(r, c)] else []
        end
      else []
  end.

Definition rays (b : Board) (opponentColor : Color) (row col : Z)
  (dirs : list (Z * Z)) : list Square :=
  flat_map (λ d, ray 8 b opponentColor (row + d.1) (col + d.2) d.1 d.2) dirs.

Definition rookDirs : list (Z * Z) := [(1, 0); (-1, 0); (0, 1); (0, -1)].
Definition bishopDirs : list (Z * Z) := [(1, 1); (1, -1); (-1, 1); (-1, -1)].
Definition knightJumps : list (Z * Z) :=
  [(2, 1); (2, -1); (-2, 1); (-2, -1); (1, 2); (1, -2); (-1, 2); (-1, -2)].

(** The [for (r = row - 1 ..) for (c = col - 1 ..)] ring around a king. *)
Definition ring (row col : Z) : list Square :=
  flat_map (λ r, flat_map (λ c,
    if (negb (r =? row) || negb (c =? col)) && isInBounds r c then [(r, c)] else [])
    [col - 1; col; col + 1]) [row - 1; row; row + 1].

(** [calculateRawMoves(row, col)]: the squares a piece attacks. *)
Definition calculateRawMoves (b : Board) (row col : Z) : list Square :=
  match getPiece b row col with
  | None => []
  | Some p =>
      let color := pcolor p in
      let opponentColor := opponent color in
      match ptype p with
      | Pawn =>
          let dir := match color with White => -1 | Black => 1 end in
          flat_map (λ dc, if isInBounds (row + dir) (col + dc)
                          then [(row + dir, col + dc)] else []) [-1; 1]
      | Rook => rays b opponentColor row col rookDirs
      | Knight =>
          flat_map (λ d, if isInBounds (row + d.1) (col + d.2)
                         then [(row + d.1, col + d.2)] else []) knightJumps
      | Bishop => rays b opponentColor row col bishopDirs
      | Queen => rays b opponentColor row col (rookDirs ++ bishopDirs)
      | King => ring row col
      end
  end.

(** [isSquareAttacked(row, col, attackerColor)] *)
Definition isSquareAttacked (b : Board) (row col : Z) (attackerColor : Color) : bool :=
  existsb (λ '(r, c),
    match getPiece b r c with
    | Some p =>
        color_eqb (pcolor p) attackerColor
        && existsb (λ '(tr, tc), (tr =? row) && (tc =? col)) (calculateRawMoves b r c)
    | None => false
    end) allSquares.

(** [isKingInCheck(color)]; without a king the coordinates stay
    [undefined] and no attacked square equals them. *)
Definition isKingInCheck (b : Board) (color : Color) : bool :=
  match findKing b color with
  | None => false
  | Some (kingRow, kingCol) => isSquareAttacked b kingRow kingCol (opponent color)
  end.

Definition isRookUnmoved (b : Board) (r c : Z) : bool :=
  match getPiece b r c with
  | Some p => type_eqb (ptype p) Rook && negb (hasMoved p)
  | None => false
  end.

(** The [switch] of [calculatePossibleMoves]. *)
Definition pseudoMoves (b : Board) (lm : option Move) (row col : Z) (p : Piece)
  : list Square :=
  let color := pcolor p in
  let opponentColor := opponent color in
  match ptype p with
  | Pawn =>
      let dir := match color with White => -1 | Black => 1 end in
      (if isInBounds (row + dir) col && isEmptyAt b (row + dir) col then
         (row + dir, col) ::
         (if negb (hasMoved p) && isInBounds (row + 2 * dir) col
             && isEmptyAt b (row + 2 * dir) col
          then [(row + 2 * dir, col)] else [])
       else [])
      ++ flat_map (λ dc,
           let r := row + dir in
           let c := col + dc in
           if isInBounds r c then
             (if isOpponentAt b r c opponentColor then [(r, c)] else [])
             ++ (if isEmptyAt b r c &&
                    match lm with
                    | None => false
                    | Some m =>
                        type_eqb (ptype (mv_piece m)) Pawn
                        && color_eqb (pcolor (mv_piece m)) opponentColor
                        && (Z.abs ((mv_from m).1 - (mv_to m).1) =? 2)
                        && ((mv_to m).1 =? row) && ((mv_to m).2 =? c)
                    end
                 then [(r, c)] else [])
           else []) [-1; 1]
  | Rook => rays b opponentColor row col rookDirs
  | Knight =>
      flat_map (λ d,
        let r := row + d.1 in
        let c := col + d.2 in
        if isInBounds r c && (isEmptyAt b r c || isOpponentAt b r c opponentColor)
        then [(r, c)] else []) knightJumps
  | Bishop => rays b opponentColor row col bishopDirs
  | Queen => rays b opponentColor row col (rookDirs ++ bishopDirs)
  | King =>
      flat_map (λ '(r, c),
        if isEmptyAt b r c || isOpponentAt b r c opponentColor then [(r, c)] else [])
        (ring row col)
      ++ (if negb (hasMoved p) && negb (isKingInCheck b color) then
            (if isRookUnmoved b row 7 && isEmptyAt b row 5 && isEmptyAt b row 6
                && negb (isSquareAttacked b row 5 opponentColor)
                && negb (isSquareAttacked b row 6 opponentColor)
             then [(row, 6)] else [])
            ++ (if isRookUnmoved b row 0
                   && isEmptyAt b row 1 && isEmptyAt b row 2 && isEmptyAt b row 3
                   && negb (isSquareAttacked b row 2 opponentColor)
                   && negb (isSquareAttacked b row 3 opponentColor)
                then [(row, 2)] else [])
          else [])
  end.

(** The final [moves.filter] with its make/test/undo on the board. *)
Fixpoint filterLegal (b : Board) (row col : Z) (color : Color) (moves : list Square)
  : list Square * Board :=
  match moves with
  | [] => ([], b)
  | (tr, tc) :: rest =>
      let original := getPiece b tr tc in
      let b1 := setPiece b tr tc (getPiece b row col) in
      let b2 := setPiece b1 row col None in
      let inCheck := isKingInCheck b2 color in
      let b3 := setPiece b2 row col (getPiece b2 tr tc) in
      let b4 := setPiece b3 tr tc original in
      let '(kept, b') := filterLegal b4 row col color rest in
      (if inCheck then kept else (tr, tc) :: kept, b')
  end.

(** [calculatePossibleMoves(row, col)] *)
Definition calculatePossibleMoves (s : State) (row col : Z) : list Square * State :=
  match getPiece (board s) row col with
  | None => ([], s)
  | Some p =>
      let '(moves, b') :=
        filterLegal (board s) row col (pcolor p)
          (pseudoMoves (board s) (lastMove s) row col p) in
      (moves, set_board s b')
  end.

(** The legal-move scan of [checkGameStatus], with its two [break]s. *)
Fixpoint hasLegalMoves_loop (s : State) (squares : list Square) : bool * State :=
  match squares with
  | [] => (false, s)
  | (r, c) :: rest =>
      match getPiece (board s) r c with
      | Some p =>
          if color_eqb (pcolor p) (turn s) then
            let '(moves, s') := calculatePossibleMoves s r c in
            if 0 <? Z.of_nat (length moves) then (true, s')
            else hasLegalMoves_loop s' rest
          else hasLegalMoves_loop s rest
      | None => hasLegalMoves_loop s rest
      end
  end.

(** [switchTurns()] *)
Definition switchTurns (s : State) : State :=
  mkState (board s) (opponent (turn s)) (moveHistory s) (capturedWhite s)
    (capturedBlack s) (check s) (gameOver s) (lastMove s) (promotingPawn s)
    (moveCount s) (checksGiven s) (castlesPerformed s) (enPassantCount s).

(** [checkGameStatus()]; the returned status text is not kept. *)
Definition checkGameStatus (s : State) : State :=
  let inCheck := isKingInCheck (board s) (turn s) in
  let s1 :=
    mkState (board s) (turn s) (moveHistory s) (capturedWhite s) (capturedBlack s)
      inCheck (gameOver s) (lastMove s) (promotingPawn s) (moveCount s)
      (if inCheck then checksGiven s + 1 else checksGiven s)
      (castlesPerformed s) (enPassantCount s) in
  let '(hasLegalMoves, s2) := hasLegalMoves_loop s1 allSquares in
  if hasLegalMoves then s2
  else
    mkState (board s2) (turn s2) (moveHistory s2) (capturedWhite s2) (capturedBlack s2)
      (check s2) true (lastMove s2) (promotingPawn s2) (moveCount s2) (checksGiven s2)
      (castlesPerformed s2) (enPassantCount s2).

Inductive Result := ResFalse | ResPromotion | ResNormal.

(** [capturedPieces[this.turn].push(capturedPiece)] *)
Definition pushCaptured (s : State) (p : option Piece) : State :=
  match turn s with
  | White =>
      mkState (board s) (turn s) (moveHistory s) (capturedWhite s ++ [p]) (capturedBlack s)
        (check s) (gameOver s) (lastMove s) (promotingPawn s) (moveCount s)
        (checksGiven s) (castlesPerformed s) (enPassantCount s)
  | Black =>
      mkState (board s) (turn s) (moveHistory s) (capturedWhite s) (capturedBlack s ++ [p])
        (check s) (gameOver s) (lastMove s) (promotingPawn s) (moveCount s)
        (checksGiven s) (castlesPerformed s) (enPassantCount s)
  end.

(** [movePiece(fromRow, fromCol, toRow, toCol)].  The ledger holds
    values: where the code pushes the moving piece object itself (a
    request with the origin as destination) and then marks that object
    as moved, the entry here keeps the flag it had.  A destination
    column off the board, where JavaScript would extend the row array,
    leaves the board as it is. *)
Definition movePiece (s : State) (fromRow fromCol toRow toCol : Z)
  : Outcome (Result * State) :=
  match readCell (board s) fromRow fromCol with
  | Threw => Threw
  | Returned None => Returned (ResFalse, s)
  | Returned (Some p) =>
      match readCell (board s) toRow toCol with
      | Threw => Threw
      | Returned target =>
          let isPawnPromotion :=
            type_eqb (ptype p) Pawn
            && ((color_eqb (pcolor p) White && (toRow =? 0))
                || (color_eqb (pcolor p) Black && (toRow =? 7))) in
          let isEnPassant :=
            match target with
            | Some _ => false
            | None => type_eqb (ptype p) Pawn && negb (fromCol =? toCol)
            end in
          (* captures *)
          let s1 :=
            match target with
            | Some t => pushCaptured s (Some t)
            | None =>
                if isEnPassant then
                  let s' := pushCaptured s (getPiece (board s) fromRow toCol) in
                  mkState (setPiece (board s') fromRow toCol None) (turn s') (moveHistory s')
                    (capturedWhite s') (capturedBlack s') (check s') (gameOver s')
                    (lastMove s') (promotingPawn s') (moveCount s') (checksGiven s')
                    (castlesPerformed s') (enPassantCount s' + 1)
                else s
            end in
          (* castling *)
          let isCastling := type_eqb (ptype p) King && (Z.abs (toCol - fromCol) =? 2) in
          let isKingside := toCol >? fromCol in
          let rookFromCol := if isKingside then 7 else 0 in
          let rookToCol := if isKingside then 5 else 3 in
          let castled : Outcome State :=
            if isCastling then
              let b1 := setPiece (board s1) toRow rookToCol (getPiece (board s1) toRow rookFromCol) in
              let b2 := setPiece b1 toRow rookFromCol None in
              match getPiece b2 toRow rookToCol with
              | None => Threw
              | Some rook =>
                  let b3 := setPiece b2 toRow rookToCol
                              (Some (mkPiece (ptype rook) (pcolor rook) true)) in
                  Returned
                    (mkState b3 (turn s1) (moveHistory s1) (capturedWhite s1)
                       (capturedBlack s1) (check s1) (gameOver s1) (lastMove s1)
                       (promotingPawn s1) (moveCount s1) (checksGiven s1)
                       (castlesPerformed s1 + 1) (enPassantCount s1))
              end
            else Returned s1 in
          match castled with
          | Threw => Threw
          | Returned s2 =>
              let marks := type_eqb (ptype p) Pawn || type_eqb (ptype p) Rook
                           || type_eqb (ptype p) King in
              let moved := if marks then mkPiece (ptype p) (pcolor p) true else p in
              let b1 := setPiece (board s2) toRow toCol (Some p) in
              let b2 := setPiece b1 fromRow fromCol None in
              let b3 := match getPiece b2 toRow toCol with
                        | Some _ => setPiece b2 toRow toCol (Some moved)
                        | None => b2
                        end in
              let mv :=
                mkMove (fromRow, fromCol) (toRow, toCol) p isPawnPromotion
                  (if isCastling then Some (isKingside, rookFromCol, rookToCol) else None)
                  isEnPassant in
              let s3 :=
                mkState b3 (turn s2) (moveHistory s2 ++ [mv]) (capturedWhite s2)
                  (capturedBlack s2) (check s2) (gameOver s2) (Some mv)
                  (promotingPawn s2) (moveCount s2 + 1) (checksGiven s2)
                  (castlesPerformed s2) (enPassantCount s2) in
              if isPawnPromotion then
                Returned
                  (ResPromotion,
                   mkState (board s3) (turn s3) (moveHistory s3) (capturedWhite s3)
                     (capturedBlack s3) (check s3) (gameOver s3) (lastMove s3)
                     (Some (toRow, toCol)) (moveCount s3) (checksGiven s3)
                     (castlesPerformed s3) (enPassantCount s3))
              else Returned (ResNormal, checkGameStatus (switchTurns s3))
          end
      end
  end.

(** [completePromotion(pieceType)]: the pawn object changes type in
    place, then [switchTurns()] and [checkGameStatus()]. *)
Definition completePromotion (s : State) (pieceType : PieceType) : Outcome State :=
  match promotingPawn s with
  | None => Returned s
  | Some (row, col) =>
      match readCell (board s) row col with
      | Threw => Threw
      | Returned None => Threw
      | Returned (Some p) =>
          let b1 := setPiece (board s) row col (Some (mkPiece pieceType (pcolor p) (hasMoved p))) in
          let s1 :=
            mkState b1 (turn s) (moveHistory s) (capturedWhite s) (capturedBlack s)
              (check s) (gameOver s) (lastMove s) None (moveCount s) (checksGiven s)
              (castlesPerformed s) (enPassantCount s) in
          Returned (checkGameStatus (switchTurns s1))
      end
  end.

End ChessEngine.

(** ** ChessEngineCore: loading a snapshot, replaying a game *)

(** [importState(state)]: the board, turn, history, ledger and last
    move come from the snapshot; [check] and [gameOver] are recomputed. *)
Definition importState (e : Engine) (b : Board) (t : Color) (history : list MoveData)
  (capW capB : list Piece) (lm : option MoveData) : Engine :=
  let e1 :=
    mkEngine b t history capW capB (isKingInCheck b t) (gameOver e) lm
      (promotingPawn e) (moveCount e) (checksGiven e) (castlesPerformed e)
      (enPassantCount e) (allowUndo e) (maxMoveHistory e) in
  let '(mate, e2) := isCheckmate e1 in
  let '(over, e3) := if mate then (true, e2) else isStalemate e2 in
  mkEngine (board e3) (turn e3) (moveHistory e3) (capturedWhite e3) (capturedBlack e3)
    (check e3) over (lastMove e3) (promotingPawn e3) (moveCount e3)
    (checksGiven e3) (castlesPerformed e3) (enPassantCount e3) (allowUndo e3)
    (maxMoveHistory e3).

(** A board given by its occupied squares. *)
Definition placePieces (l : list (Square * Piece)) : Board :=
  fold_left (λ b '((r, c), p), setPiece b r c (Some p)) l emptyBoard.

(** A fresh engine loaded with a position. *)
Definition loadPosition (l : list (Square * Piece)) (t : Color) : Engine :=
  importState defaultEngine (placePieces l) t [] [] [] None.

(** Successive [movePiece] calls, each given as
    [(fromRow, fromCol, toRow, toCol)]; the results are collected. *)
Fixpoint play (e : Engine) (moves : list (Z * Z * Z * Z))
  : Outcome (list MoveResult * Engine) :=
  match moves with
  | [] => Returned ([], e)
  | (fromRow, fromCol, toRow, toCol) :: rest =>
      match movePiece e fromRow fromCol toRow toCol with
      | Threw => Threw
      | Returned (res, e1) =>
          match play e1 rest with
          | Threw => Threw
          | Returned (results, e2) => Returned (res :: results, e2)
          end
      end
  end.

(** A [movePiece] call that is applied, followed by [undoMove]. *)
Definition applyUndo (e : Engine) (m : Z * Z * Z * Z) : option Engine :=
  let '(fromRow, fromCol, toRow, toCol) := m in
  match movePiece e fromRow fromCol toRow toCol with
  | Returned (res, e1) =>
      if bool_decide (res = Invalid) then None
      else match undoMove e1 with
           | (true, e2) => Some e2
           | (false, _) => None
           end
  | Threw => None
  end.

(** A sequence of apply/undo pairs; [None] when one of the moves is
    not applied or not undone. *)
Fixpoint applyUndoPairs (e : Engine) (moves : list (Z * Z * Z * Z)) : option Engine :=
  match moves with
  | [] => Some e
  | m :: rest =>
      match applyUndo e m with
      | Some e1 => applyUndoPairs e1 rest
      | None => None
      end
  end.

(** 1.e4 a5 2.f4 Ra6 3.f5 Rb6 4.Ke2 Rb5 5.Kf3 b6 6.Kg4 c6 7.Kh5 e5 *)
Definition pinnedEnPassantGame : list (Z * Z * Z * Z) :=
  [ (6, 4, 4, 4); (1, 0, 3, 0);
    (6, 5, 4, 5); (0, 0, 2, 0);
    (4, 5, 3, 5); (2, 0, 2, 1);
    (7, 4, 6, 4); (2, 1, 3, 1);
    (6, 4, 5, 5); (1, 1, 2, 1);
    (5, 5, 4, 6); (1, 2, 2, 2);
    (4, 6, 3, 7); (1, 4, 3, 4) ].

(** 1.h4 a6 2.h5 a5 3.h6 a4 4.hxg7 a3 *)
Definition promotionGame : list (Z * Z * Z * Z) :=
  [ (6, 7, 4, 7); (1, 0, 2, 0);
    (4, 7, 3, 7); (2, 0, 3, 0);
    (3, 7, 2, 7); (3, 0, 4, 0);
    (2, 7, 1, 6); (4, 0, 5, 0) ].

(** 1.Nf3 e5 *)
Definition knightGame : list (Z * Z * Z * Z) := [ (7, 6, 5, 5); (1, 4, 3, 4) ].

(** The engine after a game from the start position (the start
    position itself if a call raises). *)
Definition engineAfter (moves : list (Z * Z * Z * Z)) : Engine :=
  match play defaultEngine moves with
  | Returned (_, e) => e
  | Threw => defaultEngine
  end.

(** Black king h8 behind its pawns g7 and h7, white rook on a8, white
    king e1; Black to move. *)
Definition backRankMate : Engine :=
  loadPosition
    [ ((0, 7), mkPiece King Black true); ((1, 6), mkPiece Pawn Black false);
      ((1, 7), mkPiece Pawn Black false); ((0, 0), mkPiece Rook White true);
      ((7, 4), mkPiece King White false) ] Black.

(** Black king a8, white queen c7, white king e1; Black to move. *)
Definition cornerStalemate : Engine :=
  loadPosition
    [ ((0, 0), mkPiece King Black true); ((1, 2), mkPiece Queen White true);
      ((7, 4), mkPiece King White false) ] Black.

(** The start position without the white king. *)
Definition kinglessEngine : Engine :=
  importState defaultEngine (setPiece startBoard 7 4 None) White [] [] [] None.

(** ** ChessEngineSystem: the king-safety term *)

(** [findKing(engine, color)] of the search layer:
    [{ row, col, piece }] or [null]. *)
Definition System_findKing (e : Engine) (color : Color) : option (Square * Piece) :=
  match findKing (board e) color with
  | Some (row, col) =>
      match getPiece (board e) row col with
      | Some p => Some ((row, col), p)
      | None => None
      end
  | None => None
  end.

(** [evaluateKingSafety(engine, forColor)]; [checkPenalty] stands for
    [50 * this.personalityWeights.defense] (50 for the balanced
    personality). *)
Definition System_evaluateKingSafety (checkPenalty : Z) (e : Engine) (forColor : Color) : Z :=
  match System_findKing e forColor, System_findKing e (opponent forColor) with
  | Some (_, kingPiece), Some _ =>
      (if isKingInCheck (board e) forColor then 0 - checkPenalty else 0)
      + (if negb (hasMoved kingPiece) then 20 else 0)
  | _, _ => 0
  end.

(** ** The bot-versus-bot engine ([class ChessEngine] with [makeMove]) *)

Module BotEngine.

Inductive Side := Kingside | Queenside.

(** A destination as the generators push it:
    [{ row, col, enPassant?, castling? }]. *)
Record Target := mkTarget {
  t_row : Z;
  t_col : Z;
  t_enPassant : bool;
  t_castling : option Side
}.

Definition plain (row col : Z) : Target := mkTarget row col false None.

(** An entry of [moveHistory]. *)
Record Entry := mkEntry {
  en_from : Square;
  en_to : Square;
  en_piece : PieceType;
  en_captured : option Piece;
  en_castling : option Side;
  en_enPassant : bool
}.

Record State := mkState {
  board : Board;
  currentPlayer : Color;
  moveHistory : list Entry;
  gameOver : bool;
  winner : option Color;
  enPassantTarget : option Square;
  whiteKingside : bool;        (* [castlingRights.white.kingside] *)
  whiteQueenside : bool;
  blackKingside : bool;
  blackQueenside : bool
}.

Definition set_board (s : State) (b : Board) : State :=
  mkState b (currentPlayer s) (moveHistory s) (gameOver s) (winner s)
    (enPassantTarget s) (whiteKingside s) (whiteQueenside s) (blackKingside s)
    (blackQueenside s).

(** [isValidPosition] *)
Definition isValidPosition (row col : Z) : bool :=
  (0 <=? row) && (row <? 8) && (0 <=? col) && (col <? 8).

(** [target && target.color !== color] and [!target || target.color !== color] *)
Definition isEnemy (b : Board) (r c : Z) (color : Color) : bool :=
  match getPiece b r c with
  | Some t => negb (color_eqb (pcolor t) color)
  | None => false
  end.

Definition isFree (b : Board) (r c : Z) : bool :=
  match getPiece b r c with Some _ => false | None => true end.

(** [getPawnMoves(row, col, color)] *)
Definition getPawnMoves (b : Board) (ep : option Square) (row col : Z) (color : Color)
  : list Target :=
  let direction := match color with White => -1 | Black => 1 end in
  let startRow := match color with White => 6 | Black => 1 end in
  (if isValidPosition (row + direction) col && isFree b (row + direction) col then
     plain (row + direction) col ::
     (if (row =? startRow) && isFree b (row + 2 * direction) col
      then [plain (row + 2 * direction) col] else [])
   else [])
  ++ flat_map (λ colOffset,
       let newRow := row + direction in
       let newCol := col + colOffset in
       if isValidPosition newRow newCol then
         (if isEnemy b newRow newCol color then [plain newRow newCol] else [])
         ++ (match ep with
             | Some (er, ec) =>
                 if (er =? newRow) && (ec =? newCol)
                 then [mkTarget newRow newCol true None] else []
             | None => []
             end)
       else []) [-1; 1].

(** One direction of [getRookMoves]/[getBishopMoves]:
    [for (let i = 1; i < 8; i++)] with its [break]s. *)
Fixpoint slide (b : Board) (color : Color) (row col rowDir colDir : Z) (steps : list Z)
  : list Target :=
  match steps with
  | [] => []
  | i :: rest =>
      let newRow := row + rowDir * i in
      let newCol := col + colDir * i in
      if negb (isValidPosition newRow newCol) then []
      else
        match getPiece b newRow newCol with
        | None => plain newRow newCol :: slide b color row col rowDir colDir rest
        | Some t => if negb (color_eqb (pcolor t) color) then [plain newRow newCol] else []
        end
  end.

Definition steps7 : list Z := [1; 2; 3; 4; 5; 6; 7].

Definition slides (b : Board) (color : Color) (row col : Z) (dirs : list (Z * Z))
  : list Target :=
  flat_map (λ d, slide b color row col d.1 d.2 steps7) dirs.

Definition getRookMoves (b : Board) (row col : Z) (color : Color) : list Target :=
  slides b color row col [(0, 1); (0, -1); (1, 0); (-1, 0)].

Definition getBishopMoves (b : Board) (row col : Z) (color : Color) : list Target :=
  slides b color row col [(1, 1); (1, -1); (-1, 1); (-1, -1)].

Definition getQueenMoves (b : Board) (row col : Z) (color : Color) : list Target :=
  getRookMoves b row col color ++ getBishopMoves b row col color.

(** The offset loops of the knight and the king. *)
Definition hops (b : Board) (color : Color) (row col : Z) (offsets : list (Z * Z))
  : list Target :=
  flat_map (λ d,
    let newRow := row + d.1 in
    let newCol := col + d.2 in
    if isValidPosition newRow newCol
       && (isFree b newRow newCol || isEnemy b newRow newCol color)
    then [plain newRow newCol] else []) offsets.

Definition getKnightMoves (b : Board) (row col : Z) (color : Color) : list Target :=
  hops b color row col knightOffsets.

Definition kingSteps : list (Z * Z) :=
  [(-1, -1); (-1, 0); (-1, 1); (0, -1); (0, 1); (1, -1); (1, 0); (1, 1)].

(** [getPossibleMovesIgnoreCheck(row, col)] *)
Definition getPossibleMovesIgnoreCheck (b : Board) (ep : option Square) (row col : Z)
  : list Target :=
  match getPiece b row col with
  | None => []
  | Some p =>
      let color := pcolor p in
      match ptype p with
      | Pawn => getPawnMoves b ep row col color
      | Rook => getRookMoves b row col color
      | Knight => getKnightMoves b row col color
      | Bishop => getBishopMoves b row col color
      | Queen => getQueenMoves b row col color
      | King => hops b color row col kingSteps
      end
  end.

(** [isInCheck(color)] *)
Definition isInCheck (b : Board) (ep : option Square) (color : Color) : bool :=
  match findKing b color with
  | None => false
  | Some (kingRow, kingCol) =>
      let opponentColor := opponent color in
      existsb (λ '(row, col),
        match getPiece b row col with
        | Some p =>
            color_eqb (pcolor p) opponentColor
            && existsb (λ t, (t_row t =? kingRow) && (t_col t =? kingCol))
                 (getPossibleMovesIgnoreCheck b ep row col)
        | None => false
        end) allSquares
  end.

Definition rights (s : State) (color : Color) (side : Side) : bool :=
  match color, side with
  | White, Kingside => whiteKingside s
  | White, Queenside => whiteQueenside s
  | Black, Kingside => blackKingside s
  | Black, Queenside => blackQueenside s
  end.

Definition isRookHome (b : Board) (r c : Z) : bool :=
  match getPiece b r c with
  | Some p => type_eqb (ptype p) Rook && negb (hasMoved p)
  | None => false
  end.

(** [getKingMoves(row, col, color)] *)
Definition getKingMoves (s : State) (row col : Z) (color : Color) : list Target :=
  let b := board s in
  hops b color row col kingSteps
  ++ (match getPiece b row col with
      | None => []
      | Some king =>
          if negb (hasMoved king) && negb (isInCheck b (enPassantTarget s) color) then
            (if rights s color Kingside
                && isFree b row (col + 1) && isFree b row (col + 2)
                && isRookHome b row 7
             then [mkTarget row (col + 2) false (Some Kingside)] else [])
            ++ (if rights s color Queenside
                   && isFree b row (col - 1) && isFree b row (col - 2)
                   && isFree b row (col - 3)
                   && isRookHome b row 0
                then [mkTarget row (col - 2) false (Some Queenside)] else [])
          else []
      end).

(** The [switch] of [getPossibleMoves]. *)
Definition pseudoMoves (s : State) (row col : Z) (p : Piece) : list Target :=
  let b := board s in
  let color := pcolor p in
  match ptype p with
  | Pawn => getPawnMoves b (enPassantTarget s) row col color
  | Rook => getRookMoves b row col color
  | Knight => getKnightMoves b row col color
  | Bishop => getBishopMoves b row col color
  | Queen => getQueenMoves b row col color
  | King => getKingMoves s row col color
  end.

(** [wouldBeInCheck(fromRow, fromCol, toRow, toCol, color)] *)
Definition wouldBeInCheck (b : Board) (ep : option Square)
  (fromRow fromCol toRow toCol : Z) (color : Color) : bool * Board :=
  let originalPiece := getPiece b toRow toCol in
  let movingPiece := getPiece b fromRow fromCol in
  let b1 := setPiece b toRow toCol movingPiece in
  let b2 := setPiece b1 fromRow fromCol None in
  let inCheck := isInCheck b2 ep color in
  let b3 := setPiece b2 fromRow fromCol movingPiece in
  let b4 := setPiece b3 toRow toCol originalPiece in
  (inCheck, b4).

(** The final [moves.filter] of [getPossibleMoves]. *)
Fixpoint filterLegal (b : Board) (ep : option Square) (row col : Z) (color : Color)
  (moves : list Target) : list Target * Board :=
  match moves with
  | [] => ([], b)
  | t :: rest =>
      let '(inCheck, b') := wouldBeInCheck b ep row col (t_row t) (t_col t) color in
      let '(kept, b'') := filterLegal b' ep row col color rest in
      (if inCheck then kept else t :: kept, b'')
  end.

(** [getPossibleMoves(row, col)] *)
Definition getPossibleMoves (s : State) (row col : Z) : list Target * State :=
  match getPiece (board s) row col with
  | None => ([], s)
  | Some p =>
      if negb (color_eqb (pcolor p) (currentPlayer s)) then ([], s)
      else
        let '(moves, b') :=
          filterLegal (board s) (enPassantTarget s) row col (pcolor p)
            (pseudoMoves s row col p) in
        (moves, set_board s b')
  end.

(** [getAllLegalMoves(color)], counted: [checkGameEnd] only reads the
    length. *)
Fixpoint countLegalMoves (s : State) (color : Color) (squares : list Square)
  : Z * State :=
  match squares with
  | [] => (0, s)
  | (row, col) :: rest =>
      match getPiece (board s) row col with
      | Some p =>
          if color_eqb (pcolor p) color then
            let '(pieceMoves, s') := getPossibleMoves s row col in
            let '(n, s'') := countLegalMoves s' color rest in
            (Z.of_nat (length pieceMoves) + n, s'')
          else countLegalMoves s color rest
      | None => countLegalMoves s color rest
      end
  end.

(** [checkGameEnd()] *)
Definition checkGameEnd (s : State) : State :=
  let '(n, s1) := countLegalMoves s (currentPlayer s) allSquares in
  if n =? 0 then
    if isInCheck (board s1) (enPassantTarget s1) (currentPlayer s1) then
      mkState (board s1) (currentPlayer s1) (moveHistory s1) true
        (Some (opponent (currentPlayer s1))) (enPassantTarget s1) (whiteKingside s1)
        (whiteQueenside s1) (blackKingside s1) (blackQueenside s1)
    else
      mkState (board s1) (currentPlayer s1) (moveHistory s1) true None
        (enPassantTarget s1) (whiteKingside s1) (whiteQueenside s1) (blackKingside s1)
        (blackQueenside s1)
  else s1.

(** The rook relocation of a castling move; [.hasMoved = true] on an
    empty square raises. *)
Definition castleRook (b : Board) (fromRow : Z) (side : Side) : Outcome Board :=
  let rookFrom := match side with Kingside => 7 | Queenside => 0 end in
  let rookTo := match side with Kingside => 5 | Queenside => 3 end in
  let b1 := setPiece b fromRow rookTo (getPiece b fromRow rookFrom) in
  let b2 := setPiece b1 fromRow rookFrom None in
  match getPiece b2 fromRow rookTo with
  | None => Threw
  | Some rook =>
      Returned (setPiece b2 fromRow rookTo (Some (mkPiece (ptype rook) (pcolor rook) true)))
  end.

(** [makeMove(fromRow, fromCol, toRow, toCol)]; [false] is the
    sentinel of a refused request. *)
Definition makeMove (s : State) (fromRow fromCol toRow toCol : Z)
  : Outcome (bool * State) :=
  match readCell (board s) fromRow fromCol with
  | Threw => Threw
  | Returned None => Returned (false, s)
  | Returned (Some p) =>
      if negb (color_eqb (pcolor p) (currentPlayer s)) then Returned (false, s)
      else
        let '(possibleMoves, s1) := getPossibleMoves s fromRow fromCol in
        match find (λ m, (t_row m =? toRow) && (t_col m =? toCol)) possibleMoves with
        | None => Returned (false, s1)
        | Some mv =>
            let capturedPiece := getPiece (board s1) toRow toCol in
            let bEp :=
              if t_enPassant mv then
                let direction := match pcolor p with White => 1 | Black => -1 end in
                setPiece (board s1) (toRow + direction) toCol None
              else board s1 in
            let castled :=
              match t_castling mv with
              | Some side => castleRook bEp fromRow side
              | None => Returned bEp
              end in
            match castled with
            | Threw => Threw
            | Returned b2 =>
                let b3 := setPiece b2 toRow toCol (Some p) in
                let b4 := setPiece b3 fromRow fromCol None in
                let b5 := match getPiece b4 toRow toCol with
                          | Some _ => setPiece b4 toRow toCol
                                        (Some (mkPiece (ptype p) (pcolor p) true))
                          | None => b4
                          end in
                let ep :=
                  if type_eqb (ptype p) Pawn && (Z.abs (toRow - fromRow) =? 2)
                  then Some ((fromRow + toRow) / 2, toCol) else None in
                let isKing := type_eqb (ptype p) King in
                let isRook := type_eqb (ptype p) Rook in
                let lose (color : Color) (side : Side) (cur : bool) : bool :=
                  if color_eqb (pcolor p) color then
                    if isKing then false
                    else if isRook && (fromCol =? match side with Kingside => 7 | Queenside => 0 end)
                         then false else cur
                  else cur in
                let entry :=
                  mkEntry (fromRow, fromCol) (toRow, toCol) (ptype p) capturedPiece
                    (t_castling mv) (t_enPassant mv) in
                let s2 :=
                  mkState b5 (opponent (currentPlayer s1)) (moveHistory s1 ++ [entry])
                    (gameOver s1) (winner s1) ep
                    (lose White Kingside (whiteKingside s1))
                    (lose White Queenside (whiteQueenside s1))
                    (lose Black Kingside (blackKingside s1))
                    (lose Black Queenside (blackQueenside s1)) in
                Returned (true, checkGameEnd s2)
            end
        end
  end.

(** [new ChessEngine()] *)
Definition start : State :=
  mkState startBoard White [] false None None true true true true.

End BotEngine.

(** ** ChessAI: the computer opponent of the stand-alone engine *)

Module ChessAI.

(** [{ from: { r, c }, to: { r, c }, piece: { ...piece } }] *)
Record Move := mkMove { from : Square; to : Square; piece : Piece }.

(** [generateAllLegalMoves(game, color)] *)
Fixpoint generateAllLegalMoves_loop (s : ChessEngine.State) (color : Color)
  (squares : list Square) : list Move * ChessEngine.State :=
  match squares with
  | [] => ([], s)
  | (r, c) :: rest =>
      match getPiece (ChessEngine.board s) r c with
      | Some p =>
          if color_eqb (pcolor p) color then
            let '(legal, s') := ChessEngine.calculatePossibleMoves s r c in
            let '(moves, s'') := generateAllLegalMoves_loop s' color rest in
            (map (λ t, mkMove (r, c) t p) legal ++ moves, s'')
          else generateAllLegalMoves_loop s color rest
      | None => generateAllLegalMoves_loop s color rest
      end
  end.

Definition generateAllLegalMoves (s : ChessEngine.State) (color : Color)
  : list Move * ChessEngine.State :=
  generateAllLegalMoves_loop s color allSquares.

(** The [undo] record of [makeMove]: [{ captured, piece }]. *)
Record Undo := mkUndo { u_captured : option Piece; u_piece : Piece }.

(** [makeMove(game, move)]: a copy of the piece goes to the
    destination and the origin is cleared.  The moves come from the
    generator, so the origin holds a piece; [None] stands for the call
    on an empty origin, which the generator never produces. *)
Definition makeMove (s : ChessEngine.State) (m : Move) : option (Undo * ChessEngine.State) :=
  match getPiece (ChessEngine.board s) (from m).1 (from m).2 with
  | None => None
  | Some p =>
      let captured := getPiece (ChessEngine.board s) (to m).1 (to m).2 in
      let b1 := setPiece (ChessEngine.board s) (to m).1 (to m).2 (Some p) in
      let b2 := setPiece b1 (from m).1 (from m).2 None in
      Some (mkUndo captured p, ChessEngine.set_board s b2)
  end.

(** [unmakeMove(game, move, undo)] *)
Definition unmakeMove (s : ChessEngine.State) (m : Move) (u : Undo) : ChessEngine.State :=
  let b1 := setPiece (ChessEngine.board s) (from m).1 (from m).2 (Some (u_piece u)) in
  ChessEngine.set_board s (setPiece b1 (to m).1 (to m).2 (u_captured u)).

(** The mate score of [minimaxRecursive]: [-99999 + (5 - depth)]. *)
Definition mateScore (depth : Z) : Z := -99999 + (5 - depth).

Section Search.

(** [evaluatePosition(game, color)]: material, a positional bonus that
    depends on the personality, mobility and check terms; it reads the
    game and leaves it as it was. *)
Variable evaluatePosition : ChessEngine.State → Color → Score.

(** The move loop of [minimaxRecursive]. *)
Fixpoint recursive_loop (rec : ChessEngine.State → option (Score * ChessEngine.State))
  (moves : list Move) (s : ChessEngine.State) (best : Score)
  : option (Score * ChessEngine.State) :=
  match moves with
  | [] => Some (best, s)
  | m :: rest =>
      match makeMove s m with
      | None => None
      | Some (undo, s1) =>
          match rec s1 with
          | None => None
          | Some (v, s2) =>
              let score := score_neg v in
              let s3 := unmakeMove s2 m undo in
              recursive_loop rec rest s3 (if score_ltb best score then score else best)
          end
      end
  end.

(** [minimaxRecursive(game, color, depth)]; [None] is a run that needs
    more than [fuel] nested calls. *)
Fixpoint minimaxRecursive (fuel : nat) (s : ChessEngine.State) (color : Color) (depth : Z)
  : option (Score * ChessEngine.State) :=
  match fuel with
  | O => None
  | S fuel' =>
      if depth =? 0 then Some (evaluatePosition s color, s)
      else
        let '(moves, s1) := generateAllLegalMoves s color in
        if Z.of_nat (length moves) =? 0 then
          if ChessEngine.isKingInCheck (ChessEngine.board s1) color
          then Some (Fin (mateScore depth), s1)
          else Some (Fin 0, s1)
        else
          recursive_loop (λ s', minimaxRecursive fuel' s' (opponent color) (depth - 1))
            moves s1 NegInf
  end.

(** The root loop of [minimax]: the best score and the list of the
    moves that reach it. *)
Fixpoint root_loop (fuel : nat) (color : Color) (depth : Z) (moves : list Move)
  (s : ChessEngine.State) (bestScore : Score) (bestMoves : list Move)
  : option (Score * list Move * ChessEngine.State) :=
  match moves with
  | [] => Some (bestScore, bestMoves, s)
  | m :: rest =>
      match makeMove s m with
      | None => None
      | Some (undo, s1) =>
          match minimaxRecursive fuel s1 (opponent color) (depth - 1) with
          | None => None
          | Some (v, s2) =>
              let score := score_neg v in
              let s3 := unmakeMove s2 m undo in
              if score_ltb bestScore score then root_loop fuel color depth rest s3 score [m]
              else if bool_decide (score = bestScore)
                   then root_loop fuel color depth rest s3 bestScore (bestMoves ++ [m])
                   else root_loop fuel color depth rest s3 bestScore bestMoves
          end
      end
  end.

(** [minimax(game, color, depth, moves)]; [rnd] is the value of
    [Math.floor(Math.random() * bestMoves.length)].  The result is the
    chosen move ([undefined] when the index reaches no entry), with the
    best score, the tied moves and the game after the call. *)
Definition minimax (rnd : nat) (fuel : nat) (s : ChessEngine.State) (color : Color)
  (depth : Z) (moves : list Move)
  : option (option Move * Score * list Move * ChessEngine.State) :=
  match root_loop fuel color depth moves s NegInf [] with
  | None => None
  | Some (bestScore, bestMoves, s') => Some (bestMoves !! rnd, bestScore, bestMoves, s')
  end.

(** The score the root loop computes for one move. *)
Definition rootScore (fuel : nat) (s : ChessEngine.State) (color : Color) (depth : Z)
  (m : Move) : option Score :=
  match makeMove s m with
  | None => None
  | Some (_, s1) =>
      match minimaxRecursive fuel s1 (opponent color) (depth - 1) with
      | None => None
      | Some (v, _) => Some (score_neg v)
      end
  end.

End Search.

End ChessAI.

(** [new ChessEngine()] of the stand-alone engine, and successive
    [movePiece] calls on it. *)
Definition ChessEngine_start : ChessEngine.State :=
  ChessEngine.mkState startBoard White [] [] [] false false None None 0 0 0 0.

Fixpoint ChessEngine_play (s : ChessEngine.State) (moves : list (Z * Z * Z * Z))
  : Outcome ChessEngine.State :=
  match moves with
  | [] => Returned s
  | (fromRow, fromCol, toRow, toCol) :: rest =>
      match ChessEngine.movePiece s fromRow fromCol toRow toCol with
      | Threw => Threw
      | Returned (_, s1) => ChessEngine_play s1 rest
      end
  end.

Definition ChessEngine_after (moves : list (Z * Z * Z * Z)) : ChessEngine.State :=
  match ChessEngine_play ChessEngine_start moves with
  | Returned s => s
  | Threw => ChessEngine_start
  end.

(** The stand-alone engine holding a given board with a side to move. *)
Definition ChessEngine_position (b : Board) (t : Color) : ChessEngine.State :=
  ChessEngine.mkState b t [] [] [] false false None None 0 0 0 0.

(** The material count at the head of [ChessAI.evaluatePosition]. *)
Definition ChessAI_material (s : ChessEngine.State) (color : Color) : Score :=
  Fin (fold_left (λ score '(r, c),
    match getPiece (ChessEngine.board s) r c with
    | Some p =>
        if color_eqb (pcolor p) color
        then score + System.pieceValue (ptype p) else score - System.pieceValue (ptype p)
    | None => score
    end) allSquares 0).

(** ** ChessAI: the alpha-beta search of the expert level *)

Section ChessAI_AlphaBeta.

Variable evaluatePosition : ChessEngine.State → Color → Score.

(** The move loop of [alphabetaRecursive]. *)
Fixpoint ChessAI_alphabeta_loop
  (rec : ChessEngine.State → Score → Score → option (Score * ChessEngine.State))
  (moves : list ChessAI.Move) (s : ChessEngine.State) (alpha beta : Score)
  : option (Score * ChessEngine.State) :=
  match moves with
  | [] => Some (alpha, s)
  | m :: rest =>
      match ChessAI.makeMove s m with
      | None => None
      | Some (undo, s1) =>
          match rec s1 (score_neg beta) (score_neg alpha) with
          | None => None
          | Some (v, s2) =>
              let score := score_neg v in
              let s3 := ChessAI.unmakeMove s2 m undo in
              if score_leb beta score then Some (beta, s3)
              else ChessAI_alphabeta_loop rec rest s3
                     (if score_ltb alpha score then score else alpha) beta
          end
      end
  end.

(** [alphabetaRecursive(game, color, depth, alpha, beta)]; [None] is a
    run that needs more than [fuel] nested calls. *)
Fixpoint ChessAI_alphabetaRecursive (fuel : nat) (s : ChessEngine.State) (color : Color)
  (depth : Z) (alpha beta : Score) : option (Score * ChessEngine.State) :=
  match fuel with
  | O => None
  | S fuel' =>
      if depth =? 0 then Some (evaluatePosition s color, s)
      else
        let '(moves, s1) := ChessAI.generateAllLegalMoves s color in
        if Z.of_nat (length moves) =? 0 then
          if ChessEngine.isKingInCheck (ChessEngine.board s1) color
          then Some (Fin (ChessAI.mateScore depth), s1)
          else Some (Fin 0, s1)
        else
          ChessAI_alphabeta_loop
            (λ s' a b, ChessAI_alphabetaRecursive fuel' s' (opponent color) (depth - 1) a b)
            moves s1 alpha beta
  end.

(** The root loop of [alphabeta]. *)
Fixpoint ChessAI_alphabeta_root (fuel : nat) (color : Color) (depth : Z)
  (moves : list ChessAI.Move) (s : ChessEngine.State) (bestScore : Score)
  (bestMoves : list ChessAI.Move)
  : option (Score * list ChessAI.Move * ChessEngine.State) :=
  match moves with
  | [] => Some (bestScore, bestMoves, s)
  | m :: rest =>
      match ChessAI.makeMove s m with
      | None => None
      | Some (undo, s1) =>
          match ChessAI_alphabetaRecursive fuel s1 (opponent color) (depth - 1)
                  NegInf PosInf with
          | None => None
          | Some (v, s2) =>
              let score := score_neg v in
              let s3 := ChessAI.unmakeMove s2 m undo in
              if score_ltb bestScore score
              then ChessAI_alphabeta_root fuel color depth rest s3 score [m]
              else if bool_decide (score = bestScore)
                   then ChessAI_alphabeta_root fuel color depth rest s3 bestScore
                          (bestMoves ++ [m])
                   else ChessAI_alphabeta_root fuel color depth rest s3 bestScore bestMoves
          end
      end
  end.

(** [alphabeta(game, color, depth, moves)]; [rnd] is the value of
    [Math.floor(Math.random() * bestMoves.length)]. *)
Definition ChessAI_alphabeta (rnd : nat) (fuel : nat) (s : ChessEngine.State)
  (color : Color) (depth : Z) (moves : list ChessAI.Move)
  : option (option ChessAI.Move * Score * list ChessAI.Move * ChessEngine.State) :=
  match ChessAI_alphabeta_root fuel color depth moves s NegInf [] with
  | None => None
  | Some (bestScore, bestMoves, s') => Some (bestMoves !! rnd, bestScore, bestMoves, s')
  end.

End ChessAI_AlphaBeta.

(** ** StockfishLikeEngine: the root call *)

Section Stockfish_Root.

Variable evaluate : Board → Color → Score.

(** The loop of [calculateBestMove] over the ordered moves. *)
Fixpoint Stockfish_bestMove_loop (fuel : nat) (color : Color) (depth : Z)
  (moves : list Stockfish.Move) (b : Board) (bestScore : Score)
  (bestMove : option Stockfish.Move) : option (option Stockfish.Move * Score * Board) :=
  match moves with
  | [] => Some (bestMove, bestScore, b)
  | m :: rest =>
      let '(captured, b1) := Stockfish.makeMove b m in
      match Stockfish.search evaluate fuel b1 (opponent color) (depth - 1) NegInf PosInf with
      | None => None
      | Some (s, b2) =>
          let score := score_neg s in
          let b3 := Stockfish.unmakeMove b2 m captured in
          if score_ltb bestScore score
          then Stockfish_bestMove_loop fuel color depth rest b3 score (Some m)
          else Stockfish_bestMove_loop fuel color depth rest b3 bestScore bestMove
      end
  end.

(** [calculateBestMove(boardState, color, depth)]: the move returned
    ([null] is [None]), with the best score and the board after the
    call. *)
Definition Stockfish_calculateBestMove (fuel : nat) (b : Board) (color : Color) (depth : Z)
  : option (option Stockfish.Move * Score * Board) :=
  let '(moves, b1) := Stockfish.generateAllLegalMoves b color in
  if Z.of_nat (length moves) =? 0 then Some (None, NegInf, b1)
  else
    Stockfish_bestMove_loop fuel color depth (Stockfish.orderMoves b1 moves) b1 NegInf None.

(** The score the root loop computes for one move. *)
Definition Stockfish_rootScore (fuel : nat) (b : Board) (color : Color) (depth : Z)
  (m : Stockfish.Move) : option Score :=
  match Stockfish.search evaluate fuel (Stockfish.makeMove b m).2 (opponent color)
          (depth - 1) NegInf PosInf with
  | None => None
  | Some (s, _) => Some (score_neg s)
  end.

End Stockfish_Root.

(** ** StockfishLikeEngine: the evaluator *)

Definition Stockfish_pawnTable : list (list Z) :=
  [ [  0;  0;  0;  0;  0;  0;  0;  0];
    [ 50; 50; 50; 50; 50; 50; 50; 50];
    [ 10; 10; 20; 30; 30; 20; 10; 10];
    [  5;  5; 10; 25; 25; 10;  5;  5];
    [  0;  0;  0; 20; 20;  0;  0;  0];
    [  5; -5;-10;  0;  0;-10; -5;  5];
    [  5; 10; 10;-20;-20; 10; 10;  5];
    [  0;  0;  0;  0;  0;  0;  0;  0] ].

Definition Stockfish_knightTable : list (list Z) :=
  [ [-50;-40;-30;-30;-30;-30;-40;-50];
    [-40;-20;  0;  0;  0;  0;-20;-40];
    [-30;  0; 10; 15; 15; 10;  0;-30];
    [-30;  5; 15; 20; 20; 15;  5;-30];
    [-30;  0; 15; 20; 20; 15;  0;-30];
    [-30;  5; 10; 15; 15; 10;  5;-30];
    [-40;-20;  0;  5;  5;  0;-20;-40];
    [-50;-40;-30;-30;-30;-30;-40;-50] ].

Definition Stockfish_bishopTable : list (list Z) :=
  [ [-20;-10;-10;-10;-10;-10;-10;-20];
    [-10;  0;  0;  0;  0;  0;  0;-10];
    [-10;  0;  5; 10; 10;  5;  0;-10];
    [-10;  5;  5; 10; 10;  5;  5;-10];
    [-10;  0; 10; 10; 10; 10;  0;-10];
    [-10; 10; 10; 10; 10; 10; 10;-10];
    [-10;  5;  0;  0;  0;  0;  5;-10];
    [-20;-10;-10;-10;-10;-10;-10;-20] ].

Definition Stockfish_rookTable : list (list Z) :=
  [ [  0;  0;  0;  0;  0;  0;  0;  0];
    [  5; 10; 10; 10; 10; 10; 10;  5];
    [ -5;  0;  0;  0;  0;  0;  0; -5];
    [ -5;  0;  0;  0;  0;  0;  0; -5];
    [ -5;  0;  0;  0;  0;  0;  0; -5];
    [ -5;  0;  0;  0;  0;  0;  0; -5];
    [ -5;  0;  0;  0;  0;  0;  0; -5];
    [  0;  0;  0;  5;  5;  0;  0;  0] ].

Definition Stockfish_queenTable : list (list Z) :=
  [ [-20;-10;-10; -5; -5;-10;-10;-20];
    [-10;  0;  0;  0;  0;  0;  0;-10];
    [-10;  0;  5;  5;  5;  5;  0;-10];
    [ -5;  0;  5;  5;  5;  5;  0; -5];
    [  0;  0;  5;  5;  5;  5;  0; -5];
    [-10;  5;  5;  5;  5;  5;  0;-10];
    [-10;  0;  5;  0;  0;  0;  0;-10];
    [-20;-10;-10; -5; -5;-10;-10;-20] ].

Definition Stockfish_kingMiddlegameTable : list (list Z) :=
  [ [-30;-40;-40;-50;-50;-40;-40;-30];
    [-30;-40;-40;-50;-50;-40;-40;-30];
    [-30;-40;-40;-50;-50;-40;-40;-30];
    [-30;-40;-40;-50;-50;-40;-40;-30];
    [-20;-30;-30;-40;-40;-30;-30;-20];
    [-10;-20;-20;-20;-20;-20;-20;-10];
    [ 20; 20;  0;  0;  0;  0; 20; 20];
    [ 20; 30; 10;  0;  0; 10; 30; 20] ].

Definition Stockfish_kingEndgameTable : list (list Z) :=
  [ [-50;-40;-30;-20;-20;-30;-40;-50];
    [-30;-20;-10;  0;  0;-10;-20;-30];
    [-30;-10; 20; 30; 30; 20;-10;-30];
    [-30;-10; 30; 40; 40; 30;-10;-30];
    [-30;-10; 30; 40; 40; 30;-10;-30];
    [-30;-10; 20; 30; 30; 20;-10;-30];
    [-30;-30;  0;  0;  0;  0;-30;-30];
    [-50;-30;-30;-30;-30;-30;-30;-50] ].

(** [getPositionalValue(piece, r, c, isEndgame)]; the evaluator calls
    it with loop indices, which are inside the tables. *)
Definition Stockfish_getPositionalValue (piece : Piece) (r c : Z) (isEndgame : bool) : Z :=
  let table :=
    match ptype piece with
    | Pawn => Stockfish_pawnTable
    | Knight => Stockfish_knightTable
    | Bishop => Stockfish_bishopTable
    | Rook => Stockfish_rookTable
    | Queen => Stockfish_queenTable
    | King => if isEndgame then Stockfish_kingEndgameTable
              else Stockfish_kingMiddlegameTable
    end in
  let row := match pcolor piece with White => r | Black => 7 - r end in
  nth (Z.to_nat c) (nth (Z.to_nat row) table []) 0.

(** [evaluateKingSafety(board, kingPos, color)] *)
Definition Stockfish_evaluateKingSafety (b : Board) (kingPos : Square) (color : Color) : Z :=
  let opp := opponent color in
  fold_left (λ safety dr,
    fold_left (λ safety dc,
      let r := kingPos.1 + dr in
      let c := kingPos.2 + dc in
      if (0 <=? r) && (r <? 8) && (0 <=? c) && (c <? 8) then
        if Stockfish.squareAttackedBy b r c opp then safety - 20 else safety
      else safety) [-1; 0; 1] safety) [-1; 0; 1] 0.

(** The pawn squares collected by [evaluatePawnStructure]. *)
Definition Stockfish_pawns (b : Board) (color : Color) : list Square :=
  List.filter (λ '(r, c),
    match getPiece b r c with
    | Some piece => type_eqb (ptype piece) Pawn && color_eqb (pcolor piece) color
    | None => false
    end) allSquares.

(** [evaluatePawnStructure(board, color)] *)
Definition Stockfish_evaluatePawnStructure (b : Board) (color : Color) : Z :=
  let pawns := Stockfish_pawns b color in
  fold_left (λ score pawn,
    let doubled :=
      Z.of_nat (length (List.filter (λ p, (p.2 =? pawn.2) && negb (p.1 =? pawn.1)) pawns)) in
    let score1 := score - doubled * 10 in
    let hasSupport := existsb (λ p, Z.abs (p.2 - pawn.2) =? 1) pawns in
    if negb hasSupport then score1 - 20 else score1) pawns 0.

(** The variables of the first loop of [evaluate]. *)
Record Stockfish_Scan := mkScan {
  scan_score : Z;
  scan_whiteKingPos : option Square;
  scan_blackKingPos : option Square;
  scan_totalMaterial : Z
}.

(** The body of the first loop of [evaluate] for one square. *)
Definition Stockfish_scanSquare (b : Board) (color : Color) (st : Stockfish_Scan)
  (sq : Square) : Stockfish_Scan :=
  let '(r, c) := sq in
  match getPiece b r c with
  | None => st
  | Some piece =>
      let pieceValue := Stockfish.pieceValues (ptype piece) in
      let posValue :=
        Stockfish_getPositionalValue piece r c (scan_totalMaterial st >? 2000) in
      let totalMaterial := scan_totalMaterial st + pieceValue in
      let whiteKingPos :=
        if type_eqb (ptype piece) King && color_eqb (pcolor piece) White
        then Some (r, c) else scan_whiteKingPos st in
      let blackKingPos :=
        if type_eqb (ptype piece) King && negb (color_eqb (pcolor piece) White)
        then Some (r, c) else scan_blackKingPos st in
      let score :=
        if color_eqb (pcolor piece) color
        then scan_score st + (pieceValue + posValue)
        else scan_score st - (pieceValue + posValue) in
      mkScan score whiteKingPos blackKingPos totalMaterial
  end.

(** [evaluate(board, color)]: the score and the board after the call
    (the two mobility counts run the move generator on it). *)
Definition Stockfish_evaluate (b : Board) (color : Color) : Z * Board :=
  let st := fold_left (Stockfish_scanSquare b color) allSquares (mkScan 0 None None 0) in
  let '(myMoves, b1) := Stockfish.generateAllLegalMoves b color in
  let '(oppMoves, b2) := Stockfish.generateAllLegalMoves b1 (opponent color) in
  let score1 :=
    scan_score st + (Z.of_nat (length myMoves) - Z.of_nat (length oppMoves)) * 10 in
  let score2 :=
    match scan_whiteKingPos st, scan_blackKingPos st with
    | Some whiteKingPos, Some blackKingPos =>
        let myKingPos := match color with White => whiteKingPos | Black => blackKingPos end in
        let oppKingPos := match color with White => blackKingPos | Black => whiteKingPos end in
        score1 + Stockfish_evaluateKingSafety b2 myKingPos color
        - Stockfish_evaluateKingSafety b2 oppKingPos (opponent color)
    | _, _ => score1
    end in
  (score2 + Stockfish_evaluatePawnStructure b2 color, b2).

(** ** ChessEngineSystem: mobility, random and second-rate moves *)

(** The counting loop of [evaluateMobility]. *)
Fixpoint System_mobility_loop (e : Engine) (forColor : Color) (squares : list Square)
  (mobility : Z) : Z * Engine :=
  match squares with
  | [] => (mobility, e)
  | (row, col) :: rest =>
      match getPiece (board e) row col with
      | Some piece =>
          if color_eqb (pcolor piece) forColor then
            let '(moves, e') := calculatePossibleMoves e row col in
            System_mobility_loop e' forColor rest (mobility + Z.of_nat (length moves))
          else System_mobility_loop e forColor rest mobility
      | None => System_mobility_loop e forColor rest mobility
      end
  end.

(** [evaluateMobility(engine, forColor)]: the engine's turn is set to
    [forColor] for the count and set back afterwards. *)
Definition System_evaluateMobility (e : Engine) (forColor : Color) : Z * Engine :=
  let originalTurn := turn e in
  let e1 := set_turn e forColor in
  let '(mobility, e2) := System_mobility_loop e1 forColor allSquares 0 in
  (mobility * 2, set_turn e2 originalTurn).

Section RandomMoves.

(** [draw n] is the value of [Math.floor(Math.random() * n)]. *)
Variable draw : nat → nat.

(** [getRandomMove(engine, color)] *)
Definition System_getRandomMove (e : Engine) (color : Color)
  : option System.Move * Engine :=
  let '(allMoves, e1) := System.getAllPossibleMoves e color in
  (if 0 <? Z.of_nat (length allMoves) then allMoves !! draw (length allMoves) else None,
   e1).

(** [getSuboptimalMove(engine, color)] *)
Definition System_getSuboptimalMove (e : Engine) (color : Color)
  : option System.Move * Engine :=
  let '(allMoves, e1) := System.getAllPossibleMoves e color in
  if Z.of_nat (length allMoves) <=? 3 then System_getRandomMove e1 color
  else
    let worstMoves := drop 3 allMoves in
    (worstMoves !! draw (length worstMoves), e1).

End RandomMoves.

(** * Properties *)

(** ** The board as an 8×8 array *)

Lemma isInBounds_spec r c : isInBounds r c = true ↔ (0 ≤ r < 8 ∧ 0 ≤ c < 8).
Proof. unfold isInBounds. rewrite !andb_true_iff. lia. Qed.

Lemma wf_board_row b r :
  wf_board b → (r < 8)%nat → ∃ row, b !! r = Some row ∧ length row = 8%nat.
Proof.
  intros [Hlen Hrows] Hr.
  destruct (lookup_lt_is_Some_2 b r) as [row Hrow]; [lia|].
  exists row. split; [done|].
  by eapply (Forall_lookup_1 _ _ _ _ Hrows Hrow).
Qed.

Lemma getPiece_lookup b r c row :
  isInBounds r c = true → b !! Z.to_nat r = Some row →
  getPiece b r c = default None (row !! Z.to_nat c).
Proof.
  intros Hin Hrow. unfold getPiece. rewrite Hin, Hrow.
  by destruct (row !! Z.to_nat c).
Qed.

Lemma wf_setPiece b r c v : wf_board b → wf_board (setPiece b r c v).
Proof.
  intros [Hlen Hrows]. unfold setPiece.
  destruct (isInBounds r c); [|done].
  destruct (b !! Z.to_nat r) as [row|] eqn:Hrow; [|done].
  split.
  - by rewrite length_insert.
  - apply Forall_insert; [done|].
    rewrite length_insert. by eapply (Forall_lookup_1 _ _ _ _ Hrows Hrow).
Qed.

Lemma getPiece_setPiece_eq b r c v :
  wf_board b → isInBounds r c = true → getPiece (setPiece b r c v) r c = v.
Proof.
  intros Hwf Hin. pose proof Hin as Hb. apply isInBounds_spec in Hb.
  destruct (wf_board_row b (Z.to_nat r) Hwf) as (row & Hrow & Hlen); [lia|].
  unfold setPiece. rewrite Hin, Hrow.
  erewrite getPiece_lookup; [|done|].
  2:{ apply list_lookup_insert_eq. destruct Hwf. lia. }
  rewrite list_lookup_insert_eq; [done|lia].
Qed.

Lemma getPiece_setPiece_ne b r c v r' c' :
  (r, c) ≠ (r', c') → getPiece (setPiece b r c v) r' c' = getPiece b r' c'.
Proof.
  intros Hne. unfold setPiece.
  destruct (isInBounds r c) eqn:Hin; [|done].
  destruct (b !! Z.to_nat r) as [row|] eqn:Hrow; [|done].
  unfold getPiece. destruct (isInBounds r' c') eqn:Hin'; [|done].
  apply isInBounds_spec in Hin, Hin'.
  destruct (decide (r = r')) as [->|Hr].
  - rewrite list_lookup_insert_eq by (by eapply lookup_lt_Some).
    rewrite Hrow. rewrite list_lookup_insert_ne; [done|].
    intros Heq. apply Hne. f_equal. lia.
  - rewrite list_lookup_insert_ne; [done|]. lia.
Qed.

Lemma board_ext b1 b2 :
  wf_board b1 → wf_board b2 →
  (∀ r c, isInBounds r c = true → getPiece b1 r c = getPiece b2 r c) → b1 = b2.
Proof.
  intros Hwf1 Hwf2 Hget. apply list_eq. intros i.
  destruct (decide (i < 8)%nat) as [Hi|Hi].
  - destruct (wf_board_row b1 i Hwf1 Hi) as (row1 & Hrow1 & Hlen1).
    destruct (wf_board_row b2 i Hwf2 Hi) as (row2 & Hrow2 & Hlen2).
    rewrite Hrow1, Hrow2. f_equal. apply list_eq. intros j.
    destruct (decide (j < 8)%nat) as [Hj|Hj].
    + assert (Hin : isInBounds (Z.of_nat i) (Z.of_nat j) = true)
        by (apply isInBounds_spec; lia).
      specialize (Hget _ _ Hin).
      rewrite (getPiece_lookup b1 _ _ row1 Hin) in Hget by (by rewrite Nat2Z.id).
      rewrite (getPiece_lookup b2 _ _ row2 Hin) in Hget by (by rewrite Nat2Z.id).
      rewrite Nat2Z.id in Hget.
      destruct (lookup_lt_is_Some_2 row1 j) as [x1 Hx1]; [lia|].
      destruct (lookup_lt_is_Some_2 row2 j) as [x2 Hx2]; [lia|].
      rewrite Hx1, Hx2 in *. simpl in Hget. by subst.
    + rewrite !lookup_ge_None_2; [done|lia|lia].
  - destruct Hwf1, Hwf2. rewrite !lookup_ge_None_2; [done|lia|lia].
Qed.

(** ** The legality filter leaves the board as it found it *)

Definition inb (s : Square) : Prop := isInBounds s.1 s.2 = true.

Lemma wouldBeInCheck_restores b fromRow fromCol toRow toCol color :
  wf_board b → isInBounds toRow toCol = true →
  (wouldBeInCheck b fromRow fromCol toRow toCol color).2 = b.
Proof.
  intros Hwf Hto. unfold wouldBeInCheck. simpl.
  apply board_ext; [by repeat apply wf_setPiece|done|].
  intros r c Hin.
  destruct (decide ((toRow, toCol) = (r, c))) as [Heq|Hne].
  { inversion Heq; subst. rewrite getPiece_setPiece_eq; [done| |done].
    by repeat apply wf_setPiece. }
  rewrite getPiece_setPiece_ne by done.
  destruct (decide ((fromRow, fromCol) = (r, c))) as [Heq'|Hne'].
  - inversion Heq'; subst.
    rewrite getPiece_setPiece_eq; [| by repeat apply wf_setPiece | done].
    rewrite getPiece_setPiece_ne by done.
    by rewrite getPiece_setPiece_eq.
  - by rewrite !getPiece_setPiece_ne.
Qed.

Lemma filterLegal_cons b row col color r c rest :
  filterLegal b row col color ((r, c) :: rest)
  = let '(inCheck, b') := wouldBeInCheck b row col r c color in
    let '(kept, b'') := filterLegal b' row col color rest in
    (if inCheck then kept else (r, c) :: kept, b'').
Proof. reflexivity. Qed.

Lemma filterLegal_restores b row col color moves :
  wf_board b → Forall inb moves →
  (filterLegal b row col color moves).2 = b.
Proof.
  intros Hwf. induction 1 as [|[r c] rest Hrc Hrest IH]; [done|].
  rewrite filterLegal_cons.
  pose proof (wouldBeInCheck_restores b row col r c color Hwf Hrc) as Hw.
  destruct (wouldBeInCheck b row col r c color) as [inCheck b'].
  simpl in Hw. subst b'.
  by destruct (filterLegal b row col color rest) as [kept b''].
Qed.

Lemma filterLegal_fst b row col color moves :
  wf_board b → Forall inb moves →
  (filterLegal b row col color moves).1
  = filter (λ m, (wouldBeInCheck b row col m.1 m.2 color).1 = false) moves.
Proof.
  intros Hwf. induction 1 as [|[r c] rest Hrc Hrest IH]; [done|].
  rewrite filterLegal_cons, filter_cons.
  pose proof (wouldBeInCheck_restores b row col r c color Hwf Hrc) as Hw.
  change ((r, c).1) with r. change ((r, c).2) with c.
  destruct (wouldBeInCheck b row col r c color) as [inCheck b'].
  simpl in Hw. subst b'.
  destruct (filterLegal b row col color rest) as [kept b'']. simpl in *.
  subst kept. destruct inCheck; by case_decide.
Qed.

Lemma addDirectionalMoves_loop_inb fuel b opp r c dr dc :
  Forall inb (addDirectionalMoves_loop fuel b opp r c dr dc).
Proof.
  revert r c. induction fuel as [|fuel IH]; intros r c; simpl; [constructor|].
  destruct (isInBounds r c) eqn:Hin; [|constructor].
  destruct (getPiece b r c) as [p|].
  - destruct (color_eqb _ _); repeat constructor; done.
  - constructor; [done|apply IH].
Qed.

Lemma Forall_flat_map {A B} (P : B → Prop) (f : A → list B) (l : list A) :
  (∀ a, Forall P (f a)) → Forall P (flat_map f l).
Proof.
  intros Hf. induction l as [|a l IH]; simpl; [constructor|].
  apply Forall_app. split; [apply Hf|apply IH].
Qed.

Ltac inb_step :=
  match goal with
  | |- Forall _ [] => constructor
  | |- Forall _ (_ :: _) => constructor
  | |- Forall _ (_ ++ _) => apply Forall_app_2
  | |- Forall _ (if ?c then _ else _) => destruct c eqn:?
  | H : _ && _ = true |- _ => apply andb_true_iff in H; destruct H
  | |- inb _ => unfold inb; simpl; assumption
  end.

Lemma stepMoves_inb b opp row col offsets :
  Forall inb (stepMoves b opp row col offsets).
Proof.
  apply Forall_flat_map. intros [dr dc]. simpl. repeat inb_step.
Qed.

Lemma calculatePawnMoves_inb b lm row col piece color opp :
  Forall inb (calculatePawnMoves b lm row col piece color opp).
Proof. unfold calculatePawnMoves. cbv zeta. repeat inb_step. Qed.

Lemma calculateCastlingMoves_inb b row col piece color :
  Forall inb (calculateCastlingMoves b row col piece color).
Proof.
  unfold calculateCastlingMoves. cbv zeta.
  repeat inb_step; by destruct color.
Qed.

Lemma pseudoMoves_inb b lm row col piece :
  Forall inb (pseudoMoves b lm row col piece).
Proof.
  unfold pseudoMoves. destruct (ptype piece).
  - apply calculatePawnMoves_inb.
  - apply stepMoves_inb.
  - apply Forall_flat_map. intros d. apply addDirectionalMoves_loop_inb.
  - apply Forall_flat_map. intros d. apply addDirectionalMoves_loop_inb.
  - apply Forall_flat_map. intros d. apply addDirectionalMoves_loop_inb.
  - apply Forall_app_2; [apply stepMoves_inb|apply calculateCastlingMoves_inb].
Qed.

Lemma calculatePossibleMoves_restores e row col :
  wf_board (board e) → (calculatePossibleMoves e row col).2 = e.
Proof.
  intros Hwf. unfold calculatePossibleMoves.
  destruct (getPiece (board e) row col) as [piece|]; [|done].
  destruct (negb _); [done|].
  pose proof (filterLegal_restores (board e) row col (pcolor piece)
    (pseudoMoves (board e) (lastMove e) row col piece) Hwf (pseudoMoves_inb _ _ _ _ _)) as Hr.
  destruct (filterLegal _ _ _ _ _) as [moves b']. simpl in *. subst b'.
  apply set_board_id.
Qed.

(** ** Squares visited by the scans *)

Lemma allSquares_inb : Forall inb allSquares.
Proof. repeat constructor. Qed.

Lemma elem_allSquares r c : isInBounds r c = true → In (r, c) allSquares.
Proof.
  intros H. apply isInBounds_spec in H. destruct H as [Hr Hc].
  assert (r = 0 ∨ r = 1 ∨ r = 2 ∨ r = 3 ∨ r = 4 ∨ r = 5 ∨ r = 6 ∨ r = 7) as Hr' by lia.
  assert (c = 0 ∨ c = 1 ∨ c = 2 ∨ c = 3 ∨ c = 4 ∨ c = 5 ∨ c = 6 ∨ c = 7) as Hc' by lia.
  clear Hr Hc.
  destruct Hr' as [->|[->|[->|[->|[->|[->|[->| ->]]]]]]];
    destruct Hc' as [->|[->|[->|[->|[->|[->|[->| ->]]]]]]];
    vm_compute; tauto.
Qed.

Lemma wf_startBoard : wf_board startBoard.
Proof. split; [reflexivity|repeat constructor]. Qed.

Lemma wf_emptyBoard : wf_board emptyBoard.
Proof. split; [reflexivity|repeat constructor]. Qed.

(** ** Terminal status *)

(** No owned piece on the given squares has a legal move. *)
Definition noLegalMoveOn (e : Engine) (squares : list Square) : Prop :=
  ∀ r c p, In (r, c) squares → getPiece (board e) r c = Some p →
    pcolor p = turn e → (calculatePossibleMoves e r c).1 = [].

Lemma hasNoLegalMoves_loop_restores e squares :
  wf_board (board e) → (hasNoLegalMoves_loop e squares).2 = e.
Proof.
  intros Hwf. induction squares as [|[r c] rest IH]; [done|].
  cbn [hasNoLegalMoves_loop]. destruct (getPiece (board e) r c) as [p|]; [|done].
  destruct (color_eqb _ _); [|done].
  pose proof (calculatePossibleMoves_restores e r c Hwf) as Hr.
  destruct (calculatePossibleMoves e r c) as [moves e']. simpl in Hr. subst e'.
  by destruct (0 <? _).
Qed.

Lemma hasNoLegalMoves_loop_spec e squares :
  wf_board (board e) →
  (hasNoLegalMoves_loop e squares).1 = true ↔ noLegalMoveOn e squares.
Proof.
  intros Hwf. induction squares as [|[r c] rest IH].
  { split; [|done]. intros _ r c p []. }
  assert (Hstep : noLegalMoveOn e rest →
            (∀ p, getPiece (board e) r c = Some p → pcolor p = turn e →
                  (calculatePossibleMoves e r c).1 = []) →
            noLegalMoveOn e ((r, c) :: rest)).
  { intros Hrest Hhd r' c' p [Heq|Hin] Hget Hcol.
    - inversion Heq; subst. by eapply Hhd.
    - by eapply Hrest. }
  assert (Htl : noLegalMoveOn e ((r, c) :: rest) → noLegalMoveOn e rest).
  { intros H r' c' p Hin. apply H. by right. }
  cbn [hasNoLegalMoves_loop]. destruct (getPiece (board e) r c) as [p|] eqn:Hget.
  2:{ rewrite IH. split; [|done]. intros H. apply Hstep; [done|]. by intros. }
  unfold color_eqb. case_bool_decide as Hcol.
  2:{ rewrite IH. split; [|done]. intros H. apply Hstep; [done|].
      intros p' [= <-] ?. done. }
  pose proof (calculatePossibleMoves_restores e r c Hwf) as Hr.
  destruct (calculatePossibleMoves e r c) as [moves e'] eqn:Hcalc.
  simpl in Hr. subst e'.
  destruct moves as [|m moves].
  - simpl. rewrite IH. split; [|done]. intros H. apply Hstep; [done|].
    by intros.
  - replace (0 <? Z.of_nat (length (m :: moves))) with true
      by (symmetry; apply Z.ltb_lt; simpl; lia).
    simpl. split; [done|]. intros H.
    specialize (H r c p (or_introl eq_refl) Hget Hcol).
    by rewrite Hcalc in H.
Qed.

(** C5.  Checkmate is "in check and no owned piece has a legal move",
    stalemate is "not in check and no owned piece has a legal move", the
    two differ only in the check flag, and no position is both. *)
Theorem terminal_classification (e : Engine) (Hwf : wf_board (board e)) :
  ((isCheckmate e).1 = true ↔ check e = true ∧ noLegalMoveOn e allSquares)
  ∧ ((isStalemate e).1 = true ↔ check e = false ∧ noLegalMoveOn e allSquares)
  ∧ ¬ ((isCheckmate e).1 = true ∧ (isStalemate e).1 = true).
Proof.
  pose proof (hasNoLegalMoves_loop_spec e allSquares Hwf) as Hspec.
  unfold isCheckmate, isStalemate, hasNoLegalMoves.
  revert Hspec. generalize (hasNoLegalMoves_loop e allSquares).
  generalize (noLegalMoveOn e allSquares).
  intros P [none e'] Hspec. cbn [fst] in *.
  destruct (check e); cbn [negb fst]; intuition congruence.
Qed.

Lemma wf_placePieces l : wf_board (placePieces l).
Proof.
  unfold placePieces. generalize wf_emptyBoard. generalize emptyBoard.
  induction l as [|[[r c] p] l IH]; intros b Hb; [done|].
  simpl. apply IH. by apply wf_setPiece.
Qed.

Lemma terminal_classification_witness :
  wf_board (board backRankMate)
  ∧ (isCheckmate backRankMate).1 = true
  ∧ (isStalemate backRankMate).1 = false
  ∧ (check backRankMate = true ∧ noLegalMoveOn backRankMate allSquares).
Proof.
  assert (Hwf : wf_board (board backRankMate)).
  { vm_compute. split; [reflexivity|repeat constructor]. }
  split; [exact Hwf|].
  destruct (terminal_classification backRankMate Hwf) as (Hm & Hs & Hx).
  assert (Hmate : (isCheckmate backRankMate).1 = true) by (vm_compute; reflexivity).
  split; [exact Hmate|].
  split; [vm_compute; reflexivity|].
  exact (proj1 Hm Hmate).
Defined.

(** ** Invalid move requests *)

Lemma find_none_not_in (moves : list Square) toRow toCol :
  ¬ In (toRow, toCol) moves →
  find (λ '(r, c), (r =? toRow) && (c =? toCol)) moves = None.
Proof.
  induction moves as [|[r c] rest IH]; [done|].
  intros Hnot. simpl.
  destruct ((r =? toRow) && (c =? toCol)) eqn:Heq.
  - apply andb_true_iff in Heq. destruct Heq as [Hr Hc].
    apply Z.eqb_eq in Hr, Hc. subst. exfalso. apply Hnot. by left.
  - apply IH. intros Hin. apply Hnot. by right.
Qed.

Lemma readCell_wf b r c :
  wf_board b → isInBounds r c = true → readCell b r c = Returned (getPiece b r c).
Proof.
  intros [Hlen _] Hin. apply isInBounds_spec in Hin. unfold readCell.
  rewrite Hlen.
  replace ((0 <=? r) && (r <? Z.of_nat 8)) with true; [done|].
  symmetry. apply andb_true_iff. split; [apply Z.leb_le|apply Z.ltb_lt]; lia.
Qed.

(** In the core engine, a request whose origin is empty, whose piece
    is not of the side to move, or whose destination is not among the
    legal moves of the origin returns ['invalid'] without raising, and
    the engine after the call is the one before it. *)
Lemma Core_movePiece_invalid_unchanged (e : Engine) (fromRow fromCol toRow toCol : Z) :
  wf_board (board e) → isInBounds fromRow fromCol = true →
  (getPiece (board e) fromRow fromCol = None
   ∨ (∃ p, getPiece (board e) fromRow fromCol = Some p ∧ pcolor p ≠ turn e)
   ∨ ¬ In (toRow, toCol) (calculatePossibleMoves e fromRow fromCol).1) →
  movePiece e fromRow fromCol toRow toCol = Returned (Invalid, e).
Proof.
  intros Hwf Hfrom Hbad.
  unfold movePiece. rewrite (readCell_wf _ _ _ Hwf Hfrom).
  destruct (getPiece (board e) fromRow fromCol) as [p|] eqn:Hget; [|done].
  unfold color_eqb. case_bool_decide as Hcol; simpl; [|done].
  destruct Hbad as [?|[(p' & [= <-] & Hne)|Hnot]]; [done|done|].
  pose proof (calculatePossibleMoves_restores e fromRow fromCol Hwf) as Hr.
  destruct (calculatePossibleMoves e fromRow fromCol) as [moves e'].
  simpl in *. subst e'.
  by rewrite (find_none_not_in _ _ _ Hnot).
Qed.

(** ** Promotion *)

(** C10.  With no promotion pending, [completePromotion] returns at
    once and the engine is unchanged, in the core engine and in the
    stand-alone one. *)
Theorem completePromotion_not_pending (e : Engine) (s : ChessEngine.State)
  (pieceType : PieceType)
  (He : promotingPawn e = None) (Hs : ChessEngine.promotingPawn s = None) :
  completePromotion e pieceType = Returned e
  ∧ ChessEngine.completePromotion s pieceType = Returned s.
Proof.
  unfold completePromotion, ChessEngine.completePromotion.
  by rewrite He, Hs.
Qed.

(** ** The fuel of the ray and path loops is enough *)

(** After [k ≥ 1] steps from a square of the board in a direction of
    the compass, eight steps in all leave the board: more fuel than
    [8 - k] changes nothing. *)
Lemma addDirectionalMoves_loop_fuel b opp row col dr dc :
  isInBounds row col = true →
  -1 ≤ dr ≤ 1 → -1 ≤ dc ≤ 1 → (dr, dc) ≠ (0, 0) →
  ∀ fuel k, 1 ≤ k → 8 ≤ k + Z.of_nat fuel →
    addDirectionalMoves_loop (S fuel) b opp (row + k * dr) (col + k * dc) dr dc
    = addDirectionalMoves_loop fuel b opp (row + k * dr) (col + k * dc) dr dc.
Proof.
  intros Hin Hdr Hdc Hd. apply isInBounds_spec in Hin.
  induction fuel as [|fuel IH]; intros k Hk Hfuel.
  - cbn [addDirectionalMoves_loop].
    replace (isInBounds (row + k * dr) (col + k * dc)) with false; [done|].
    symmetry. apply not_true_is_false. intros H. apply isInBounds_spec in H.
    assert (dr = 0 → dc = 0 → False) by (intros -> ->; by apply Hd).
    assert (Hc : dr = -1 ∨ dr = 0 ∨ dr = 1) by lia.
    assert (Hc' : dc = -1 ∨ dc = 0 ∨ dc = 1) by lia.
    destruct Hc as [->|[->| ->]]; destruct Hc' as [->|[->| ->]]; lia.
  - remember (S fuel) as fuel1 eqn:Hf1.
    cbn [addDirectionalMoves_loop]. subst fuel1.
    cbn [addDirectionalMoves_loop].
    destruct (isInBounds _ _); [|done].
    destruct (getPiece _ _ _); [done|]. f_equal.
    replace (row + k * dr + dr) with (row + (k + 1) * dr) by lia.
    replace (col + k * dc + dc) with (col + (k + 1) * dc) by lia.
    specialize (IH (k + 1) ltac:(lia) ltac:(lia)).
    cbn [addDirectionalMoves_loop] in IH. exact IH.
Qed.

(** [addDirectionalMoves] with its eight units of fuel computes the
    whole ray: any larger amount gives the same list. *)
Lemma addDirectionalMoves_fuel b opp row col dr dc extra :
  isInBounds row col = true →
  -1 ≤ dr ≤ 1 → -1 ≤ dc ≤ 1 → (dr, dc) ≠ (0, 0) →
  addDirectionalMoves_loop (extra + 8) b opp (row + dr) (col + dc) dr dc
  = addDirectionalMoves b opp row col (dr, dc).
Proof.
  intros Hin Hdr Hdc Hd. unfold addDirectionalMoves. cbn [fst snd].
  induction extra as [|extra IH]; [done|].
  rewrite <- IH.
  pose proof (addDirectionalMoves_loop_fuel b opp row col dr dc Hin Hdr Hdc Hd
                (extra + 8) 1 ltac:(lia) ltac:(lia)) as H.
  by rewrite !Z.mul_1_l in H.
Qed.

(** Between two squares of the board on a common rank, file or
    diagonal the path loop finishes within its fuel. *)
Lemma isPathClear_loop_finishes b fromRow fromCol toRow toCol :
  isInBounds fromRow fromCol = true → isInBounds toRow toCol = true →
  (toCol - fromCol = 0 ∨ toRow - fromRow = 0
   ∨ Z.abs (toCol - fromCol) = Z.abs (toRow - fromRow)) →
  ∀ fuel k, 1 ≤ k →
    Z.max 1 (Z.max (Z.abs (toRow - fromRow)) (Z.abs (toCol - fromCol)))
      < k + Z.of_nat fuel →
    k ≤ Z.max 1 (Z.max (Z.abs (toRow - fromRow)) (Z.abs (toCol - fromCol))) →
    isPathClear_loop fuel b
      (fromRow + k * Z.sgn (toRow - fromRow)) (fromCol + k * Z.sgn (toCol - fromCol))
      toRow toCol (Z.sgn (toRow - fromRow)) (Z.sgn (toCol - fromCol)) ≠ None.
Proof.
  intros Hf Ht Hal. apply isInBounds_spec in Hf, Ht.
  induction fuel as [|fuel IH]; intros k Hk Hfuel Hkn; [lia|].
  cbn [isPathClear_loop].
  destruct (negb _ || negb _) eqn:Hne; [|done].
  destruct (getPiece _ _ _); [done|].
  replace (fromRow + k * Z.sgn (toRow - fromRow) + Z.sgn (toRow - fromRow))
    with (fromRow + (k + 1) * Z.sgn (toRow - fromRow)) by lia.
  replace (fromCol + k * Z.sgn (toCol - fromCol) + Z.sgn (toCol - fromCol))
    with (fromCol + (k + 1) * Z.sgn (toCol - fromCol)) by lia.
  apply IH; [lia|lia|].
  apply orb_true_iff in Hne.
  assert (Hpos : fromRow + k * Z.sgn (toRow - fromRow) ≠ toRow
                 ∨ fromCol + k * Z.sgn (toCol - fromCol) ≠ toCol).
  { destruct Hne as [H|H]; apply negb_true_iff, Z.eqb_neq in H; [by left|by right]. }
  clear Hne IH.
  destruct (Z.sgn_spec (toRow - fromRow)) as [[? Hs1]|[[? Hs1]|[? Hs1]]];
    destruct (Z.sgn_spec (toCol - fromCol)) as [[? Hs2]|[[? Hs2]|[? Hs2]]];
    rewrite Hs1, Hs2 in Hpos; lia.
Qed.

Lemma isPathClear_finishes b fromRow fromCol toRow toCol :
  isInBounds fromRow fromCol = true → isInBounds toRow toCol = true →
  (toCol - fromCol = 0 ∨ toRow - fromRow = 0
   ∨ Z.abs (toCol - fromCol) = Z.abs (toRow - fromRow)) →
  isPathClear_loop 8 b
    (fromRow + Z.sgn (toRow - fromRow)) (fromCol + Z.sgn (toCol - fromCol))
    toRow toCol (Z.sgn (toRow - fromRow)) (Z.sgn (toCol - fromCol)) ≠ None.
Proof.
  intros Hf Ht Hal.
  pose proof (isPathClear_loop_finishes b fromRow fromCol toRow toCol Hf Ht Hal 8 1) as H.
  rewrite !Z.mul_1_l in H. apply H; [lia| |lia].
  apply isInBounds_spec in Hf, Ht. lia.
Qed.

(** ** The legality filter and en passant *)

(** Every destination that [calculatePossibleMoves] returns passed the
    speculative test: with the piece carried from the origin to the
    destination, and nothing else changed, the mover's king is not
    attacked. *)
Lemma calculatePossibleMoves_passes_filter e row col p r c :
  wf_board (board e) →
  getPiece (board e) row col = Some p →
  In (r, c) (calculatePossibleMoves e row col).1 →
  isKingInCheck (setPiece (setPiece (board e) r c (Some p)) row col None) (pcolor p)
  = false.
Proof.
  intros Hwf Hget. unfold calculatePossibleMoves. rewrite Hget.
  destruct (negb _); [intros []|].
  pose proof (filterLegal_fst (board e) row col (pcolor p)
    (pseudoMoves (board e) (lastMove e) row col p) Hwf (pseudoMoves_inb _ _ _ _ _)) as Hf.
  destruct (filterLegal _ _ _ _ _) as [moves b']. simpl in *. subst moves.
  intros Hin. apply list_elem_of_In, list_elem_of_filter in Hin.
  destruct Hin as [Hin _]. simpl in Hin. unfold wouldBeInCheck in Hin.
  simpl in Hin. by rewrite Hget in Hin.
Qed.

(** C1.  After 1.e4 a5 2.f4 Ra6 3.f5 Rb6 4.Ke2 Rb5 5.Kf3 b6 6.Kg4 c6
    7.Kh5 e5, played through [movePiece], White is not in check and the
    generator offers the en-passant capture f5xe6; [movePiece] applies
    it and White's own king on h5 is attacked by the rook on b5. *)
Theorem en_passant_leaves_king_attacked :
  play defaultEngine pinnedEnPassantGame
    = Returned (replicate 14 Valid, engineAfter pinnedEnPassantGame)
  ∧ turn (engineAfter pinnedEnPassantGame) = White
  ∧ isKingInCheck (board (engineAfter pinnedEnPassantGame)) White = false
  ∧ In (2, 4) (calculatePossibleMoves (engineAfter pinnedEnPassantGame) 3 5).1
  ∧ ∃ e', movePiece (engineAfter pinnedEnPassantGame) 3 5 2 4 = Returned (Valid, e')
          ∧ isKingInCheck (board e') White = true.
Proof.
  split; [vm_compute; reflexivity|].
  split; [vm_compute; reflexivity|].
  split; [vm_compute; reflexivity|].
  split; [vm_compute; tauto|].
  exists (engineAfter (pinnedEnPassantGame ++ [(3, 5, 2, 4)])).
  split; vm_compute; reflexivity.
Qed.

(** ** Promotion in the core engine *)

Lemma calculatePossibleMoves_only_board e row col :
  ∃ b, (calculatePossibleMoves e row col).2 = set_board e b.
Proof.
  unfold calculatePossibleMoves.
  destruct (getPiece _ _ _); [|exists (board e); by rewrite set_board_id].
  destruct (negb _); [exists (board e); by rewrite set_board_id|].
  destruct (filterLegal _ _ _ _ _) as [moves b']. by exists b'.
Qed.

Lemma hasNoLegalMoves_loop_only_board e squares :
  ∃ b, (hasNoLegalMoves_loop e squares).2 = set_board e b.
Proof.
  revert e. induction squares as [|[r c] rest IH]; intros e.
  { exists (board e). by rewrite set_board_id. }
  cbn [hasNoLegalMoves_loop].
  destruct (getPiece _ _ _); [|apply IH].
  destruct (color_eqb _ _); [|apply IH].
  destruct (calculatePossibleMoves_only_board e r c) as [b Hb].
  destruct (calculatePossibleMoves e r c) as [moves e']. simpl in Hb. subst e'.
  destruct (0 <? _); [by exists b|].
  destruct (IH (set_board e b)) as [b' Hb']. exists b'. by rewrite Hb'.
Qed.

Lemma isCheckmate_only_board e : ∃ b, (isCheckmate e).2 = set_board e b.
Proof.
  unfold isCheckmate. destruct (negb _).
  - exists (board e). by rewrite set_board_id.
  - apply hasNoLegalMoves_loop_only_board.
Qed.

Lemma isStalemate_only_board e : ∃ b, (isStalemate e).2 = set_board e b.
Proof.
  unfold isStalemate. destruct (check e).
  - exists (board e). by rewrite set_board_id.
  - apply hasNoLegalMoves_loop_only_board.
Qed.

Lemma finishMove_turn e p md res toRow toCol res' e' :
  finishMove e p md res toRow toCol = Returned (res', e') →
  turn e' = opponent (turn e).
Proof.
  unfold finishMove. destruct (markMoved _ _ _) as [b1|]; [|done].
  match goal with |- context [isCheckmate ?x] => set (e2 := x) end.
  destruct (isCheckmate_only_board e2) as [b2 H2].
  destruct (isCheckmate e2) as [mate e3]. simpl in H2. subst e3.
  destruct mate.
  - intros [= _ <-]. done.
  - destruct (isStalemate_only_board (set_board e2 b2)) as [b3 H3].
    destruct (isStalemate _) as [over e4]. simpl in H3. subst e4.
    intros [= _ <-]. done.
Qed.

Lemma turn_pushCaptured e p : turn (pushCaptured e p) = turn e.
Proof. unfold pushCaptured. by destruct (pcolor p). Qed.

(** Every applied move switches the turn, a promotion included. *)
Lemma movePiece_switches_turn e fromRow fromCol toRow toCol res e' :
  movePiece e fromRow fromCol toRow toCol = Returned (res, e') →
  res ≠ Invalid → turn e' = opponent (turn e).
Proof.
  unfold movePiece. destruct (readCell _ _ _) as [[p|]|]; [| |done].
  2:{ by intros [= <- _]. }
  destruct (negb _); [by intros [= <- _]|].
  destruct (calculatePossibleMoves_only_board e fromRow fromCol) as [b Hb].
  destruct (calculatePossibleMoves e fromRow fromCol) as [moves e1].
  simpl in Hb. subst e1.
  destruct (find _ _); [|by intros [= <- _]].
  destruct (_ && _).
  { intros H _. by apply finishMove_turn in H. }
  destruct (_ && _).
  - unfold executeEnPassant.
    destruct (getPiece _ _ _) as [cp|]; [|done].
    intros H _. apply finishMove_turn in H. rewrite H.
    cbn [turn]. by rewrite turn_pushCaptured.
  - intros H _. apply finishMove_turn in H. rewrite H.
    unfold executeRegular. destruct (getPiece _ _ _) as [t|]; [|done].
    unfold set_board. cbn [turn]. by rewrite turn_pushCaptured.
Qed.

(** [completePromotion] writes the board and clears [promotingPawn];
    turn, check flag and game-over flag stay as [movePiece] left them. *)
Lemma completePromotion_keeps_flags e pieceType e' :
  completePromotion e pieceType = Returned e' →
  turn e' = turn e ∧ check e' = check e ∧ gameOver e' = gameOver e.
Proof.
  unfold completePromotion. destruct (promotingPawn e) as [[row col]|].
  - destruct (readCell _ _ _) as [[p|]|]; [|done|done]. by intros [= <-].
  - by intros [= <-].
Qed.

(** C4.  After 1.h4 a6 2.h5 a5 3.h6 a4 4.hxg7 a3 the capture 5.gxf8
    brings a white pawn to the last rank.  [movePiece] answers
    ['promotion'] and records the pending pawn, yet the turn is already
    Black's and the check flag was computed with the pawn on f8;
    [completePromotion('queen')] then changes neither, although the new
    queen attacks the king on e8. *)
Theorem promotion_switches_turn_at_once :
  turn (engineAfter promotionGame) = White
  ∧ ∃ e1 e2,
      movePiece (engineAfter promotionGame) 1 6 0 5 = Returned (Promotion, e1)
      ∧ promotingPawn e1 = Some (0, 5)
      ∧ turn e1 = Black
      ∧ check e1 = false
      ∧ completePromotion e1 Queen = Returned e2
      ∧ turn e2 = Black
      ∧ check e2 = false
      ∧ isKingInCheck (board e2) Black = true.
Proof.
  split; [vm_compute; reflexivity|].
  exists (engineAfter (promotionGame ++ [(1, 6, 0, 5)])).
  exists (match completePromotion (engineAfter (promotionGame ++ [(1, 6, 0, 5)])) Queen with
          | Returned e2 => e2
          | Threw => defaultEngine
          end).
  split; [vm_compute; reflexivity|].
  split; [vm_compute; reflexivity|].
  split; [vm_compute; reflexivity|].
  split; [vm_compute; reflexivity|].
  split; [vm_compute; reflexivity|].
  split; [vm_compute; reflexivity|].
  split; vm_compute; reflexivity.
Qed.

(** ** Promotion in the stand-alone engine *)

Lemma ChessEngine_calculatePossibleMoves_only_board s row col :
  ∃ b, (ChessEngine.calculatePossibleMoves s row col).2 = ChessEngine.set_board s b.
Proof.
  unfold ChessEngine.calculatePossibleMoves.
  destruct (getPiece _ _ _); [|exists (ChessEngine.board s); by destruct s].
  destruct (ChessEngine.filterLegal _ _ _ _ _) as [moves b']. by exists b'.
Qed.

Lemma ChessEngine_hasLegalMoves_loop_only_board s squares :
  ∃ b, (ChessEngine.hasLegalMoves_loop s squares).2 = ChessEngine.set_board s b.
Proof.
  revert s. induction squares as [|[r c] rest IH]; intros s.
  { exists (ChessEngine.board s). by destruct s. }
  cbn [ChessEngine.hasLegalMoves_loop].
  destruct (getPiece _ _ _); [|apply IH].
  destruct (color_eqb _ _); [|apply IH].
  destruct (ChessEngine_calculatePossibleMoves_only_board s r c) as [b Hb].
  destruct (ChessEngine.calculatePossibleMoves s r c) as [moves s'].
  simpl in Hb. subst s'.
  destruct (0 <? _); [by exists b|].
  destruct (IH (ChessEngine.set_board s b)) as [b' Hb']. exists b'. by rewrite Hb'.
Qed.

Lemma ChessEngine_checkGameStatus_flags s :
  ChessEngine.turn (ChessEngine.checkGameStatus s) = ChessEngine.turn s
  ∧ ChessEngine.check (ChessEngine.checkGameStatus s)
    = ChessEngine.isKingInCheck (ChessEngine.board s) (ChessEngine.turn s)
  ∧ ChessEngine.promotingPawn (ChessEngine.checkGameStatus s)
    = ChessEngine.promotingPawn s.
Proof.
  unfold ChessEngine.checkGameStatus.
  match goal with |- context [ChessEngine.hasLegalMoves_loop ?x _] => set (s1 := x) end.
  destruct (ChessEngine_hasLegalMoves_loop_only_board s1 allSquares) as [b Hb].
  destruct (ChessEngine.hasLegalMoves_loop s1 allSquares) as [has s2].
  simpl in Hb. subst s2. by destruct has.
Qed.

Lemma ChessEngine_turn_pushCaptured s p :
  ChessEngine.turn (ChessEngine.pushCaptured s p) = ChessEngine.turn s.
Proof. unfold ChessEngine.pushCaptured. by destruct (ChessEngine.turn s). Qed.

(** In the stand-alone engine a move that brings a pawn to its last
    rank leaves the turn where it was and records the pending pawn. *)
Lemma ChessEngine_promotion_keeps_turn s fromRow fromCol toRow toCol s' :
  ChessEngine.movePiece s fromRow fromCol toRow toCol
    = Returned (ChessEngine.ResPromotion, s') →
  ChessEngine.turn s' = ChessEngine.turn s
  ∧ ChessEngine.promotingPawn s' = Some (toRow, toCol).
Proof.
  unfold ChessEngine.movePiece.
  destruct (readCell _ fromRow fromCol) as [[p|]|]; [|done|done].
  destruct (readCell _ toRow toCol) as [target|]; [|done].
  match goal with
  | |- context [if ?c then _ else Returned ?x] =>
      assert (Ht : ChessEngine.turn x = ChessEngine.turn s);
      [|generalize dependent x; intros s1 Ht]
  end.
  { destruct target; [apply ChessEngine_turn_pushCaptured|].
    destruct (_ && _); [|done]. cbn [ChessEngine.turn].
    apply ChessEngine_turn_pushCaptured. }
  destruct (_ && _).
  - destruct (getPiece _ _ _); [|done].
    destruct (_ && _); [|done]. intros [= <-]. by cbn.
  - destruct (_ && _); [|done]. intros [= <-]. by cbn.
Qed.

(** There, [completePromotion] replaces the piece type, switches the
    turn and recomputes the check flag for the new side to move. *)
Lemma ChessEngine_completePromotion_switches s pieceType row col s' :
  ChessEngine.promotingPawn s = Some (row, col) →
  ChessEngine.completePromotion s pieceType = Returned s' →
  ChessEngine.turn s' = opponent (ChessEngine.turn s)
  ∧ ChessEngine.promotingPawn s' = None
  ∧ ∃ p, getPiece (ChessEngine.board s) row col = Some p
         ∧ ChessEngine.check s'
           = ChessEngine.isKingInCheck
               (setPiece (ChessEngine.board s) row col
                  (Some (mkPiece pieceType (pcolor p) (hasMoved p))))
               (opponent (ChessEngine.turn s)).
Proof.
  intros Hp. unfold ChessEngine.completePromotion. rewrite Hp.
  unfold readCell. destruct (_ && _); [|done].
  destruct (getPiece _ _ _) as [p|]; [|done].
  intros [= <-].
  match goal with |- context [ChessEngine.checkGameStatus ?x] =>
    destruct (ChessEngine_checkGameStatus_flags x) as (Ht & Hc & Hpp) end.
  rewrite Ht, Hc, Hpp. split; [done|]. split; [done|]. by exists p.
Qed.

(** The same game on the stand-alone engine: after 5.gxf8 the turn is
    still White's; [completePromotion('queen')] hands it to Black with
    the check flag set. *)
Example ChessEngine_promotion_game :
  ChessEngine.turn (ChessEngine_after (promotionGame ++ [(1, 6, 0, 5)])) = White
  ∧ ChessEngine.promotingPawn (ChessEngine_after (promotionGame ++ [(1, 6, 0, 5)]))
    = Some (0, 5)
  ∧ match ChessEngine.completePromotion
            (ChessEngine_after (promotionGame ++ [(1, 6, 0, 5)])) Queen with
    | Returned s => ChessEngine.turn s = Black ∧ ChessEngine.check s = true
    | Threw => False
    end.
Proof. vm_compute. tauto. Qed.

(** ** A board without a king *)

Lemma findKingPos_findKing b color : Stockfish.findKingPos b color = findKing b color.
Proof. reflexivity. Qed.

Lemma System_findKing_None e color :
  findKing (board e) color = None → System_findKing e color = None.
Proof. unfold System_findKing. by intros ->. Qed.

(** On the start position without the white king, check detection
    answers [false] for White in both engines, and [movePiece], which
    runs it for both sides, returns ['valid']: nothing raises. *)
Lemma missing_king_is_silent :
  wf_board (board kinglessEngine)
  ∧ findKing (board kinglessEngine) White = None
  ∧ isKingInCheck (board kinglessEngine) White = false
  ∧ Stockfish.isKingInCheck (board kinglessEngine) White = false
  ∧ System_evaluateKingSafety 50 kinglessEngine Black = 0
  ∧ ∃ e', movePiece kinglessEngine 6 4 4 4 = Returned (Valid, e').
Proof.
  split; [vm_compute; split; [reflexivity|repeat constructor]|].
  split; [vm_compute; reflexivity|].
  split; [vm_compute; reflexivity|].
  split; [vm_compute; reflexivity|].
  split; [vm_compute; reflexivity|].
  exists (match movePiece kinglessEngine 6 4 4 4 with
          | Returned (_, e') => e'
          | Threw => kinglessEngine
          end).
  vm_compute. reflexivity.
Qed.

(** C9, as the code has it.  When the king of a colour is absent,
    check detection returns [false] in both engines and the
    king-safety term of the evaluator is [0] for either side; no call
    raises. *)
Theorem missing_king_reads_as_no_check (e : Engine) (color : Color) (checkPenalty : Z)
  (Hking : findKing (board e) color = None) :
  isKingInCheck (board e) color = false
  ∧ Stockfish.isKingInCheck (board e) color = false
  ∧ System_evaluateKingSafety checkPenalty e color = 0
  ∧ System_evaluateKingSafety checkPenalty e (opponent color) = 0.
Proof.
  assert (Hpos : Stockfish.findKingPos (board e) color = None) by exact Hking.
  unfold isKingInCheck, Stockfish.isKingInCheck, System_evaluateKingSafety.
  rewrite Hpos, Hking.
  rewrite (System_findKing_None e color Hking).
  split; [done|]. split; [done|]. split; [done|].
  replace (opponent (opponent color)) with color by (by destruct color).
  rewrite (System_findKing_None e color Hking).
  by destruct (System_findKing e (opponent color)) as [[? ?]|].
Qed.

Lemma missing_king_reads_as_no_check_witness :
  isKingInCheck (board kinglessEngine) White = false
  ∧ Stockfish.isKingInCheck (board kinglessEngine) White = false
  ∧ System_evaluateKingSafety 50 kinglessEngine White = 0
  ∧ System_evaluateKingSafety 50 kinglessEngine (opponent White) = 0.
Proof.
  apply (missing_king_reads_as_no_check kinglessEngine White 50).
  vm_compute. reflexivity.
Defined.

Lemma completePromotion_not_pending_witness :
  completePromotion defaultEngine Queen = Returned defaultEngine
  ∧ ChessEngine.completePromotion ChessEngine_start Queen = Returned ChessEngine_start.
Proof.
  apply completePromotion_not_pending; reflexivity.
Defined.

(** ** Move ordering in the hint worker *)

(** [x] may stand before [y] in the ordered list. *)
Definition scoreGe (b : Board) (x y : Stockfish.Move) : Prop :=
  Stockfish.orderScore b y ≤ Stockfish.orderScore b x.

Lemma sortInsert_Permutation cmp x l :
  Permutation (x :: l) (Stockfish.sortInsert cmp x l).
Proof.
  induction l as [|y l IH]; simpl; [done|].
  destruct (cmp x y <=? 0); [done|].
  rewrite perm_swap. by constructor.
Qed.

Lemma orderMoves_Permutation b moves : Permutation moves (Stockfish.orderMoves b moves).
Proof.
  unfold Stockfish.orderMoves, Stockfish.sortBy.
  induction moves as [|m moves IH]; simpl; [done|].
  rewrite <- sortInsert_Permutation. by constructor.
Qed.

Lemma sortInsert_sorted b x l :
  StronglySorted (scoreGe b) l →
  StronglySorted (scoreGe b) (Stockfish.sortInsert (Stockfish.orderCompare b) x l).
Proof.
  induction 1 as [|y l Hl IH Hy]; simpl; [repeat constructor|].
  destruct (Stockfish.orderCompare b x y <=? 0) eqn:Hcmp.
  - apply Z.leb_le in Hcmp. unfold Stockfish.orderCompare in Hcmp.
    constructor; [by constructor|].
    constructor; [unfold scoreGe; lia|].
    eapply Forall_impl; [exact Hy|]. unfold scoreGe. intros z Hz. lia.
  - apply Z.leb_gt in Hcmp. unfold Stockfish.orderCompare in Hcmp.
    constructor; [done|].
    eapply Permutation_Forall; [apply sortInsert_Permutation|].
    constructor; [unfold scoreGe; lia|done].
Qed.

(** The ordered list is in descending order of the capture score. *)
Lemma orderMoves_sorted b moves :
  StronglySorted (scoreGe b) (Stockfish.orderMoves b moves).
Proof.
  unfold Stockfish.orderMoves, Stockfish.sortBy.
  induction moves as [|m moves IH]; simpl; [constructor|].
  by apply sortInsert_sorted.
Qed.

Lemma StronglySorted_filter {A} (R : A → A → Prop) (f : A → bool) l :
  StronglySorted R l → StronglySorted R (List.filter f l).
Proof.
  induction 1 as [|x l Hl IH Hx]; simpl; [constructor|].
  destruct (f x); [|done].
  constructor; [done|].
  apply List.Forall_forall. intros y Hy. apply filter_In in Hy.
  destruct Hy as [Hy _]. rewrite List.Forall_forall in Hx. by apply Hx.
Qed.

(** The captures, taken by themselves, come out in descending order of
    victim value minus attacker value. *)
Lemma orderMoves_captures_sorted b moves :
  StronglySorted (scoreGe b)
    (List.filter (Stockfish.isCapture b) (Stockfish.orderMoves b moves)).
Proof. apply StronglySorted_filter, orderMoves_sorted. Qed.

(** C7.  After 1.Nf3 e5 White has 22 legal moves, one of them the
    capture Nxe5 (pawn 100 minus knight 320).  [orderMoves] puts that
    capture last, behind the 21 moves that capture nothing. *)
Theorem losing_capture_ordered_last :
  let b := board (engineAfter knightGame) in
  let sorted := Stockfish.orderMoves b (Stockfish.generateAllLegalMoves b White).1 in
  let capture := Stockfish.mkMove (5, 5) (3, 4) (mkPiece Knight White true) in
  length sorted = 22%nat
  ∧ last sorted = Some capture
  ∧ Stockfish.isCapture b capture = true
  ∧ Stockfish.orderScore b capture = -220
  ∧ forallb (λ m, negb (Stockfish.isCapture b m)) (removelast sorted) = true.
Proof. vm_compute. repeat split; reflexivity. Qed.

(** ** The hint worker's search at a node without legal moves *)

Lemma isMoveLegal_restores b m color :
  wf_board b → inb (Stockfish.to m) →
  (Stockfish.isMoveLegal b m color).2 = b.
Proof.
  intros Hwf Hto. destruct m as [[fr fc] [tr tc] p].
  exact (wouldBeInCheck_restores b fr fc tr tc color Hwf Hto).
Qed.

Lemma legalOf_restores b color r c p targets :
  wf_board b → Forall inb targets →
  (Stockfish.legalOf b color r c p targets).2 = b.
Proof.
  intros Hwf. induction 1 as [|t rest Ht Hrest IH]; [done|].
  cbn [Stockfish.legalOf].
  pose proof (isMoveLegal_restores b (Stockfish.mkMove (r, c) t p) color Hwf Ht) as Hm.
  destruct (Stockfish.isMoveLegal b _ color) as [isLegal b']. simpl in Hm. subst b'.
  by destruct (Stockfish.legalOf b color r c p rest).
Qed.

Lemma Stockfish_sliding_inb fuel b opp r c dr dc :
  Forall inb (Stockfish.addSlidingMoves_loop fuel b opp r c dr dc).
Proof.
  revert r c. induction fuel as [|fuel IH]; intros r c; simpl; [constructor|].
  destruct (Stockfish.isValidSquare r c) eqn:Hin; [|constructor].
  destruct (Stockfish.isSquareEmpty b r c); [constructor; [exact Hin|apply IH]|].
  destruct (Stockfish.isOpponentPiece b r c opp); repeat constructor. exact Hin.
Qed.

Lemma Stockfish_isSquareEmpty_inb b r c :
  Stockfish.isSquareEmpty b r c = true → inb (r, c).
Proof. unfold Stockfish.isSquareEmpty. intros H. by apply andb_true_iff in H as [? _]. Qed.

Lemma Stockfish_isOpponentPiece_inb b r c opp :
  Stockfish.isOpponentPiece b r c opp = true → inb (r, c).
Proof. unfold Stockfish.isOpponentPiece. intros H. by apply andb_true_iff in H as [? _]. Qed.

Ltac stockfish_inb_step :=
  match goal with
  | |- Forall _ [] => constructor
  | |- Forall _ (_ :: _) => constructor
  | |- Forall _ (_ ++ _) => apply Forall_app_2
  | |- Forall _ (if ?c then _ else _) => destruct c eqn:?
  | H : _ && _ = true |- _ => apply andb_true_iff in H; destruct H
  | |- inb _ =>
      first [ eapply Stockfish_isSquareEmpty_inb; eassumption
            | eapply Stockfish_isOpponentPiece_inb; eassumption
            | unfold inb; simpl; assumption ]
  end.

Lemma Stockfish_calculatePossibleMoves_inb b row col :
  Forall inb (Stockfish.calculatePossibleMoves b row col).
Proof.
  unfold Stockfish.calculatePossibleMoves.
  destruct (getPiece b row col) as [p|]; [|constructor].
  destruct (ptype p); cbv zeta;
    try (apply Forall_flat_map; intros d; apply Stockfish_sliding_inb);
    try (apply Forall_flat_map; intros d; cbv zeta);
    repeat stockfish_inb_step.
Qed.

Lemma generateAllLegalMoves_loop_restores b color squares :
  wf_board b → (Stockfish.generateAllLegalMoves_loop b color squares).2 = b.
Proof.
  intros Hwf. induction squares as [|[r c] rest IH]; [done|].
  cbn [Stockfish.generateAllLegalMoves_loop].
  destruct (getPiece b r c) as [p|]; [|done].
  destruct (color_eqb _ _); [|done].
  pose proof (legalOf_restores b color r c p _ Hwf
                (Stockfish_calculatePossibleMoves_inb b r c)) as Hl.
  destruct (Stockfish.legalOf b color r c p _) as [mine b']. simpl in Hl. subst b'.
  by destruct (Stockfish.generateAllLegalMoves_loop b color rest).
Qed.

Lemma generateAllLegalMoves_restores b color :
  wf_board b → (Stockfish.generateAllLegalMoves b color).2 = b.
Proof. apply generateAllLegalMoves_loop_restores. Qed.

(** [unmakeMove] after [makeMove] gives the board back. *)
Lemma unmakeMove_makeMove b m :
  wf_board b → inb (Stockfish.to m) →
  Stockfish.unmakeMove (Stockfish.makeMove b m).2 m (Stockfish.makeMove b m).1 = b.
Proof.
  intros Hwf Hto. destruct m as [[fr fc] [tr tc] p].
  exact (wouldBeInCheck_restores b fr fc tr tc White Hwf Hto).
Qed.

(** At a node with remaining depth [depth > 0] where the side to move
    has no legal move, [search] returns, with the board as it was: the
    mate score [-9999 + (4 - depth)] if that side is in check, a
    negative number of magnitude at least 9000 that is lower the more
    depth remains, and exactly [0] if it is not in check. *)
Lemma Stockfish_search_without_legal_moves (evaluate : Board → Color → Score) (fuel : nat)
  (b : Board) (color : Color) (depth : Z) (alpha beta : Score)
  (Hwf : wf_board b) (Hdepth : 0 < depth)
  (Hnone : (Stockfish.generateAllLegalMoves b color).1 = []) :
  Stockfish.search evaluate (S fuel) b color depth alpha beta
    = Some (if Stockfish.isKingInCheck b color
            then Fin (Stockfish.mateScore depth) else Fin 0, b)
  ∧ Stockfish.mateScore depth = -9999 + (4 - depth)
  ∧ Stockfish.mateScore depth < 0
  ∧ 9000 ≤ Z.abs (Stockfish.mateScore depth)
  ∧ ∀ nearer, depth < nearer →
      Stockfish.mateScore nearer < Stockfish.mateScore depth.
Proof.
  split.
  - cbn [Stockfish.search].
    replace (depth =? 0) with false by (symmetry; apply Z.eqb_neq; lia).
    pose proof (generateAllLegalMoves_restores b color Hwf) as Hr.
    destruct (Stockfish.generateAllLegalMoves b color) as [moves b1].
    simpl in Hr, Hnone. subst b1 moves. cbn [length Z.of_nat Z.eqb].
    by destruct (Stockfish.isKingInCheck b color).
  - unfold Stockfish.mateScore. repeat split; intros; lia.
Qed.


Lemma ChessEngine_ray_eq fuel b opp : ∀ r c dr dc,
  ChessEngine.ray fuel b opp r c dr dc = addDirectionalMoves_loop fuel b opp r c dr dc.
Proof.
  induction fuel as [|fuel IH]; intros r c dr dc; [done|].
  simpl. destruct (isInBounds r c); [|done].
  destruct (getPiece b r c); [done|]. by rewrite IH.
Qed.

Lemma off_board_after_eight row col dr dc k :
  isInBounds row col = true →
  -1 ≤ dr ≤ 1 → -1 ≤ dc ≤ 1 → (dr, dc) ≠ (0, 0) → 8 ≤ k →
  isInBounds (row + k * dr) (col + k * dc) = false.
Proof.
  intros Hin Hdr Hdc Hd Hk. apply isInBounds_spec in Hin.
  apply not_true_is_false. intros H. apply isInBounds_spec in H.
  assert (dr = 0 → dc = 0 → False) by (intros -> ->; by apply Hd).
  assert (Hc : dr = -1 ∨ dr = 0 ∨ dr = 1) by lia.
  assert (Hc' : dc = -1 ∨ dc = 0 ∨ dc = 1) by lia.
  destruct Hc as [->|[->| ->]]; destruct Hc' as [->|[->| ->]]; lia.
Qed.

(** The same for the two ray loops of the hint worker. *)
Lemma Stockfish_addSlidingMoves_loop_fuel b opp row col dr dc :
  isInBounds row col = true →
  -1 ≤ dr ≤ 1 → -1 ≤ dc ≤ 1 → (dr, dc) ≠ (0, 0) →
  ∀ fuel k, 1 ≤ k → 8 ≤ k + Z.of_nat fuel →
    Stockfish.addSlidingMoves_loop (S fuel) b opp (row + k * dr) (col + k * dc) dr dc
    = Stockfish.addSlidingMoves_loop fuel b opp (row + k * dr) (col + k * dc) dr dc.
Proof.
  intros Hin Hdr Hdc Hd.
  induction fuel as [|fuel IH]; intros k Hk Hfuel.
  - cbn [Stockfish.addSlidingMoves_loop].
    change (Stockfish.isValidSquare (row + k * dr) (col + k * dc))
      with (isInBounds (row + k * dr) (col + k * dc)).
    by rewrite off_board_after_eight by (done || lia).
  - remember (S fuel) as fuel1 eqn:Hf1.
    cbn [Stockfish.addSlidingMoves_loop]. subst fuel1.
    cbn [Stockfish.addSlidingMoves_loop].
    destruct (Stockfish.isValidSquare _ _); [|done].
    destruct (Stockfish.isSquareEmpty _ _ _); [|done]. f_equal.
    replace (row + k * dr + dr) with (row + (k + 1) * dr) by lia.
    replace (col + k * dc + dc) with (col + (k + 1) * dc) by lia.
    specialize (IH (k + 1) ltac:(lia) ltac:(lia)).
    cbn [Stockfish.addSlidingMoves_loop] in IH. exact IH.
Qed.

Lemma Stockfish_addSlidingAttacks_loop_fuel b row col dr dc :
  isInBounds row col = true →
  -1 ≤ dr ≤ 1 → -1 ≤ dc ≤ 1 → (dr, dc) ≠ (0, 0) →
  ∀ fuel k, 1 ≤ k → 8 ≤ k + Z.of_nat fuel →
    Stockfish.addSlidingAttacks_loop (S fuel) b (row + k * dr) (col + k * dc) dr dc
    = Stockfish.addSlidingAttacks_loop fuel b (row + k * dr) (col + k * dc) dr dc.
Proof.
  intros Hin Hdr Hdc Hd.
  induction fuel as [|fuel IH]; intros k Hk Hfuel.
  - cbn [Stockfish.addSlidingAttacks_loop].
    change (Stockfish.isValidSquare (row + k * dr) (col + k * dc))
      with (isInBounds (row + k * dr) (col + k * dc)).
    by rewrite off_board_after_eight by (done || lia).
  - remember (S fuel) as fuel1 eqn:Hf1.
    cbn [Stockfish.addSlidingAttacks_loop]. subst fuel1.
    cbn [Stockfish.addSlidingAttacks_loop].
    destruct (Stockfish.isValidSquare _ _); [|done]. f_equal.
    destruct (getPiece _ _ _); [done|].
    replace (row + k * dr + dr) with (row + (k + 1) * dr) by lia.
    replace (col + k * dc + dc) with (col + (k + 1) * dc) by lia.
    specialize (IH (k + 1) ltac:(lia) ltac:(lia)).
    cbn [Stockfish.addSlidingAttacks_loop] in IH. exact IH.
Qed.

(** ** The hint worker's search returns and leaves the board as it was *)

Lemma legalOf_to b color r c p targets :
  Forall inb targets →
  Forall (λ m, inb (Stockfish.to m)) (Stockfish.legalOf b color r c p targets).1.
Proof.
  revert b. induction targets as [|t rest IH]; intros b Hall; [constructor|].
  cbn [Stockfish.legalOf].
  destruct (Stockfish.isMoveLegal b _ color) as [isLegal b'].
  specialize (IH b' (Forall_inv_tail Hall)).
  destruct (Stockfish.legalOf b' color r c p rest) as [moves b'']. simpl in *.
  destruct isLegal; [|done]. constructor; [exact (Forall_inv Hall)|done].
Qed.

Lemma generateAllLegalMoves_to b color :
  wf_board b →
  Forall (λ m, inb (Stockfish.to m)) (Stockfish.generateAllLegalMoves b color).1.
Proof.
  intros Hwf. unfold Stockfish.generateAllLegalMoves.
  induction allSquares as [|[r c] rest IH]; [constructor|].
  cbn [Stockfish.generateAllLegalMoves_loop].
  destruct (getPiece b r c) as [p|]; [|done].
  destruct (color_eqb _ _); [|done].
  pose proof (legalOf_restores b color r c p _ Hwf
                (Stockfish_calculatePossibleMoves_inb b r c)) as Hl.
  pose proof (legalOf_to b color r c p _ (Stockfish_calculatePossibleMoves_inb b r c)) as Ht.
  destruct (Stockfish.legalOf b color r c p _) as [mine b']. simpl in Hl, Ht. subst b'.
  destruct (Stockfish.generateAllLegalMoves_loop b color rest) as [moves b''].
  simpl in *. by apply Forall_app_2.
Qed.

Section StockfishProperties.

Variable evaluate : Board → Color → Score.

Lemma quiescence_loop_total rec standPat moves : ∀ b alpha beta,
  wf_board b → Forall (λ m, inb (Stockfish.to m)) moves →
  (∀ b1 a1 a2, wf_board b1 → ∃ s, rec b1 a1 a2 = Some (s, b1)) →
  ∃ s, Stockfish.quiescence_loop rec standPat moves b alpha beta = Some (s, b).
Proof.
  induction moves as [|m rest IH]; intros b alpha beta Hwf Hall Hrec; [by eexists|].
  cbn [Stockfish.quiescence_loop]. cbv zeta.
  match goal with |- context [if ?c then _ else _] => destruct c end.
  { apply IH; [done|exact (Forall_inv_tail Hall)|done]. }
  pose proof (unmakeMove_makeMove b m Hwf (Forall_inv Hall)) as Hun.
  destruct (Stockfish.makeMove b m) as [captured b1] eqn:Hmake. simpl in Hun.
  assert (Hwf1 : wf_board b1).
  { revert Hmake. unfold Stockfish.makeMove. intros [= _ <-]. by repeat apply wf_setPiece. }
  destruct (Hrec b1 (score_neg beta) (score_neg alpha) Hwf1) as [s Hs].
  rewrite Hs, Hun.
  destruct (score_leb _ _); [by eexists|].
  apply IH; [done|exact (Forall_inv_tail Hall)|done].
Qed.

Lemma quiescenceSearch_total fuel : ∀ b color depth alpha beta,
  wf_board b → (Z.to_nat (7 - depth) < fuel)%nat →
  ∃ s, Stockfish.quiescenceSearch evaluate fuel b color depth alpha beta = Some (s, b).
Proof.
  induction fuel as [|fuel IH]; intros b color depth alpha beta Hwf Hfuel; [lia|].
  cbn [Stockfish.quiescenceSearch].
  destruct (depth >? 6) eqn:Hd; [by eexists|].
  rewrite Z.gtb_ltb in Hd. apply Z.ltb_ge in Hd.
  destruct (score_leb _ _); [by eexists|].
  unfold Stockfish.generateCaptures.
  pose proof (generateAllLegalMoves_restores b color Hwf) as Hr.
  pose proof (generateAllLegalMoves_to b color Hwf) as Hto.
  destruct (Stockfish.generateAllLegalMoves b color) as [moves b1].
  simpl in Hr, Hto. subst b1.
  apply quiescence_loop_total; [done| |].
  - eapply Permutation_Forall; [apply orderMoves_Permutation|].
    apply List.Forall_forall. intros m Hm. apply filter_In in Hm as [Hm _].
    rewrite List.Forall_forall in Hto. by apply Hto.
  - intros b1 a1 a2 Hwf1. apply IH; [done|lia].
Qed.

Lemma search_loop_total rec moves : ∀ b alpha beta,
  wf_board b → Forall (λ m, inb (Stockfish.to m)) moves →
  (∀ b1 a1 a2, wf_board b1 → ∃ s, rec b1 a1 a2 = Some (s, b1)) →
  ∃ s, Stockfish.search_loop rec moves b alpha beta = Some (s, b).
Proof.
  induction moves as [|m rest IH]; intros b alpha beta Hwf Hall Hrec; [by eexists|].
  cbn [Stockfish.search_loop].
  pose proof (unmakeMove_makeMove b m Hwf (Forall_inv Hall)) as Hun.
  destruct (Stockfish.makeMove b m) as [captured b1] eqn:Hmake. simpl in Hun.
  assert (Hwf1 : wf_board b1).
  { revert Hmake. unfold Stockfish.makeMove. intros [= _ <-]. by repeat apply wf_setPiece. }
  destruct (Hrec b1 (score_neg beta) (score_neg alpha) Hwf1) as [s Hs].
  rewrite Hs, Hun.
  destruct (score_leb _ _); [by eexists|].
  apply IH; [done|exact (Forall_inv_tail Hall)|done].
Qed.

(** With fuel above the depth, [search] returns a score and the board
    it was given; the quiescence search at the horizon always has
    enough with its eight levels. *)
Lemma Stockfish_search_total fuel : ∀ b color depth alpha beta,
  wf_board b → 0 ≤ depth → (Z.to_nat depth < fuel)%nat →
  ∃ s, Stockfish.search evaluate fuel b color depth alpha beta = Some (s, b).
Proof.
  induction fuel as [|fuel IH]; intros b color depth alpha beta Hwf Hd Hfuel; [lia|].
  cbn [Stockfish.search].
  destruct (depth =? 0) eqn:Hd0.
  { apply quiescenceSearch_total; [done|lia]. }
  apply Z.eqb_neq in Hd0.
  pose proof (generateAllLegalMoves_restores b color Hwf) as Hr.
  pose proof (generateAllLegalMoves_to b color Hwf) as Hto.
  destruct (Stockfish.generateAllLegalMoves b color) as [moves b1].
  simpl in Hr, Hto. subst b1.
  destruct (Z.of_nat (length moves) =? 0).
  { destruct (Stockfish.isKingInCheck b color); by eexists. }
  apply search_loop_total; [done| |].
  - eapply Permutation_Forall; [apply orderMoves_Permutation|done].
  - intros b1 a1 a2 Hwf1. apply IH; [done|lia|lia].
Qed.

End StockfishProperties.

(** ** Undoing an applied move in the core engine *)

Lemma getPiece_Some_inb b r c p : getPiece b r c = Some p → isInBounds r c = true.
Proof. unfold getPiece. by destruct (isInBounds r c). Qed.

Lemma last_snoc_tail {A} (h : list A) (m : A) :
  h ≠ [] → last (tail (h ++ [m])) = Some m.
Proof.
  destruct h as [|a h]; [done|]. intros _. simpl. apply last_snoc.
Qed.

(** With a history bound that is not negative, the entry just pushed
    is the last one after the eviction. *)
Lemma pushHistory_last h maxHistory m :
  0 ≤ maxHistory → last (pushHistory h maxHistory m) = Some m.
Proof.
  intros Hmax. unfold pushHistory.
  destruct (negb (maxHistory =? 0) && (Z.of_nat (length (h ++ [m])) >? maxHistory)) eqn:Hc;
    [|apply last_snoc].
  apply last_snoc_tail. intros ->.
  apply andb_true_iff in Hc as [Hne Hgt].
  apply negb_true_iff, Z.eqb_neq in Hne.
  rewrite Z.gtb_ltb in Hgt. apply Z.ltb_lt in Hgt. simpl in Hgt. lia.
Qed.

(** What [finishMove] leaves in the fields that [undoMove] reads. *)
Lemma finishMove_undo_fields e p md res toRow toCol res' e' :
  finishMove e p md res toRow toCol = Returned (res', e') →
  moveHistory e' = pushHistory (moveHistory e) (maxMoveHistory e) md
  ∧ allowUndo e' = allowUndo e
  ∧ maxMoveHistory e' = maxMoveHistory e.
Proof.
  unfold finishMove. destruct (markMoved _ _ _) as [b1|]; [|done].
  match goal with |- context [isCheckmate ?x] => set (e2 := x) end.
  destruct (isCheckmate_only_board e2) as [b2 H2].
  destruct (isCheckmate e2) as [mate e3]. simpl in H2. subst e3.
  destruct mate.
  - by intros [= _ <-].
  - destruct (isStalemate_only_board (set_board e2 b2)) as [b3 H3].
    destruct (isStalemate _) as [over e4]. simpl in H3. subst e4.
    by intros [= _ <-].
Qed.

Lemma pushCaptured_undo_fields e p :
  moveHistory (pushCaptured e p) = moveHistory e
  ∧ allowUndo (pushCaptured e p) = allowUndo e
  ∧ maxMoveHistory (pushCaptured e p) = maxMoveHistory e.
Proof. unfold pushCaptured. by destruct (pcolor p). Qed.

(** An applied move records the board it started from as the last
    history entry. *)
Lemma movePiece_records_board e fromRow fromCol toRow toCol res e' :
  wf_board (board e) → 0 ≤ maxMoveHistory e →
  movePiece e fromRow fromCol toRow toCol = Returned (res, e') →
  res ≠ Invalid →
  (∃ md, last (moveHistory e') = Some md ∧ boardState md = board e)
  ∧ allowUndo e' = allowUndo e
  ∧ maxMoveHistory e' = maxMoveHistory e.
Proof.
  intros Hwf Hmax. unfold movePiece.
  destruct (readCell _ _ _) as [[p|]|]; [| |done].
  2:{ by intros [= <- _]. }
  destruct (negb _); [by intros [= <- _]|].
  pose proof (calculatePossibleMoves_restores e fromRow fromCol Hwf) as Hr.
  destruct (calculatePossibleMoves e fromRow fromCol) as [moves e1].
  simpl in Hr. subst e1.
  destruct (find _ _); [|by intros [= <- _]].
  set (md := mkMoveData _ _ _ _ _).
  assert (Hgoal : ∀ e0, moveHistory e0 = moveHistory e → allowUndo e0 = allowUndo e →
            maxMoveHistory e0 = maxMoveHistory e →
            ∀ res0, finishMove e0 p md res0 toRow toCol = Returned (res, e') →
            (∃ md0, last (moveHistory e') = Some md0 ∧ boardState md0 = board e)
            ∧ allowUndo e' = allowUndo e ∧ maxMoveHistory e' = maxMoveHistory e).
  { intros e0 Hh Ha Hm res0 Hfin.
    apply finishMove_undo_fields in Hfin as (Hh' & Ha' & Hm').
    rewrite Hh', Ha', Hm', Hh, Ha, Hm. split; [|split; reflexivity].
    exists md. split; [by apply pushHistory_last|reflexivity]. }
  destruct (_ && _).
  { intros H _. by eapply Hgoal; [| | |exact H]. }
  destruct (_ && _).
  - destruct (executeEnPassant e fromRow fromCol toRow toCol) as [e2|] eqn:Hep; [|done].
    intros H _.
    assert (Hf : moveHistory e2 = moveHistory e ∧ allowUndo e2 = allowUndo e
                 ∧ maxMoveHistory e2 = maxMoveHistory e).
    { revert Hep. unfold executeEnPassant.
      match goal with
      | |- context [match getPiece ?b fromRow toCol with _ => _ end] =>
          destruct (getPiece b fromRow toCol) as [cp|]; [|done]
      end.
      intros [= <-]. cbn.
      match goal with
      | |- context [pushCaptured ?x cp] =>
          by destruct (pushCaptured_undo_fields x cp) as (? & ? & ?)
      end. }
    destruct Hf as (? & ? & ?). by eapply Hgoal; [| | |exact H].
  - intros H _.
    assert (Hf : moveHistory (executeRegular e p fromRow fromCol toRow toCol) = moveHistory e
                 ∧ allowUndo (executeRegular e p fromRow fromCol toRow toCol) = allowUndo e
                 ∧ maxMoveHistory (executeRegular e p fromRow fromCol toRow toCol)
                   = maxMoveHistory e).
    { unfold executeRegular.
      destruct (getPiece (board e) toRow toCol) as [t|]; [|done]. cbn.
      by destruct (pushCaptured_undo_fields e t) as (? & ? & ?). }
    destruct Hf as (? & ? & ?). by eapply Hgoal; [| | |exact H].
Qed.

(** One apply/undo pair: [undoMove] succeeds and puts back the board
    and the turn. *)
Lemma movePiece_undoMove e fromRow fromCol toRow toCol res e1 :
  wf_board (board e) → allowUndo e = true → 0 ≤ maxMoveHistory e →
  movePiece e fromRow fromCol toRow toCol = Returned (res, e1) →
  res ≠ Invalid →
  ∃ e2, undoMove e1 = (true, e2)
        ∧ board e2 = board e ∧ turn e2 = turn e
        ∧ allowUndo e2 = allowUndo e ∧ maxMoveHistory e2 = maxMoveHistory e.
Proof.
  intros Hwf Hallow Hmax Hmove Hres.
  pose proof (movePiece_switches_turn _ _ _ _ _ _ _ Hmove Hres) as Hturn.
  destruct (movePiece_records_board _ _ _ _ _ _ _ Hwf Hmax Hmove Hres)
    as ((md & Hlast & Hboard) & Ha & Hm).
  unfold undoMove. rewrite Ha, Hallow, Hlast. cbn [negb orb].
  destruct (Z.of_nat (length (moveHistory e1)) =? 0) eqn:Hlen.
  { apply Z.eqb_eq in Hlen. destruct (moveHistory e1); [done|simpl in Hlen; lia]. }
  eexists. split; [reflexivity|]. cbn.
  rewrite Hboard, Hturn, Hm. by destruct (turn e).
Qed.

Lemma applyUndoPairs_restores moves : ∀ e e',
  wf_board (board e) → allowUndo e = true → 0 ≤ maxMoveHistory e →
  applyUndoPairs e moves = Some e' →
  board e' = board e ∧ turn e' = turn e.
Proof.
  induction moves as [|[[[fr fc] tr] tc] rest IH]; intros e e' Hwf Hallow Hmax.
  { by intros [= <-]. }
  cbn [applyUndoPairs]. unfold applyUndo.
  destruct (movePiece e fr fc tr tc) as [[res e1]|] eqn:Hmove; [|done].
  case_bool_decide as Hres; [done|].
  destruct (movePiece_undoMove _ _ _ _ _ _ _ Hwf Hallow Hmax Hmove Hres)
    as (e2 & Hundo & Hb & Ht & Ha & Hm).
  rewrite Hundo. intros Hrest.
  apply IH in Hrest; [|by rewrite Hb|by rewrite Ha|by rewrite Hm].
  destruct Hrest as [-> ->]. done.
Qed.

(** ** The search layer: make and unmake *)

Ltac getset :=
  repeat first
    [ rewrite getPiece_setPiece_eq by (first [done | by repeat apply wf_setPiece])
    | rewrite getPiece_setPiece_ne by done ].

Lemma piece_eta p h : h = hasMoved p → mkPiece (ptype p) (pcolor p) h = p.
Proof. intros ->. by destruct p. Qed.

(** [undoMove] after [makeMove] restores the board, and with it the
    whole engine. *)
Lemma System_undoMove_makeMove e m r e1 :
  wf_board (board e) → inb (System.to m) →
  System.makeMove e m = (Some r, e1) →
  System.undoMove e1 r = e.
Proof.
  intros Hwf Hto. unfold System.makeMove.
  destruct m as [[fr fc] [tr tc]]. cbn [System.from System.to].
  destruct (getPiece (board e) fr fc) as [p|] eqn:Hp; [|done].
  pose proof (getPiece_Some_inb _ _ _ _ Hp) as Hfrom.
  intros [= <- <-]. unfold System.undoMove.
  cbn [System.originalState System.move System.from System.to
       System.os_piece System.os_captured System.os_turn System.os_lastMove
       System.os_check].
  assert (Hb : ∀ b', b' = board e →
    set_check (set_lastMove (set_turn (set_board
      (set_check (set_turn (set_board e
         (match getPiece (setPiece (setPiece (board e) tr tc (Some p)) fr fc None) tr tc with
          | Some _ => setPiece (setPiece (setPiece (board e) tr tc (Some p)) fr fc None)
                        tr tc (Some (mkPiece (ptype p) (pcolor p) true))
          | None => setPiece (setPiece (board e) tr tc (Some p)) fr fc None
          end)) (opponent (turn e)))
         (isKingInCheck
            (match getPiece (setPiece (setPiece (board e) tr tc (Some p)) fr fc None) tr tc with
             | Some _ => setPiece (setPiece (setPiece (board e) tr tc (Some p)) fr fc None)
                           tr tc (Some (mkPiece (ptype p) (pcolor p) true))
             | None => setPiece (setPiece (board e) tr tc (Some p)) fr fc None
             end) (opponent (turn e))))
      b') (turn e)) (lastMove e)) (check e) = e).
  { intros b' ->. by destruct e. }
  apply Hb. clear Hb.
  unfold set_check, set_turn, set_board. cbn [board].
  destruct (decide ((fr, fc) = (tr, tc))) as [Heq|Hne].
  - inversion Heq; subst tr tc. clear Heq.
    rewrite (getPiece_setPiece_eq _ fr fc None) by (by repeat apply wf_setPiece).
    rewrite Hp.
    rewrite (getPiece_setPiece_eq _ fr fc (Some p)) by (by repeat apply wf_setPiece).
    rewrite (piece_eta p (hasMoved p)) by done.
    apply board_ext; [by repeat apply wf_setPiece|done|].
    intros r c Hin. destruct (decide ((fr, fc) = (r, c))) as [Heq|Hne].
    + inversion Heq; subst. by getset.
    + by getset.
  - assert (Hne' : (tr, tc) ≠ (fr, fc)) by (intros H; by apply Hne).
    rewrite (getPiece_setPiece_ne _ fr fc None tr tc) by done.
    rewrite (getPiece_setPiece_eq _ tr tc (Some p)) by done.
    match goal with
    | |- context [match getPiece ?b fr fc with _ => _ end] =>
        assert (Hg : getPiece b fr fc = Some p) by (by getset)
    end.
    rewrite Hg, (piece_eta p (hasMoved p)) by done.
    apply board_ext; [by repeat apply wf_setPiece|done|].
    intros r c Hin. destruct (decide ((fr, fc) = (r, c))) as [Heq|Hne1].
    + inversion Heq; subst. by getset.
    + destruct (decide ((tr, tc) = (r, c))) as [Heq|Hne2].
      * inversion Heq; subst. by getset.
      * by getset.
Qed.

Lemma System_makeMove_wf e m r e1 :
  wf_board (board e) → System.makeMove e m = (r, e1) → wf_board (board e1).
Proof.
  intros Hwf. unfold System.makeMove.
  destruct m as [[fr fc] [tr tc]]. cbn [System.from System.to].
  destruct (getPiece (board e) fr fc) as [p|]; [|by intros [= _ <-]].
  intros [= _ <-]. cbn.
  destruct (getPiece _ tr tc); by repeat apply wf_setPiece.
Qed.

Lemma System_makeMove_fails e m e1 :
  System.makeMove e m = (None, e1) → e1 = e.
Proof.
  unfold System.makeMove. destruct m as [[fr fc] [tr tc]]. cbn [System.from System.to].
  destruct (getPiece (board e) fr fc); [done|]. by intros [= <-].
Qed.

(** ** The search layer: generated moves *)

Lemma filterLegal_Forall (P : Square → Prop) b row col color moves :
  Forall P moves → Forall P (filterLegal b row col color moves).1.
Proof.
  revert b. induction moves as [|[r c] rest IH]; intros b Hall; [constructor|].
  rewrite filterLegal_cons.
  destruct (wouldBeInCheck b row col r c color) as [inCheck b'].
  specialize (IH b' (Forall_inv_tail Hall)).
  destruct (filterLegal b' row col color rest) as [kept b'']. simpl in *.
  destruct inCheck; [done|]. constructor; [exact (Forall_inv Hall)|done].
Qed.

Lemma calculatePossibleMoves_inb e row col :
  Forall inb (calculatePossibleMoves e row col).1.
Proof.
  unfold calculatePossibleMoves.
  destruct (getPiece _ _ _) as [p|]; [|constructor].
  destruct (negb _); [constructor|].
  pose proof (filterLegal_Forall inb (board e) row col (pcolor p) _
                (pseudoMoves_inb (board e) (lastMove e) row col p)) as Hf.
  by destruct (filterLegal _ _ _ _ _).
Qed.

(** A move the search may receive: the origin holds a piece and the
    destination is a square of the board. *)
Definition playable (e : Engine) (m : System.Move) : Prop :=
  inb (System.to m) ∧ ∃ p, getPiece (board e) (System.from m).1 (System.from m).2 = Some p.

Lemma getAllPossibleMoves_loop_spec e color squares :
  wf_board (board e) →
  (System.getAllPossibleMoves_loop e color squares).2 = e
  ∧ Forall (playable e) (System.getAllPossibleMoves_loop e color squares).1.
Proof.
  intros Hwf. induction squares as [|[r c] rest IH]; [by split; [|constructor]|].
  cbn [System.getAllPossibleMoves_loop].
  destruct (getPiece (board e) r c) as [p|] eqn:Hp; [|done].
  destruct (color_eqb _ _); [|done].
  pose proof (calculatePossibleMoves_restores e r c Hwf) as Hr.
  pose proof (calculatePossibleMoves_inb e r c) as Hin.
  destruct (calculatePossibleMoves e r c) as [moves e']. simpl in Hr, Hin. subst e'.
  destruct IH as [IH1 IH2].
  destruct (System.getAllPossibleMoves_loop e color rest) as [more e'']. simpl in *.
  split; [done|]. apply Forall_app_2; [|done].
  apply Forall_fmap. eapply Forall_impl; [exact Hin|].
  intros t Ht. split; [exact Ht|]. by exists p.
Qed.

Lemma getAllPossibleMoves_spec e color :
  wf_board (board e) →
  (System.getAllPossibleMoves e color).2 = e
  ∧ Forall (playable e) (System.getAllPossibleMoves e color).1.
Proof. apply getAllPossibleMoves_loop_spec. Qed.

Lemma System_makeMove_playable e m :
  playable e m → ∃ r e1, System.makeMove e m = (Some r, e1).
Proof.
  intros [_ [p Hp]]. unfold System.makeMove.
  destruct m as [[fr fc] [tr tc]]. cbn [System.from System.to fst snd] in *.
  rewrite Hp. eauto.
Qed.

(** ** The search layer: [minimax] returns and leaves the engine as it was *)

Section SearchProperties.

Variable evaluatePosition : Engine → Color → Score.

Lemma minimax_loop_total rec isMaximizing moves : ∀ e best alpha beta,
  wf_board (board e) →
  Forall (λ m, inb (System.to m)) moves →
  (∀ e1 a b, wf_board (board e1) → ∃ s, rec e1 a b = Some (s, e1)) →
  ∃ s, System.minimax_loop rec isMaximizing moves e best alpha beta = Some (s, e).
Proof.
  induction moves as [|m rest IH]; intros e best alpha beta Hwf Hall Hrec.
  { by eexists. }
  cbn [System.minimax_loop].
  destruct (System.makeMove e m) as [[r|] e1] eqn:Hmake.
  2:{ apply System_makeMove_fails in Hmake. subst e1.
      apply IH; [done|exact (Forall_inv_tail Hall)|done]. }
  pose proof (System_makeMove_wf _ _ _ _ Hwf Hmake) as Hwf1.
  destruct (Hrec e1 alpha beta Hwf1) as [ev Hev]. rewrite Hev.
  rewrite (System_undoMove_makeMove e m r e1 Hwf (Forall_inv Hall) Hmake).
  destruct isMaximizing.
  - destruct (score_leb _ _); [by eexists|].
    apply IH; [done|exact (Forall_inv_tail Hall)|done].
  - destruct (score_leb _ _); [by eexists|].
    apply IH; [done|exact (Forall_inv_tail Hall)|done].
Qed.

(** With fuel above the depth, [minimax] returns a score and the
    engine it was given. *)
Lemma minimax_total fuel : ∀ e depth isMaximizing alpha beta,
  wf_board (board e) → 0 ≤ depth → (Z.to_nat depth < fuel)%nat →
  ∃ s, System.minimax evaluatePosition fuel e depth isMaximizing alpha beta = Some (s, e).
Proof.
  induction fuel as [|fuel IH]; intros e depth isMaximizing alpha beta Hwf Hd Hfuel; [lia|].
  cbn [System.minimax].
  destruct ((depth =? 0) || gameOver e) eqn:Hbase; [by eexists|].
  apply orb_false_iff in Hbase as [Hd0 _]. apply Z.eqb_neq in Hd0.
  destruct (getAllPossibleMoves_spec e (if isMaximizing then White else Black) Hwf)
    as [Hr Hall].
  destruct (System.getAllPossibleMoves e _) as [allMoves e0]. simpl in Hr, Hall. subst e0.
  apply minimax_loop_total; [done| |].
  - eapply Forall_impl; [exact Hall|]. by intros m [? _].
  - intros e1 a b Hwf1. apply IH; [done|lia|lia].
Qed.

End SearchProperties.

(** C2.  In the core engine (undo enabled, history bound not negative)
    every applied move followed by [undoMove] gives back the board and
    the turn, and so does every sequence of such pairs; in the search
    layer [undoMove] after [makeMove] gives back the engine, and a
    [minimax] call returns with the engine it was given. *)
Theorem apply_undo_round_trip (e : Engine)
  (Hwf : wf_board (board e)) (Hallow : allowUndo e = true)
  (Hmax : 0 ≤ maxMoveHistory e) :
  (∀ fromRow fromCol toRow toCol res e1,
      movePiece e fromRow fromCol toRow toCol = Returned (res, e1) → res ≠ Invalid →
      ∃ e2, undoMove e1 = (true, e2) ∧ board e2 = board e ∧ turn e2 = turn e)
  ∧ (∀ moves e', applyUndoPairs e moves = Some e' → board e' = board e ∧ turn e' = turn e)
  ∧ (∀ m r e1, inb (System.to m) → System.makeMove e m = (Some r, e1) →
       System.undoMove e1 r = e)
  ∧ (∀ evaluatePosition depth isMaximizing alpha beta, 0 ≤ depth →
       ∃ s, System.minimax evaluatePosition (S (Z.to_nat depth)) e depth isMaximizing
              alpha beta = Some (s, e)).
Proof.
  split; [|split; [|split]].
  - intros fromRow fromCol toRow toCol res e1 Hmove Hres.
    destruct (movePiece_undoMove _ _ _ _ _ _ _ Hwf Hallow Hmax Hmove Hres)
      as (e2 & ? & ? & ? & _).
    by exists e2.
  - intros moves e'. by apply applyUndoPairs_restores.
  - intros m r e1 Hto. by apply System_undoMove_makeMove.
  - intros evaluatePosition depth isMaximizing alpha beta Hd.
    apply minimax_total; [done|done|lia].
Qed.

(** ** The shuffle only permutes the move list *)

Lemma insert_head_Permutation {A} (a y : A) (l : list A) j :
  l !! j = Some y → Permutation (a :: l) (y :: <[j := a]> l).
Proof.
  revert j. induction l as [|b l IH]; intros [|j] Hj; try done.
  - injection Hj as ->. simpl. apply perm_swap.
  - simpl in *. rewrite perm_swap. rewrite (IH j Hj). apply perm_swap.
Qed.

Lemma swap_Permutation {A} (l : list A) i j : Permutation l (System.swap l i j).
Proof.
  unfold System.swap.
  destruct (l !! i) as [x|] eqn:Hi; [|done].
  destruct (l !! j) as [y|] eqn:Hj; [|done].
  revert i j Hi Hj. induction l as [|a l IH]; intros [|i] [|j] Hi Hj; try done.
  - injection Hi as ->. injection Hj as ->. done.
  - injection Hi as ->. simpl in *. by apply insert_head_Permutation.
  - injection Hj as ->. simpl in *. by apply insert_head_Permutation.
  - simpl in *. constructor. by apply IH.
Qed.

Lemma shuffle_loop_Permutation {A} i : ∀ js (l : list A),
  Permutation l (System.shuffle_loop i js l).
Proof.
  induction i as [|i IH]; intros js l; [done|].
  simpl. destruct js as [|j js]; [done|].
  rewrite <- IH. apply swap_Permutation.
Qed.

Lemma shuffleArray_Permutation {A} js (l : list A) :
  Permutation l (System.shuffleArray js l).
Proof. apply shuffle_loop_Permutation. Qed.

(** ** The best score does not depend on the shuffle *)

Lemma score_max_swap a x y :
  score_max (score_max a x) y = score_max (score_max a y) x.
Proof.
  destruct a, x, y; unfold score_max, score_ltb; try reflexivity;
    repeat match goal with
           | |- context [?u <? ?v] => destruct (Z.ltb_spec u v)
           end; try reflexivity; try (f_equal; lia); try lia.
Qed.

Lemma score_min_swap a x y :
  score_min (score_min a x) y = score_min (score_min a y) x.
Proof.
  destruct a, x, y; unfold score_min, score_ltb; try reflexivity;
    repeat match goal with
           | |- context [?u <? ?v] => destruct (Z.ltb_spec u v)
           end; try reflexivity; try (f_equal; lia); try lia.
Qed.

Lemma fold_left_Permutation {A B} (f : A → B → A) (l1 l2 : list B) :
  (∀ a x y, f (f a x) y = f (f a y) x) →
  Permutation l1 l2 → ∀ a, fold_left f l1 a = fold_left f l2 a.
Proof.
  intros Hf. induction 1 as [|x l1 l2 _ IH|x y l|l1 l2 l3 _ IH1 _ IH2]; intros a.
  - done.
  - simpl. apply IH.
  - simpl. by rewrite Hf.
  - by rewrite IH1.
Qed.

Section BestMove.

Variable evaluatePosition : Engine → Color → Score.
Variables (fuel : nat) (e : Engine) (depth : Z) (isMaximizing : bool).
Hypothesis Hwf : wf_board (board e).
Hypothesis Hdepth : 1 ≤ depth.
Hypothesis Hfuel : (Z.to_nat (depth - 1) < fuel)%nat.

(** The seed of [bestScore]. *)
Definition seed : Score := if isMaximizing then NegInf else PosInf.

(** [isMaximizing ? score > bestScore : score < bestScore] *)
Definition improves (score bestScore : Score) : bool :=
  if isMaximizing then score_ltb bestScore score else score_ltb score bestScore.

Definition scoreOf (m : System.Move) : Score :=
  default seed (System.rootScore evaluatePosition fuel e isMaximizing depth m).

(** One turn of the root loop on its two variables. *)
Definition pick (acc : option System.Move * Score) (m : System.Move)
  : option System.Move * Score :=
  if improves (scoreOf m) acc.2 then (Some m, scoreOf m) else acc.

Lemma rootScore_playable m :
  playable e m →
  ∃ r e1, System.makeMove e m = (Some r, e1)
          ∧ System.minimax evaluatePosition fuel e1 (depth - 1) (negb isMaximizing)
              NegInf PosInf = Some (scoreOf m, e1)
          ∧ System.rootScore evaluatePosition fuel e isMaximizing depth m
            = Some (scoreOf m).
Proof.
  intros Hm. destruct (System_makeMove_playable e m Hm) as (r & e1 & Hmake).
  pose proof (System_makeMove_wf _ _ _ _ Hwf Hmake) as Hwf1.
  destruct (minimax_total evaluatePosition fuel e1 (depth - 1) (negb isMaximizing)
              NegInf PosInf Hwf1 ltac:(lia) Hfuel) as [s Hs].
  assert (Hroot : System.rootScore evaluatePosition fuel e isMaximizing depth m = Some s).
  { unfold System.rootScore. by rewrite Hmake, Hs. }
  exists r, e1. unfold scoreOf. rewrite Hroot. simpl. by rewrite Hs.
Qed.

(** The root loop computes the fold of [pick] and gives the engine
    back. *)
Lemma bestMove_loop_fold moves : ∀ bestMove bestScore,
  Forall (playable e) moves →
  System.bestMove_loop evaluatePosition fuel depth isMaximizing moves e bestMove bestScore
  = Some (fold_left pick moves (bestMove, bestScore), e).
Proof.
  induction moves as [|m rest IH]; intros bestMove bestScore Hall; [done|].
  cbn [System.bestMove_loop fold_left].
  destruct (rootScore_playable m (Forall_inv Hall)) as (r & e1 & Hmake & Hmm & _).
  rewrite Hmake, Hmm.
  rewrite (System_undoMove_makeMove e m r e1 Hwf (proj1 (Forall_inv Hall)) Hmake).
  unfold pick at 2. unfold improves. cbn [snd].
  destruct isMaximizing; destruct (score_ltb _ _);
    apply IH; exact (Forall_inv_tail Hall).
Qed.

(** [Math.max] or [Math.min] over the scores seen so far. *)
Definition combine (best : Score) (m : System.Move) : Score :=
  if isMaximizing then score_max best (scoreOf m) else score_min best (scoreOf m).

Lemma pick_score moves : ∀ acc,
  (fold_left pick moves acc).2 = fold_left combine moves acc.2.
Proof.
  induction moves as [|m rest IH]; intros acc; [done|].
  cbn [fold_left]. rewrite IH. f_equal.
  unfold pick, improves, combine, score_max, score_min.
  destruct isMaximizing; by destruct (score_ltb _ _).
Qed.

Lemma combine_swap a x y : combine (combine a x) y = combine (combine a y) x.
Proof.
  unfold combine. destruct isMaximizing; [apply score_max_swap|apply score_min_swap].
Qed.

Lemma improves_seed s : improves s seed = false → s = seed.
Proof.
  unfold improves, seed. destruct isMaximizing; by destruct s.
Qed.

(** The move kept by the loop attains the score kept by the loop; while
    no move is kept, every move seen scored the seed. *)
Lemma pick_attains moves : ∀ acc,
  (∀ m, acc.1 = Some m → scoreOf m = acc.2) →
  (acc.1 = None → acc.2 = seed) →
  (∀ m, (fold_left pick moves acc).1 = Some m →
        scoreOf m = (fold_left pick moves acc).2)
  ∧ ((fold_left pick moves acc).1 = None →
     (fold_left pick moves acc).2 = seed ∧ ∀ m, In m moves → scoreOf m = seed).
Proof.
  induction moves as [|m0 rest IH]; intros acc Hsome Hnone.
  { split; [done|]. intros H. split; [by apply Hnone|]. intros m []. }
  cbn [fold_left].
  assert (Hs : ∀ m, (pick acc m0).1 = Some m → scoreOf m = (pick acc m0).2).
  { unfold pick. destruct (improves _ _); [|done]. by intros m [= <-]. }
  assert (Hn : (pick acc m0).1 = None → (pick acc m0).2 = seed).
  { unfold pick. destruct (improves _ _); [done|]. done. }
  destruct (IH (pick acc m0) Hs Hn) as [IH1 IH2].
  split; [done|]. intros Hfin. destruct (IH2 Hfin) as [Hseed Hrest].
  split; [done|]. intros m [<-|Hin]; [|by apply Hrest].
  assert (Hacc : (pick acc m0).1 = None).
  { clear -Hfin. revert Hfin. generalize (pick acc m0). clear.
    induction rest as [|m rest IH]; intros acc; [done|].
    cbn [fold_left]. intros H. apply IH in H. revert H.
    unfold pick. by destruct (improves _ _). }
  revert Hacc. unfold pick. destruct (improves _ _) eqn:Himp; [done|].
  intros Hacc. apply improves_seed. by rewrite <- (Hnone Hacc).
Qed.

Lemma pick_member moves : ∀ acc m,
  (fold_left pick moves acc).1 = Some m → acc.1 = Some m ∨ In m moves.
Proof.
  induction moves as [|m0 rest IH]; intros acc m; [by left|].
  cbn [fold_left]. intros H. apply IH in H as [H|H]; [|by right; right].
  revert H. unfold pick. destruct (improves _ _); [|by left].
  intros [= <-]. right. by left.
Qed.

End BestMove.

(** Two runs of [getBestMoveMinMax] on the same engine, colour and
    depth that differ only in how [shuffleArray] permutes the move list
    both return, compute the same best score and leave the engine as it
    was; the move each run returns is one whose root score is that best
    score. *)
Lemma System_best_score_independent_of_shuffle
  (evaluatePosition : Engine → Color → Score)
  (shuffle1 shuffle2 : list System.Move → list System.Move)
  (e : Engine) (color : Color) (depth : Z)
  (Hwf : wf_board (board e)) (Hdepth : 1 ≤ depth)
  (Hperm1 : ∀ l, Permutation l (shuffle1 l))
  (Hperm2 : ∀ l, Permutation l (shuffle2 l)) :
  ∃ bestScore move1 move2,
    System.getBestMoveMinMax evaluatePosition shuffle1 (Z.to_nat depth) e color depth
      = Some (move1, bestScore, e)
    ∧ System.getBestMoveMinMax evaluatePosition shuffle2 (Z.to_nat depth) e color depth
      = Some (move2, bestScore, e)
    ∧ (∀ m, move1 = Some m →
         System.rootScore evaluatePosition (Z.to_nat depth) e (color_eqb color White) depth m
         = Some bestScore)
    ∧ (∀ m, move2 = Some m →
         System.rootScore evaluatePosition (Z.to_nat depth) e (color_eqb color White) depth m
         = Some bestScore).
Proof.
  set (fuel := Z.to_nat depth). set (isMax := color_eqb color White).
  assert (Hfuel : (Z.to_nat (depth - 1) < fuel)%nat) by (unfold fuel; lia).
  destruct (getAllPossibleMoves_spec e color Hwf) as [Hr Hall].
  set (sd := seed isMax).
  set (pk := pick evaluatePosition fuel e depth isMax).
  assert (Hrun : ∀ shuffle, (∀ l, Permutation l (shuffle l)) →
    let moves := shuffle (System.getAllPossibleMoves e color).1 in
    System.getBestMoveMinMax evaluatePosition shuffle fuel e color depth
      = Some (match (fold_left pk moves (None, sd)).1 with
              | Some m => Some m
              | None => head moves
              end,
              fold_left (combine evaluatePosition fuel e depth isMax)
                (System.getAllPossibleMoves e color).1 sd, e)
    ∧ ∀ m, match (fold_left pk moves (None, sd)).1 with
           | Some m => Some m
           | None => head moves
           end = Some m →
        System.rootScore evaluatePosition fuel e isMax depth m
        = Some (fold_left (combine evaluatePosition fuel e depth isMax)
                  (System.getAllPossibleMoves e color).1 sd)).
  { intros shuffle Hperm moves.
    assert (Hall' : Forall (playable e) moves).
    { eapply Permutation_Forall; [apply Hperm|exact Hall]. }
    assert (Hscore : (fold_left pk moves (None, sd)).2
                     = fold_left (combine evaluatePosition fuel e depth isMax)
                         (System.getAllPossibleMoves e color).1 sd).
    { unfold pk. rewrite pick_score. cbn [snd].
      apply fold_left_Permutation; [apply combine_swap|].
      symmetry. apply Hperm. }
    split.
    - unfold System.getBestMoveMinMax. fold isMax.
      destruct (System.getAllPossibleMoves e color) as [allMoves0 e0].
      simpl in Hr. subst e0. cbn [fst] in *. fold moves.
      rewrite (bestMove_loop_fold evaluatePosition fuel e depth isMax Hwf Hdepth Hfuel
                 moves None (if isMax then NegInf else PosInf) Hall').
      change (if isMax then NegInf else PosInf) with sd. fold pk.
      destruct (fold_left pk moves (None, sd)) as [bm bs] eqn:Hfold.
      cbn [fst snd] in *. by subst bs.
    - intros m Hm.
      destruct (pick_attains evaluatePosition fuel e depth isMax moves (None, sd))
        as [Hsome Hnone]; [done|done|].
      fold pk in Hsome, Hnone. rewrite <- Hscore.
      assert (Hin : In m moves ∧ scoreOf evaluatePosition fuel e depth isMax m
                                 = (fold_left pk moves (None, sd)).2).
      { destruct (fold_left pk moves (None, sd)).1 as [m'|] eqn:Hbm.
        - injection Hm as ->. split; [|by apply Hsome].
          by destruct (pick_member evaluatePosition fuel e depth isMax moves
                         (None, sd) m Hbm).
        - destruct (Hnone eq_refl) as [Hseed Hrest].
          destruct moves as [|m0 rest]; [done|]. injection Hm as ->.
          split; [by left|]. rewrite Hseed. apply Hrest. by left. }
      destruct Hin as [Hin Hsc].
      rewrite List.Forall_forall in Hall'.
      destruct (rootScore_playable evaluatePosition fuel e depth isMax Hwf Hdepth Hfuel m
                  (Hall' m Hin)) as (_ & _ & _ & _ & Hroot).
      by rewrite Hroot, Hsc. }
  destruct (Hrun shuffle1 Hperm1) as [H1 H1'].
  destruct (Hrun shuffle2 Hperm2) as [H2 H2'].
  eexists _, _, _. split; [exact H1|]. split; [exact H2|]. split; assumption.
Qed.

(** ** The stand-alone engine: the legality filter writes the board back *)

Lemma ChessEngine_filterLegal_cons b row col color tr tc rest :
  ChessEngine.filterLegal b row col color ((tr, tc) :: rest)
  = let '(kept, b') :=
      ChessEngine.filterLegal (wouldBeInCheck b row col tr tc color).2 row col color rest in
    (if ChessEngine.isKingInCheck
          (setPiece (setPiece b tr tc (getPiece b row col)) row col None) color
     then kept else (tr, tc) :: kept, b').
Proof. reflexivity. Qed.

Lemma ChessEngine_filterLegal_spec b row col color moves :
  wf_board b → Forall inb moves →
  (ChessEngine.filterLegal b row col color moves).2 = b
  ∧ Forall inb (ChessEngine.filterLegal b row col color moves).1.
Proof.
  intros Hwf. induction 1 as [|[tr tc] rest Ht Hrest IH]; [by split; [|constructor]|].
  rewrite ChessEngine_filterLegal_cons.
  rewrite (wouldBeInCheck_restores b row col tr tc color Hwf Ht).
  destruct IH as [IH1 IH2].
  destruct (ChessEngine.filterLegal b row col color rest) as [kept b']. simpl in *.
  split; [done|]. destruct (ChessEngine.isKingInCheck _ _); [done|by constructor].
Qed.

Lemma ChessEngine_ray_inb fuel b opp r c dr dc :
  Forall inb (ChessEngine.ray fuel b opp r c dr dc).
Proof.
  revert r c. induction fuel as [|fuel IH]; intros r c; simpl; [constructor|].
  destruct (isInBounds r c) eqn:Hin; [|constructor].
  destruct (getPiece b r c) as [p|].
  - destruct (color_eqb _ _); repeat constructor; done.
  - constructor; [done|apply IH].
Qed.

Lemma ChessEngine_ring_inb row col : Forall inb (ChessEngine.ring row col).
Proof.
  unfold ChessEngine.ring. apply Forall_flat_map. intros r.
  apply Forall_flat_map. intros c. repeat inb_step.
Qed.

Lemma ChessEngine_pseudoMoves_inb b lm row col p :
  isInBounds row col = true → Forall inb (ChessEngine.pseudoMoves b lm row col p).
Proof.
  intros Hrc. apply isInBounds_spec in Hrc.
  unfold ChessEngine.pseudoMoves. destruct (ptype p); cbv zeta.
  - apply Forall_app_2; [repeat inb_step|].
    apply Forall_flat_map. intros dc. repeat inb_step.
  - apply Forall_flat_map. intros d. repeat inb_step.
  - apply Forall_flat_map. intros d. apply ChessEngine_ray_inb.
  - apply Forall_flat_map. intros d. apply ChessEngine_ray_inb.
  - apply Forall_flat_map. intros d. apply ChessEngine_ray_inb.
  - apply Forall_app_2.
    + pose proof (ChessEngine_ring_inb row col) as Hring.
      induction Hring as [|[r c] l Hrc' Hl IH]; simpl; [constructor|].
      apply Forall_app_2; [|exact IH]. repeat inb_step.
    + repeat inb_step; apply isInBounds_spec; simpl; lia.
Qed.

Lemma ChessEngine_calculatePossibleMoves_spec s row col :
  wf_board (ChessEngine.board s) →
  (ChessEngine.calculatePossibleMoves s row col).2 = s
  ∧ Forall inb (ChessEngine.calculatePossibleMoves s row col).1.
Proof.
  intros Hwf. unfold ChessEngine.calculatePossibleMoves.
  destruct (getPiece (ChessEngine.board s) row col) as [p|] eqn:Hp;
    [|by split; [|constructor]].
  destruct (ChessEngine_filterLegal_spec (ChessEngine.board s) row col (pcolor p)
              (ChessEngine.pseudoMoves (ChessEngine.board s) (ChessEngine.lastMove s) row col p)
              Hwf (ChessEngine_pseudoMoves_inb _ _ _ _ _ (getPiece_Some_inb _ _ _ _ Hp)))
    as [H1 H2].
  destruct (ChessEngine.filterLegal _ _ _ _ _) as [moves b']. simpl in *. subst b'.
  split; [by destruct s|done].
Qed.

(** ** ChessAI: generated moves, make and unmake *)

Definition ai_playable (s : ChessEngine.State) (m : ChessAI.Move) : Prop :=
  inb (ChessAI.to m)
  ∧ ∃ p, getPiece (ChessEngine.board s) (ChessAI.from m).1 (ChessAI.from m).2 = Some p.

Lemma ChessAI_generateAllLegalMoves_loop_spec s color squares :
  wf_board (ChessEngine.board s) →
  (ChessAI.generateAllLegalMoves_loop s color squares).2 = s
  ∧ Forall (ai_playable s) (ChessAI.generateAllLegalMoves_loop s color squares).1.
Proof.
  intros Hwf. induction squares as [|[r c] rest IH]; [by split; [|constructor]|].
  cbn [ChessAI.generateAllLegalMoves_loop].
  destruct (getPiece (ChessEngine.board s) r c) as [p|] eqn:Hp; [|done].
  destruct (color_eqb _ _); [|done].
  destruct (ChessEngine_calculatePossibleMoves_spec s r c Hwf) as [Hr Hin].
  destruct (ChessEngine.calculatePossibleMoves s r c) as [legal s'].
  simpl in Hr, Hin. subst s'.
  destruct IH as [IH1 IH2].
  destruct (ChessAI.generateAllLegalMoves_loop s color rest) as [more s'']. simpl in *.
  split; [done|]. apply Forall_app_2; [|done].
  apply Forall_fmap. eapply Forall_impl; [exact Hin|].
  intros t Ht. split; [exact Ht|]. by exists p.
Qed.

Lemma ChessAI_generateAllLegalMoves_spec s color :
  wf_board (ChessEngine.board s) →
  (ChessAI.generateAllLegalMoves s color).2 = s
  ∧ Forall (ai_playable s) (ChessAI.generateAllLegalMoves s color).1.
Proof. apply ChessAI_generateAllLegalMoves_loop_spec. Qed.

(** [unmakeMove] after [makeMove] gives the game back. *)
Lemma ChessAI_unmakeMove_makeMove s m u s1 :
  wf_board (ChessEngine.board s) → inb (ChessAI.to m) →
  ChessAI.makeMove s m = Some (u, s1) →
  wf_board (ChessEngine.board s1) ∧ ChessAI.unmakeMove s1 m u = s.
Proof.
  intros Hwf Hto. unfold ChessAI.makeMove.
  destruct m as [[fr fc] [tr tc] mp]. cbn [ChessAI.from ChessAI.to fst snd] in *.
  destruct (getPiece (ChessEngine.board s) fr fc) as [p|] eqn:Hp; [|done].
  intros [= <- <-]. split; [cbn; by repeat apply wf_setPiece|].
  unfold ChessAI.unmakeMove.
  cbn [ChessAI.from ChessAI.to fst snd ChessAI.u_piece ChessAI.u_captured
       ChessEngine.board ChessEngine.set_board].
  assert (Hb : ∀ b1 b', b' = ChessEngine.board s →
            ChessEngine.set_board (ChessEngine.set_board s b1) b' = s).
  { intros b1 b' ->. by destruct s. }
  apply Hb. apply board_ext; [by repeat apply wf_setPiece|done|].
  intros r c Hin.
  destruct (decide ((tr, tc) = (r, c))) as [Heq|Hne].
  { inversion Heq; subst. by getset. }
  destruct (decide ((fr, fc) = (r, c))) as [Heq|Hne'].
  { inversion Heq; subst. by getset. }
  by getset.
Qed.

Lemma ChessAI_makeMove_playable s m :
  ai_playable s m → ∃ u s1, ChessAI.makeMove s m = Some (u, s1).
Proof.
  intros [_ [p Hp]]. unfold ChessAI.makeMove. rewrite Hp. eauto.
Qed.

Section ChessAIProperties.

Variable evaluatePosition : ChessEngine.State → Color → Score.

Lemma ChessAI_recursive_loop_total rec moves : ∀ s best,
  wf_board (ChessEngine.board s) →
  Forall (ai_playable s) moves →
  (∀ s1, wf_board (ChessEngine.board s1) → ∃ v, rec s1 = Some (v, s1)) →
  ∃ v, ChessAI.recursive_loop rec moves s best = Some (v, s).
Proof.
  induction moves as [|m rest IH]; intros s best Hwf Hall Hrec; [by eexists|].
  cbn [ChessAI.recursive_loop].
  destruct (ChessAI_makeMove_playable s m (Forall_inv Hall)) as (u & s1 & Hmake).
  rewrite Hmake.
  destruct (ChessAI_unmakeMove_makeMove s m u s1 Hwf (proj1 (Forall_inv Hall)) Hmake)
    as [Hwf1 Hun].
  destruct (Hrec s1 Hwf1) as [v Hv]. rewrite Hv, Hun.
  apply IH; [done|exact (Forall_inv_tail Hall)|done].
Qed.

(** With fuel above the depth, [minimaxRecursive] returns a score and
    the game it was given. *)
Lemma ChessAI_minimaxRecursive_total fuel : ∀ s color depth,
  wf_board (ChessEngine.board s) → 0 ≤ depth → (Z.to_nat depth < fuel)%nat →
  ∃ v, ChessAI.minimaxRecursive evaluatePosition fuel s color depth = Some (v, s).
Proof.
  induction fuel as [|fuel IH]; intros s color depth Hwf Hd Hfuel; [lia|].
  cbn [ChessAI.minimaxRecursive].
  destruct (depth =? 0) eqn:Hd0; [by eexists|]. apply Z.eqb_neq in Hd0.
  destruct (ChessAI_generateAllLegalMoves_spec s color Hwf) as [Hr Hall].
  destruct (ChessAI.generateAllLegalMoves s color) as [moves s1].
  simpl in Hr, Hall. subst s1.
  destruct (Z.of_nat (length moves) =? 0).
  { destruct (ChessEngine.isKingInCheck _ _); by eexists. }
  apply ChessAI_recursive_loop_total; [done|done|].
  intros s1 Hwf1. apply IH; [done|lia|lia].
Qed.

(** At a node without legal moves [minimaxRecursive] answers the mate
    score or [0]. *)
Lemma ChessAI_minimaxRecursive_without_legal_moves fuel s color depth :
  wf_board (ChessEngine.board s) → 0 < depth →
  (ChessAI.generateAllLegalMoves s color).1 = [] →
  ChessAI.minimaxRecursive evaluatePosition (S fuel) s color depth
  = Some (if ChessEngine.isKingInCheck (ChessEngine.board s) color
          then Fin (ChessAI.mateScore depth) else Fin 0, s).
Proof.
  intros Hwf Hd Hnone. cbn [ChessAI.minimaxRecursive].
  replace (depth =? 0) with false by (symmetry; apply Z.eqb_neq; lia).
  destruct (ChessAI_generateAllLegalMoves_spec s color Hwf) as [Hr _].
  destruct (ChessAI.generateAllLegalMoves s color) as [moves s1].
  simpl in Hr, Hnone. subst s1 moves. cbn [length Z.of_nat Z.eqb].
  by destruct (ChessEngine.isKingInCheck _ _).
Qed.

Variables (fuel : nat) (s : ChessEngine.State) (color : Color) (depth : Z).
Hypothesis Hwf : wf_board (ChessEngine.board s).
Hypothesis Hdepth : 1 ≤ depth.
Hypothesis Hfuel : (Z.to_nat (depth - 1) < fuel)%nat.

Definition ai_scoreOf (m : ChessAI.Move) : Score :=
  default NegInf (ChessAI.rootScore evaluatePosition fuel s color depth m).

(** One turn of the root loop of [minimax] on its two variables. *)
Definition ai_pick (acc : Score * list ChessAI.Move) (m : ChessAI.Move)
  : Score * list ChessAI.Move :=
  if score_ltb acc.1 (ai_scoreOf m) then (ai_scoreOf m, [m])
  else if bool_decide (ai_scoreOf m = acc.1) then (acc.1, acc.2 ++ [m])
       else acc.

Lemma ChessAI_rootScore_playable m :
  ai_playable s m →
  ∃ u s1 v, ChessAI.makeMove s m = Some (u, s1)
    ∧ ChessAI.minimaxRecursive evaluatePosition fuel s1 (opponent color) (depth - 1)
      = Some (v, s1)
    ∧ ChessAI.unmakeMove s1 m u = s
    ∧ score_neg v = ai_scoreOf m
    ∧ ChessAI.rootScore evaluatePosition fuel s color depth m = Some (ai_scoreOf m).
Proof.
  intros Hm. destruct (ChessAI_makeMove_playable s m Hm) as (u & s1 & Hmake).
  destruct (ChessAI_unmakeMove_makeMove s m u s1 Hwf (proj1 Hm) Hmake) as [Hwf1 Hun].
  destruct (ChessAI_minimaxRecursive_total fuel s1 (opponent color) (depth - 1)
              Hwf1 ltac:(lia) Hfuel) as [v Hv].
  exists u, s1, v. unfold ai_scoreOf, ChessAI.rootScore. by rewrite Hmake, Hv.
Qed.

Lemma ChessAI_root_loop_fold moves : ∀ bestScore bestMoves,
  Forall (ai_playable s) moves →
  ChessAI.root_loop evaluatePosition fuel color depth moves s bestScore bestMoves
  = Some (fold_left ai_pick moves (bestScore, bestMoves), s).
Proof.
  induction moves as [|m rest IH]; intros bestScore bestMoves Hall; [done|].
  cbn [ChessAI.root_loop fold_left].
  destruct (ChessAI_rootScore_playable m (Forall_inv Hall))
    as (u & s1 & v & Hmake & Hrec & Hun & Hsc & _).
  rewrite Hmake, Hrec, Hun, Hsc. unfold ai_pick at 2. cbn [fst snd].
  destruct (score_ltb _ _); [apply IH; exact (Forall_inv_tail Hall)|].
  destruct (bool_decide _); apply IH; exact (Forall_inv_tail Hall).
Qed.

(** Every move in the list of ties scored the best score. *)
Lemma ai_pick_ties moves : ∀ acc,
  Forall (λ m, ai_scoreOf m = acc.1) acc.2 →
  Forall (λ m, ai_scoreOf m = (fold_left ai_pick moves acc).1)
    (fold_left ai_pick moves acc).2.
Proof.
  induction moves as [|m0 rest IH]; intros acc Hacc; [done|].
  cbn [fold_left]. apply IH. unfold ai_pick.
  destruct (score_ltb _ _); [by repeat constructor|].
  case_bool_decide as Heq; [|done].
  cbn [fst snd]. apply Forall_app_2; [done|]. by repeat constructor.
Qed.

Lemma ai_pick_members moves : ∀ acc m,
  In m (fold_left ai_pick moves acc).2 → In m acc.2 ∨ In m moves.
Proof.
  induction moves as [|m0 rest IH]; intros acc m; [by left|].
  cbn [fold_left]. intros H. apply IH in H as [H|H]; [|by right; right].
  revert H. unfold ai_pick.
  destruct (score_ltb _ _).
  { intros [<-|[]]. right. by left. }
  destruct (bool_decide _); [|by left].
  cbn [snd]. intros H. apply in_app_or in H as [H|[<-|[]]]; [by left|].
  right. by left.
Qed.

End ChessAIProperties.

(** ** The two searches at a node without legal moves *)

(** C6, as the code has it.  Of a node where the side to move has no
    legal move.  With remaining depth [depth > 0],
    [StockfishLikeEngine.search] and [ChessAI.minimaxRecursive] return,
    with the position as it was: the mate score
    ([-9999 + (4 - depth)], resp. [-99999 + (5 - depth)]) if that side
    is in check, a negative number of magnitude at least 9000 that is
    lower the more depth remains (so the mating side, which negates it,
    ranks the mate nearer the root higher), and exactly [0] if it is
    not in check.  With remaining depth [0], at the horizon, neither
    search looks for legal moves: [search] hands the node to the
    quiescence search, which without a legal move returns the
    evaluator's value clamped to the window, and [minimaxRecursive]
    returns the evaluator's value, mate or stalemate or not. *)
Theorem search_without_legal_moves
  (evaluate : Board → Color → Score)
  (evaluatePosition : ChessEngine.State → Color → Score)
  (fuel : nat) (b : Board) (s : ChessEngine.State) (color : Color) (depth : Z)
  (alpha beta : Score)
  (Hwf : wf_board b) (Hwfs : wf_board (ChessEngine.board s))
  (Hnone : (Stockfish.generateAllLegalMoves b color).1 = [])
  (Hnones : (ChessAI.generateAllLegalMoves s color).1 = []) :
  (0 < depth →
   (Stockfish.search evaluate (S fuel) b color depth alpha beta
      = Some (if Stockfish.isKingInCheck b color
              then Fin (Stockfish.mateScore depth) else Fin 0, b)
    ∧ Stockfish.mateScore depth = -9999 + (4 - depth)
    ∧ Stockfish.mateScore depth < 0
    ∧ 9000 ≤ Z.abs (Stockfish.mateScore depth)
    ∧ ∀ nearer, depth < nearer →
        Stockfish.mateScore nearer < Stockfish.mateScore depth)
   ∧ (ChessAI.minimaxRecursive evaluatePosition (S fuel) s color depth
        = Some (if ChessEngine.isKingInCheck (ChessEngine.board s) color
                then Fin (ChessAI.mateScore depth) else Fin 0, s)
      ∧ ChessAI.mateScore depth = -99999 + (5 - depth)
      ∧ ChessAI.mateScore depth < 0
      ∧ 9000 ≤ Z.abs (ChessAI.mateScore depth)
      ∧ ∀ nearer, depth < nearer →
          ChessAI.mateScore nearer < ChessAI.mateScore depth))
  ∧ (depth = 0 →
     Stockfish.search evaluate (S fuel) b color depth alpha beta
       = Some (if score_leb beta (evaluate b color) then beta
               else score_max alpha (evaluate b color), b)
     ∧ ChessAI.minimaxRecursive evaluatePosition (S fuel) s color depth
       = Some (evaluatePosition s color, s)).
Proof.
  split.
  - intros Hdepth. split.
    + by apply Stockfish_search_without_legal_moves.
    + split; [by apply ChessAI_minimaxRecursive_without_legal_moves|].
      unfold ChessAI.mateScore. repeat split; intros; lia.
  - intros ->. split; [|reflexivity].
    cbn [Stockfish.search Z.eqb Stockfish.quiescenceSearch Z.gtb Z.compare].
    destruct (score_leb beta (evaluate b color)); [reflexivity|].
    unfold Stockfish.generateCaptures.
    pose proof (generateAllLegalMoves_restores b color Hwf) as Hr.
    destruct (Stockfish.generateAllLegalMoves b color) as [moves b1].
    cbn [fst snd] in Hr, Hnone. subst b1 moves. cbn [List.filter].
    pose proof (orderMoves_Permutation b []) as Hperm.
    apply Permutation_nil in Hperm. rewrite Hperm. reflexivity.
Qed.

Lemma search_without_legal_moves_witness :
  (Stockfish.search (λ _ _, Fin 0) 4 (board backRankMate) Black 3 NegInf PosInf
     = Some (Fin (-9998), board backRankMate)
   ∧ ChessAI.minimaxRecursive ChessAI_material 4
       (ChessEngine_position (board backRankMate) Black) Black 3
     = Some (Fin (-99997), ChessEngine_position (board backRankMate) Black))
  ∧ (Stockfish.search (λ _ _, Fin 0) 4 (board cornerStalemate) Black 3 NegInf PosInf
       = Some (Fin 0, board cornerStalemate)
     ∧ ChessAI.minimaxRecursive ChessAI_material 4
         (ChessEngine_position (board cornerStalemate) Black) Black 3
       = Some (Fin 0, ChessEngine_position (board cornerStalemate) Black)).
Proof.
  split.
  - assert (Hwf : wf_board (board backRankMate))
      by (vm_compute; split; [reflexivity|repeat constructor]).
    assert (Hnone : (Stockfish.generateAllLegalMoves (board backRankMate) Black).1 = [])
      by (vm_compute; reflexivity).
    assert (Hnones : (ChessAI.generateAllLegalMoves
                        (ChessEngine_position (board backRankMate) Black) Black).1 = [])
      by (vm_compute; reflexivity).
    destruct (proj1 (search_without_legal_moves (λ _ _, Fin 0) ChessAI_material 3
                (board backRankMate) (ChessEngine_position (board backRankMate) Black)
                Black 3 NegInf PosInf Hwf Hwf Hnone Hnones) ltac:(lia))
      as [[Hs _] [Hr _]].
    rewrite Hs, Hr.
    replace (Stockfish.isKingInCheck (board backRankMate) Black) with true
      by (vm_compute; reflexivity).
    replace (ChessEngine.isKingInCheck
               (ChessEngine.board (ChessEngine_position (board backRankMate) Black)) Black)
      with true by (vm_compute; reflexivity).
    split; reflexivity.
  - assert (Hwf : wf_board (board cornerStalemate))
      by (vm_compute; split; [reflexivity|repeat constructor]).
    assert (Hnone : (Stockfish.generateAllLegalMoves (board cornerStalemate) Black).1 = [])
      by (vm_compute; reflexivity).
    assert (Hnones : (ChessAI.generateAllLegalMoves
                        (ChessEngine_position (board cornerStalemate) Black) Black).1 = [])
      by (vm_compute; reflexivity).
    destruct (proj1 (search_without_legal_moves (λ _ _, Fin 0) ChessAI_material 3
                (board cornerStalemate) (ChessEngine_position (board cornerStalemate) Black)
                Black 3 NegInf PosInf Hwf Hwf Hnone Hnones) ltac:(lia))
      as [[Hs _] [Hr _]].
    rewrite Hs, Hr.
    replace (Stockfish.isKingInCheck (board cornerStalemate) Black) with false
      by (vm_compute; reflexivity).
    replace (ChessEngine.isKingInCheck
               (ChessEngine.board (ChessEngine_position (board cornerStalemate) Black)) Black)
      with false by (vm_compute; reflexivity).
    split; reflexivity.
Defined.

(** C6 as the claim words it, for every node, fails at the horizon.
    In the back-rank mate Black is in check without a legal move, yet
    with remaining depth [0] [search] returns [-465], the value of the
    worker's evaluator, and no mate score; in the corner stalemate it
    returns [-1190] and not [0].  [minimaxRecursive] at depth [0]
    returns what its evaluator says of the mated position, [-300] for
    the material count that [evaluatePosition] starts from. *)
Lemma horizon_node_is_scored_by_the_evaluator :
  ((Stockfish.generateAllLegalMoves (board backRankMate) Black).1 = []
   ∧ Stockfish.isKingInCheck (board backRankMate) Black = true
   ∧ Stockfish.search (λ b c, Fin (Stockfish_evaluate b c).1) 1
       (board backRankMate) Black 0 NegInf PosInf
     = Some (Fin (-465), board backRankMate))
  ∧ ((Stockfish.generateAllLegalMoves (board cornerStalemate) Black).1 = []
     ∧ Stockfish.isKingInCheck (board cornerStalemate) Black = false
     ∧ Stockfish.search (λ b c, Fin (Stockfish_evaluate b c).1) 1
         (board cornerStalemate) Black 0 NegInf PosInf
       = Some (Fin (-1190), board cornerStalemate))
  ∧ ((ChessAI.generateAllLegalMoves
        (ChessEngine_position (board backRankMate) Black) Black).1 = []
     ∧ ChessEngine.isKingInCheck (board backRankMate) Black = true
     ∧ (∀ evaluatePosition,
          ChessAI.minimaxRecursive evaluatePosition 1
            (ChessEngine_position (board backRankMate) Black) Black 0
          = Some (evaluatePosition (ChessEngine_position (board backRankMate) Black) Black,
                  ChessEngine_position (board backRankMate) Black))
     ∧ ChessAI.minimaxRecursive ChessAI_material 1
         (ChessEngine_position (board backRankMate) Black) Black 0
       = Some (Fin (-300), ChessEngine_position (board backRankMate) Black)).
Proof.
  split; [|split].
  - split; [vm_compute; reflexivity|]. split; vm_compute; reflexivity.
  - split; [vm_compute; reflexivity|]. split; vm_compute; reflexivity.
  - split; [vm_compute; reflexivity|]. split; [vm_compute; reflexivity|].
    split; [intros evaluatePosition; reflexivity|vm_compute; reflexivity].
Qed.


(** ** The best score of the two root searches *)

(** Two runs of [ChessAI.minimax] on the same game, colour, depth and
    move list that differ only in the random index compute the same
    best score and the same list of tied moves, and leave the game as
    it was; every tied move has the best score as its root score. *)
Lemma ChessAI_minimax_score_independent
  (evaluatePosition : ChessEngine.State → Color → Score) (rnd1 rnd2 : nat)
  (s : ChessEngine.State) (color : Color) (depth : Z) (moves : list ChessAI.Move) :
  wf_board (ChessEngine.board s) → 1 ≤ depth → Forall (ai_playable s) moves →
  ∃ bestScore ties,
    ChessAI.minimax evaluatePosition rnd1 (Z.to_nat depth) s color depth moves
      = Some (ties !! rnd1, bestScore, ties, s)
    ∧ ChessAI.minimax evaluatePosition rnd2 (Z.to_nat depth) s color depth moves
      = Some (ties !! rnd2, bestScore, ties, s)
    ∧ Forall (λ m, ChessAI.rootScore evaluatePosition (Z.to_nat depth) s color depth m
                   = Some bestScore) ties.
Proof.
  intros Hwf Hdepth Hall.
  assert (Hfuel : (Z.to_nat (depth - 1) < Z.to_nat depth)%nat) by lia.
  pose proof (ChessAI_root_loop_fold evaluatePosition (Z.to_nat depth) s color depth
                Hwf Hdepth Hfuel moves NegInf [] Hall) as Hloop.
  pose proof (ai_pick_ties evaluatePosition (Z.to_nat depth) s color depth moves
                (NegInf, []) ltac:(constructor)) as Hties.
  pose proof (ai_pick_members evaluatePosition (Z.to_nat depth) s color depth moves
                (NegInf, [])) as Hmem.
  destruct (fold_left _ moves (NegInf, [])) as [bestScore ties]. cbn [fst snd] in *.
  exists bestScore, ties. unfold ChessAI.minimax. rewrite Hloop.
  split; [done|]. split; [done|].
  apply List.Forall_forall. intros m Hin.
  rewrite List.Forall_forall in Hties, Hall.
  destruct (Hmem m Hin) as [[]|Hin'].
  destruct (ChessAI_rootScore_playable evaluatePosition (Z.to_nat depth) s color depth
              Hwf Hdepth Hfuel m (Hall m Hin')) as (_ & _ & _ & _ & _ & _ & _ & Hroot).
  rewrite Hroot. f_equal. by apply Hties.
Qed.

(** C8.  Two runs on the same state, colour and depth that differ only
    in the random source compute the same best score and leave the state
    as it was, and the move a run returns attains that score: for
    [getBestMoveMinMax] the source is the shuffle of the move list, for
    [ChessAI.minimax] the index drawn among the tied moves. *)
Theorem best_score_independent_of_shuffle
  (evaluatePosition : Engine → Color → Score)
  (aiEvaluatePosition : ChessEngine.State → Color → Score)
  (shuffle1 shuffle2 : list System.Move → list System.Move) (rnd1 rnd2 : nat)
  (e : Engine) (s : ChessEngine.State) (color : Color) (depth : Z)
  (Hwf : wf_board (board e)) (Hwfs : wf_board (ChessEngine.board s))
  (Hdepth : 1 ≤ depth)
  (Hperm1 : ∀ l, Permutation l (shuffle1 l))
  (Hperm2 : ∀ l, Permutation l (shuffle2 l)) :
  (∃ bestScore move1 move2,
     System.getBestMoveMinMax evaluatePosition shuffle1 (Z.to_nat depth) e color depth
       = Some (move1, bestScore, e)
     ∧ System.getBestMoveMinMax evaluatePosition shuffle2 (Z.to_nat depth) e color depth
       = Some (move2, bestScore, e)
     ∧ (∀ m, move1 = Some m →
          System.rootScore evaluatePosition (Z.to_nat depth) e (color_eqb color White) depth m
          = Some bestScore)
     ∧ (∀ m, move2 = Some m →
          System.rootScore evaluatePosition (Z.to_nat depth) e (color_eqb color White) depth m
          = Some bestScore))
  ∧ (∃ bestScore ties,
       ChessAI.minimax aiEvaluatePosition rnd1 (Z.to_nat depth) s color depth
         (ChessAI.generateAllLegalMoves s color).1
         = Some (ties !! rnd1, bestScore, ties, s)
       ∧ ChessAI.minimax aiEvaluatePosition rnd2 (Z.to_nat depth) s color depth
           (ChessAI.generateAllLegalMoves s color).1
         = Some (ties !! rnd2, bestScore, ties, s)
       ∧ Forall (λ m, ChessAI.rootScore aiEvaluatePosition (Z.to_nat depth) s color depth m
                      = Some bestScore) ties).
Proof.
  split.
  - by apply System_best_score_independent_of_shuffle.
  - apply ChessAI_minimax_score_independent; [done|done|].
    by apply ChessAI_generateAllLegalMoves_spec.
Qed.

Lemma best_score_independent_of_shuffle_witness :
  (∃ bestScore move1 move2,
     System.getBestMoveMinMax System.evaluateMaterial (System.shuffleArray [])
       (Z.to_nat 2) defaultEngine White 2 = Some (move1, bestScore, defaultEngine)
     ∧ System.getBestMoveMinMax System.evaluateMaterial
         (System.shuffleArray [4; 17; 0; 9; 12; 3; 3; 8; 1; 10; 6; 2; 5; 0; 4; 1; 2; 0; 1]%nat)
         (Z.to_nat 2) defaultEngine White 2 = Some (move2, bestScore, defaultEngine)
     ∧ (∀ m, move1 = Some m →
          System.rootScore System.evaluateMaterial (Z.to_nat 2) defaultEngine
            (color_eqb White White) 2 m = Some bestScore)
     ∧ (∀ m, move2 = Some m →
          System.rootScore System.evaluateMaterial (Z.to_nat 2) defaultEngine
            (color_eqb White White) 2 m = Some bestScore))
  ∧ (∃ bestScore ties,
       ChessAI.minimax ChessAI_material 0 (Z.to_nat 2) ChessEngine_start White 2
         (ChessAI.generateAllLegalMoves ChessEngine_start White).1
         = Some (ties !! 0%nat, bestScore, ties, ChessEngine_start)
       ∧ ChessAI.minimax ChessAI_material 7 (Z.to_nat 2) ChessEngine_start White 2
           (ChessAI.generateAllLegalMoves ChessEngine_start White).1
         = Some (ties !! 7%nat, bestScore, ties, ChessEngine_start)
       ∧ Forall (λ m, ChessAI.rootScore ChessAI_material (Z.to_nat 2) ChessEngine_start
                        White 2 m = Some bestScore) ties).
Proof.
  apply (best_score_independent_of_shuffle System.evaluateMaterial ChessAI_material
           (System.shuffleArray [])
           (System.shuffleArray [4; 17; 0; 9; 12; 3; 3; 8; 1; 10; 6; 2; 5; 0; 4; 1; 2; 0; 1]%nat)
           0 7 defaultEngine ChessEngine_start White 2);
    [exact wf_startBoard | exact wf_startBoard | lia
    | intros l; apply shuffleArray_Permutation
    | intros l; apply shuffleArray_Permutation].
Defined.

(** ** The bot-versus-bot engine refuses invalid requests unchanged *)

Definition tinb (t : BotEngine.Target) : Prop :=
  isInBounds (BotEngine.t_row t) (BotEngine.t_col t) = true.

Lemma BotEngine_wouldBeInCheck_restores b ep fromRow fromCol toRow toCol color :
  wf_board b → isInBounds toRow toCol = true →
  (BotEngine.wouldBeInCheck b ep fromRow fromCol toRow toCol color).2 = b.
Proof.
  intros Hwf Hto. unfold BotEngine.wouldBeInCheck. cbn [snd].
  apply board_ext; [by repeat apply wf_setPiece|done|].
  intros r c Hin.
  destruct (decide ((toRow, toCol) = (r, c))) as [Heq|Hne].
  { inversion Heq; subst. by getset. }
  destruct (decide ((fromRow, fromCol) = (r, c))) as [Heq|Hne'].
  { inversion Heq; subst. by getset. }
  by getset.
Qed.

Lemma BotEngine_filterLegal_cons b ep row col color t rest :
  BotEngine.filterLegal b ep row col color (t :: rest)
  = let '(inCheck, b') :=
      BotEngine.wouldBeInCheck b ep row col (BotEngine.t_row t) (BotEngine.t_col t) color in
    let '(kept, b'') := BotEngine.filterLegal b' ep row col color rest in
    (if inCheck then kept else t :: kept, b'').
Proof. reflexivity. Qed.

Lemma BotEngine_filterLegal_restores b ep row col color moves :
  wf_board b → Forall tinb moves →
  (BotEngine.filterLegal b ep row col color moves).2 = b.
Proof.
  intros Hwf. induction 1 as [|t rest Ht Hrest IH]; [done|].
  rewrite BotEngine_filterLegal_cons.
  pose proof (BotEngine_wouldBeInCheck_restores b ep row col _ _ color Hwf Ht) as Hw.
  destruct (BotEngine.wouldBeInCheck b ep row col _ _ color) as [inCheck b'].
  simpl in Hw. subst b'.
  by destruct (BotEngine.filterLegal b ep row col color rest).
Qed.

Ltac tinb_step :=
  match goal with
  | |- Forall _ [] => constructor
  | |- Forall _ (_ :: _) => constructor
  | |- Forall _ (_ ++ _) => apply Forall_app_2
  | |- Forall _ (if ?c then _ else _) => destruct c eqn:?
  | |- Forall _ (match ?o with Some _ => _ | None => _ end) => destruct o eqn:?
  | |- Forall _ (let '(_, _) := ?p in _) => destruct p
  | H : _ && _ = true |- _ => apply andb_true_iff in H; destruct H
  | H : negb _ = false |- _ => apply negb_false_iff in H
  | |- tinb _ => unfold tinb, BotEngine.plain; simpl; assumption
  end.

Lemma BotEngine_slide_tinb b color row col rowDir colDir steps :
  Forall tinb (BotEngine.slide b color row col rowDir colDir steps).
Proof.
  induction steps as [|i rest IH]; simpl; [constructor|].
  destruct (negb _) eqn:Hv; [constructor|].
  apply negb_false_iff in Hv.
  destruct (getPiece _ _ _) as [t|].
  - destruct (negb _); repeat constructor. exact Hv.
  - constructor; [exact Hv|exact IH].
Qed.

Lemma BotEngine_slides_tinb b color row col dirs :
  Forall tinb (BotEngine.slides b color row col dirs).
Proof. apply Forall_flat_map. intros d. apply BotEngine_slide_tinb. Qed.

Lemma BotEngine_hops_tinb b color row col offsets :
  Forall tinb (BotEngine.hops b color row col offsets).
Proof. apply Forall_flat_map. intros d. cbv zeta. repeat tinb_step. Qed.

Lemma BotEngine_getPawnMoves_tinb b ep row col color :
  Forall tinb (BotEngine.getPawnMoves b ep row col color).
Proof.
  unfold BotEngine.getPawnMoves. cbv zeta. apply Forall_app_2.
  - destruct (_ && _) eqn:H1; [|constructor].
    apply andb_true_iff in H1 as [Hv _].
    constructor; [exact Hv|].
    destruct (_ && _) eqn:H2; [|constructor].
    apply andb_true_iff in H2 as [Hs _]. apply Z.eqb_eq in Hs.
    repeat constructor. unfold tinb. simpl.
    apply isInBounds_spec in Hv. apply isInBounds_spec.
    destruct color; lia.
  - apply Forall_flat_map. intros colOffset. cbv zeta. repeat tinb_step.
Qed.

Lemma BotEngine_getKingMoves_tinb s row col p :
  getPiece (BotEngine.board s) row col = Some p → ptype p = King →
  Forall tinb (BotEngine.getKingMoves s row col (pcolor p)).
Proof.
  intros Hp Hking. pose proof (getPiece_Some_inb _ _ _ _ Hp) as Hin.
  apply isInBounds_spec in Hin.
  unfold BotEngine.getKingMoves. cbv zeta.
  apply Forall_app_2; [apply BotEngine_hops_tinb|]. rewrite Hp.
  destruct (_ && _); [|constructor].
  apply Forall_app_2.
  - destruct (_ && _) eqn:H; [|constructor].
    repeat (apply andb_true_iff in H as [H ?]).
    repeat constructor. unfold tinb. simpl. apply isInBounds_spec.
    assert (col + 2 ≤ 7); [|lia].
    destruct (decide (col = 6)) as [->|]; [|destruct (decide (col = 7)) as [->|]; [|lia]].
    + exfalso. revert H2 H0. unfold BotEngine.isFree, BotEngine.isRookHome.
      change (6 + 1) with 7. by destruct (getPiece _ row 7).
    + exfalso. revert H0. unfold BotEngine.isRookHome. rewrite Hp, Hking. done.
  - destruct (_ && _) eqn:H; [|constructor].
    repeat (apply andb_true_iff in H as [H ?]).
    repeat constructor. unfold tinb. simpl. apply isInBounds_spec.
    assert (0 ≤ col - 2); [|lia].
    destruct (decide (col = 1)) as [->|]; [|destruct (decide (col = 0)) as [->|]; [|lia]].
    + exfalso. revert H3 H0. unfold BotEngine.isFree, BotEngine.isRookHome.
      change (1 - 1) with 0. by destruct (getPiece _ row 0).
    + exfalso. revert H0. unfold BotEngine.isRookHome. rewrite Hp, Hking. done.
Qed.

Lemma BotEngine_pseudoMoves_tinb s row col p :
  getPiece (BotEngine.board s) row col = Some p →
  Forall tinb (BotEngine.pseudoMoves s row col p).
Proof.
  intros Hp. unfold BotEngine.pseudoMoves. cbv zeta.
  destruct (ptype p) eqn:Ht.
  - apply BotEngine_getPawnMoves_tinb.
  - apply BotEngine_hops_tinb.
  - apply BotEngine_slides_tinb.
  - apply BotEngine_slides_tinb.
  - apply Forall_app_2; apply BotEngine_slides_tinb.
  - by apply BotEngine_getKingMoves_tinb.
Qed.

Lemma BotEngine_getPossibleMoves_restores s row col :
  wf_board (BotEngine.board s) → (BotEngine.getPossibleMoves s row col).2 = s.
Proof.
  intros Hwf. unfold BotEngine.getPossibleMoves.
  destruct (getPiece (BotEngine.board s) row col) as [p|] eqn:Hp; [|done].
  destruct (negb _); [done|].
  pose proof (BotEngine_filterLegal_restores (BotEngine.board s) (BotEngine.enPassantTarget s)
    row col (pcolor p) _ Hwf (BotEngine_pseudoMoves_tinb s row col p Hp)) as Hr.
  destruct (BotEngine.filterLegal _ _ _ _ _ _) as [moves b']. simpl in *. subst b'.
  by destruct s.
Qed.

(** The bot engine's [makeMove] on an empty origin, on a piece of the
    side not to move, or towards a square that is not among the legal
    moves of the origin returns [false] and leaves the engine as it
    was. *)
Lemma BotEngine_makeMove_invalid_unchanged s fromRow fromCol toRow toCol :
  wf_board (BotEngine.board s) → isInBounds fromRow fromCol = true →
  (getPiece (BotEngine.board s) fromRow fromCol = None
   ∨ (∃ p, getPiece (BotEngine.board s) fromRow fromCol = Some p
           ∧ pcolor p ≠ BotEngine.currentPlayer s)
   ∨ ¬ In (toRow, toCol)
         (map (λ t, (BotEngine.t_row t, BotEngine.t_col t))
            (BotEngine.getPossibleMoves s fromRow fromCol).1)) →
  BotEngine.makeMove s fromRow fromCol toRow toCol = Returned (false, s).
Proof.
  intros Hwf Hfrom Hbad. unfold BotEngine.makeMove.
  rewrite (readCell_wf _ _ _ Hwf Hfrom).
  destruct (getPiece (BotEngine.board s) fromRow fromCol) as [p|] eqn:Hget; [|done].
  unfold color_eqb. case_bool_decide as Hcol; simpl; [|done].
  destruct Hbad as [?|[(p' & [= <-] & Hne)|Hnot]]; [done|done|].
  pose proof (BotEngine_getPossibleMoves_restores s fromRow fromCol Hwf) as Hr.
  destruct (BotEngine.getPossibleMoves s fromRow fromCol) as [moves s'].
  simpl in *. subst s'.
  replace (find _ moves) with (@None BotEngine.Target); [done|].
  symmetry. clear -Hnot. induction moves as [|t rest IH]; [done|].
  simpl. destruct (_ && _) eqn:Heq.
  - apply andb_true_iff in Heq as [Hr Hc]. apply Z.eqb_eq in Hr, Hc.
    exfalso. apply Hnot. left. simpl. by rewrite Hr, Hc.
  - apply IH. intros Hin. apply Hnot. by right.
Qed.

(** C3.  A request whose origin is empty, whose piece is not of the
    side to move, or whose destination is not among the legal moves of
    the origin is refused without raising: the core engine's
    [movePiece] returns ['invalid'] and the bot engine's [makeMove]
    returns [false], and in both the engine (board, turn, history,
    flags, ledger) is the one before the call. *)
Theorem movePiece_invalid_unchanged (e : Engine) (s : BotEngine.State)
  (fromRow fromCol toRow toCol : Z)
  (Hwf : wf_board (board e)) (Hwfs : wf_board (BotEngine.board s))
  (Hfrom : isInBounds fromRow fromCol = true)
  (Hbad : getPiece (board e) fromRow fromCol = None
          ∨ (∃ p, getPiece (board e) fromRow fromCol = Some p ∧ pcolor p ≠ turn e)
          ∨ ¬ In (toRow, toCol) (calculatePossibleMoves e fromRow fromCol).1)
  (Hbads : getPiece (BotEngine.board s) fromRow fromCol = None
           ∨ (∃ p, getPiece (BotEngine.board s) fromRow fromCol = Some p
                   ∧ pcolor p ≠ BotEngine.currentPlayer s)
           ∨ ¬ In (toRow, toCol)
                 (map (λ t, (BotEngine.t_row t, BotEngine.t_col t))
                    (BotEngine.getPossibleMoves s fromRow fromCol).1)) :
  movePiece e fromRow fromCol toRow toCol = Returned (Invalid, e)
  ∧ BotEngine.makeMove s fromRow fromCol toRow toCol = Returned (false, s).
Proof.
  split.
  - by apply Core_movePiece_invalid_unchanged.
  - by apply BotEngine_makeMove_invalid_unchanged.
Qed.

Lemma movePiece_invalid_unchanged_witness :
  (movePiece defaultEngine 4 4 3 4 = Returned (Invalid, defaultEngine)
   ∧ BotEngine.makeMove BotEngine.start 4 4 3 4 = Returned (false, BotEngine.start))
  ∧ (movePiece defaultEngine 1 4 3 4 = Returned (Invalid, defaultEngine)
     ∧ BotEngine.makeMove BotEngine.start 1 4 3 4 = Returned (false, BotEngine.start))
  ∧ (movePiece defaultEngine 6 4 3 4 = Returned (Invalid, defaultEngine)
     ∧ BotEngine.makeMove BotEngine.start 6 4 3 4 = Returned (false, BotEngine.start)).
Proof.
  split; [|split].
  - apply movePiece_invalid_unchanged;
      [exact wf_startBoard | exact wf_startBoard | reflexivity
      | left; reflexivity | left; reflexivity].
  - apply movePiece_invalid_unchanged;
      [exact wf_startBoard | exact wf_startBoard | reflexivity | |];
      (right; left; eexists; split; [reflexivity|discriminate]).
  - apply movePiece_invalid_unchanged;
      [exact wf_startBoard | exact wf_startBoard | reflexivity | |];
      (right; right; vm_compute; intros [H|[H|[]]]; discriminate H).
Defined.

(** A legal request in the bot engine is applied: the pawn stands on
    its target, the en-passant square is recorded and Black is to
    move. *)
Example BotEngine_makeMove_start :
  ∃ s, BotEngine.makeMove BotEngine.start 6 4 4 4 = Returned (true, s)
       ∧ getPiece (BotEngine.board s) 4 4 = Some (mkPiece Pawn White true)
       ∧ getPiece (BotEngine.board s) 6 4 = None
       ∧ BotEngine.enPassantTarget s = Some (5, 4)
       ∧ BotEngine.currentPlayer s = Black
       ∧ BotEngine.gameOver s = false.
Proof.
  exists (match BotEngine.makeMove BotEngine.start 6 4 4 4 with
          | Returned (_, s) => s | Threw => BotEngine.start end).
  vm_compute. repeat split.
Qed.

(** ** Witnesses and worked positions *)

(** The start position: twenty legal moves for White. *)
Example start_position_moves :
  length (flat_map (λ '(r, c), (calculatePossibleMoves defaultEngine r c).1) allSquares)
  = 20%nat.
Proof. vm_compute. reflexivity. Qed.

Lemma apply_undo_round_trip_witness :
  (∀ fromRow fromCol toRow toCol res e1,
      movePiece defaultEngine fromRow fromCol toRow toCol = Returned (res, e1) →
      res ≠ Invalid →
      ∃ e2, undoMove e1 = (true, e2) ∧ board e2 = board defaultEngine
            ∧ turn e2 = turn defaultEngine)
  ∧ (∀ moves e', applyUndoPairs defaultEngine moves = Some e' →
       board e' = board defaultEngine ∧ turn e' = turn defaultEngine)
  ∧ (∀ m r e1, inb (System.to m) → System.makeMove defaultEngine m = (Some r, e1) →
       System.undoMove e1 r = defaultEngine)
  ∧ (∀ evaluatePosition depth isMaximizing alpha beta, 0 ≤ depth →
       ∃ s, System.minimax evaluatePosition (S (Z.to_nat depth)) defaultEngine depth
              isMaximizing alpha beta = Some (s, defaultEngine)).
Proof.
  apply (apply_undo_round_trip defaultEngine);
    [exact wf_startBoard | reflexivity | vm_compute; discriminate].
Defined.

(** Three apply/undo pairs from the start position, a capture-free
    opening move each time. *)
Example apply_undo_pairs_start :
  option_map board
    (applyUndoPairs defaultEngine [(6, 4, 4, 4); (7, 6, 5, 5); (6, 3, 4, 3)])
  = Some startBoard.
Proof. vm_compute. reflexivity. Qed.

(** The two runs on the start position at depth 2: the same score,
    two different moves. *)
Example shuffled_runs_start :
  System.getBestMoveMinMax System.evaluateMaterial (System.shuffleArray []) 2
    defaultEngine White 2
  = Some (Some (System.mkMove (6, 0) (5, 0)), Fin 0, defaultEngine)
  ∧ System.getBestMoveMinMax System.evaluateMaterial
      (System.shuffleArray [4; 17; 0; 9; 12; 3; 3; 8; 1; 10; 6; 2; 5; 0; 4; 1; 2; 0; 1]%nat) 2
      defaultEngine White 2
    = Some (Some (System.mkMove (6, 6) (4, 6)), Fin 0, defaultEngine).
Proof. vm_compute. split; reflexivity. Qed.

(** * Further properties of the engines *)

(** ** ChessEngineCore: the generator and the terminal tests are queries *)

(** X1.  On an 8×8 board [calculatePossibleMoves], [hasNoLegalMoves],
    [isCheckmate] and [isStalemate] hand the engine back as they found
    it (every trial move of the legality filter is taken back); the
    squares the generator returns are squares of the board; and a piece
    that is not of the side to move gets no move. *)
Theorem generator_leaves_engine_unchanged (e : Engine) (row col : Z)
  (Hwf : wf_board (board e)) :
  (calculatePossibleMoves e row col).2 = e
  ∧ Forall inb (calculatePossibleMoves e row col).1
  ∧ (∀ p, getPiece (board e) row col = Some p → pcolor p ≠ turn e →
       (calculatePossibleMoves e row col).1 = [])
  ∧ (hasNoLegalMoves e).2 = e
  ∧ (isCheckmate e).2 = e
  ∧ (isStalemate e).2 = e.
Proof.
  split; [by apply calculatePossibleMoves_restores|].
  split; [apply calculatePossibleMoves_inb|].
  split.
  { intros p Hp Hne. unfold calculatePossibleMoves. rewrite Hp.
    unfold color_eqb. by case_bool_decide. }
  assert (Hno : (hasNoLegalMoves e).2 = e)
    by (by apply hasNoLegalMoves_loop_restores).
  split; [done|].
  unfold isCheckmate, isStalemate. by destruct (check e).
Qed.

Lemma generator_leaves_engine_unchanged_witness :
  (calculatePossibleMoves defaultEngine 6 4).2 = defaultEngine
  ∧ Forall inb (calculatePossibleMoves defaultEngine 6 4).1
  ∧ (∀ p, getPiece (board defaultEngine) 6 4 = Some p → pcolor p ≠ turn defaultEngine →
       (calculatePossibleMoves defaultEngine 6 4).1 = [])
  ∧ (hasNoLegalMoves defaultEngine).2 = defaultEngine
  ∧ (isCheckmate defaultEngine).2 = defaultEngine
  ∧ (isStalemate defaultEngine).2 = defaultEngine.
Proof.
  apply (generator_leaves_engine_unchanged defaultEngine 6 4). exact wf_startBoard.
Defined.

(** ** ChessEngineCore: the path between two squares *)

Lemma isPathClear_loop_spec b fromRow fromCol toRow toCol :
  isInBounds fromRow fromCol = true → isInBounds toRow toCol = true →
  (toCol - fromCol = 0 ∨ toRow - fromRow = 0
   ∨ Z.abs (toCol - fromCol) = Z.abs (toRow - fromRow)) →
  ∀ fuel k, 1 ≤ k →
    Z.max 1 (Z.max (Z.abs (toRow - fromRow)) (Z.abs (toCol - fromCol)))
      < k + Z.of_nat fuel →
    k ≤ Z.max 1 (Z.max (Z.abs (toRow - fromRow)) (Z.abs (toCol - fromCol))) →
    ∃ res,
      isPathClear_loop fuel b
        (fromRow + k * Z.sgn (toRow - fromRow)) (fromCol + k * Z.sgn (toCol - fromCol))
        toRow toCol (Z.sgn (toRow - fromRow)) (Z.sgn (toCol - fromCol)) = Some res
      ∧ (res = true ↔
         ∀ j, k ≤ j < Z.max (Z.abs (toRow - fromRow)) (Z.abs (toCol - fromCol)) →
           getPiece b (fromRow + j * Z.sgn (toRow - fromRow))
             (fromCol + j * Z.sgn (toCol - fromCol)) = None).
Proof.
  intros Hf Ht Hal. apply isInBounds_spec in Hf, Ht.
  induction fuel as [|fuel IH]; intros k Hk Hfuel Hkn; [lia|].
  cbn [isPathClear_loop].
  destruct (negb _ || negb _) eqn:Hne.
  - apply orb_true_iff in Hne.
    assert (Hpos : fromRow + k * Z.sgn (toRow - fromRow) ≠ toRow
                   ∨ fromCol + k * Z.sgn (toCol - fromCol) ≠ toCol).
    { destruct Hne as [H|H]; apply negb_true_iff, Z.eqb_neq in H; [by left|by right]. }
    clear Hne.
    assert (Hlt : k < Z.max (Z.abs (toRow - fromRow)) (Z.abs (toCol - fromCol))).
    { destruct (Z.sgn_spec (toRow - fromRow)) as [[? Hs1]|[[? Hs1]|[? Hs1]]];
        destruct (Z.sgn_spec (toCol - fromCol)) as [[? Hs2]|[[? Hs2]|[? Hs2]]];
        rewrite Hs1, Hs2 in Hpos; lia. }
    destruct (getPiece b _ _) eqn:Hget.
    + exists false. split; [done|]. split; [done|].
      intros Hall. rewrite (Hall k) in Hget; [done|lia].
    + replace (fromRow + k * Z.sgn (toRow - fromRow) + Z.sgn (toRow - fromRow))
        with (fromRow + (k + 1) * Z.sgn (toRow - fromRow)) by lia.
      replace (fromCol + k * Z.sgn (toCol - fromCol) + Z.sgn (toCol - fromCol))
        with (fromCol + (k + 1) * Z.sgn (toCol - fromCol)) by lia.
      destruct (IH (k + 1)) as (res & Hres & Hiff); [lia|lia|lia|].
      exists res. split; [done|]. rewrite Hiff. split.
      * intros Hall j Hj. destruct (decide (j = k)) as [->|]; [done|].
        apply Hall. lia.
      * intros Hall j Hj. apply Hall. lia.
  - exists true. split; [done|]. split; [|done]. intros _ j Hj. exfalso.
    apply orb_false_iff in Hne as [H1 H2].
    apply negb_false_iff, Z.eqb_eq in H1, H2.
    destruct (Z.sgn_spec (toRow - fromRow)) as [[? Hs1]|[[? Hs1]|[? Hs1]]];
      destruct (Z.sgn_spec (toCol - fromCol)) as [[? Hs2]|[[? Hs2]|[? Hs2]]];
      rewrite Hs1 in H1; rewrite Hs2 in H2; lia.
Qed.

(** X2.  For two squares of the board on a common rank, file or
    diagonal, the walk of [isPathClear] reaches the target within its
    eight steps, and its answer is [true] exactly when every square
    strictly between the two is empty. *)
Theorem isPathClear_iff_between_empty (b : Board) (fromRow fromCol toRow toCol : Z)
  (Hfrom : isInBounds fromRow fromCol = true) (Hto : isInBounds toRow toCol = true)
  (Hline : toCol - fromCol = 0 ∨ toRow - fromRow = 0
           ∨ Z.abs (toCol - fromCol) = Z.abs (toRow - fromRow)) :
  isPathClear_loop 8 b
    (fromRow + Z.sgn (toRow - fromRow)) (fromCol + Z.sgn (toCol - fromCol))
    toRow toCol (Z.sgn (toRow - fromRow)) (Z.sgn (toCol - fromCol))
  = Some (isPathClear b fromRow fromCol toRow toCol)
  ∧ (isPathClear b fromRow fromCol toRow toCol = true ↔
     ∀ j, 1 ≤ j < Z.max (Z.abs (toRow - fromRow)) (Z.abs (toCol - fromCol)) →
       getPiece b (fromRow + j * Z.sgn (toRow - fromRow))
         (fromCol + j * Z.sgn (toCol - fromCol)) = None).
Proof.
  destruct (isPathClear_loop_spec b fromRow fromCol toRow toCol Hfrom Hto Hline 8 1)
    as (res & Hres & Hiff).
  { lia. }
  { apply isInBounds_spec in Hfrom, Hto. lia. }
  { lia. }
  rewrite !Z.mul_1_l in Hres. unfold isPathClear. cbv zeta. rewrite Hres. done.
Qed.

Lemma isPathClear_iff_between_empty_witness :
  isPathClear_loop 8 startBoard (7 + Z.sgn (0 - 7)) (0 + Z.sgn (0 - 0)) 0 0
    (Z.sgn (0 - 7)) (Z.sgn (0 - 0))
  = Some (isPathClear startBoard 7 0 0 0)
  ∧ (isPathClear startBoard 7 0 0 0 = true ↔
     ∀ j, 1 ≤ j < Z.max (Z.abs (0 - 7)) (Z.abs (0 - 0)) →
       getPiece startBoard (7 + j * Z.sgn (0 - 7)) (0 + j * Z.sgn (0 - 0)) = None).
Proof.
  apply (isPathClear_iff_between_empty startBoard 7 0 0 0);
    [reflexivity | reflexivity | left; reflexivity].
Defined.

(** ** ChessEngineCore: the rays of the sliding pieces *)

(** A square that the ray may stop on or pass: empty, or held by the
    opponent. *)
Definition landable (b : Board) (opponentColor : Color) (r c : Z) : Prop :=
  isEmptyAt b r c = true ∨ isOpponentAt b r c opponentColor = true.

Lemma addDirectionalMoves_loop_spec b opp row col dr dc r c :
  isInBounds row col = true →
  -1 ≤ dr ≤ 1 → -1 ≤ dc ≤ 1 → (dr, dc) ≠ (0, 0) →
  ∀ fuel k, 1 ≤ k → 8 ≤ k + Z.of_nat fuel →
    In (r, c) (addDirectionalMoves_loop fuel b opp (row + k * dr) (col + k * dc) dr dc)
    ↔ ∃ j, k ≤ j ∧ r = row + j * dr ∧ c = col + j * dc
           ∧ isInBounds r c = true
           ∧ (∀ i, k ≤ i < j → getPiece b (row + i * dr) (col + i * dc) = None)
           ∧ landable b opp r c.
Proof.
  intros Hin Hdr Hdc Hd.
  assert (Hnz : dr = 0 → dc = 0 → False) by (intros -> ->; by apply Hd).
  assert (Hc : dr = -1 ∨ dr = 0 ∨ dr = 1) by lia.
  assert (Hc' : dc = -1 ∨ dc = 0 ∨ dc = 1) by lia.
  apply isInBounds_spec in Hin.
  induction fuel as [|fuel IH]; intros k Hk Hfuel.
  - cbn [addDirectionalMoves_loop]. split; [done|].
    intros (j & Hj & -> & -> & Hb & _). apply isInBounds_spec in Hb.
    destruct Hc as [->|[->| ->]]; destruct Hc' as [->|[->| ->]]; lia.
  - cbn [addDirectionalMoves_loop].
    destruct (isInBounds (row + k * dr) (col + k * dc)) eqn:Hbk.
    + destruct (getPiece b (row + k * dr) (col + k * dc)) as [p|] eqn:Hget.
      * split.
        -- intros Hmem.
           assert (Hrc : (r, c) = (row + k * dr, col + k * dc)
                         ∧ color_eqb (pcolor p) opp = true).
           { destruct (color_eqb (pcolor p) opp); [|done].
             destruct Hmem as [[= <- <-]|[]]. done. }
           destruct Hrc as [[= -> ->] Hopp].
           exists k. repeat split; try done; try lia.
           right. unfold isOpponentAt. by rewrite Hget.
        -- intros (j & Hj & -> & -> & Hb & Hall & Hland).
           destruct (decide (j = k)) as [->|Hne].
           ++ destruct Hland as [He|Ho].
              ** unfold isEmptyAt in He. by rewrite Hget in He.
              ** unfold isOpponentAt in Ho. rewrite Hget in Ho. rewrite Ho. by left.
           ++ rewrite (Hall k) in Hget; [done|lia].
      * replace (row + k * dr + dr) with (row + (k + 1) * dr) by lia.
        replace (col + k * dc + dc) with (col + (k + 1) * dc) by lia.
        split.
        -- intros [[= <- <-]|Hmem].
           ++ exists k. repeat split; try done; try lia.
              left. unfold isEmptyAt. by rewrite Hget.
           ++ apply (IH (k + 1)) in Hmem; [|lia|lia].
              destruct Hmem as (j & Hj & -> & -> & Hb & Hall & Hland).
              exists j. repeat split; try done; try lia.
              intros i Hi. destruct (decide (i = k)) as [->|]; [done|].
              apply Hall. lia.
        -- intros (j & Hj & -> & -> & Hb & Hall & Hland).
           destruct (decide (j = k)) as [->|Hne]; [by left|].
           right. apply (IH (k + 1)); [lia|lia|].
           exists j. repeat split; try done; try lia.
           intros i Hi. apply Hall. lia.
    + split; [done|].
      intros (j & Hj & -> & -> & Hb & _). exfalso.
      apply isInBounds_spec in Hb.
      apply not_true_iff_false in Hbk. apply Hbk. apply isInBounds_spec.
      destruct Hc as [->|[->| ->]]; destruct Hc' as [->|[->| ->]]; lia.
Qed.

(** X3.  From a square of the board, in one of the eight compass
    directions, [addDirectionalMoves] returns exactly the squares of
    the board that are reached over empty squares only and are
    themselves empty or held by the opponent; its loop has left the
    board after at most eight steps, so that more iterations add
    nothing. *)
Theorem addDirectionalMoves_ray (b : Board) (opponentColor : Color)
  (row col dr dc r c : Z) (more : nat)
  (Hin : isInBounds row col = true)
  (Hdr : -1 ≤ dr ≤ 1) (Hdc : -1 ≤ dc ≤ 1) (Hdir : (dr, dc) ≠ (0, 0)) :
  (In (r, c) (addDirectionalMoves b opponentColor row col (dr, dc))
   ↔ ∃ j, 1 ≤ j ∧ r = row + j * dr ∧ c = col + j * dc
          ∧ isInBounds r c = true
          ∧ (∀ i, 1 ≤ i < j → getPiece b (row + i * dr) (col + i * dc) = None)
          ∧ landable b opponentColor r c)
  ∧ addDirectionalMoves_loop (more + 8) b opponentColor (row + dr) (col + dc) dr dc
    = addDirectionalMoves b opponentColor row col (dr, dc).
Proof.
  split; [|by apply addDirectionalMoves_fuel].
  unfold addDirectionalMoves. cbn [fst snd].
  pose proof (addDirectionalMoves_loop_spec b opponentColor row col dr dc r c
                Hin Hdr Hdc Hdir 8 1 ltac:(lia) ltac:(lia)) as H.
  by rewrite !Z.mul_1_l in H.
Qed.

Lemma addDirectionalMoves_ray_witness :
  (In (5, 0) (addDirectionalMoves startBoard Black 7 0 (-1, 0))
   ↔ ∃ j, 1 ≤ j ∧ 5 = 7 + j * -1 ∧ 0 = 0 + j * 0
          ∧ isInBounds 5 0 = true
          ∧ (∀ i, 1 ≤ i < j → getPiece startBoard (7 + i * -1) (0 + i * 0) = None)
          ∧ landable startBoard Black 5 0)
  ∧ addDirectionalMoves_loop (3 + 8) startBoard Black (7 + -1) (0 + 0) (-1) 0
    = addDirectionalMoves startBoard Black 7 0 (-1, 0).
Proof.
  apply (addDirectionalMoves_ray startBoard Black 7 0 (-1) 0 5 0 3);
    [reflexivity | lia | lia | discriminate].
Defined.

(** ** ChessEngineCore: castling and en passant as the generator offers them *)

Lemma filterLegal_subset b row col color moves sq :
  In sq (filterLegal b row col color moves).1 → In sq moves.
Proof.
  revert b. induction moves as [|[r c] rest IH]; intros b; [done|].
  rewrite filterLegal_cons.
  destruct (wouldBeInCheck b row col r c color) as [inCheck b'].
  specialize (IH b').
  destruct (filterLegal b' row col color rest) as [kept b''].
  destruct inCheck; simpl in *; [by right; apply IH|].
  intros [<-|H]; [by left|by right; apply IH].
Qed.

Lemma calculatePossibleMoves_pseudo e row col p sq :
  getPiece (board e) row col = Some p →
  In sq (calculatePossibleMoves e row col).1 →
  pcolor p = turn e ∧ In sq (pseudoMoves (board e) (lastMove e) row col p).
Proof.
  intros Hp. unfold calculatePossibleMoves. rewrite Hp.
  unfold color_eqb. case_bool_decide as Hc; simpl; [|done].
  intros Hin. split; [done|].
  apply (filterLegal_subset (board e) row col (pcolor p)).
  by destruct (filterLegal _ _ _ _ _).
Qed.

Lemma stepMoves_near b opp row col offsets r c :
  Forall (λ d, -1 ≤ d.2 ≤ 1) offsets →
  In (r, c) (stepMoves b opp row col offsets) → -1 ≤ c - col ≤ 1.
Proof.
  intros Hoff. unfold stepMoves. rewrite in_flat_map.
  intros ([dr dc] & Hd & Hin). rewrite List.Forall_forall in Hoff.
  specialize (Hoff _ Hd). simpl in *.
  destruct (_ && _); [|done]. destruct Hin as [[= <- <-]|[]]. lia.
Qed.

(** X4.  A king move over two files among the moves the generator
    returns is a castling move with the conditions the code tests: the
    king has not moved, is of the side to move, stands on its back rank
    and is not in check; the rook in the corner on that side is an
    unmoved rook; the squares between them are empty; and the two
    squares the king crosses and lands on are not attacked.  (These are
    the moves [movePiece] hands to [executeCastling].) *)
Theorem two_file_king_move_is_castling (e : Engine) (row col r c : Z) (p : Piece)
  (Hking : getPiece (board e) row col = Some p) (Htype : ptype p = King)
  (Hmove : In (r, c) (calculatePossibleMoves e row col).1)
  (Htwo : Z.abs (c - col) = 2) :
  let b := board e in
  let backRank := match pcolor p with White => 7 | Black => 0 end in
  hasMoved p = false ∧ pcolor p = turn e
  ∧ isKingInCheck b (pcolor p) = false
  ∧ row = backRank ∧ r = backRank
  ∧ ((c = 6 ∧ isUnmovedRook b backRank 7 = true
      ∧ isEmptyAt b backRank 5 = true ∧ isEmptyAt b backRank 6 = true
      ∧ isSquareAttacked b backRank 5 (pcolor p) = false
      ∧ isSquareAttacked b backRank 6 (pcolor p) = false)
     ∨ (c = 2 ∧ isUnmovedRook b backRank 0 = true
        ∧ isEmptyAt b backRank 1 = true ∧ isEmptyAt b backRank 2 = true
        ∧ isEmptyAt b backRank 3 = true
        ∧ isSquareAttacked b backRank 2 (pcolor p) = false
        ∧ isSquareAttacked b backRank 3 (pcolor p) = false)).
Proof.
  intros b backRank.
  destruct (calculatePossibleMoves_pseudo e row col p (r, c) Hking Hmove) as [Hturn Hps].
  unfold pseudoMoves in Hps. rewrite Htype in Hps. unfold calculateKingMoves in Hps.
  apply in_app_or in Hps as [Hstep|Hcastle].
  { apply stepMoves_near in Hstep; [lia|]. unfold kingOffsets.
    repeat constructor; simpl; lia. }
  unfold calculateCastlingMoves in Hcastle. fold b backRank in Hcastle.
  destruct (hasMoved p) eqn:Hm; [done|].
  destruct (isKingInCheck b (pcolor p)) eqn:Hchk; [done|]. simpl in Hcastle.
  destruct (row =? backRank) eqn:Hrow; [|done]. apply Z.eqb_eq in Hrow. simpl in Hcastle.
  split; [reflexivity|]. split; [exact Hturn|]. split; [reflexivity|].
  split; [exact Hrow|].
  apply in_app_or in Hcastle as [Hk|Hq].
  - destruct (_ && _) eqn:Hc in Hk; [|done].
    destruct Hk as [[= <- <-]|[]]. split; [reflexivity|]. left. split; [reflexivity|].
    rewrite !andb_true_iff, !negb_true_iff in Hc.
    destruct Hc as [[[[H1 H2] H3] H4] H5].
    exact (conj H1 (conj H2 (conj H3 (conj H4 H5)))).
  - destruct (_ && _) eqn:Hc in Hq; [|done].
    destruct Hq as [[= <- <-]|[]]. split; [reflexivity|]. right. split; [reflexivity|].
    rewrite !andb_true_iff, !negb_true_iff in Hc.
    destruct Hc as [[[[[H1 H2] H3] H4] H5] H6].
    exact (conj H1 (conj H2 (conj H3 (conj H4 (conj H5 H6))))).
Qed.

(** White king e1 and rook h1 on their squares, black king e8; White
    to move. *)
Definition castlingPosition : Engine :=
  loadPosition
    [ ((7, 4), mkPiece King White false); ((7, 7), mkPiece Rook White false);
      ((0, 4), mkPiece King Black false) ] White.

Lemma two_file_king_move_is_castling_witness :
  let b := board castlingPosition in
  let backRank := 7 in
  false = false ∧ White = turn castlingPosition
  ∧ isKingInCheck b White = false
  ∧ 7 = backRank ∧ 7 = backRank
  ∧ ((6 = 6 ∧ isUnmovedRook b backRank 7 = true
      ∧ isEmptyAt b backRank 5 = true ∧ isEmptyAt b backRank 6 = true
      ∧ isSquareAttacked b backRank 5 White = false
      ∧ isSquareAttacked b backRank 6 White = false)
     ∨ (6 = 2 ∧ isUnmovedRook b backRank 0 = true
        ∧ isEmptyAt b backRank 1 = true ∧ isEmptyAt b backRank 2 = true
        ∧ isEmptyAt b backRank 3 = true
        ∧ isSquareAttacked b backRank 2 White = false
        ∧ isSquareAttacked b backRank 3 White = false)).
Proof.
  apply (two_file_king_move_is_castling castlingPosition 7 4 7 6
           (mkPiece King White false)).
  - vm_compute. reflexivity.
  - reflexivity.
  - vm_compute. tauto.
  - reflexivity.
Defined.

(** X5.  A pawn move to another file that lands on an empty square is
    among the moves the generator returns only when the last move
    recorded was a pawn of the other side advancing two ranks and
    landing on the square beside the pawn, on the file the pawn moves
    to: en passant is offered on the very next move only. *)
Theorem diagonal_pawn_move_to_empty_square (e : Engine) (row col r c : Z) (p : Piece)
  (Hpawn : getPiece (board e) row col = Some p) (Htype : ptype p = Pawn)
  (Hmove : In (r, c) (calculatePossibleMoves e row col).1)
  (Hfile : c ≠ col) (Hempty : getPiece (board e) r c = None) :
  r = row + (match pcolor p with White => -1 | Black => 1 end)
  ∧ Z.abs (c - col) = 1
  ∧ ∃ lm, lastMove e = Some lm
          ∧ ptype (md_piece lm) = Pawn
          ∧ pcolor (md_piece lm) = opponent (pcolor p)
          ∧ Z.abs ((md_from lm).1 - (md_to lm).1) = 2
          ∧ md_to lm = (row, c).
Proof.
  destruct (calculatePossibleMoves_pseudo e row col p (r, c) Hpawn Hmove) as [Hturn Hps].
  unfold pseudoMoves in Hps. rewrite Htype in Hps. unfold calculatePawnMoves in Hps.
  cbv zeta in Hps.
  assert (Hdiag : ∀ dc, Z.abs dc = 1 →
    In (r, c)
      (if isInBounds (row + match pcolor p with White => -1 | Black => 1 end) (col + dc)
       then (if isOpponentAt (board e)
                  (row + match pcolor p with White => -1 | Black => 1 end) (col + dc)
                  (opponent (pcolor p))
             then [(row + match pcolor p with White => -1 | Black => 1 end, col + dc)]
             else [])
            ++ (if isEmptyAt (board e)
                     (row + match pcolor p with White => -1 | Black => 1 end) (col + dc)
                   && enPassantAllowed (lastMove e) (opponent (pcolor p)) row (col + dc)
                then [(row + match pcolor p with White => -1 | Black => 1 end, col + dc)]
                else [])
       else []) →
    r = row + match pcolor p with White => -1 | Black => 1 end
    ∧ Z.abs (c - col) = 1
    ∧ ∃ lm, lastMove e = Some lm
            ∧ ptype (md_piece lm) = Pawn
            ∧ pcolor (md_piece lm) = opponent (pcolor p)
            ∧ Z.abs ((md_from lm).1 - (md_to lm).1) = 2
            ∧ md_to lm = (row, c)).
  { intros dc Hdc Hin. destruct (isInBounds _ _) eqn:Hb in Hin; [|by destruct Hin].
    apply in_app_or in Hin as [Hin|Hin].
    - destruct (isOpponentAt _ _ _ _) eqn:Hopp in Hin; [|by destruct Hin].
      destruct Hin as [[= <- <-]|[]]. unfold isOpponentAt in Hopp.
      by rewrite Hempty in Hopp.
    - destruct (_ && _) eqn:Hep in Hin; [|by destruct Hin].
      destruct Hin as [[= <- <-]|[]].
      apply andb_true_iff in Hep as [_ Hep]. unfold enPassantAllowed in Hep.
      destruct (lastMove e) as [lm|]; [|done].
      repeat (apply andb_true_iff in Hep as [Hep ?]).
      unfold type_eqb, color_eqb in *.
      repeat match goal with
             | H : bool_decide _ = true |- _ => apply bool_decide_eq_true in H
             | H : (_ =? _) = true |- _ => apply Z.eqb_eq in H
             end.
      split; [done|]. split; [lia|]. exists lm. repeat split; try done.
      destruct (md_to lm) as [tr tc]. simpl in *. congruence. }
  apply in_app_or in Hps as [Hfwd|Hps].
  { destruct (_ && _) eqn:H1 in Hfwd; [|by destruct Hfwd].
    destruct Hfwd as [[= <- <-]|Hfwd]; [done|].
    destruct (_ && _) eqn:H2 in Hfwd; [|by destruct Hfwd].
    destruct Hfwd as [[= <- <-]|[]]; done. }
  apply in_app_or in Hps as [Hl|Hr]; [by apply (Hdiag (-1))|by apply (Hdiag 1)].
Qed.

(** 1.e4 a6 2.e5 d5: the black pawn has just passed the white pawn on
    e5. *)
Definition enPassantGame : list (Z * Z * Z * Z) :=
  [ (6, 4, 4, 4); (1, 0, 2, 0); (4, 4, 3, 4); (1, 3, 3, 3) ].

Lemma diagonal_pawn_move_to_empty_square_witness :
  2 = 3 + -1
  ∧ Z.abs (3 - 4) = 1
  ∧ ∃ lm, lastMove (engineAfter enPassantGame) = Some lm
          ∧ ptype (md_piece lm) = Pawn
          ∧ pcolor (md_piece lm) = opponent White
          ∧ Z.abs ((md_from lm).1 - (md_to lm).1) = 2
          ∧ md_to lm = (3, 3).
Proof.
  apply (diagonal_pawn_move_to_empty_square (engineAfter enPassantGame) 3 4 2 3
           (mkPiece Pawn White true)).
  - vm_compute. reflexivity.
  - reflexivity.
  - vm_compute. tauto.
  - discriminate.
  - vm_compute. reflexivity.
Defined.

(** ** ChessEngineCore: what an applied move leaves behind *)

Lemma wf_markMoved b r c b1 : wf_board b → markMoved b r c = Returned b1 → wf_board b1.
Proof.
  unfold markMoved. destruct (getPiece b r c); [|done].
  intros Hwf [= <-]. by apply wf_setPiece.
Qed.

(** The engine [finishMove] builds before it tests for the end of the
    game. *)
Definition afterMove (e : Engine) (piece : Piece) (moveData : MoveData)
  (toRow toCol : Z) (b1 : Board) : Engine :=
  let promotes := type_eqb (ptype piece) Pawn && ((toRow =? 0) || (toRow =? 7)) in
  let check' := isKingInCheck b1 (opponent (turn e)) in
  mkEngine b1 (opponent (turn e))
    (pushHistory (moveHistory e) (maxMoveHistory e) moveData)
    (capturedWhite e) (capturedBlack e) check' (gameOver e) (Some moveData)
    (if promotes then Some (toRow, toCol) else promotingPawn e) (moveCount e + 1)
    (if check' then checksGiven e + 1 else checksGiven e)
    (castlesPerformed e) (enPassantCount e) (allowUndo e) (maxMoveHistory e).

Definition set_gameOver (e : Engine) (over : bool) : Engine :=
  mkEngine (board e) (turn e) (moveHistory e) (capturedWhite e) (capturedBlack e)
    (check e) over (lastMove e) (promotingPawn e) (moveCount e)
    (checksGiven e) (castlesPerformed e) (enPassantCount e) (allowUndo e)
    (maxMoveHistory e).

Lemma finishMove_spec e piece md res toRow toCol res' e' :
  wf_board (board e) →
  finishMove e piece md res toRow toCol = Returned (res', e') →
  ∃ b1, markMoved (board e) toRow toCol = Returned b1
        ∧ e' = set_gameOver (afterMove e piece md toRow toCol b1)
                 (hasNoLegalMoves (afterMove e piece md toRow toCol b1)).1.
Proof.
  intros Hwf H. unfold finishMove in H.
  destruct (markMoved (board e) toRow toCol) as [b1|] eqn:Hmark; [|done].
  exists b1. split; [done|]. cbv zeta in H.
  set (e2 := afterMove e piece md toRow toCol b1).
  match type of H with context [isCheckmate ?x] => change x with e2 in H end.
  assert (Hwf2 : wf_board (board e2)) by (by apply (wf_markMoved _ _ _ _ Hwf Hmark)).
  pose proof (hasNoLegalMoves_loop_restores e2 allSquares Hwf2) as Hno.
  fold (hasNoLegalMoves e2) in Hno.
  unfold isCheckmate, isStalemate in H.
  destruct (check e2) eqn:Hchk; cbn [negb] in H.
  - destruct (hasNoLegalMoves e2) as [no e3]. cbn [snd] in Hno. subst e3.
    destruct no.
    + by injection H as <- <-.
    + rewrite Hchk in H. by injection H as <- <-.
  - rewrite Hchk in H.
    destruct (hasNoLegalMoves e2) as [no e3]. cbn [snd] in Hno. subst e3.
    by injection H as <- <-.
Qed.

Lemma calculatePossibleMoves_reads e1 e2 row col :
  board e1 = board e2 → turn e1 = turn e2 → lastMove e1 = lastMove e2 →
  (calculatePossibleMoves e1 row col).1 = (calculatePossibleMoves e2 row col).1.
Proof.
  intros Hb Ht Hl. unfold calculatePossibleMoves. rewrite Hb, Ht, Hl.
  destruct (getPiece (board e2) row col) as [p|]; [|done].
  destruct (negb _); [done|].
  by destruct (filterLegal _ _ _ _ _).
Qed.

Lemma noLegalMoveOn_reads e1 e2 squares :
  board e1 = board e2 → turn e1 = turn e2 → lastMove e1 = lastMove e2 →
  noLegalMoveOn e1 squares → noLegalMoveOn e2 squares.
Proof.
  intros Hb Ht Hl Hno r c p Hin Hp Hc.
  rewrite <- (calculatePossibleMoves_reads e1 e2 r c Hb Ht Hl).
  apply (Hno r c p Hin); [by rewrite Hb|by rewrite Ht].
Qed.


(** X6.  A [movePiece] call that is applied (any answer but
    ['invalid']) passes the turn to the other side, counts one more
    move, and stores as [lastMove] and as the newest history entry a
    record of the move: its two squares, a copy of the piece, a copy of
    what stood on the target, and the board as it was before the move.
    The check flag is the check test for the side now to move on the
    new board, and [gameOver] is set exactly when that side has no
    legal move.  The board stays 8×8. *)
Theorem applied_move_is_recorded (e e' : Engine) (fromRow fromCol toRow toCol : Z)
  (res : MoveResult)
  (Hwf : wf_board (board e)) (Hmax : 0 ≤ maxMoveHistory e)
  (Hmove : movePiece e fromRow fromCol toRow toCol = Returned (res, e'))
  (Hres : res ≠ Invalid) :
  turn e' = opponent (turn e)
  ∧ moveCount e' = moveCount e + 1
  ∧ (∃ md, lastMove e' = Some md ∧ last (moveHistory e') = Some md
           ∧ md_from md = (fromRow, fromCol) ∧ md_to md = (toRow, toCol)
           ∧ getPiece (board e) fromRow fromCol = Some (md_piece md)
           ∧ md_captured md = getPiece (board e) toRow toCol
           ∧ boardState md = board e)
  ∧ wf_board (board e')
  ∧ check e' = isKingInCheck (board e') (turn e')
  ∧ (gameOver e' = true ↔ noLegalMoveOn e' allSquares).
Proof.
  revert Hmove. unfold movePiece.
  destruct (readCell (board e) fromRow fromCol) as [[p|]|] eqn:Hread; [| |done].
  2:{ by intros [= <- _]. }
  destruct (negb _); [by intros [= <- _]|].
  pose proof (calculatePossibleMoves_restores e fromRow fromCol Hwf) as Hr.
  destruct (calculatePossibleMoves e fromRow fromCol) as [moves e1].
  simpl in Hr. subst e1.
  destruct (find _ _); [|by intros [= <- _]].
  set (md := mkMoveData _ _ _ _ _).
  assert (Hp : getPiece (board e) fromRow fromCol = Some p).
  { revert Hread. unfold readCell. destruct (_ && _); [|done]. by intros [= ->]. }
  assert (Hgoal : ∀ e0 res0,
            wf_board (board e0) → turn e0 = turn e → moveHistory e0 = moveHistory e →
            moveCount e0 = moveCount e → maxMoveHistory e0 = maxMoveHistory e →
            finishMove e0 p md res0 toRow toCol = Returned (res, e') →
            turn e' = opponent (turn e)
            ∧ moveCount e' = moveCount e + 1
            ∧ (∃ md0, lastMove e' = Some md0 ∧ last (moveHistory e') = Some md0
                      ∧ md_from md0 = (fromRow, fromCol) ∧ md_to md0 = (toRow, toCol)
                      ∧ getPiece (board e) fromRow fromCol = Some (md_piece md0)
                      ∧ md_captured md0 = getPiece (board e) toRow toCol
                      ∧ boardState md0 = board e)
            ∧ wf_board (board e')
            ∧ check e' = isKingInCheck (board e') (turn e')
            ∧ (gameOver e' = true ↔ noLegalMoveOn e' allSquares)).
  { intros e0 res0 Hwf0 Ht Hh Hc Hm Hfin.
    apply finishMove_spec in Hfin as (b1 & Hmark & ->); [|done].
    set (e2 := afterMove e0 p md toRow toCol b1).
    assert (Hwf2 : wf_board (board e2)) by (by apply (wf_markMoved _ _ _ _ Hwf0 Hmark)).
    split; [cbn; by rewrite Ht|]. split; [cbn; by rewrite Hc|].
    split.
    { exists md. split; [done|]. split; [|done].
      cbn. rewrite Hh, Hm. by apply pushHistory_last. }
    split; [done|]. split; [done|].
    pose proof (hasNoLegalMoves_loop_spec e2 allSquares Hwf2) as Hspec.
    fold (hasNoLegalMoves e2) in Hspec.
    change (gameOver (set_gameOver e2 (hasNoLegalMoves e2).1))
      with (hasNoLegalMoves e2).1.
    rewrite Hspec. split; by apply noLegalMoveOn_reads. }
  destruct (_ && _).
  { intros H.
    apply (Hgoal (executeCastling e fromRow fromCol toRow toCol) Castle);
      [|done|done|done|done|exact H].
    unfold executeCastling. cbn [board]. by repeat apply wf_setPiece. }
  destruct (_ && _).
  - destruct (executeEnPassant e fromRow fromCol toRow toCol) as [e2|] eqn:Hep; [|done].
    intros H.
    assert (Hf : wf_board (board e2) ∧ turn e2 = turn e ∧ moveHistory e2 = moveHistory e
                 ∧ moveCount e2 = moveCount e ∧ maxMoveHistory e2 = maxMoveHistory e).
    { revert Hep. unfold executeEnPassant.
      match goal with
      | |- context [match getPiece ?b fromRow toCol with _ => _ end] =>
          destruct (getPiece b fromRow toCol) as [cp|]; [|done]
      end.
      intros [= <-]. unfold pushCaptured.
      destruct (pcolor cp); cbn [board turn moveHistory moveCount maxMoveHistory allowUndo set_board];
      (split; [by repeat apply wf_setPiece|done]). }
    destruct Hf as (? & ? & ? & ? & ?). by apply (Hgoal e2 Valid).
  - intros H.
    assert (Hf : wf_board (board (executeRegular e p fromRow fromCol toRow toCol))
                 ∧ turn (executeRegular e p fromRow fromCol toRow toCol) = turn e
                 ∧ moveHistory (executeRegular e p fromRow fromCol toRow toCol)
                   = moveHistory e
                 ∧ moveCount (executeRegular e p fromRow fromCol toRow toCol) = moveCount e
                 ∧ maxMoveHistory (executeRegular e p fromRow fromCol toRow toCol)
                   = maxMoveHistory e).
    { unfold executeRegular.
      destruct (getPiece (board e) toRow toCol) as [t|];
      cbn [board turn moveHistory moveCount maxMoveHistory allowUndo set_board].
      - unfold pushCaptured.
        destruct (pcolor t); cbn [board turn moveHistory moveCount maxMoveHistory allowUndo set_board];
        (split; [by repeat apply wf_setPiece|done]).
      - split; [by repeat apply wf_setPiece|done]. }
    destruct Hf as (? & ? & ? & ? & ?).
    by apply (Hgoal (executeRegular e p fromRow fromCol toRow toCol) Valid).
Qed.

Lemma applied_move_is_recorded_witness :
  let e' := engineAfter [(6, 4, 4, 4)] in
  turn e' = opponent (turn defaultEngine)
  ∧ moveCount e' = moveCount defaultEngine + 1
  ∧ (∃ md, lastMove e' = Some md ∧ last (moveHistory e') = Some md
           ∧ md_from md = (6, 4) ∧ md_to md = (4, 4)
           ∧ getPiece (board defaultEngine) 6 4 = Some (md_piece md)
           ∧ md_captured md = getPiece (board defaultEngine) 4 4
           ∧ boardState md = board defaultEngine)
  ∧ wf_board (board e')
  ∧ check e' = isKingInCheck (board e') (turn e')
  ∧ (gameOver e' = true ↔ noLegalMoveOn e' allSquares).
Proof.
  apply (applied_move_is_recorded defaultEngine (engineAfter [(6, 4, 4, 4)]) 6 4 4 4 Valid).
  - exact wf_startBoard.
  - vm_compute. discriminate.
  - vm_compute. reflexivity.
  - discriminate.
Defined.

(** ** ChessEngineCore: the bounded history and [undoMove] *)

(** An applied [movePiece] call ends in [finishMove], run on an engine
    that differs from the one before the call in the board, the ledger
    and the two special-move counters only. *)
Lemma movePiece_applied_finish e fromRow fromCol toRow toCol res e' :
  wf_board (board e) →
  movePiece e fromRow fromCol toRow toCol = Returned (res, e') → res ≠ Invalid →
  ∃ e0 p res0,
    getPiece (board e) fromRow fromCol = Some p
    ∧ wf_board (board e0) ∧ turn e0 = turn e ∧ moveHistory e0 = moveHistory e
    ∧ moveCount e0 = moveCount e ∧ maxMoveHistory e0 = maxMoveHistory e
    ∧ allowUndo e0 = allowUndo e
    ∧ finishMove e0 p
        (mkMoveData (fromRow, fromCol) (toRow, toCol) p (getPiece (board e) toRow toCol)
           (board e)) res0 toRow toCol = Returned (res, e').
Proof.
  intros Hwf. unfold movePiece.
  destruct (readCell (board e) fromRow fromCol) as [[p|]|] eqn:Hread; [| |done].
  2:{ by intros [= <- _]. }
  destruct (negb _); [by intros [= <- _]|].
  pose proof (calculatePossibleMoves_restores e fromRow fromCol Hwf) as Hr.
  destruct (calculatePossibleMoves e fromRow fromCol) as [moves e1].
  simpl in Hr. subst e1.
  destruct (find _ _); [|by intros [= <- _]].
  assert (Hp : getPiece (board e) fromRow fromCol = Some p).
  { revert Hread. unfold readCell. destruct (_ && _); [|done]. by intros [= ->]. }
  destruct (_ && _).
  { intros H _. exists (executeCastling e fromRow fromCol toRow toCol), p, Castle.
    split; [done|]. split; [|done].
    unfold executeCastling. cbn [board]. by repeat apply wf_setPiece. }
  destruct (_ && _).
  - destruct (executeEnPassant e fromRow fromCol toRow toCol) as [e2|] eqn:Hep; [|done].
    intros H _. exists e2, p, Valid. split; [done|].
    revert Hep. unfold executeEnPassant.
    match goal with
    | |- context [match getPiece ?b fromRow toCol with _ => _ end] =>
        destruct (getPiece b fromRow toCol) as [cp|]; [|done]
    end.
    intros [= <-].
    split; [|split; [|split; [|split; [|split; [|split; [|exact H]]]]]];
      unfold pushCaptured; destruct (pcolor cp);
      cbn [board turn moveHistory moveCount maxMoveHistory allowUndo set_board];
      first [reflexivity | by repeat apply wf_setPiece].
  - intros H _. exists (executeRegular e p fromRow fromCol toRow toCol), p, Valid.
    split; [done|]. revert H. unfold executeRegular.
    destruct (getPiece (board e) toRow toCol) as [t|];
      cbn [board turn moveHistory moveCount maxMoveHistory allowUndo set_board].
    + unfold pushCaptured.
      destruct (pcolor t); cbn [board turn moveHistory moveCount maxMoveHistory allowUndo set_board];
      intros H; (split; [by repeat apply wf_setPiece|done]).
    + intros H. split; [by repeat apply wf_setPiece|done].
Qed.

(** X7.  With a positive [maxMoveHistory], a history within the bound
    stays within it after every applied move: the new entry is
    appended, and when that makes the history longer than the bound
    the oldest entry is dropped.  The bound itself and [allowUndo] are
    never changed by a move. *)
Theorem history_stays_within_bound (e e' : Engine) (fromRow fromCol toRow toCol : Z)
  (res : MoveResult)
  (Hwf : wf_board (board e)) (Hmax : 1 ≤ maxMoveHistory e)
  (Hlen : Z.of_nat (length (moveHistory e)) ≤ maxMoveHistory e)
  (Hmove : movePiece e fromRow fromCol toRow toCol = Returned (res, e'))
  (Hres : res ≠ Invalid) :
  Z.of_nat (length (moveHistory e')) ≤ maxMoveHistory e'
  ∧ maxMoveHistory e' = maxMoveHistory e ∧ allowUndo e' = allowUndo e
  ∧ ∃ md, (Z.of_nat (length (moveHistory e)) < maxMoveHistory e →
             moveHistory e' = moveHistory e ++ [md])
          ∧ (Z.of_nat (length (moveHistory e)) = maxMoveHistory e →
             moveHistory e' = tail (moveHistory e) ++ [md]).
Proof.
  destruct (movePiece_applied_finish _ _ _ _ _ _ _ Hwf Hmove Hres)
    as (e0 & p & res0 & _ & _ & _ & Hh & _ & Hm & Ha & Hfin).
  apply finishMove_undo_fields in Hfin as (Hh' & Ha' & Hm').
  rewrite Hh', Hm', Ha', Hh, Hm, Ha. unfold pushHistory.
  rewrite length_app. cbn [length].
  destruct (maxMoveHistory e =? 0) eqn:H0; [apply Z.eqb_eq in H0; lia|]. cbn [negb andb].
  destruct (_ >? _) eqn:Hgt.
  - rewrite Z.gtb_ltb in Hgt. apply Z.ltb_lt in Hgt.
    destruct (moveHistory e) as [|m h] eqn:Hhist; [simpl in Hgt; lia|].
    split; [cbn [tail app]; rewrite length_app; simpl in *; lia|].
    split; [done|]. split; [done|].
    eexists. split; [simpl in *; lia|]. intros _. reflexivity.
  - rewrite Z.gtb_ltb in Hgt. apply Z.ltb_ge in Hgt.
    split; [rewrite length_app; simpl; lia|]. split; [done|]. split; [done|].
    eexists. split; [reflexivity|]. lia.
Qed.

Lemma history_stays_within_bound_witness :
  let e' := engineAfter [(6, 4, 4, 4)] in
  Z.of_nat (length (moveHistory e')) ≤ maxMoveHistory e'
  ∧ maxMoveHistory e' = maxMoveHistory defaultEngine
  ∧ allowUndo e' = allowUndo defaultEngine
  ∧ ∃ md, (Z.of_nat (length (moveHistory defaultEngine)) < maxMoveHistory defaultEngine →
             moveHistory e' = moveHistory defaultEngine ++ [md])
          ∧ (Z.of_nat (length (moveHistory defaultEngine)) = maxMoveHistory defaultEngine →
             moveHistory e' = tail (moveHistory defaultEngine) ++ [md]).
Proof.
  apply (history_stays_within_bound defaultEngine (engineAfter [(6, 4, 4, 4)]) 6 4 4 4 Valid).
  - exact wf_startBoard.
  - vm_compute. discriminate.
  - vm_compute. discriminate.
  - vm_compute. reflexivity.
  - discriminate.
Defined.

(** What [undoMove] does with a history that is not empty. *)
Lemma undoMove_pops (e : Engine) (h : list MoveData) (md : MoveData) :
  allowUndo e = true → moveHistory e = h ++ [md] →
  ∃ e', undoMove e = (true, e')
        ∧ moveHistory e' = h ∧ lastMove e' = last h
        ∧ board e' = boardState md
        ∧ turn e' = opponent (turn e)
        ∧ moveCount e' = moveCount e - 1
        ∧ gameOver e' = false
        ∧ check e' = isKingInCheck (board e') (turn e')
        ∧ checksGiven e' = checksGiven e
        ∧ castlesPerformed e' = castlesPerformed e
        ∧ enPassantCount e' = enPassantCount e
        ∧ promotingPawn e' = promotingPawn e.
Proof.
  intros Ha Hh. unfold undoMove. rewrite Ha, Hh. cbn [negb orb].
  rewrite length_app. cbn [length].
  destruct (_ =? 0) eqn:H0; [apply Z.eqb_eq in H0; lia|].
  rewrite last_snoc, removelast_last. eexists. split; [reflexivity|]. done.
Qed.

(** The history after the push and the eviction of [movePiece]: the
    new entry is the last one, behind the old entries without the
    oldest when the bound was reached. *)
Lemma pushHistory_snoc (h : list MoveData) (maxHistory : Z) (m : MoveData) :
  0 ≤ maxHistory →
  pushHistory h maxHistory m
  = (if negb (maxHistory =? 0) && (Z.of_nat (length h) + 1 >? maxHistory)
     then tail h else h) ++ [m].
Proof.
  intros Hmax. unfold pushHistory. rewrite length_app. cbn [length].
  replace (Z.of_nat (length h + 1)) with (Z.of_nat (length h) + 1) by lia.
  destruct (negb (maxHistory =? 0) && (Z.of_nat (length h) + 1 >? maxHistory)) eqn:Hc;
    [|reflexivity].
  destruct h as [|m0 h]; [|reflexivity].
  apply andb_true_iff in Hc as [Hne Hgt].
  apply negb_true_iff, Z.eqb_neq in Hne.
  rewrite Z.gtb_ltb in Hgt. apply Z.ltb_lt in Hgt. cbn [length] in Hgt. lia.
Qed.

(** X8.  [undoMove] right after an applied move (undo allowed) takes
    back the position but not all of the bookkeeping.  The board, the
    side to move and the move count are those before the move, the
    check flag is the check test of that position, [gameOver] is
    cleared and [lastMove] is the newest entry left in the history.
    The history is the one before the move only if the move did not
    push it over [maxMoveHistory]: if it did, the oldest entry stays
    lost.  The counters of checks, castlings and en-passant captures
    and the pending promotion stay as the move left them: after a pawn
    move to the first or last rank is undone, [promotingPawn] still
    names the square the pawn had reached. *)
Theorem undo_after_move_keeps_bookkeeping (e e1 : Engine)
  (fromRow fromCol toRow toCol : Z) (res : MoveResult)
  (Hwf : wf_board (board e)) (Hallow : allowUndo e = true)
  (Hmax : 0 ≤ maxMoveHistory e)
  (Hmove : movePiece e fromRow fromCol toRow toCol = Returned (res, e1))
  (Hres : res ≠ Invalid) :
  ∃ e2, undoMove e1 = (true, e2)
    ∧ board e2 = board e ∧ turn e2 = turn e ∧ moveCount e2 = moveCount e
    ∧ check e2 = isKingInCheck (board e) (turn e) ∧ gameOver e2 = false
    ∧ (maxMoveHistory e = 0 ∨ Z.of_nat (length (moveHistory e)) < maxMoveHistory e →
       moveHistory e2 = moveHistory e)
    ∧ (1 ≤ maxMoveHistory e ≤ Z.of_nat (length (moveHistory e)) →
       moveHistory e2 = tail (moveHistory e))
    ∧ lastMove e2 = last (moveHistory e2)
    ∧ checksGiven e2 = checksGiven e1
    ∧ castlesPerformed e2 = castlesPerformed e1
    ∧ enPassantCount e2 = enPassantCount e1
    ∧ promotingPawn e2 = promotingPawn e1
    ∧ (∀ p, getPiece (board e) fromRow fromCol = Some p → ptype p = Pawn →
         toRow = 0 ∨ toRow = 7 → promotingPawn e2 = Some (toRow, toCol)).
Proof.
  destruct (movePiece_applied_finish _ _ _ _ _ _ _ Hwf Hmove Hres)
    as (e0 & p & res0 & Hp & Hwf0 & Hturn0 & Hhist0 & Hcount0 & Hmax0 & Hallow0 & Hfin).
  destruct (finishMove_spec _ _ _ _ _ _ _ _ Hwf0 Hfin) as (b1 & Hmark & He1).
  set (md := mkMoveData (fromRow, fromCol) (toRow, toCol) p
               (getPiece (board e) toRow toCol) (board e)) in *.
  set (h := if negb (maxMoveHistory e =? 0)
               && (Z.of_nat (length (moveHistory e)) + 1 >? maxMoveHistory e)
            then tail (moveHistory e) else moveHistory e).
  assert (Hhist1 : moveHistory e1 = h ++ [md]).
  { rewrite He1. cbn [set_gameOver afterMove moveHistory].
    rewrite Hhist0, Hmax0. by apply pushHistory_snoc. }
  assert (Hallow1 : allowUndo e1 = true).
  { rewrite He1. cbn [set_gameOver afterMove allowUndo]. by rewrite Hallow0. }
  assert (Hturn1 : turn e1 = opponent (turn e)).
  { rewrite He1. cbn [set_gameOver afterMove turn]. by rewrite Hturn0. }
  assert (Hcount1 : moveCount e1 = moveCount e + 1).
  { rewrite He1. cbn [set_gameOver afterMove moveCount]. by rewrite Hcount0. }
  assert (Hprom1 : ptype p = Pawn → toRow = 0 ∨ toRow = 7 →
                   promotingPawn e1 = Some (toRow, toCol)).
  { intros Ht Hrow. rewrite He1. cbn [set_gameOver afterMove promotingPawn].
    unfold type_eqb. rewrite bool_decide_eq_true_2 by exact Ht.
    replace ((toRow =? 0) || (toRow =? 7)) with true; [reflexivity|].
    symmetry. apply orb_true_iff. destruct Hrow as [-> | ->]; [by left|by right]. }
  clear He1 Hfin.
  destruct (undoMove_pops e1 h md Hallow1 Hhist1)
    as (e2 & Hundo & Hh2 & Hl2 & Hb2 & Ht2 & Hc2 & Hg2 & Hk2 & Hcg & Hcp & Hep & Hpp).
  exists e2. split; [exact Hundo|].
  assert (Hboard : board e2 = board e) by (rewrite Hb2; reflexivity).
  assert (Hturn : turn e2 = turn e).
  { rewrite Ht2, Hturn1. by destruct (turn e). }
  split; [exact Hboard|]. split; [exact Hturn|].
  split; [rewrite Hc2, Hcount1; lia|].
  split; [rewrite Hk2, Hboard, Hturn; reflexivity|].
  split; [exact Hg2|].
  split.
  { intros Hroom. rewrite Hh2. subst h.
    destruct (negb (maxMoveHistory e =? 0)
              && (Z.of_nat (length (moveHistory e)) + 1 >? maxMoveHistory e)) eqn:Hc;
      [|reflexivity].
    apply andb_true_iff in Hc as [Hne Hgt].
    apply negb_true_iff, Z.eqb_neq in Hne.
    rewrite Z.gtb_ltb in Hgt. apply Z.ltb_lt in Hgt. lia. }
  split.
  { intros Hfull. rewrite Hh2. subst h.
    destruct (negb (maxMoveHistory e =? 0)
              && (Z.of_nat (length (moveHistory e)) + 1 >? maxMoveHistory e)) eqn:Hc;
      [reflexivity|].
    apply andb_false_iff in Hc as [Hne|Hgt].
    - apply negb_false_iff, Z.eqb_eq in Hne. lia.
    - rewrite Z.gtb_ltb in Hgt. apply Z.ltb_ge in Hgt. lia. }
  split; [rewrite Hl2, Hh2; reflexivity|].
  split; [exact Hcg|]. split; [exact Hcp|]. split; [exact Hep|]. split; [exact Hpp|].
  intros q Hq Ht Hrow. rewrite Hp in Hq. injection Hq as <-.
  rewrite Hpp. by apply Hprom1.
Qed.

(** The game of the promotion example with the pawn's last step
    played: White's g-pawn has taken on f8. *)
Definition promotedEngine : Engine := engineAfter (promotionGame ++ [(1, 6, 0, 5)]).

Lemma undo_after_move_keeps_bookkeeping_witness :
  ∃ e2, undoMove promotedEngine = (true, e2)
    ∧ board e2 = board (engineAfter promotionGame)
    ∧ turn e2 = turn (engineAfter promotionGame)
    ∧ moveCount e2 = moveCount (engineAfter promotionGame)
    ∧ check e2 = isKingInCheck (board (engineAfter promotionGame))
                   (turn (engineAfter promotionGame))
    ∧ gameOver e2 = false
    ∧ (maxMoveHistory (engineAfter promotionGame) = 0
       ∨ Z.of_nat (length (moveHistory (engineAfter promotionGame)))
         < maxMoveHistory (engineAfter promotionGame) →
       moveHistory e2 = moveHistory (engineAfter promotionGame))
    ∧ (1 ≤ maxMoveHistory (engineAfter promotionGame)
         ≤ Z.of_nat (length (moveHistory (engineAfter promotionGame))) →
       moveHistory e2 = tail (moveHistory (engineAfter promotionGame)))
    ∧ lastMove e2 = last (moveHistory e2)
    ∧ checksGiven e2 = checksGiven promotedEngine
    ∧ castlesPerformed e2 = castlesPerformed promotedEngine
    ∧ enPassantCount e2 = enPassantCount promotedEngine
    ∧ promotingPawn e2 = promotingPawn promotedEngine
    ∧ (∀ p, getPiece (board (engineAfter promotionGame)) 1 6 = Some p → ptype p = Pawn →
         0 = 0 ∨ 0 = 7 → promotingPawn e2 = Some (0, 5)).
Proof.
  apply (undo_after_move_keeps_bookkeeping (engineAfter promotionGame) promotedEngine
           1 6 0 5 Promotion).
  - vm_compute. split; [reflexivity|repeat constructor].
  - vm_compute. reflexivity.
  - vm_compute. discriminate.
  - vm_compute. reflexivity.
  - discriminate.
Defined.

(** ** Finding the king *)

Lemma findKing_test b color r c :
  (match getPiece b r c with
   | Some piece => type_eqb (ptype piece) King && color_eqb (pcolor piece) color
   | None => false
   end) = true
  ↔ ∃ p, getPiece b r c = Some p ∧ ptype p = King ∧ pcolor p = color.
Proof.
  destruct (getPiece b r c) as [p|]; [|split; [done|by intros (? & ? & _)]].
  unfold type_eqb, color_eqb. rewrite andb_true_iff, !bool_decide_eq_true.
  split; [intros [? ?]; by exists p|by intros (? & [= <-] & ? & ?)].
Qed.

(** X9.  [findKing] answers with a square of the board that holds a
    king of the colour asked for, and it answers [null] exactly when
    no square of the board holds one.  (The king search of the hint
    worker's [isKingInCheck] is the same scan.) *)
Theorem findKing_finds_a_king (b : Board) (color : Color) :
  (∀ r c, findKing b color = Some (r, c) →
     isInBounds r c = true
     ∧ ∃ p, getPiece b r c = Some p ∧ ptype p = King ∧ pcolor p = color)
  ∧ (findKing b color = None ↔
     ∀ r c p, getPiece b r c = Some p → ¬ (ptype p = King ∧ pcolor p = color))
  ∧ Stockfish.findKingPos b color = findKing b color.
Proof.
  split; [|split; [|reflexivity]].
  - intros r c H. apply find_some in H as [_ H].
    apply findKing_test in H as (p & Hp & ? & ?).
    split; [by eapply getPiece_Some_inb|by exists p].
  - split.
    + intros H r c p Hp [Ht Hc].
      pose proof (find_none _ _ H (r, c)
                    (elem_allSquares r c (getPiece_Some_inb _ _ _ _ Hp))) as Hn.
      cbv beta iota in Hn. apply not_true_iff_false in Hn. apply Hn.
      apply findKing_test. by exists p.
    + intros H. unfold findKing.
      match goal with
      | |- find ?f ?l = None => destruct (find f l) as [[r c]|] eqn:Hf; [|done]
      end.
      apply find_some in Hf as [_ Hf].
      apply (findKing_test b color r c) in Hf as (p & Hp & ? & ?).
      by destruct (H r c p Hp).
Qed.

(** ** ChessEngineSystem: material, move lists and the root search *)

Lemma evaluateMaterial_fold b color squares : ∀ a a',
  fold_left (λ score '(row, col),
    match getPiece b row col with
    | Some piece =>
        if color_eqb (pcolor piece) color
        then score + System.pieceValue (ptype piece)
        else score - System.pieceValue (ptype piece)
    | None => score
    end) squares a
  + fold_left (λ score '(row, col),
      match getPiece b row col with
      | Some piece =>
          if color_eqb (pcolor piece) (opponent color)
          then score + System.pieceValue (ptype piece)
          else score - System.pieceValue (ptype piece)
      | None => score
      end) squares a'
  = a + a'.
Proof.
  induction squares as [|[r c] rest IH]; intros a a'; [done|].
  cbn [fold_left]. rewrite IH.
  destruct (getPiece b r c) as [p|]; [|done].
  unfold color_eqb. destruct (pcolor p), color; simpl; lia.
Qed.

(** X10.  [evaluateMaterial] is zero-sum: what it returns for one
    colour is the negation of what it returns for the other, on every
    board. *)
Theorem evaluateMaterial_zero_sum (e : Engine) (color : Color) :
  ∃ v, System.evaluateMaterial e color = Fin v
       ∧ System.evaluateMaterial e (opponent color) = Fin (- v).
Proof.
  unfold System.evaluateMaterial. eexists. split; [reflexivity|]. f_equal.
  pose proof (evaluateMaterial_fold (board e) color allSquares 0 0) as H. lia.
Qed.

Lemma getAllPossibleMoves_loop_In e color squares m :
  wf_board (board e) →
  In m (System.getAllPossibleMoves_loop e color squares).1
  ↔ In (System.from m) squares
    ∧ (∃ p, getPiece (board e) (System.from m).1 (System.from m).2 = Some p
            ∧ pcolor p = color)
    ∧ In (System.to m)
        (calculatePossibleMoves e (System.from m).1 (System.from m).2).1.
Proof.
  intros Hwf. induction squares as [|[r c] rest IH].
  { simpl. tauto. }
  cbn [System.getAllPossibleMoves_loop].
  destruct (getPiece (board e) r c) as [p|] eqn:Hp.
  - unfold color_eqb. case_bool_decide as Hc.
    + pose proof (calculatePossibleMoves_restores e r c Hwf) as Hr.
      destruct (calculatePossibleMoves e r c) as [targets e1] eqn:Hcalc.
      cbn [snd] in Hr. subst e1.
      destruct (System.getAllPossibleMoves_loop e color rest) as [moves e2].
      cbn [fst] in *. rewrite in_app_iff, IH, in_map_iff. split.
      * intros [(t & <- & Ht)|(Hin & Hpc & Hto)].
        -- cbn. rewrite Hcalc. split; [by left|]. split; [by exists p|done].
        -- split; [by right|done].
      * intros ([Heq|Hin] & Hpc & Hto); [|by right].
        left. exists (System.to m). destruct m as [[fr fc] t]. cbn in *.
        injection Heq as <- <-. rewrite Hcalc in Hto. done.
    + rewrite IH. split; [intros (? & ? & ?); split; [by right|done]|].
      intros ([Heq|Hin] & (q & Hq & Hqc) & Hto);
        [|split; [done|split; [by exists q|done]]].
      destruct m as [[fr fc] t]. cbn in *. injection Heq as <- <-.
      rewrite Hp in Hq. injection Hq as <-. done.
  - rewrite IH. split; [intros (? & ? & ?); split; [by right|done]|].
    intros ([Heq|Hin] & (q & Hq & Hqc) & Hto);
        [|split; [done|split; [by exists q|done]]].
    destruct m as [[fr fc] t]. cbn in *. injection Heq as <- <-.
    by rewrite Hp in Hq.
Qed.

(** X11.  [getAllPossibleMoves] returns exactly the moves from a
    square holding a piece of the colour asked for to one of the
    squares [calculatePossibleMoves] returns for it, and leaves the
    engine unchanged; since the generator serves the side to move
    only, the list is empty for the other colour. *)
Theorem getAllPossibleMoves_lists_the_legal_moves (e : Engine) (color : Color)
  (Hwf : wf_board (board e)) :
  (System.getAllPossibleMoves e color).2 = e
  ∧ (∀ m, In m (System.getAllPossibleMoves e color).1
          ↔ (∃ p, getPiece (board e) (System.from m).1 (System.from m).2 = Some p
                  ∧ pcolor p = color)
            ∧ In (System.to m)
                (calculatePossibleMoves e (System.from m).1 (System.from m).2).1)
  ∧ (color ≠ turn e → (System.getAllPossibleMoves e color).1 = []).
Proof.
  destruct (getAllPossibleMoves_spec e color Hwf) as [Hr _].
  split; [done|].
  assert (Hin : ∀ m, In m (System.getAllPossibleMoves e color).1
          ↔ (∃ p, getPiece (board e) (System.from m).1 (System.from m).2 = Some p
                  ∧ pcolor p = color)
            ∧ In (System.to m)
                (calculatePossibleMoves e (System.from m).1 (System.from m).2).1).
  { intros m. unfold System.getAllPossibleMoves.
    rewrite (getAllPossibleMoves_loop_In e color allSquares m Hwf).
    split; [tauto|]. intros [(p & Hp & Hc) Hto]. split; [|by split; [exists p|]].
    destruct (System.from m) as [r c]. apply elem_allSquares.
    by eapply getPiece_Some_inb. }
  split; [exact Hin|].
  intros Hne. destruct (System.getAllPossibleMoves e color).1 as [|m rest] eqn:Hl; [done|].
  exfalso. destruct (Hin m) as [H _].
  destruct (H ltac:(by left)) as [(p & Hp & Hc) Hto].
  revert Hto. unfold calculatePossibleMoves. rewrite Hp.
  unfold color_eqb. case_bool_decide; [congruence|done].
Qed.

Lemma getAllPossibleMoves_lists_the_legal_moves_witness :
  (System.getAllPossibleMoves defaultEngine White).2 = defaultEngine
  ∧ (∀ m, In m (System.getAllPossibleMoves defaultEngine White).1
          ↔ (∃ p, getPiece (board defaultEngine) (System.from m).1 (System.from m).2 = Some p
                  ∧ pcolor p = White)
            ∧ In (System.to m)
                (calculatePossibleMoves defaultEngine (System.from m).1 (System.from m).2).1)
  ∧ (White ≠ turn defaultEngine → (System.getAllPossibleMoves defaultEngine White).1 = []).
Proof.
  apply (getAllPossibleMoves_lists_the_legal_moves defaultEngine White). exact wf_startBoard.
Defined.

(** X12.  [getBestMoveMinMax] at depth 1 or more returns, with the
    engine unchanged: no move exactly when the side has no legal move,
    and otherwise one of the moves of [getAllPossibleMoves], whatever
    order the shuffle puts them in. *)
Theorem best_move_is_a_generated_move
  (evaluatePosition : Engine → Color → Score)
  (shuffle : list System.Move → list System.Move)
  (e : Engine) (color : Color) (depth : Z)
  (Hwf : wf_board (board e)) (Hdepth : 1 ≤ depth)
  (Hperm : ∀ l, Permutation l (shuffle l)) :
  ∃ bestMove bestScore,
    System.getBestMoveMinMax evaluatePosition shuffle (Z.to_nat depth) e color depth
      = Some (bestMove, bestScore, e)
    ∧ (bestMove = None ↔ (System.getAllPossibleMoves e color).1 = [])
    ∧ (∀ m, bestMove = Some m → In m (System.getAllPossibleMoves e color).1).
Proof.
  set (fuel := Z.to_nat depth). set (isMax := color_eqb color White).
  assert (Hfuel : (Z.to_nat (depth - 1) < fuel)%nat) by (unfold fuel; lia).
  destruct (getAllPossibleMoves_spec e color Hwf) as [Hr Hall].
  set (pk := pick evaluatePosition fuel e depth isMax).
  set (sd := seed isMax).
  set (moves := shuffle (System.getAllPossibleMoves e color).1).
  assert (Hall' : Forall (playable e) moves).
  { eapply Permutation_Forall; [apply Hperm|exact Hall]. }
  exists (match (fold_left pk moves (None, sd)).1 with
          | Some m => Some m
          | None => head moves
          end), (fold_left pk moves (None, sd)).2.
  split.
  { unfold System.getBestMoveMinMax. fold isMax.
    destruct (System.getAllPossibleMoves e color) as [allMoves0 e0].
    cbn [snd] in Hr. subst e0. cbn [fst] in *. fold moves.
    rewrite (bestMove_loop_fold evaluatePosition fuel e depth isMax Hwf Hdepth Hfuel
               moves None (if isMax then NegInf else PosInf) Hall').
    change (if isMax then NegInf else PosInf) with sd. fold pk.
    by destruct (fold_left pk moves (None, sd)) as [bm bs]. }
  assert (Hmem : ∀ m, match (fold_left pk moves (None, sd)).1 with
                      | Some m => Some m
                      | None => head moves
                      end = Some m → In m moves).
  { intros m Hm.
    destruct (fold_left pk moves (None, sd)).1 as [m'|] eqn:Hbm.
    - injection Hm as ->.
      by destruct (pick_member evaluatePosition fuel e depth isMax moves (None, sd) m Hbm).
    - destruct moves as [|m0 rest]; [done|]. injection Hm as ->. by left. }
  pose proof (Hperm (System.getAllPossibleMoves e color).1) as HP. fold moves in HP.
  clearbody moves.
  split.
  - split.
    + intros Hnone.
      destruct (fold_left pk moves (None, sd)).1 as [m'|]; [done|].
      destruct moves as [|m0 rest]; [|done].
      apply Permutation_nil. by symmetry.
    + intros Hnil. rewrite Hnil in HP. apply Permutation_nil in HP. by rewrite HP.
  - intros m Hm. apply Hmem in Hm.
    eapply Permutation_in; [symmetry; exact HP|exact Hm].
Qed.

Lemma best_move_is_a_generated_move_witness :
  ∃ bestMove bestScore,
    System.getBestMoveMinMax System.evaluateMaterial (System.shuffleArray [3%nat; 0%nat])
      (Z.to_nat 1) defaultEngine White 1
      = Some (bestMove, bestScore, defaultEngine)
    ∧ (bestMove = None ↔ (System.getAllPossibleMoves defaultEngine White).1 = [])
    ∧ (∀ m, bestMove = Some m → In m (System.getAllPossibleMoves defaultEngine White).1).
Proof.
  apply (best_move_is_a_generated_move System.evaluateMaterial
           (System.shuffleArray [3%nat; 0%nat]) defaultEngine White 1).
  - exact wf_startBoard.
  - lia.
  - intros l. apply shuffleArray_Permutation.
Defined.

(** X13.  [shuffleArray] rearranges: for every sequence of random
    indices the result is a permutation of the array, of the same
    length. *)
Theorem shuffleArray_permutes {A : Type} (js : list nat) (l : list A) :
  Permutation l (System.shuffleArray js l)
  ∧ length (System.shuffleArray js l) = length l.
Proof.
  pose proof (shuffleArray_Permutation js l) as H.
  split; [exact H|]. symmetry. by apply Permutation_length.
Qed.

(** ** StockfishLikeEngine: move generation, ordering and the two searches *)

Lemma isMoveLegal_makeMove b m color :
  (Stockfish.isMoveLegal b m color).1
  = negb (Stockfish.isKingInCheck (Stockfish.makeMove b m).2 color).
Proof. by destruct m as [[fr fc] [tr tc] p]. Qed.

Lemma legalOf_In b color r c p targets m :
  wf_board b → Forall inb targets →
  In m (Stockfish.legalOf b color r c p targets).1
  ↔ Stockfish.from m = (r, c) ∧ Stockfish.piece m = p ∧ In (Stockfish.to m) targets
    ∧ Stockfish.isKingInCheck (Stockfish.makeMove b m).2 color = false.
Proof.
  intros Hwf. induction 1 as [|t rest Ht Hrest IH].
  { simpl. tauto. }
  cbn [Stockfish.legalOf].
  pose proof (isMoveLegal_restores b (Stockfish.mkMove (r, c) t p) color Hwf Ht) as Hm.
  pose proof (isMoveLegal_makeMove b (Stockfish.mkMove (r, c) t p) color) as Hl.
  destruct (Stockfish.isMoveLegal b _ color) as [isLegal b']. cbn [fst snd] in *.
  subst b'.
  destruct (Stockfish.legalOf b color r c p rest) as [moves b''] eqn:Hrec.
  cbn [fst] in *.
  assert (Hhead : ∀ m0, Stockfish.from m0 = (r, c) → Stockfish.piece m0 = p →
            t = Stockfish.to m0 → m0 = Stockfish.mkMove (r, c) t p).
  { intros [f t0 p0]. cbn. by intros -> -> ->. }
  destruct isLegal.
  - cbn [In]. rewrite IH. split.
    + intros [<-|(? & ? & ? & ?)].
      * cbn. split; [done|]. split; [done|]. split; [by left|].
        by apply negb_true_iff.
      * split; [done|]. split; [done|]. split; [by right|done].
    + intros (Hf & Hp & [Ht0|Hin] & Hk).
      * left. symmetry. by apply Hhead.
      * right. done.
  - rewrite IH. split.
    + intros (? & ? & ? & ?). split; [done|]. split; [done|]. split; [by right|done].
    + intros (Hf & Hp & [Ht0|Hin] & Hk); [|done].
      rewrite (Hhead m Hf Hp Ht0) in Hk.
      symmetry in Hl. apply negb_false_iff in Hl. congruence.
Qed.

Lemma generateAllLegalMoves_loop_In b color squares m :
  wf_board b →
  In m (Stockfish.generateAllLegalMoves_loop b color squares).1
  ↔ In (Stockfish.from m) squares
    ∧ getPiece b (Stockfish.from m).1 (Stockfish.from m).2 = Some (Stockfish.piece m)
    ∧ pcolor (Stockfish.piece m) = color
    ∧ In (Stockfish.to m)
        (Stockfish.calculatePossibleMoves b (Stockfish.from m).1 (Stockfish.from m).2)
    ∧ Stockfish.isKingInCheck (Stockfish.makeMove b m).2 color = false.
Proof.
  intros Hwf. induction squares as [|[r c] rest IH].
  { simpl. tauto. }
  cbn [Stockfish.generateAllLegalMoves_loop].
  assert (Hskip : ∀ P : Prop,
            (getPiece b r c = Some (Stockfish.piece m) → pcolor (Stockfish.piece m) = color
             → Stockfish.from m = (r, c) → False) →
            (In m (Stockfish.generateAllLegalMoves_loop b color rest).1
             ↔ In (Stockfish.from m) ((r, c) :: rest)
               ∧ getPiece b (Stockfish.from m).1 (Stockfish.from m).2
                 = Some (Stockfish.piece m)
               ∧ pcolor (Stockfish.piece m) = color
               ∧ In (Stockfish.to m)
                   (Stockfish.calculatePossibleMoves b (Stockfish.from m).1
                      (Stockfish.from m).2)
               ∧ Stockfish.isKingInCheck (Stockfish.makeMove b m).2 color = false)).
  { intros _ Hno. rewrite IH. split.
    - intros (? & ? & ? & ? & ?). split; [by right|done].
    - intros ([Heq|Hin] & Hp & Hc & Hto & Hk); [|done].
      exfalso. apply Hno; [|done|done]. by rewrite <- Heq in Hp. }
  destruct (getPiece b r c) as [p|] eqn:Hp.
  - unfold color_eqb. case_bool_decide as Hc.
    + pose proof (legalOf_restores b color r c p _ Hwf
                    (Stockfish_calculatePossibleMoves_inb b r c)) as Hl.
      pose proof (legalOf_In b color r c p _ m Hwf
                    (Stockfish_calculatePossibleMoves_inb b r c)) as Hmem.
      destruct (Stockfish.legalOf b color r c p _) as [mine b']. cbn [fst snd] in *.
      subst b'.
      destruct (Stockfish.generateAllLegalMoves_loop b color rest) as [moves b''].
      cbn [fst] in *. rewrite in_app_iff, Hmem, IH. split.
      * intros [(Hf & Hpm & Hto & Hk)|(? & ? & ? & ? & ?)].
        -- rewrite Hf. cbn [fst snd]. split; [by left|]. rewrite Hpm. done.
        -- split; [by right|done].
      * intros ([Heq|Hin] & Hpm & Hcm & Hto & Hk); [|by right].
        left. rewrite <- Heq in *. cbn [fst snd] in *. split; [done|].
        split; [congruence|done].
    + apply (Hskip True). intros Hq Hcm _. congruence.
  - apply (Hskip True). intros Hq. done.
Qed.

(** X14.  [generateAllLegalMoves] leaves the board as it found it and
    returns exactly the moves [{ from, to, piece }] where [from] holds
    [piece], a piece of the colour asked for, [to] is one of its
    pseudo-legal targets, and the own king is not in check on the
    board [makeMove] produces.  For each of them [unmakeMove] after
    [makeMove] gives the board back. *)
Theorem Stockfish_generated_moves_are_legal (b : Board) (color : Color)
  (Hwf : wf_board b) :
  (Stockfish.generateAllLegalMoves b color).2 = b
  ∧ (∀ m, In m (Stockfish.generateAllLegalMoves b color).1
          ↔ getPiece b (Stockfish.from m).1 (Stockfish.from m).2 = Some (Stockfish.piece m)
            ∧ pcolor (Stockfish.piece m) = color
            ∧ In (Stockfish.to m)
                (Stockfish.calculatePossibleMoves b (Stockfish.from m).1
                   (Stockfish.from m).2)
            ∧ Stockfish.isKingInCheck (Stockfish.makeMove b m).2 color = false)
  ∧ (∀ m, In m (Stockfish.generateAllLegalMoves b color).1 →
          Stockfish.unmakeMove (Stockfish.makeMove b m).2 m (Stockfish.makeMove b m).1 = b).
Proof.
  split; [by apply generateAllLegalMoves_restores|].
  split.
  - intros m. unfold Stockfish.generateAllLegalMoves.
    rewrite (generateAllLegalMoves_loop_In b color allSquares m Hwf).
    split; [tauto|]. intros (Hp & ?). split; [|done].
    destruct (Stockfish.from m) as [r c]. apply elem_allSquares.
    by eapply getPiece_Some_inb.
  - intros m Hin. apply unmakeMove_makeMove; [done|].
    pose proof (generateAllLegalMoves_to b color Hwf) as Hto.
    rewrite List.Forall_forall in Hto. by apply Hto.
Qed.

Lemma Stockfish_generated_moves_are_legal_witness :
  (Stockfish.generateAllLegalMoves startBoard White).2 = startBoard
  ∧ (∀ m, In m (Stockfish.generateAllLegalMoves startBoard White).1
          ↔ getPiece startBoard (Stockfish.from m).1 (Stockfish.from m).2
            = Some (Stockfish.piece m)
            ∧ pcolor (Stockfish.piece m) = White
            ∧ In (Stockfish.to m)
                (Stockfish.calculatePossibleMoves startBoard (Stockfish.from m).1
                   (Stockfish.from m).2)
            ∧ Stockfish.isKingInCheck (Stockfish.makeMove startBoard m).2 White = false)
  ∧ (∀ m, In m (Stockfish.generateAllLegalMoves startBoard White).1 →
          Stockfish.unmakeMove (Stockfish.makeMove startBoard m).2 m
            (Stockfish.makeMove startBoard m).1 = startBoard).
Proof.
  apply (Stockfish_generated_moves_are_legal startBoard White). exact wf_startBoard.
Defined.

(** X15.  [orderMoves] returns the moves it was given, each once,
    arranged so that the score it sorts by (victim value minus
    attacker value for a move onto an occupied square, [0] otherwise)
    never increases along the list. *)
Theorem orderMoves_sorts_by_score (b : Board) (moves : list Stockfish.Move) :
  Permutation moves (Stockfish.orderMoves b moves)
  ∧ StronglySorted (λ x y, Stockfish.orderScore b y ≤ Stockfish.orderScore b x)
      (Stockfish.orderMoves b moves).
Proof.
  split; [apply orderMoves_Permutation|apply orderMoves_sorted].
Qed.

(** ** ChessAI: alpha-beta pruning returns the minimax value *)

(** What a fail-hard search with window [(alpha, beta)] may answer,
    [r], when the full search answers [v]: a bound on the same side of
    the window, and [v] itself inside it. *)
Definition agrees (alpha beta v r : Score) : Prop :=
  (score_leb v alpha = true → score_leb r alpha = true)
  ∧ (score_leb beta v = true → score_leb beta r = true)
  ∧ (score_ltb alpha v = true → score_ltb v beta = true → r = v).

Definition finite (a : Score) : Prop := ∃ z, a = Fin z.

Ltac score_step :=
  cbn [score_ltb score_neg negb] in *;
  match goal with
  | H : context [?x <? ?y] |- _ => destruct (Z.ltb_spec x y)
  | |- context [?x <? ?y] => destruct (Z.ltb_spec x y)
  end.

Ltac score_cases :=
  unfold agrees, finite, score_leb, score_max, score_min in *;
  repeat match goal with x : Score |- _ => destruct x end;
  repeat score_step;
  cbn [score_ltb score_neg negb] in *;
  repeat match goal with
         | H : ∃ _, _ |- _ => destruct H
         | H : _ ∧ _ |- _ => destruct H
         end;
  try done; try lia; try (f_equal; lia);
  try (repeat split; intros; repeat score_step; cbn [score_ltb score_neg negb] in *;
       try done; try lia; try (f_equal; lia); try congruence);
  try (eexists; reflexivity).

Lemma agrees_refl alpha beta v : agrees alpha beta v v.
Proof. by repeat split. Qed.

Lemma agrees_neg alpha beta v r :
  agrees (score_neg beta) (score_neg alpha) v r →
  agrees alpha beta (score_neg v) (score_neg r).
Proof.
  intros (H1 & H2 & H3). unfold agrees.
  split; [|split].
  - intros H. revert H2. clear H1 H3. score_cases; intros H2; specialize (H2 eq_refl); done.
  - intros H. revert H1. clear H2 H3. score_cases; intros H1; specialize (H1 eq_refl); done.
  - intros Ha Hb. f_equal. apply H3; clear H1 H2 H3; score_cases.
Qed.

Lemma score_neg_window alpha beta :
  score_ltb alpha beta = true → score_ltb (score_neg beta) (score_neg alpha) = true.
Proof. score_cases. Qed.

Lemma agrees_cutoff alpha beta t sc :
  score_ltb alpha beta = true → agrees alpha beta t sc →
  score_leb beta sc = true → score_leb beta t = true.
Proof.
  intros Hw (H1 & H2 & H3) Hc.
  destruct (score_leb beta t) eqn:Ht; [done|]. exfalso.
  destruct (score_leb t alpha) eqn:Hta.
  - specialize (H1 eq_refl). clear H2 H3 Ht Hta. score_cases.
  - assert (sc = t) as ->.
    { apply H3; clear H1 H2 H3 Hc; score_cases. }
    congruence.
Qed.

Lemma agrees_continue alpha beta t sc :
  score_ltb alpha beta = true → agrees alpha beta t sc →
  score_leb beta sc = false →
  score_max alpha sc = score_max alpha t
  ∧ score_ltb (score_max alpha sc) beta = true.
Proof.
  intros Hw (H1 & H2 & H3) Hc.
  assert (Htb : score_leb beta t = false).
  { destruct (score_leb beta t) eqn:Ht; [|done]. specialize (H2 eq_refl). congruence. }
  destruct (score_leb t alpha) eqn:Hta.
  - specialize (H1 eq_refl). clear H2 H3. score_cases.
  - assert (sc = t) as ->.
    { apply H3; clear H1 H2 H3 Hc; score_cases. }
    clear H1 H2 H3. score_cases.
Qed.

Lemma score_max_assoc a best t :
  score_max (score_max a best) t = score_max a (score_max best t).
Proof. score_cases. Qed.

Lemma agrees_no_moves a beta best :
  score_ltb (score_max a best) beta = true → agrees a beta best (score_max a best).
Proof. score_cases. Qed.

Lemma agrees_after_cutoff a beta best t M :
  score_ltb (score_max a best) beta = true → score_leb beta t = true →
  score_leb (score_max best t) M = true → agrees a beta M beta.
Proof. score_cases. Qed.

Section AlphaBeta.

Variable evaluatePosition : ChessEngine.State → Color → Score.
Hypothesis evaluatePosition_finite : ∀ s color, finite (evaluatePosition s color).

(** What the two loops need of one move: it can be made and taken
    back, and below it the two searches return, the pruned one in
    agreement with the full one. *)
Definition child_ok
  (mm_rec : ChessEngine.State → option (Score * ChessEngine.State))
  (ab_rec : ChessEngine.State → Score → Score → option (Score * ChessEngine.State))
  (s : ChessEngine.State) (m : ChessAI.Move) : Prop :=
  ∃ u s1 v,
    ChessAI.makeMove s m = Some (u, s1)
    ∧ ChessAI.unmakeMove s1 m u = s
    ∧ finite v
    ∧ mm_rec s1 = Some (v, s1)
    ∧ ∀ a b, score_ltb a b = true →
        ∃ r, ab_rec s1 a b = Some (r, s1) ∧ agrees a b v r.

Lemma recursive_loop_value mm_rec ab_rec s moves : ∀ best,
  Forall (child_ok mm_rec ab_rec s) moves → best ≠ PosInf →
  ∃ M, ChessAI.recursive_loop mm_rec moves s best = Some (M, s)
       ∧ score_leb best M = true ∧ M ≠ PosInf ∧ (moves ≠ [] → finite M).
Proof.
  induction moves as [|m rest IH]; intros best Hall Hbest.
  { exists best. split; [done|]. split; [clear; score_cases|]. done. }
  destruct (Forall_inv Hall) as (u & s1 & v & Hmake & Hun & Hfin & Hmm & _).
  cbn [ChessAI.recursive_loop]. rewrite Hmake, Hmm, Hun.
  change (if score_ltb best (score_neg v) then score_neg v else best)
    with (score_max best (score_neg v)).
  destruct (IH (score_max best (score_neg v)) (Forall_inv_tail Hall))
    as (M & HM & Hle & Hne & _).
  { clear -Hbest Hfin. destruct Hfin as [z ->]. score_cases. }
  exists M. split; [done|]. split.
  { clear -Hle Hfin. destruct Hfin as [z ->]. score_cases. }
  split; [done|]. intros _.
  clear -Hle Hne Hfin Hbest. destruct Hfin as [z ->]. score_cases.
Qed.

Lemma alphabeta_loop_agrees mm_rec ab_rec s a beta moves : ∀ best alpha M,
  Forall (child_ok mm_rec ab_rec s) moves → best ≠ PosInf →
  score_ltb alpha beta = true → alpha = score_max a best →
  ChessAI.recursive_loop mm_rec moves s best = Some (M, s) →
  ∃ r, ChessAI_alphabeta_loop ab_rec moves s alpha beta = Some (r, s)
       ∧ agrees a beta M r.
Proof.
  induction moves as [|m rest IH]; intros best alpha M Hall Hbest Hw Halpha Hmm.
  { injection Hmm as <-. exists alpha. split; [done|]. subst alpha.
    by apply agrees_no_moves. }
  destruct (Forall_inv Hall) as (u & s1 & v & Hmake & Hun & Hfin & Hv & Hab).
  cbn [ChessAI.recursive_loop] in Hmm. rewrite Hmake, Hv, Hun in Hmm.
  change (if score_ltb best (score_neg v) then score_neg v else best)
    with (score_max best (score_neg v)) in Hmm.
  cbn [ChessAI_alphabeta_loop]. rewrite Hmake.
  destruct (Hab (score_neg beta) (score_neg alpha) (score_neg_window _ _ Hw))
    as (rc & Hrc & Hagree).
  rewrite Hrc, Hun. cbv zeta. apply agrees_neg in Hagree.
  assert (Hbest' : score_max best (score_neg v) ≠ PosInf).
  { clear -Hbest Hfin. destruct Hfin as [z ->]. score_cases. }
  destruct (score_leb beta (score_neg rc)) eqn:Hcut.
  - exists beta. split; [done|].
    pose proof (agrees_cutoff _ _ _ _ Hw Hagree Hcut) as Ht.
    destruct (recursive_loop_value mm_rec ab_rec s rest _ (Forall_inv_tail Hall) Hbest')
      as (M' & HM' & Hle & _).
    rewrite HM' in Hmm. injection Hmm as <-.
    subst alpha. by eapply agrees_after_cutoff.
  - destruct (agrees_continue _ _ _ _ Hw Hagree Hcut) as [Heq Hlt].
    change (if score_ltb alpha (score_neg rc) then score_neg rc else alpha)
      with (score_max alpha (score_neg rc)).
    apply (IH (score_max best (score_neg v)) _ M (Forall_inv_tail Hall) Hbest' Hlt);
      [|done].
    rewrite Heq, Halpha. apply score_max_assoc.
Qed.

Lemma alphabetaRecursive_agrees fuel : ∀ s color depth,
  wf_board (ChessEngine.board s) → 0 ≤ depth → (Z.to_nat depth < fuel)%nat →
  ∃ v, finite v
       ∧ ChessAI.minimaxRecursive evaluatePosition fuel s color depth = Some (v, s)
       ∧ ∀ a b, score_ltb a b = true →
           ∃ r, ChessAI_alphabetaRecursive evaluatePosition fuel s color depth a b
                = Some (r, s)
                ∧ agrees a b v r.
Proof.
  induction fuel as [|fuel IH]; intros s color depth Hwf Hd Hfuel; [lia|].
  cbn [ChessAI.minimaxRecursive ChessAI_alphabetaRecursive].
  destruct (depth =? 0) eqn:Hd0.
  { exists (evaluatePosition s color). split; [done|]. split; [done|].
    intros a b _. eexists. split; [done|]. apply agrees_refl. }
  apply Z.eqb_neq in Hd0.
  destruct (ChessAI_generateAllLegalMoves_spec s color Hwf) as [Hr Hall].
  destruct (ChessAI.generateAllLegalMoves s color) as [moves s1].
  cbn [fst snd] in *. subst s1.
  destruct (Z.of_nat (length moves) =? 0) eqn:Hlen.
  { destruct (ChessEngine.isKingInCheck (ChessEngine.board s) color);
      (eexists; split; [by eexists|]; split; [done|];
       intros a b _; eexists; split; [done|apply agrees_refl]). }
  assert (Hne : moves ≠ []).
  { intros ->. by cbn in Hlen. }
  assert (Hchildren : Forall (child_ok
            (λ s', ChessAI.minimaxRecursive evaluatePosition fuel s' (opponent color)
                     (depth - 1))
            (λ s' a b, ChessAI_alphabetaRecursive evaluatePosition fuel s' (opponent color)
                         (depth - 1) a b) s) moves).
  { apply List.Forall_forall. intros m Hm. rewrite List.Forall_forall in Hall.
    destruct (Hall m Hm) as [Hto Hfrom].
    destruct (ChessAI_makeMove_playable s m (Hall m Hm)) as (u & s1 & Hmake).
    destruct (ChessAI_unmakeMove_makeMove s m u s1 Hwf Hto Hmake) as [Hwf1 Hun].
    destruct (IH s1 (opponent color) (depth - 1) Hwf1 ltac:(lia) ltac:(lia))
      as (v & Hfin & Hv & Hab).
    by exists u, s1, v. }
  destruct (recursive_loop_value _ _ s moves NegInf Hchildren ltac:(done))
    as (M & HM & _ & _ & HfinM).
  exists M. split; [by apply HfinM|]. split; [done|].
  intros a b Hw.
  apply (alphabeta_loop_agrees _ _ s a b moves NegInf a M Hchildren); [done|done| |done].
  clear. by destruct a.
Qed.

Lemma alphabetaRecursive_full_window fuel s color depth :
  wf_board (ChessEngine.board s) → 0 ≤ depth → (Z.to_nat depth < fuel)%nat →
  ChessAI_alphabetaRecursive evaluatePosition fuel s color depth NegInf PosInf
  = ChessAI.minimaxRecursive evaluatePosition fuel s color depth
  ∧ ∃ v, ChessAI.minimaxRecursive evaluatePosition fuel s color depth = Some (Fin v, s).
Proof.
  intros Hwf Hd Hfuel.
  destruct (alphabetaRecursive_agrees fuel s color depth Hwf Hd Hfuel)
    as (v & [z ->] & Hv & Hab).
  destruct (Hab NegInf PosInf eq_refl) as (r & Hr & _ & _ & Heq).
  rewrite Hr, Hv. split; [|by exists z]. by rewrite Heq.
Qed.

Lemma alphabeta_root_minimax fuel color depth moves : ∀ s bestScore bestMoves,
  wf_board (ChessEngine.board s) → 1 ≤ depth → (Z.to_nat (depth - 1) < fuel)%nat →
  Forall (ai_playable s) moves →
  ChessAI_alphabeta_root evaluatePosition fuel color depth moves s bestScore bestMoves
  = ChessAI.root_loop evaluatePosition fuel color depth moves s bestScore bestMoves.
Proof.
  induction moves as [|m rest IH]; intros s bestScore bestMoves Hwf Hd Hfuel Hall; [done|].
  cbn [ChessAI_alphabeta_root ChessAI.root_loop].
  destruct (Forall_inv Hall) as [Hto Hfrom].
  destruct (ChessAI_makeMove_playable s m (Forall_inv Hall)) as (u & s1 & Hmake).
  destruct (ChessAI_unmakeMove_makeMove s m u s1 Hwf Hto Hmake) as [Hwf1 Hun].
  rewrite Hmake.
  destruct (alphabetaRecursive_full_window fuel s1 (opponent color) (depth - 1) Hwf1
              ltac:(lia) Hfuel) as [Heq [v Hv]].
  rewrite Heq, Hv, Hun. cbv zeta.
  destruct (score_ltb _ _); [by apply IH; [| | |exact (Forall_inv_tail Hall)]|].
  destruct (bool_decide _); by apply IH; [| | |exact (Forall_inv_tail Hall)].
Qed.

End AlphaBeta.

(** X16.  With an evaluator that returns finite numbers, the pruned
    search computes the value of the full search: at every depth
    [alphabetaRecursive] with the window [(-Infinity, Infinity)]
    returns what [minimaxRecursive] returns, a finite score, and the
    game as it was; with any window [alpha < beta] it returns a bound
    on the same side of the window as that value, or the value itself
    when it lies inside.  So the root search [alphabeta] of the expert
    level finds the same best score and the same tied moves as
    [minimax] at that depth. *)
Theorem alphabeta_returns_minimax_value
  (evaluatePosition : ChessEngine.State → Color → Score)
  (s : ChessEngine.State) (color : Color) (depth : Z)
  (Hfinite : ∀ s' c, ∃ z, evaluatePosition s' c = Fin z)
  (Hwf : wf_board (ChessEngine.board s)) (Hdepth : 1 ≤ depth) :
  (∃ v, ChessAI.minimaxRecursive evaluatePosition (S (Z.to_nat depth)) s color depth
        = Some (Fin v, s)
        ∧ ChessAI_alphabetaRecursive evaluatePosition (S (Z.to_nat depth)) s color depth
            NegInf PosInf = Some (Fin v, s)
        ∧ ∀ alpha beta, score_ltb alpha beta = true →
            ∃ r, ChessAI_alphabetaRecursive evaluatePosition (S (Z.to_nat depth)) s color
                   depth alpha beta = Some (r, s)
                 ∧ (score_leb (Fin v) alpha = true → score_leb r alpha = true)
                 ∧ (score_leb beta (Fin v) = true → score_leb beta r = true)
                 ∧ (score_ltb alpha (Fin v) = true → score_ltb (Fin v) beta = true →
                    r = Fin v))
  ∧ (∀ rnd,
       ChessAI_alphabeta evaluatePosition rnd (Z.to_nat depth) s color depth
         (ChessAI.generateAllLegalMoves s color).1
       = ChessAI.minimax evaluatePosition rnd (Z.to_nat depth) s color depth
           (ChessAI.generateAllLegalMoves s color).1).
Proof.
  split.
  - destruct (alphabetaRecursive_agrees evaluatePosition Hfinite (S (Z.to_nat depth))
                s color depth Hwf ltac:(lia) ltac:(lia)) as (v & [z ->] & Hv & Hab).
    exists z. split; [done|]. split.
    + destruct (Hab NegInf PosInf eq_refl) as (r & Hr & _ & _ & Heq).
      rewrite Hr. by rewrite Heq.
    + intros alpha beta Hw. destruct (Hab alpha beta Hw) as (r & Hr & Hag).
      by exists r.
  - intros rnd. unfold ChessAI_alphabeta, ChessAI.minimax.
    destruct (ChessAI_generateAllLegalMoves_spec s color Hwf) as [_ Hall].
    by rewrite (alphabeta_root_minimax evaluatePosition Hfinite (Z.to_nat depth) color depth
                  _ s NegInf [] Hwf Hdepth ltac:(lia) Hall).
Qed.

Lemma alphabeta_returns_minimax_value_witness :
  (∃ v, ChessAI.minimaxRecursive ChessAI_material (S (Z.to_nat 2)) ChessEngine_start White 2
        = Some (Fin v, ChessEngine_start)
        ∧ ChessAI_alphabetaRecursive ChessAI_material (S (Z.to_nat 2)) ChessEngine_start
            White 2 NegInf PosInf = Some (Fin v, ChessEngine_start)
        ∧ ∀ alpha beta, score_ltb alpha beta = true →
            ∃ r, ChessAI_alphabetaRecursive ChessAI_material (S (Z.to_nat 2))
                   ChessEngine_start White 2 alpha beta = Some (r, ChessEngine_start)
                 ∧ (score_leb (Fin v) alpha = true → score_leb r alpha = true)
                 ∧ (score_leb beta (Fin v) = true → score_leb beta r = true)
                 ∧ (score_ltb alpha (Fin v) = true → score_ltb (Fin v) beta = true →
                    r = Fin v))
  ∧ (∀ rnd,
       ChessAI_alphabeta ChessAI_material rnd (Z.to_nat 2) ChessEngine_start White 2
         (ChessAI.generateAllLegalMoves ChessEngine_start White).1
       = ChessAI.minimax ChessAI_material rnd (Z.to_nat 2) ChessEngine_start White 2
           (ChessAI.generateAllLegalMoves ChessEngine_start White).1).
Proof.
  apply (alphabeta_returns_minimax_value ChessAI_material ChessEngine_start White 2).
  - intros s' c. eexists. reflexivity.
  - exact wf_startBoard.
  - lia.
Defined.

(** ** StockfishLikeEngine: the evaluator *)

Lemma fold_left_penalties {A} (g : Z → A → Z) (k : Z) :
  (∀ s x, s - k ≤ g s x ≤ s) →
  ∀ l s, s - k * Z.of_nat (length l) ≤ fold_left g l s ≤ s.
Proof.
  intros Hg. induction l as [|x rest IH]; intros s; [simpl; lia|].
  cbn [fold_left length]. specialize (IH (g s x)). specialize (Hg s x). lia.
Qed.

Lemma Stockfish_kingSafety_bounds b kingPos color :
  -180 ≤ Stockfish_evaluateKingSafety b kingPos color ≤ 0.
Proof.
  unfold Stockfish_evaluateKingSafety. cbv zeta.
  match goal with
  | |- _ ≤ fold_left ?g ?l 0 ≤ _ =>
      enough (Hg : ∀ s x, s - 60 ≤ g s x ≤ s)
        by (pose proof (fold_left_penalties g 60 Hg [-1; 0; 1] 0) as H;
            cbn [length] in H; lia)
  end.
  cbv beta. intros s dr.
  match goal with
  | |- _ ≤ fold_left ?g ?l s ≤ _ =>
      enough (Hg : ∀ s x, s - 20 ≤ g s x ≤ s)
        by (pose proof (fold_left_penalties g 20 Hg [-1; 0; 1] s) as H;
            cbn [length] in H; lia)
  end.
  cbv beta. intros s' dc.
  destruct ((0 <=? kingPos.1 + dr) && (kingPos.1 + dr <? 8)
            && (0 <=? kingPos.2 + dc) && (kingPos.2 + dc <? 8)); [|lia].
  destruct (Stockfish.squareAttackedBy _ _ _ _); lia.
Qed.

Lemma Stockfish_pawnStructure_fold (pawns : list Square) : ∀ l score,
  fold_left (λ score pawn,
    let doubled :=
      Z.of_nat (length (List.filter (λ p, (p.2 =? pawn.2) && negb (p.1 =? pawn.1)) pawns)) in
    let score1 := score - doubled * 10 in
    let hasSupport := existsb (λ p, Z.abs (p.2 - pawn.2) =? 1) pawns in
    if negb hasSupport then score1 - 20 else score1) l score ≤ score.
Proof.
  induction l as [|pawn rest IH]; intros score; [simpl; lia|].
  cbn [fold_left]. cbv zeta.
  match goal with |- fold_left ?f rest ?x ≤ _ => specialize (IH x) end.
  cbv zeta in IH. etrans; [exact IH|].
  destruct (negb _); lia.
Qed.

Lemma Stockfish_pawnStructure_nonpositive b color :
  Stockfish_evaluatePawnStructure b color ≤ 0.
Proof. apply Stockfish_pawnStructure_fold. Qed.

(** The scans for the two colours differ in the sign of the score
    only. *)
Lemma Stockfish_scan_zero_sum b color squares : ∀ st st',
  scan_whiteKingPos st = scan_whiteKingPos st' →
  scan_blackKingPos st = scan_blackKingPos st' →
  scan_totalMaterial st = scan_totalMaterial st' →
  let r := fold_left (Stockfish_scanSquare b color) squares st in
  let r' := fold_left (Stockfish_scanSquare b (opponent color)) squares st' in
  scan_whiteKingPos r = scan_whiteKingPos r'
  ∧ scan_blackKingPos r = scan_blackKingPos r'
  ∧ scan_score r + scan_score r' = scan_score st + scan_score st'.
Proof.
  induction squares as [|[r c] rest IH]; intros st st' Hw Hb Ht; [done|].
  cbn [fold_left]. cbv zeta.
  match goal with
  | |- context [fold_left _ rest ?x] =>
      match goal with
      | |- context [fold_left (Stockfish_scanSquare b (opponent color)) rest ?y] =>
          specialize (IH x y)
      end
  end.
  cbv zeta in IH.
  unfold Stockfish_scanSquare in *.
  destruct (getPiece b r c) as [p|]; [|by apply IH].
  cbn [scan_whiteKingPos scan_blackKingPos scan_totalMaterial scan_score] in IH.
  rewrite Hw, Hb, Ht in IH. rewrite Hw, Hb, Ht.
  destruct IH as (H1 & H2 & H3); [done|done|done|].
  split; [done|]. split; [done|]. rewrite H3.
  unfold color_eqb. destruct (pcolor p), color; cbn [opponent];
    repeat case_bool_decide; try done; lia.
Qed.

(** X17.  The evaluator of the hint worker leaves an 8×8 board as it
    found it (its two mobility counts run the move generator, which
    takes every trial move back).  Its value for one colour and its
    value for the other add up to the two pawn-structure terms: the
    material, piece-square, mobility and king-safety terms are
    zero-sum, the pawn-structure term is counted for the own side
    only.  Each pawn-structure term is at most [0], each king-safety
    term lies between [-180] and [0]. *)
Theorem Stockfish_evaluate_is_zero_sum_but_for_pawns (b : Board) (color : Color)
  (kingPos : Square) (Hwf : wf_board b) :
  (Stockfish_evaluate b color).2 = b
  ∧ (Stockfish_evaluate b color).1 + (Stockfish_evaluate b (opponent color)).1
    = Stockfish_evaluatePawnStructure b color
      + Stockfish_evaluatePawnStructure b (opponent color)
  ∧ Stockfish_evaluatePawnStructure b color ≤ 0
  ∧ -180 ≤ Stockfish_evaluateKingSafety b kingPos color ≤ 0.
Proof.
  pose proof (generateAllLegalMoves_restores b color Hwf) as Hr1.
  pose proof (generateAllLegalMoves_restores b (opponent color) Hwf) as Hr2.
  assert (Hopp : opponent (opponent color) = color) by (by destruct color).
  split; [|split; [|split]].
  - unfold Stockfish_evaluate. cbv zeta.
    destruct (Stockfish.generateAllLegalMoves b color) as [my b1]. cbn [snd] in Hr1.
    subst b1.
    destruct (Stockfish.generateAllLegalMoves b (opponent color)) as [op b2].
    cbn [snd] in Hr2. by subst b2.
  - unfold Stockfish_evaluate. cbv zeta. rewrite Hopp.
    destruct (Stockfish.generateAllLegalMoves b color) as [my b1] eqn:Hg1.
    cbn [snd] in Hr1. subst b1.
    destruct (Stockfish.generateAllLegalMoves b (opponent color)) as [op b2] eqn:Hg2.
    cbn [snd] in Hr2. subst b2. rewrite Hg1. cbn [fst].
    destruct (Stockfish_scan_zero_sum b color allSquares (mkScan 0 None None 0)
                (mkScan 0 None None 0) eq_refl eq_refl eq_refl) as (Hw & Hb & Hs).
    cbv zeta in Hw, Hb, Hs. cbn [scan_score] in Hs.
    rewrite <- Hw, <- Hb.
    destruct (scan_whiteKingPos _) as [wk|]; destruct (scan_blackKingPos _) as [bk|];
      destruct color; cbn [opponent] in *; lia.
  - apply Stockfish_pawnStructure_nonpositive.
  - apply Stockfish_kingSafety_bounds.
Qed.

Lemma Stockfish_evaluate_is_zero_sum_but_for_pawns_witness :
  (Stockfish_evaluate startBoard White).2 = startBoard
  ∧ (Stockfish_evaluate startBoard White).1 + (Stockfish_evaluate startBoard (opponent White)).1
    = Stockfish_evaluatePawnStructure startBoard White
      + Stockfish_evaluatePawnStructure startBoard (opponent White)
  ∧ Stockfish_evaluatePawnStructure startBoard White ≤ 0
  ∧ -180 ≤ Stockfish_evaluateKingSafety startBoard (7, 4) White ≤ 0.
Proof.
  apply (Stockfish_evaluate_is_zero_sum_but_for_pawns startBoard White (7, 4)).
  exact wf_startBoard.
Defined.

(** ** StockfishLikeEngine: the searches and their window *)

Lemma score_leb_refl a : score_leb a a = true.
Proof. score_cases. Qed.

Lemma score_window_step alpha beta score :
  score_leb alpha beta = true → score_leb beta score = false →
  score_leb (score_max alpha score) beta = true
  ∧ score_leb alpha (score_max alpha score) = true.
Proof. score_cases. Qed.

Lemma score_leb_trans a b c :
  score_leb a b = true → score_leb b c = true → score_leb a c = true.
Proof. score_cases. Qed.

Section StockfishWindow.

Variable evaluate : Board → Color → Score.

Lemma search_loop_window rec moves : ∀ b alpha beta s b',
  score_leb alpha beta = true →
  Stockfish.search_loop rec moves b alpha beta = Some (s, b') →
  score_leb alpha s = true ∧ score_leb s beta = true.
Proof.
  induction moves as [|m rest IH]; intros b alpha beta s b' Hw.
  { intros [= <- _]. split; [apply score_leb_refl|done]. }
  cbn [Stockfish.search_loop].
  destruct (Stockfish.makeMove b m) as [captured b1].
  destruct (rec b1 _ _) as [[v b2]|]; [|done]. cbv zeta.
  destruct (score_leb beta (score_neg v)) eqn:Hcut.
  - intros [= <- _]. split; [done|apply score_leb_refl].
  - intros H. destruct (score_window_step _ _ _ Hw Hcut) as [Hw' Hup].
    destruct (IH _ _ _ _ _ Hw' H) as [H1 H2]. split; [|done].
    by eapply score_leb_trans.
Qed.

Lemma quiescence_loop_window rec standPat moves : ∀ b alpha beta s b',
  score_leb alpha beta = true →
  Stockfish.quiescence_loop rec standPat moves b alpha beta = Some (s, b') →
  score_leb alpha s = true ∧ score_leb s beta = true.
Proof.
  induction moves as [|m rest IH]; intros b alpha beta s b' Hw.
  { intros [= <- _]. split; [apply score_leb_refl|done]. }
  cbn [Stockfish.quiescence_loop]. cbv zeta.
  match goal with |- context [if ?c then _ else _] => destruct c end.
  { by apply IH. }
  destruct (Stockfish.makeMove b m) as [captured b1].
  destruct (rec b1 _ _) as [[v b2]|]; [|done].
  destruct (score_leb beta (score_neg v)) eqn:Hcut.
  - intros [= <- _]. split; [done|apply score_leb_refl].
  - intros H. destruct (score_window_step _ _ _ Hw Hcut) as [Hw' Hup].
    destruct (IH _ _ _ _ _ Hw' H) as [H1 H2]. split; [|done].
    by eapply score_leb_trans.
Qed.

Lemma quiescenceSearch_window fuel b color depth alpha beta s b' :
  depth ≤ 6 → score_leb alpha beta = true →
  Stockfish.quiescenceSearch evaluate fuel b color depth alpha beta = Some (s, b') →
  score_leb alpha s = true ∧ score_leb s beta = true.
Proof.
  intros Hd Hw. destruct fuel as [|fuel]; [done|].
  cbn [Stockfish.quiescenceSearch].
  destruct (depth >? 6) eqn:Hgt.
  { rewrite Z.gtb_ltb in Hgt. apply Z.ltb_lt in Hgt. lia. }
  destruct (score_leb beta (evaluate b color)) eqn:Hcut.
  { intros [= <- _]. split; [done|apply score_leb_refl]. }
  destruct (Stockfish.generateCaptures b color) as [captures b1].
  intros H. destruct (score_window_step _ _ _ Hw Hcut) as [Hw' Hup].
  destruct (quiescence_loop_window _ _ _ _ _ _ _ _ Hw' H) as [H1 H2].
  split; [|done]. by eapply score_leb_trans.
Qed.

Lemma search_window fuel b color depth alpha beta s b' :
  score_leb alpha beta = true →
  depth = 0 ∨ (Stockfish.generateAllLegalMoves b color).1 ≠ [] →
  Stockfish.search evaluate fuel b color depth alpha beta = Some (s, b') →
  score_leb alpha s = true ∧ score_leb s beta = true.
Proof.
  intros Hw Hnode. destruct fuel as [|fuel]; [done|].
  cbn [Stockfish.search].
  destruct (depth =? 0) eqn:Hd0.
  { apply quiescenceSearch_window; [lia|done]. }
  apply Z.eqb_neq in Hd0. destruct Hnode as [?|Hne]; [done|].
  destruct (Stockfish.generateAllLegalMoves b color) as [moves b1]. cbn [fst] in Hne.
  destruct moves as [|m rest]; [done|]. cbn [length].
  replace (Z.of_nat (S (length rest)) =? 0) with false by (symmetry; apply Z.eqb_neq; lia).
  by apply search_loop_window.
Qed.

End StockfishWindow.

(** X18.  On an 8×8 board, for every window and every depth that is
    not negative, [search] returns a score and hands the board back as
    it was given: each [makeMove] is undone by its [unmakeMove], down
    to the leaves, where the quiescence search does the same within
    its cap of seven levels. *)
Theorem Stockfish_search_restores_board (evaluate : Board → Color → Score)
  (b : Board) (color : Color) (depth : Z) (alpha beta : Score)
  (Hwf : wf_board b) (Hdepth : 0 ≤ depth) :
  (∃ s, Stockfish.search evaluate (S (Z.to_nat depth)) b color depth alpha beta
        = Some (s, b))
  ∧ (∃ q, Stockfish.quiescenceSearch evaluate 8 b color 0 alpha beta = Some (q, b)).
Proof.
  split.
  - apply Stockfish_search_total; [done|done|lia].
  - apply quiescenceSearch_total; [done|]. cbn. lia.
Qed.

Lemma Stockfish_search_restores_board_witness :
  (∃ s, Stockfish.search (λ _ _, Fin 0) (S (Z.to_nat 2)) startBoard White 2 NegInf PosInf
        = Some (s, startBoard))
  ∧ (∃ q, Stockfish.quiescenceSearch (λ _ _, Fin 0) 8 startBoard White 0 NegInf PosInf
          = Some (q, startBoard)).
Proof.
  apply (Stockfish_search_restores_board (λ _ _, Fin 0) startBoard White 2 NegInf PosInf).
  - exact wf_startBoard.
  - lia.
Defined.

(** X19.  [search] and [quiescenceSearch] are fail-hard: called with
    [alpha <= beta] at a node that is a leaf (depth [0]) or has a
    legal move, [search] returns a score between [alpha] and [beta],
    and so does the quiescence search below its depth cap.  (Only the
    mate and stalemate scores of a node without legal moves are
    returned as they are.) *)
Theorem Stockfish_search_stays_in_window (evaluate : Board → Color → Score)
  (b : Board) (color : Color) (depth : Z) (alpha beta : Score)
  (Hwf : wf_board b) (Hdepth : 0 ≤ depth)
  (Hwindow : score_leb alpha beta = true)
  (Hnode : depth = 0 ∨ (Stockfish.generateAllLegalMoves b color).1 ≠ []) :
  (∃ s, Stockfish.search evaluate (S (Z.to_nat depth)) b color depth alpha beta
        = Some (s, b)
        ∧ score_leb alpha s = true ∧ score_leb s beta = true)
  ∧ (∃ q, Stockfish.quiescenceSearch evaluate 8 b color 0 alpha beta = Some (q, b)
          ∧ score_leb alpha q = true ∧ score_leb q beta = true).
Proof.
  split.
  - destruct (Stockfish_search_total evaluate (S (Z.to_nat depth)) b color depth alpha beta
                Hwf Hdepth ltac:(lia)) as [s Hs].
    exists s. split; [done|]. by eapply search_window.
  - destruct (quiescenceSearch_total evaluate 8 b color 0 alpha beta Hwf ltac:(cbn; lia))
      as [q Hq].
    exists q. split; [done|]. eapply quiescenceSearch_window; [|done|exact Hq]. lia.
Qed.

Lemma Stockfish_search_stays_in_window_witness :
  (∃ s, Stockfish.search (λ _ _, Fin 0) (S (Z.to_nat 2)) startBoard White 2
          (Fin (-50)) (Fin 50) = Some (s, startBoard)
        ∧ score_leb (Fin (-50)) s = true ∧ score_leb s (Fin 50) = true)
  ∧ (∃ q, Stockfish.quiescenceSearch (λ _ _, Fin 0) 8 startBoard White 0
            (Fin (-50)) (Fin 50) = Some (q, startBoard)
          ∧ score_leb (Fin (-50)) q = true ∧ score_leb q (Fin 50) = true).
Proof.
  apply (Stockfish_search_stays_in_window (λ _ _, Fin 0) startBoard White 2
           (Fin (-50)) (Fin 50)).
  - exact wf_startBoard.
  - lia.
  - reflexivity.
  - right. vm_compute. discriminate.
Defined.

(** ** StockfishLikeEngine: the root call returns a best legal move *)

Lemma score_finite_cutoff beta z :
  beta ≠ NegInf → score_leb beta (Fin z) = true → finite beta.
Proof. score_cases. Qed.

Lemma score_finite_max alpha z : alpha ≠ PosInf → finite (score_max alpha (Fin z)).
Proof. score_cases. Qed.

Lemma score_neg_ne_PosInf a : a ≠ NegInf → score_neg a ≠ PosInf.
Proof. by destruct a. Qed.

Lemma score_neg_ne_NegInf a : a ≠ PosInf → score_neg a ≠ NegInf.
Proof. by destruct a. Qed.

Lemma finite_ne_PosInf a : finite a → a ≠ PosInf.
Proof. by intros [z ->]. Qed.

Section StockfishRoot.

Variable evaluate : Board → Color → Score.
Hypothesis evaluate_finite : ∀ b color, finite (evaluate b color).

Lemma search_loop_finite rec moves : ∀ b alpha beta s b',
  alpha ≠ PosInf → beta ≠ NegInf → finite alpha ∨ moves ≠ [] →
  (∀ b1 a1 a2 s1 b2, a1 ≠ PosInf → a2 ≠ NegInf →
     rec b1 a1 a2 = Some (s1, b2) → finite s1) →
  Stockfish.search_loop rec moves b alpha beta = Some (s, b') → finite s.
Proof.
  induction moves as [|m rest IH]; intros b alpha beta s b' Ha Hb Hne Hrec.
  { intros [= <- _]. by destruct Hne. }
  cbn [Stockfish.search_loop].
  destruct (Stockfish.makeMove b m) as [captured b1].
  destruct (rec b1 _ _) as [[v b2]|] eqn:Hv; [|done]. cbv zeta.
  apply Hrec in Hv as [z ->];
    [|by apply score_neg_ne_PosInf|by apply score_neg_ne_NegInf].
  cbn [score_neg].
  destruct (score_leb beta (Fin (- z))) eqn:Hcut.
  - intros [= <- _]. by eapply score_finite_cutoff.
  - apply IH; [|done| |done].
    + apply finite_ne_PosInf. by apply score_finite_max.
    + left. by apply score_finite_max.
Qed.

Lemma quiescence_loop_finite rec standPat moves : ∀ b alpha beta s b',
  finite alpha → beta ≠ NegInf →
  (∀ b1 a1 a2 s1 b2, a1 ≠ PosInf → a2 ≠ NegInf →
     rec b1 a1 a2 = Some (s1, b2) → finite s1) →
  Stockfish.quiescence_loop rec standPat moves b alpha beta = Some (s, b') → finite s.
Proof.
  induction moves as [|m rest IH]; intros b alpha beta s b' Ha Hb Hrec.
  { by intros [= <- _]. }
  cbn [Stockfish.quiescence_loop]. cbv zeta.
  match goal with |- context [if ?c then _ else _] => destruct c end.
  { by apply IH. }
  destruct (Stockfish.makeMove b m) as [captured b1].
  destruct (rec b1 _ _) as [[v b2]|] eqn:Hv; [|done].
  apply Hrec in Hv as [z ->];
    [|by apply score_neg_ne_PosInf|apply score_neg_ne_NegInf; by apply finite_ne_PosInf].
  cbn [score_neg].
  destruct (score_leb beta (Fin (- z))) eqn:Hcut.
  - intros [= <- _]. by eapply score_finite_cutoff.
  - apply IH; [|done|done]. apply score_finite_max. by apply finite_ne_PosInf.
Qed.

Lemma quiescenceSearch_finite fuel : ∀ b color depth alpha beta s b',
  alpha ≠ PosInf → beta ≠ NegInf →
  Stockfish.quiescenceSearch evaluate fuel b color depth alpha beta = Some (s, b') →
  finite s.
Proof.
  induction fuel as [|fuel IH]; intros b color depth alpha beta s b' Ha Hb; [done|].
  cbn [Stockfish.quiescenceSearch].
  destruct (depth >? 6); [by intros [= <- _]|].
  destruct (evaluate_finite b color) as [z Hz]. rewrite Hz.
  destruct (score_leb beta (Fin z)) eqn:Hcut.
  { intros [= <- _]. by eapply score_finite_cutoff. }
  destruct (Stockfish.generateCaptures b color) as [captures b1].
  apply quiescence_loop_finite; [by apply score_finite_max|done|].
  intros b2 a1 a2 s1 b3 Ha1 Ha2. by apply IH.
Qed.

Lemma search_finite fuel : ∀ b color depth alpha beta s b',
  alpha ≠ PosInf → beta ≠ NegInf →
  Stockfish.search evaluate fuel b color depth alpha beta = Some (s, b') → finite s.
Proof.
  induction fuel as [|fuel IH]; intros b color depth alpha beta s b' Ha Hb; [done|].
  cbn [Stockfish.search].
  destruct (depth =? 0); [by apply quiescenceSearch_finite|].
  destruct (Stockfish.generateAllLegalMoves b color) as [moves b1].
  destruct (Z.of_nat (length moves) =? 0) eqn:Hlen.
  { destruct (Stockfish.isKingInCheck b1 color); intros [= <- _]; by eexists. }
  apply search_loop_finite; [done|done| |].
  - right. intros Hnil.
    apply (f_equal (@length _)) in Hnil.
    rewrite <- (Permutation_length (orderMoves_Permutation b1 moves)) in Hnil.
    destruct moves; [done|done].
  - intros b2 a1 a2 s1 b3 Ha1 Ha2. by apply IH.
Qed.

Variables (fuel : nat) (b : Board) (color : Color) (depth : Z).
Hypothesis Hwf : wf_board b.
Hypothesis Hdepth : 1 ≤ depth.
Hypothesis Hfuel : (Z.to_nat (depth - 1) < fuel)%nat.

Lemma Stockfish_rootScore_finite m :
  inb (Stockfish.to m) →
  ∃ z, Stockfish.search evaluate fuel (Stockfish.makeMove b m).2 (opponent color)
         (depth - 1) NegInf PosInf = Some (Fin z, (Stockfish.makeMove b m).2)
       ∧ Stockfish_rootScore evaluate fuel b color depth m = Some (Fin (- z)).
Proof.
  intros Hto.
  assert (Hwf1 : wf_board (Stockfish.makeMove b m).2).
  { unfold Stockfish.makeMove. cbn [snd]. by repeat apply wf_setPiece. }
  destruct (Stockfish_search_total evaluate fuel (Stockfish.makeMove b m).2 (opponent color)
              (depth - 1) NegInf PosInf Hwf1 ltac:(lia) Hfuel) as [s Hs].
  assert (Hz : finite s) by (eapply search_finite; [| |exact Hs]; done).
  destruct Hz as [z ->].
  exists z. split; [done|]. unfold Stockfish_rootScore. by rewrite Hs.
Qed.

Lemma Stockfish_bestMove_loop_spec moves : ∀ bestScore bestMove,
  Forall (λ m, inb (Stockfish.to m)) moves →
  ∃ bm bs,
    Stockfish_bestMove_loop evaluate fuel color depth moves b bestScore bestMove
      = Some (bm, bs, b)
    ∧ score_leb bestScore bs = true
    ∧ (∀ m, In m moves →
         ∃ sc, Stockfish_rootScore evaluate fuel b color depth m = Some sc
               ∧ finite sc ∧ score_leb sc bs = true)
    ∧ ((bm = bestMove ∧ bs = bestScore)
       ∨ ∃ m, In m moves ∧ bm = Some m
              ∧ Stockfish_rootScore evaluate fuel b color depth m = Some bs).
Proof.
  induction moves as [|m rest IH]; intros bestScore bestMove Hall.
  { exists bestMove, bestScore. split; [done|]. split; [apply score_leb_refl|].
    split; [done|by left]. }
  cbn [Stockfish_bestMove_loop].
  destruct (Stockfish_rootScore_finite m (Forall_inv Hall)) as (z & Hs & Hroot).
  pose proof (unmakeMove_makeMove b m Hwf (Forall_inv Hall)) as Hun.
  destruct (Stockfish.makeMove b m) as [captured b1]. cbn [fst snd] in *.
  rewrite Hs, Hun. cbv zeta. cbn [score_neg].
  destruct (score_ltb bestScore (Fin (- z))) eqn:Hlt.
  - destruct (IH (Fin (- z)) (Some m) (Forall_inv_tail Hall))
      as (bm & bs & Hloop & Hle & Hmax & Hsel).
    exists bm, bs. split; [done|]. split.
    { clear -Hlt Hle. score_cases. }
    split.
    { intros m' [<-|Hin]; [|by apply Hmax].
      exists (Fin (- z)). split; [done|]. split; [by eexists|done]. }
    right. destruct Hsel as [[-> ->]|(m' & Hin & -> & Hr)].
    + exists m. split; [by left|done].
    + exists m'. split; [by right|done].
  - destruct (IH bestScore bestMove (Forall_inv_tail Hall))
      as (bm & bs & Hloop & Hle & Hmax & Hsel).
    exists bm, bs. split; [done|]. split; [done|]. split.
    { intros m' [<-|Hin]; [|by apply Hmax].
      exists (Fin (- z)). split; [done|]. split; [by eexists|].
      clear -Hlt Hle. score_cases. }
    destruct Hsel as [[-> ->]|(m' & Hin & -> & Hr)]; [by left|].
    right. exists m'. split; [by right|done].
Qed.

End StockfishRoot.

(** X20.  With an evaluator that returns finite numbers,
    [calculateBestMove] at depth 1 or more returns with the board as
    it was given: [null] exactly when the side has no legal move, and
    otherwise one of the legal moves whose score at the root (the
    negated [search] of the position after it) is the highest among
    all legal moves. *)
Theorem Stockfish_calculateBestMove_is_best (evaluate : Board → Color → Score)
  (b : Board) (color : Color) (depth : Z)
  (Hfinite : ∀ b' c, ∃ z, evaluate b' c = Fin z)
  (Hwf : wf_board b) (Hdepth : 1 ≤ depth) :
  ∃ bestMove bestScore,
    Stockfish_calculateBestMove evaluate (Z.to_nat depth) b color depth
      = Some (bestMove, bestScore, b)
    ∧ (bestMove = None ↔ (Stockfish.generateAllLegalMoves b color).1 = [])
    ∧ ∀ m, bestMove = Some m →
        In m (Stockfish.generateAllLegalMoves b color).1
        ∧ Stockfish_rootScore evaluate (Z.to_nat depth) b color depth m = Some bestScore
        ∧ ∀ m', In m' (Stockfish.generateAllLegalMoves b color).1 →
            ∃ sc, Stockfish_rootScore evaluate (Z.to_nat depth) b color depth m' = Some sc
                  ∧ score_leb sc bestScore = true.
Proof.
  unfold Stockfish_calculateBestMove.
  pose proof (generateAllLegalMoves_restores b color Hwf) as Hr.
  pose proof (generateAllLegalMoves_to b color Hwf) as Hto.
  destruct (Stockfish.generateAllLegalMoves b color) as [moves b1].
  cbn [fst snd] in *. subst b1.
  destruct moves as [|m0 rest] eqn:Hmoves.
  { cbn. exists None, NegInf. split; [done|]. split; [done|]. done. }
  rewrite <- Hmoves in *.
  replace (Z.of_nat (length moves) =? 0) with false
    by (symmetry; apply Z.eqb_neq; rewrite Hmoves; cbn [length]; lia).
  pose proof (orderMoves_Permutation b moves) as Hperm.
  destruct (Stockfish_bestMove_loop_spec evaluate Hfinite (Z.to_nat depth) b color depth
              Hwf Hdepth ltac:(lia) (Stockfish.orderMoves b moves) NegInf None)
    as (bm & bs & Hloop & _ & Hmax & Hsel).
  { eapply Permutation_Forall; [exact Hperm|exact Hto]. }
  exists bm, bs. split; [done|].
  assert (Hsome : ∃ m, In m moves ∧ bm = Some m
            ∧ Stockfish_rootScore evaluate (Z.to_nat depth) b color depth m = Some bs).
  { destruct Hsel as [[-> ->]|(m & Hin & -> & Hroot)].
    - exfalso. destruct (Hmax m0) as (sc & _ & [z ->] & Hle).
      { eapply Permutation_in; [exact Hperm|]. rewrite Hmoves. by left. }
      done.
    - exists m. split; [|done]. eapply Permutation_in; [symmetry; exact Hperm|done]. }
  destruct Hsome as (m & Hin & -> & Hroot).
  split.
  { split; [done|]. intros Hnil. by rewrite Hnil in Hmoves. }
  intros m1 [= <-]. split; [done|]. split; [done|].
  intros m' Hin'. destruct (Hmax m') as (sc & Hsc & _ & Hle).
  { eapply Permutation_in; [exact Hperm|done]. }
  by exists sc.
Qed.

Lemma Stockfish_calculateBestMove_is_best_witness :
  ∃ bestMove bestScore,
    Stockfish_calculateBestMove (λ b c, Fin (Stockfish_evaluate b c).1) (Z.to_nat 1)
      startBoard White 1 = Some (bestMove, bestScore, startBoard)
    ∧ (bestMove = None ↔ (Stockfish.generateAllLegalMoves startBoard White).1 = [])
    ∧ ∀ m, bestMove = Some m →
        In m (Stockfish.generateAllLegalMoves startBoard White).1
        ∧ Stockfish_rootScore (λ b c, Fin (Stockfish_evaluate b c).1) (Z.to_nat 1)
            startBoard White 1 m = Some bestScore
        ∧ ∀ m', In m' (Stockfish.generateAllLegalMoves startBoard White).1 →
            ∃ sc, Stockfish_rootScore (λ b c, Fin (Stockfish_evaluate b c).1) (Z.to_nat 1)
                    startBoard White 1 m' = Some sc
                  ∧ score_leb sc bestScore = true.
Proof.
  apply (Stockfish_calculateBestMove_is_best (λ b c, Fin (Stockfish_evaluate b c).1)
           startBoard White 1).
  - intros b' c. eexists. reflexivity.
  - exact wf_startBoard.
  - lia.
Defined.

(** ** ChessEngineCore: no generated move lands on a friendly piece *)

Lemma addDirectionalMoves_loop_landable fuel b opp dr dc sq : ∀ r c,
  In sq (addDirectionalMoves_loop fuel b opp r c dr dc) → landable b opp sq.1 sq.2.
Proof.
  induction fuel as [|fuel IH]; intros r c; [done|].
  cbn [addDirectionalMoves_loop].
  destruct (isInBounds r c); [|done].
  destruct (getPiece b r c) as [q|] eqn:Hq.
  - destruct (color_eqb (pcolor q) opp) eqn:Hc; [|done].
    intros [<-|[]]. right. unfold isOpponentAt. cbn [fst snd]. by rewrite Hq.
  - intros [<-|Hin]; [|by eapply IH].
    left. unfold isEmptyAt. cbn [fst snd]. by rewrite Hq.
Qed.

Lemma stepMoves_landable b opp row col offsets sq :
  In sq (stepMoves b opp row col offsets) → landable b opp sq.1 sq.2.
Proof.
  unfold stepMoves. rewrite in_flat_map. intros (d & _ & Hin).
  cbv zeta in Hin.
  destruct (isInBounds _ _); [|done]. cbn [andb] in Hin.
  destruct (isEmptyAt b _ _ || isOpponentAt b _ _ opp) eqn:Hl; [|done].
  destruct Hin as [<-|[]]. cbn [fst snd].
  apply orb_true_iff in Hl. exact Hl.
Qed.

Lemma calculateCastlingMoves_empty b row col piece color sq :
  In sq (calculateCastlingMoves b row col piece color) → isEmptyAt b sq.1 sq.2 = true.
Proof.
  unfold calculateCastlingMoves.
  destruct (hasMoved piece || isKingInCheck b color); [done|].
  destruct (negb (row =? _)); [done|].
  intros Hin. apply in_app_or in Hin as [Hk|Hq].
  - destruct (_ && _) eqn:Hc in Hk; [|done].
    destruct Hk as [<-|[]]. cbn [fst snd].
    rewrite !andb_true_iff in Hc. by destruct Hc as [[[[_ _] H] _] _].
  - destruct (_ && _) eqn:Hc in Hq; [|done].
    destruct Hq as [<-|[]]. cbn [fst snd].
    rewrite !andb_true_iff in Hc. by destruct Hc as [[[[[_ _] H] _] _] _].
Qed.

Lemma calculatePawnMoves_landable b lm row col piece color opp sq :
  In sq (calculatePawnMoves b lm row col piece color opp) →
  landable b opp sq.1 sq.2 ∧ (sq.2 = col → isEmptyAt b sq.1 sq.2 = true).
Proof.
  unfold calculatePawnMoves. cbv zeta.
  set (dir := match color with White => -1 | Black => 1 end).
  intros Hin. apply in_app_or in Hin as [Hf|Hd].
  - destruct (isInBounds (row + dir) col); [|done]. cbn [andb] in Hf.
    destruct (isEmptyAt b (row + dir) col) eqn:He1; [|done].
    destruct Hf as [<-|Hf]; [by split; [left|]|].
    destruct (negb (hasMoved piece) && isInBounds (row + 2 * dir) col); [|done].
    cbn [andb] in Hf.
    destruct (isEmptyAt b (row + 2 * dir) col) eqn:He2; [|done].
    destruct Hf as [<-|[]]. by split; [left|].
  - assert (Hdiag : ∀ dc, dc ≠ 0 →
      In sq (if isInBounds (row + dir) (col + dc)
             then (if isOpponentAt b (row + dir) (col + dc) opp
                   then [(row + dir, col + dc)] else [])
                  ++ (if isEmptyAt b (row + dir) (col + dc)
                         && enPassantAllowed lm opp row (col + dc)
                      then [(row + dir, col + dc)] else [])
             else []) →
      landable b opp sq.1 sq.2 ∧ (sq.2 = col → isEmptyAt b sq.1 sq.2 = true)).
    { clear Hd. intros dc Hdc H. destruct (isInBounds (row + dir) (col + dc)); [|done].
      apply in_app_or in H as [H|H].
      - destruct (isOpponentAt b (row + dir) (col + dc) opp) eqn:Ho; [|done].
        destruct H as [<-|[]]. cbn [fst snd]. split; [by right|lia].
      - destruct (isEmptyAt b (row + dir) (col + dc)) eqn:He; [|done]. cbn [andb] in H.
        destruct (enPassantAllowed lm opp row (col + dc)); [|done].
        destruct H as [<-|[]]. cbn [fst snd]. split; [by left|lia]. }
    apply in_app_or in Hd as [Hd|Hd]; [by apply (Hdiag (-1))|by apply (Hdiag 1)].
Qed.

Lemma pseudoMoves_landable b lm row col p sq :
  In sq (pseudoMoves b lm row col p) →
  landable b (opponent (pcolor p)) sq.1 sq.2
  ∧ (ptype p = Pawn → sq.2 = col → isEmptyAt b sq.1 sq.2 = true).
Proof.
  unfold pseudoMoves. cbv zeta.
  destruct (ptype p) eqn:Ht.
  all: try (intros Hin; split; [|done]).
  all: try (apply in_flat_map in Hin as (d & _ & Hin);
            by apply addDirectionalMoves_loop_landable in Hin).
  - intros Hin. apply calculatePawnMoves_landable in Hin as [H1 H2]. by split.
  - by apply stepMoves_landable in Hin.
  - unfold calculateKingMoves in Hin. apply in_app_or in Hin as [Hin|Hin].
    + by apply stepMoves_landable in Hin.
    + left. by apply calculateCastlingMoves_empty in Hin.
Qed.

(** X21.  No move that [calculatePossibleMoves] returns lands on a
    piece of the mover's own colour: the target is another square than
    the origin, and it is empty or holds a piece of the opponent.  A
    pawn that stays on its file only moves to an empty square. *)
Theorem no_move_onto_own_piece (e : Engine) (row col r c : Z) (p : Piece)
  (Hp : getPiece (board e) row col = Some p)
  (Hmove : In (r, c) (calculatePossibleMoves e row col).1) :
  (r, c) ≠ (row, col)
  ∧ match getPiece (board e) r c with
    | None => True
    | Some q => pcolor q = opponent (pcolor p) ∧ (ptype p = Pawn → c ≠ col)
    end.
Proof.
  destruct (calculatePossibleMoves_pseudo e row col p (r, c) Hp Hmove) as [_ Hps].
  apply pseudoMoves_landable in Hps as [Hland Hpawn]. cbn [fst snd] in *.
  unfold landable, isEmptyAt, isOpponentAt in *.
  split.
  - intros [= -> ->]. rewrite Hp in Hland.
    destruct Hland as [H|H]; [done|].
    unfold color_eqb in H. case_bool_decide as Hc; [|done]. by destruct (pcolor p).
  - destruct (getPiece (board e) r c) as [q|]; [|done].
    destruct Hland as [H|H]; [done|].
    unfold color_eqb in H. case_bool_decide as Hc; [|done].
    split; [done|]. intros Ht Hcc. by specialize (Hpawn Ht Hcc).
Qed.

Lemma no_move_onto_own_piece_witness :
  (7, 6) ≠ (7, 4)
  ∧ match getPiece (board castlingPosition) 7 6 with
    | None => True
    | Some q => pcolor q = opponent (pcolor (mkPiece King White false))
                ∧ (ptype (mkPiece King White false) = Pawn → 6 ≠ 4)
    end.
Proof.
  apply (no_move_onto_own_piece castlingPosition 7 4 7 6 (mkPiece King White false)).
  - vm_compute. reflexivity.
  - vm_compute. tauto.
Defined.

(** ** ChessEngine (stand-alone): [movePiece] carries out what it is given *)

Lemma ChessEngine_hasLegalMoves_loop_restores s squares :
  wf_board (ChessEngine.board s) → (ChessEngine.hasLegalMoves_loop s squares).2 = s.
Proof.
  intros Hwf. induction squares as [|[r c] rest IH]; [done|].
  cbn [ChessEngine.hasLegalMoves_loop].
  destruct (getPiece _ _ _); [|done].
  destruct (color_eqb _ _); [|done].
  destruct (ChessEngine_calculatePossibleMoves_spec s r c Hwf) as [Hr _].
  destruct (ChessEngine.calculatePossibleMoves s r c) as [moves s']. cbn [snd] in Hr.
  subst s'. by destruct (0 <? _).
Qed.

Lemma ChessEngine_checkGameStatus_keeps s :
  wf_board (ChessEngine.board s) →
  ChessEngine.board (ChessEngine.checkGameStatus s) = ChessEngine.board s
  ∧ ChessEngine.moveCount (ChessEngine.checkGameStatus s) = ChessEngine.moveCount s
  ∧ ChessEngine.moveHistory (ChessEngine.checkGameStatus s) = ChessEngine.moveHistory s
  ∧ ChessEngine.lastMove (ChessEngine.checkGameStatus s) = ChessEngine.lastMove s.
Proof.
  intros Hwf. unfold ChessEngine.checkGameStatus. cbv zeta.
  match goal with |- context [ChessEngine.hasLegalMoves_loop ?x _] => set (s1 := x) end.
  pose proof (ChessEngine_hasLegalMoves_loop_restores s1 allSquares Hwf) as Hr.
  destruct (ChessEngine.hasLegalMoves_loop s1 allSquares) as [has s2].
  cbn [snd] in Hr. subst s2. by destruct has.
Qed.

(** X22.  [movePiece] of the stand-alone engine checks nothing but the
    origin: with an empty origin it returns [false] and changes
    nothing; with a piece on the origin, of either colour and for any
    destination on the board (a king's step over two files apart, which
    it treats as castling), it carries the move out.  It answers
    ['promotion'] for a pawn that reaches its last rank and ['normal']
    otherwise, counts the move, records it as the last move, clears the
    origin and puts the piece on the destination; the turn changes
    unless a promotion is pending. *)
Theorem ChessEngine_movePiece_checks_only_the_origin (s : ChessEngine.State)
  (fromRow fromCol toRow toCol : Z)
  (Hwf : wf_board (ChessEngine.board s))
  (Hfrom : isInBounds fromRow fromCol = true) (Hto : isInBounds toRow toCol = true) :
  match getPiece (ChessEngine.board s) fromRow fromCol with
  | None =>
      ChessEngine.movePiece s fromRow fromCol toRow toCol
      = Returned (ChessEngine.ResFalse, s)
  | Some p =>
      (ptype p = King → Z.abs (toCol - fromCol) ≠ 2) →
      ∃ s',
        let promotes :=
          type_eqb (ptype p) Pawn
          && ((color_eqb (pcolor p) White && (toRow =? 0))
              || (color_eqb (pcolor p) Black && (toRow =? 7))) in
        ChessEngine.movePiece s fromRow fromCol toRow toCol
        = Returned (if promotes then ChessEngine.ResPromotion else ChessEngine.ResNormal, s')
        ∧ ChessEngine.moveCount s' = ChessEngine.moveCount s + 1
        ∧ ChessEngine.turn s'
          = (if promotes then ChessEngine.turn s else opponent (ChessEngine.turn s))
        ∧ (∃ mv, ChessEngine.lastMove s' = Some mv
                 ∧ ChessEngine.moveHistory s' = ChessEngine.moveHistory s ++ [mv]
                 ∧ ChessEngine.mv_from mv = (fromRow, fromCol)
                 ∧ ChessEngine.mv_to mv = (toRow, toCol)
                 ∧ ChessEngine.mv_piece mv = p)
        ∧ ((fromRow, fromCol) ≠ (toRow, toCol) →
           getPiece (ChessEngine.board s') fromRow fromCol = None
           ∧ ∃ q, getPiece (ChessEngine.board s') toRow toCol = Some q
                  ∧ ptype q = ptype p ∧ pcolor q = pcolor p)
  end.
Proof.
  destruct (getPiece (ChessEngine.board s) fromRow fromCol) as [p|] eqn:Hp.
  2: { unfold ChessEngine.movePiece. by rewrite (readCell_wf _ _ _ Hwf Hfrom), Hp. }
  intros Hking.
  unfold ChessEngine.movePiece.
  rewrite (readCell_wf _ _ _ Hwf Hfrom), Hp, (readCell_wf _ _ _ Hwf Hto). cbv zeta.
  replace (type_eqb (ptype p) King && (Z.abs (toCol - fromCol) =? 2)) with false.
  2: { symmetry. apply andb_false_iff. unfold type_eqb. case_bool_decide as Hk; [|by left].
       right. apply Z.eqb_neq. by apply Hking. }
  match goal with
  | |- context [ChessEngine.moveHistory ?x ++ _] => set (s1 := x)
  end.
  assert (Hs1 : wf_board (ChessEngine.board s1)
                ∧ ChessEngine.moveCount s1 = ChessEngine.moveCount s
                ∧ ChessEngine.turn s1 = ChessEngine.turn s
                ∧ ChessEngine.moveHistory s1 = ChessEngine.moveHistory s
                ∧ (getPiece (ChessEngine.board s) toRow toCol = None ∨ s1 = s ∨ True)).
  { subst s1. destruct (getPiece (ChessEngine.board s) toRow toCol) as [t|].
    - unfold ChessEngine.pushCaptured. destruct (ChessEngine.turn s); cbn; tauto.
    - destruct (type_eqb (ptype p) Pawn && negb (fromCol =? toCol)).
      + unfold ChessEngine.pushCaptured. destruct (ChessEngine.turn s); cbn;
          (split; [by apply wf_setPiece|tauto]).
      + tauto. }
  destruct Hs1 as (Hwf1 & Hcount1 & Hturn1 & Hhist1 & _).
  clearbody s1.
  set (moved := if type_eqb (ptype p) Pawn || type_eqb (ptype p) Rook
                   || type_eqb (ptype p) King
                then mkPiece (ptype p) (pcolor p) true else p).
  set (b2 := setPiece (setPiece (ChessEngine.board s1) toRow toCol (Some p))
               fromRow fromCol None).
  set (b3 := match getPiece b2 toRow toCol with
             | Some _ => setPiece b2 toRow toCol (Some moved)
             | None => b2
             end).
  assert (Hwf3 : wf_board b3).
  { subst b3 b2. destruct (getPiece _ toRow toCol); by repeat apply wf_setPiece. }
  assert (Hb3 : (fromRow, fromCol) ≠ (toRow, toCol) →
            getPiece b3 fromRow fromCol = None
            ∧ ∃ q, getPiece b3 toRow toCol = Some q
                   ∧ ptype q = ptype p ∧ pcolor q = pcolor p).
  { intros Hne.
    assert (Hget : getPiece b2 toRow toCol = Some p).
    { subst b2. rewrite getPiece_setPiece_ne by done.
      by rewrite getPiece_setPiece_eq. }
    subst b3. rewrite Hget. split.
    - rewrite getPiece_setPiece_ne by (intros [= -> ->]; done).
      subst b2. apply getPiece_setPiece_eq; [by apply wf_setPiece|done].
    - exists moved. split.
      + apply getPiece_setPiece_eq; [subst b2; by repeat apply wf_setPiece|done].
      + subst moved. by destruct (_ || _). }
  clearbody b3.
  match goal with |- context [ChessEngine.mkMove ?a ?b ?c ?d ?e ?f] =>
    set (mv := ChessEngine.mkMove a b c d e f) end.
  destruct (type_eqb (ptype p) Pawn
            && ((color_eqb (pcolor p) White && (toRow =? 0))
                || (color_eqb (pcolor p) Black && (toRow =? 7)))) eqn:Hprom.
  - eexists. split; [reflexivity|].
    cbn [ChessEngine.moveCount ChessEngine.turn ChessEngine.lastMove
         ChessEngine.moveHistory ChessEngine.board].
    split; [by rewrite Hcount1|]. split; [done|].
    split; [|done]. exists mv. by rewrite Hhist1.
  - eexists. split; [reflexivity|].
    match goal with |- context [ChessEngine.checkGameStatus ?x] => set (s4 := x) end.
    destruct (ChessEngine_checkGameStatus_keeps s4 Hwf3) as (Hb & Hc & Hh & Hl).
    destruct (ChessEngine_checkGameStatus_flags s4) as (Ht & _ & _).
    rewrite Hb, Hc, Ht, Hh, Hl. subst s4.
    cbn [ChessEngine.switchTurns ChessEngine.moveCount ChessEngine.turn
         ChessEngine.lastMove ChessEngine.moveHistory ChessEngine.board].
    split; [by rewrite Hcount1|]. split; [by rewrite Hturn1|].
    split; [|done]. exists mv. by rewrite Hhist1.
Qed.

Lemma ChessEngine_movePiece_checks_only_the_origin_witness :
  match getPiece (ChessEngine.board ChessEngine_start) 1 4 with
  | None =>
      ChessEngine.movePiece ChessEngine_start 1 4 5 2
      = Returned (ChessEngine.ResFalse, ChessEngine_start)
  | Some p =>
      (ptype p = King → Z.abs (2 - 4) ≠ 2) →
      ∃ s',
        let promotes :=
          type_eqb (ptype p) Pawn
          && ((color_eqb (pcolor p) White && (5 =? 0))
              || (color_eqb (pcolor p) Black && (5 =? 7))) in
        ChessEngine.movePiece ChessEngine_start 1 4 5 2
        = Returned (if promotes then ChessEngine.ResPromotion else ChessEngine.ResNormal, s')
        ∧ ChessEngine.moveCount s' = ChessEngine.moveCount ChessEngine_start + 1
        ∧ ChessEngine.turn s'
          = (if promotes then ChessEngine.turn ChessEngine_start
             else opponent (ChessEngine.turn ChessEngine_start))
        ∧ (∃ mv, ChessEngine.lastMove s' = Some mv
                 ∧ ChessEngine.moveHistory s'
                   = ChessEngine.moveHistory ChessEngine_start ++ [mv]
                 ∧ ChessEngine.mv_from mv = (1, 4)
                 ∧ ChessEngine.mv_to mv = (5, 2)
                 ∧ ChessEngine.mv_piece mv = p)
        ∧ ((1, 4) ≠ (5, 2) →
           getPiece (ChessEngine.board s') 1 4 = None
           ∧ ∃ q, getPiece (ChessEngine.board s') 5 2 = Some q
                  ∧ ptype q = ptype p ∧ pcolor q = pcolor p)
  end.
Proof.
  apply (ChessEngine_movePiece_checks_only_the_origin ChessEngine_start 1 4 5 2).
  - exact wf_startBoard.
  - reflexivity.
  - reflexivity.
Defined.

(** ** ChessAI: the moves of the search and their make/unmake pair *)

Lemma ChessAI_generateAllLegalMoves_loop_In s color squares m :
  wf_board (ChessEngine.board s) →
  In m (ChessAI.generateAllLegalMoves_loop s color squares).1 →
  getPiece (ChessEngine.board s) (ChessAI.from m).1 (ChessAI.from m).2
    = Some (ChessAI.piece m)
  ∧ pcolor (ChessAI.piece m) = color
  ∧ In (ChessAI.to m)
      (ChessEngine.calculatePossibleMoves s (ChessAI.from m).1 (ChessAI.from m).2).1.
Proof.
  intros Hwf. induction squares as [|[r c] rest IH]; [done|].
  cbn [ChessAI.generateAllLegalMoves_loop].
  destruct (getPiece (ChessEngine.board s) r c) as [p|] eqn:Hp; [|done].
  unfold color_eqb. case_bool_decide as Hc; [|done].
  destruct (ChessEngine_calculatePossibleMoves_spec s r c Hwf) as [Hr _].
  destruct (ChessEngine.calculatePossibleMoves s r c) as [legal s1] eqn:Hcalc.
  cbn [snd] in Hr. subst s1.
  destruct (ChessAI.generateAllLegalMoves_loop s color rest) as [moves s2].
  cbn [fst] in *. rewrite in_app_iff, in_map_iff.
  intros [(t & <- & Ht)|Hin]; [|by apply IH].
  cbn [ChessAI.from ChessAI.to ChessAI.piece fst snd]. by rewrite Hcalc.
Qed.

(** X23.  For every move that [generateAllLegalMoves] lists for a
    colour (whichever side is to move), the piece recorded in the move
    is the piece of that colour on the origin, [makeMove] succeeds, and
    [unmakeMove] with the undo record gives back the game exactly.  The
    made move only lifts the piece from the origin and sets it on the
    destination: every other square stays as it was (no rook moves in a
    castling, no pawn is removed in an en-passant capture), and the side
    to move is not switched. *)
Theorem ChessAI_makeMove_unmakeMove_round_trip (s : ChessEngine.State) (color : Color)
  (m : ChessAI.Move)
  (Hwf : wf_board (ChessEngine.board s))
  (Hin : In m (ChessAI.generateAllLegalMoves s color).1) :
  getPiece (ChessEngine.board s) (ChessAI.from m).1 (ChessAI.from m).2
    = Some (ChessAI.piece m)
  ∧ pcolor (ChessAI.piece m) = color
  ∧ ∃ u s1,
      ChessAI.makeMove s m = Some (u, s1)
      ∧ ChessAI.unmakeMove s1 m u = s
      ∧ ChessEngine.turn s1 = ChessEngine.turn s
      ∧ getPiece (ChessEngine.board s1) (ChessAI.from m).1 (ChessAI.from m).2 = None
      ∧ (ChessAI.to m ≠ ChessAI.from m →
         getPiece (ChessEngine.board s1) (ChessAI.to m).1 (ChessAI.to m).2
         = Some (ChessAI.piece m))
      ∧ ∀ r c, (r, c) ≠ ChessAI.from m → (r, c) ≠ ChessAI.to m →
          getPiece (ChessEngine.board s1) r c = getPiece (ChessEngine.board s) r c.
Proof.
  apply ChessAI_generateAllLegalMoves_loop_In in Hin as (Hp & Hc & Hto); [|done].
  split; [done|]. split; [done|].
  destruct (ChessEngine_calculatePossibleMoves_spec s (ChessAI.from m).1 (ChessAI.from m).2
              Hwf) as [_ Hinb].
  rewrite List.Forall_forall in Hinb. specialize (Hinb _ Hto).
  pose proof (getPiece_Some_inb _ _ _ _ Hp) as Hfrom.
  destruct (ChessAI.makeMove s m) as [[u s1]|] eqn:Hmake.
  2: { unfold ChessAI.makeMove in Hmake. by rewrite Hp in Hmake. }
  exists u, s1. split; [done|].
  destruct (ChessAI_unmakeMove_makeMove s m u s1 Hwf Hinb Hmake) as [_ Hun].
  split; [done|].
  unfold ChessAI.makeMove in Hmake. rewrite Hp in Hmake.
  injection Hmake as <- <-.
  destruct m as [[fr fc] [tr tc] mp]. cbn [ChessAI.from ChessAI.to ChessAI.piece fst snd] in *.
  destruct s; cbn [ChessEngine.set_board ChessEngine.board ChessEngine.turn] in *.
  split; [done|]. split.
  { apply getPiece_setPiece_eq; [by apply wf_setPiece|done]. }
  split.
  { intros Hne. rewrite getPiece_setPiece_ne by (intros [= -> ->]; done).
    by apply getPiece_setPiece_eq. }
  intros r c Hf Ht.
  rewrite getPiece_setPiece_ne by (intros [= -> ->]; done).
  by rewrite getPiece_setPiece_ne by (intros [= -> ->]; done).
Qed.

Lemma ChessAI_makeMove_unmakeMove_round_trip_witness :
  let s := ChessEngine_start in
  let m := ChessAI.mkMove (1, 4) (3, 4) (mkPiece Pawn Black false) in
  getPiece (ChessEngine.board s) (ChessAI.from m).1 (ChessAI.from m).2
    = Some (ChessAI.piece m)
  ∧ pcolor (ChessAI.piece m) = Black
  ∧ ∃ u s1,
      ChessAI.makeMove s m = Some (u, s1)
      ∧ ChessAI.unmakeMove s1 m u = s
      ∧ ChessEngine.turn s1 = ChessEngine.turn s
      ∧ getPiece (ChessEngine.board s1) (ChessAI.from m).1 (ChessAI.from m).2 = None
      ∧ (ChessAI.to m ≠ ChessAI.from m →
         getPiece (ChessEngine.board s1) (ChessAI.to m).1 (ChessAI.to m).2
         = Some (ChessAI.piece m))
      ∧ ∀ r c, (r, c) ≠ ChessAI.from m → (r, c) ≠ ChessAI.to m →
          getPiece (ChessEngine.board s1) r c = getPiece (ChessEngine.board s) r c.
Proof.
  apply (ChessAI_makeMove_unmakeMove_round_trip ChessEngine_start Black
           (ChessAI.mkMove (1, 4) (3, 4) (mkPiece Pawn Black false))).
  - exact wf_startBoard.
  - vm_compute. tauto.
Defined.

(** ** The bot engine (app/chess-engine.js): what an accepted move does *)

Lemma BotEngine_countLegalMoves_restores s color squares :
  wf_board (BotEngine.board s) → (BotEngine.countLegalMoves s color squares).2 = s.
Proof.
  intros Hwf. induction squares as [|[r c] rest IH]; [done|].
  cbn [BotEngine.countLegalMoves].
  destruct (getPiece _ _ _); [|done].
  destruct (color_eqb _ _); [|done].
  pose proof (BotEngine_getPossibleMoves_restores s r c Hwf) as Hr.
  destruct (BotEngine.getPossibleMoves s r c) as [pieceMoves s1]. cbn [snd] in Hr. subst s1.
  by destruct (BotEngine.countLegalMoves s color rest).
Qed.

Lemma BotEngine_checkGameEnd_keeps s :
  wf_board (BotEngine.board s) →
  BotEngine.board (BotEngine.checkGameEnd s) = BotEngine.board s
  ∧ BotEngine.currentPlayer (BotEngine.checkGameEnd s) = BotEngine.currentPlayer s
  ∧ BotEngine.moveHistory (BotEngine.checkGameEnd s) = BotEngine.moveHistory s
  ∧ BotEngine.enPassantTarget (BotEngine.checkGameEnd s) = BotEngine.enPassantTarget s
  ∧ (∀ color side, BotEngine.rights (BotEngine.checkGameEnd s) color side
                   = BotEngine.rights s color side).
Proof.
  intros Hwf. unfold BotEngine.checkGameEnd.
  pose proof (BotEngine_countLegalMoves_restores s (BotEngine.currentPlayer s) allSquares Hwf)
    as Hr.
  destruct (BotEngine.countLegalMoves s (BotEngine.currentPlayer s) allSquares) as [n s1].
  cbn [snd] in Hr. subst s1.
  destruct (n =? 0); [|done].
  destruct (BotEngine.isInCheck _ _ _); by repeat split.
Qed.

Lemma BotEngine_filterLegal_tinb b ep row col color moves :
  Forall tinb moves → Forall tinb (BotEngine.filterLegal b ep row col color moves).1.
Proof.
  intros Hall. revert b. induction Hall as [|t rest Ht Hrest IH]; intros b; [constructor|].
  rewrite BotEngine_filterLegal_cons.
  destruct (BotEngine.wouldBeInCheck b ep row col _ _ color) as [inCheck b'].
  specialize (IH b').
  destruct (BotEngine.filterLegal b' ep row col color rest) as [kept b''].
  cbn [fst] in *. destruct inCheck; [done|by constructor].
Qed.

Lemma wf_castleRook b fromRow side b' :
  wf_board b → BotEngine.castleRook b fromRow side = Returned b' → wf_board b'.
Proof.
  intros Hwf. unfold BotEngine.castleRook. cbv zeta.
  destruct (getPiece _ _ _); [|done]. intros [= <-]. by repeat apply wf_setPiece.
Qed.

(** X24.  A move that [makeMove] accepts is a move of a piece of the
    side to move to one of its [getPossibleMoves] squares.  After it
    the other side is to move; the history has one more entry, with
    the origin, the destination, the type of the piece and what stood
    on the destination; the en-passant target is the square a pawn
    jumped over in a two-rank step and is cleared otherwise; no
    castling right that was lost comes back, and a king's move ends
    both rights of its colour; the origin is empty and the piece,
    marked as moved, stands on the destination. *)
Theorem BotEngine_makeMove_effects (s s' : BotEngine.State) (fromRow fromCol toRow toCol : Z)
  (Hwf : wf_board (BotEngine.board s))
  (Hfrom : isInBounds fromRow fromCol = true)
  (Hmove : BotEngine.makeMove s fromRow fromCol toRow toCol = Returned (true, s')) :
  ∃ p,
    getPiece (BotEngine.board s) fromRow fromCol = Some p
    ∧ pcolor p = BotEngine.currentPlayer s
    ∧ In (toRow, toCol)
        (map (λ t, (BotEngine.t_row t, BotEngine.t_col t))
           (BotEngine.getPossibleMoves s fromRow fromCol).1)
    ∧ BotEngine.currentPlayer s' = opponent (BotEngine.currentPlayer s)
    ∧ (∃ entry,
         BotEngine.moveHistory s' = BotEngine.moveHistory s ++ [entry]
         ∧ BotEngine.en_from entry = (fromRow, fromCol)
         ∧ BotEngine.en_to entry = (toRow, toCol)
         ∧ BotEngine.en_piece entry = ptype p
         ∧ BotEngine.en_captured entry = getPiece (BotEngine.board s) toRow toCol)
    ∧ BotEngine.enPassantTarget s'
      = (if type_eqb (ptype p) Pawn && (Z.abs (toRow - fromRow) =? 2)
         then Some ((fromRow + toRow) / 2, toCol) else None)
    ∧ (∀ color side, BotEngine.rights s' color side = true →
                     BotEngine.rights s color side = true)
    ∧ (ptype p = King → ∀ side, BotEngine.rights s' (pcolor p) side = false)
    ∧ ((fromRow, fromCol) ≠ (toRow, toCol) →
       getPiece (BotEngine.board s') fromRow fromCol = None
       ∧ getPiece (BotEngine.board s') toRow toCol
         = Some (mkPiece (ptype p) (pcolor p) true)).
Proof.
  unfold BotEngine.makeMove in Hmove.
  rewrite (readCell_wf _ _ _ Hwf Hfrom) in Hmove.
  destruct (getPiece (BotEngine.board s) fromRow fromCol) as [p|] eqn:Hp; [|done].
  unfold color_eqb in Hmove at 1. case_bool_decide as Hc; [|done]. cbn [negb] in Hmove.
  pose proof (BotEngine_getPossibleMoves_restores s fromRow fromCol Hwf) as Hr.
  destruct (BotEngine.getPossibleMoves s fromRow fromCol) as [possibleMoves s1] eqn:Hgen.
  cbn [snd] in Hr. subst s1.
  destruct (find _ possibleMoves) as [mv|] eqn:Hfind; [|done].
  apply find_some in Hfind as [Hmem Hsq].
  apply andb_true_iff in Hsq as [Hrow Hcol].
  apply Z.eqb_eq in Hrow. apply Z.eqb_eq in Hcol.
  assert (Hto : isInBounds toRow toCol = true).
  { subst toRow toCol.
    assert (Hall : Forall tinb possibleMoves).
    { revert Hgen. unfold BotEngine.getPossibleMoves. rewrite Hp.
      unfold color_eqb. rewrite bool_decide_eq_true_2 by done. cbn [negb].
      pose proof (BotEngine_filterLegal_restores (BotEngine.board s)
        (BotEngine.enPassantTarget s) fromRow fromCol (pcolor p) _ Hwf
        (BotEngine_pseudoMoves_tinb s fromRow fromCol p Hp)) as Hfl.
      pose proof (BotEngine_filterLegal_tinb (BotEngine.board s)
        (BotEngine.enPassantTarget s) fromRow fromCol (pcolor p)
        (BotEngine.pseudoMoves s fromRow fromCol p)
        (BotEngine_pseudoMoves_tinb s fromRow fromCol p Hp)) as Hti.
      destruct (BotEngine.filterLegal _ _ _ _ _ _) as [moves b'].
      by intros [= <- _]. }
    rewrite List.Forall_forall in Hall. exact (Hall _ Hmem). }
  cbv zeta in Hmove.
  set (bEp := if BotEngine.t_enPassant mv then _ else _) in Hmove.
  assert (HwfEp : wf_board bEp).
  { subst bEp. destruct (BotEngine.t_enPassant mv); [by apply wf_setPiece|done]. }
  destruct (match BotEngine.t_castling mv with
            | Some side => BotEngine.castleRook bEp fromRow side
            | None => Returned bEp
            end) as [b2|] eqn:Hcastle; [|done].
  assert (Hwf2 : wf_board b2).
  { destruct (BotEngine.t_castling mv) as [side|].
    - by eapply wf_castleRook.
    - by injection Hcastle as <-. }
  clearbody bEp. clear Hcastle.
  set (b4 := setPiece (setPiece b2 toRow toCol (Some p)) fromRow fromCol None) in Hmove.
  set (b5 := match getPiece b4 toRow toCol with
             | Some _ => setPiece b4 toRow toCol (Some (mkPiece (ptype p) (pcolor p) true))
             | None => b4
             end) in Hmove.
  assert (Hwf5 : wf_board b5).
  { subst b5 b4. destruct (getPiece _ toRow toCol); by repeat apply wf_setPiece. }
  assert (Hb5 : (fromRow, fromCol) ≠ (toRow, toCol) →
            getPiece b5 fromRow fromCol = None
            ∧ getPiece b5 toRow toCol = Some (mkPiece (ptype p) (pcolor p) true)).
  { intros Hne.
    assert (Hget : getPiece b4 toRow toCol = Some p).
    { subst b4. rewrite getPiece_setPiece_ne by done. by rewrite getPiece_setPiece_eq. }
    subst b5. rewrite Hget. split.
    - rewrite getPiece_setPiece_ne by (intros [= -> ->]; done).
      subst b4. apply getPiece_setPiece_eq; [by apply wf_setPiece|done].
    - apply getPiece_setPiece_eq; [subst b4; by repeat apply wf_setPiece|done]. }
  clearbody b5. clear b4.
  match type of Hmove with
  | Returned (true, BotEngine.checkGameEnd ?x) = _ => set (s2 := x) in Hmove
  end.
  injection Hmove as <-.
  destruct (BotEngine_checkGameEnd_keeps s2 Hwf5) as (Hb & Hcp & Hh & Hep & Hrights).
  exists p. split; [done|]. split; [done|].
  split.
  { apply in_map_iff. exists mv. split; [by rewrite Hrow, Hcol|done]. }
  rewrite Hb, Hcp, Hh, Hep. subst s2.
  cbn [BotEngine.currentPlayer BotEngine.moveHistory BotEngine.enPassantTarget
       BotEngine.board].
  split; [done|]. split; [by eexists|]. split; [done|].
  split.
  { intros color side. rewrite Hrights. unfold BotEngine.rights.
    cbn [BotEngine.whiteKingside BotEngine.whiteQueenside BotEngine.blackKingside
         BotEngine.blackQueenside].
    destruct color, side;
      repeat match goal with |- context [if ?c then _ else _] => destruct c end; done. }
  split; [|done].
  intros Hk side. rewrite Hrights. unfold BotEngine.rights.
  cbn [BotEngine.whiteKingside BotEngine.whiteQueenside BotEngine.blackKingside
       BotEngine.blackQueenside].
  unfold type_eqb at 1 3 5 7. rewrite !bool_decide_eq_true_2 by done.
  unfold color_eqb. destruct (pcolor p), side; done.
Qed.

(** The bot engine after White's opening move e2-e4. *)
Definition BotEngine_afterE4 : BotEngine.State :=
  match BotEngine.makeMove BotEngine.start 6 4 4 4 with
  | Returned (_, s) => s
  | Threw => BotEngine.start
  end.

Lemma BotEngine_makeMove_effects_witness :
  ∃ p,
    getPiece (BotEngine.board BotEngine.start) 6 4 = Some p
    ∧ pcolor p = BotEngine.currentPlayer BotEngine.start
    ∧ In (4, 4)
        (map (λ t, (BotEngine.t_row t, BotEngine.t_col t))
           (BotEngine.getPossibleMoves BotEngine.start 6 4).1)
    ∧ BotEngine.currentPlayer BotEngine_afterE4
      = opponent (BotEngine.currentPlayer BotEngine.start)
    ∧ (∃ entry,
         BotEngine.moveHistory BotEngine_afterE4
         = BotEngine.moveHistory BotEngine.start ++ [entry]
         ∧ BotEngine.en_from entry = (6, 4)
         ∧ BotEngine.en_to entry = (4, 4)
         ∧ BotEngine.en_piece entry = ptype p
         ∧ BotEngine.en_captured entry = getPiece (BotEngine.board BotEngine.start) 4 4)
    ∧ BotEngine.enPassantTarget BotEngine_afterE4
      = (if type_eqb (ptype p) Pawn && (Z.abs (4 - 6) =? 2)
         then Some ((6 + 4) / 2, 4) else None)
    ∧ (∀ color side, BotEngine.rights BotEngine_afterE4 color side = true →
                     BotEngine.rights BotEngine.start color side = true)
    ∧ (ptype p = King → ∀ side, BotEngine.rights BotEngine_afterE4 (pcolor p) side = false)
    ∧ ((6, 4) ≠ (4, 4) →
       getPiece (BotEngine.board BotEngine_afterE4) 6 4 = None
       ∧ getPiece (BotEngine.board BotEngine_afterE4) 4 4
         = Some (mkPiece (ptype p) (pcolor p) true)).
Proof.
  apply (BotEngine_makeMove_effects BotEngine.start BotEngine_afterE4 6 4 4 4).
  - exact wf_startBoard.
  - reflexivity.
  - vm_compute. reflexivity.
Defined.

(** ** ChessEngineCore: loading a snapshot *)

Lemma importState_eq e b t history capW capB lm :
  wf_board b →
  let e1 :=
    mkEngine b t history capW capB (isKingInCheck b t) (gameOver e) lm
      (promotingPawn e) (moveCount e) (checksGiven e) (castlesPerformed e)
      (enPassantCount e) (allowUndo e) (maxMoveHistory e) in
  importState e b t history capW capB lm = set_gameOver e1 (hasNoLegalMoves e1).1.
Proof.
  intros Hwf e1. unfold importState. fold e1.
  pose proof (hasNoLegalMoves_loop_restores e1 allSquares Hwf) as Hno.
  fold (hasNoLegalMoves e1) in Hno.
  unfold isCheckmate, isStalemate.
  destruct (check e1) eqn:Hchk; cbn [negb].
  - destruct (hasNoLegalMoves e1) as [no e3]. cbn [snd] in Hno. subst e3.
    destruct no; [done|]. by rewrite Hchk.
  - rewrite Hchk.
    destruct (hasNoLegalMoves e1) as [no e3]. cbn [snd] in Hno. by subst e3.
Qed.

(** X25.  [importState] takes the board, the side to move, the
    history, the two ledgers and the last move from the snapshot, and
    recomputes the rest of the status: the check flag is the check test
    for the side to move and [gameOver] is set exactly when that side
    has no legal move.  The counters of the snapshot's [gameStats] are
    not read: the move count and a pending promotion stay as they were
    in the receiving engine.  Loading the same snapshot a second time
    changes nothing. *)
Theorem importState_loads_the_snapshot (e : Engine) (b : Board) (t : Color)
  (history : list MoveData) (capW capB : list Piece) (lm : option MoveData)
  (Hwf : wf_board b) :
  let e' := importState e b t history capW capB lm in
  board e' = b ∧ turn e' = t ∧ moveHistory e' = history
  ∧ capturedWhite e' = capW ∧ capturedBlack e' = capB ∧ lastMove e' = lm
  ∧ check e' = isKingInCheck b t
  ∧ (gameOver e' = true ↔ noLegalMoveOn e' allSquares)
  ∧ moveCount e' = moveCount e ∧ promotingPawn e' = promotingPawn e
  ∧ importState e' b t history capW capB lm = e'.
Proof.
  intros e'. subst e'. rewrite (importState_eq e b t history capW capB lm Hwf). cbv zeta.
  set (e1 := mkEngine b t history capW capB (isKingInCheck b t) (gameOver e) lm
      (promotingPawn e) (moveCount e) (checksGiven e) (castlesPerformed e)
      (enPassantCount e) (allowUndo e) (maxMoveHistory e)).
  set (over := (hasNoLegalMoves e1).1).
  assert (Hover : over = true ↔ noLegalMoveOn (set_gameOver e1 over) allSquares).
  { subst over. unfold hasNoLegalMoves.
    rewrite (hasNoLegalMoves_loop_spec e1 allSquares Hwf).
    split; apply noLegalMoveOn_reads; done. }
  do 7 (split; [reflexivity|]).
  split; [exact Hover|]. split; [reflexivity|]. split; [reflexivity|].
  rewrite (importState_eq (set_gameOver e1 over) b t history capW capB lm Hwf). cbv zeta.
  cbn [set_gameOver gameOver promotingPawn moveCount checksGiven castlesPerformed
       enPassantCount allowUndo maxMoveHistory].
  match goal with |- set_gameOver ?x _ = _ => set (e2 := x) end.
  assert (Hsame : (hasNoLegalMoves e2).1 = over).
  { apply eq_true_iff_eq. unfold hasNoLegalMoves at 1.
    rewrite (hasNoLegalMoves_loop_spec e2 allSquares Hwf), Hover.
    split; apply noLegalMoveOn_reads; done. }
  rewrite Hsame. reflexivity.
Qed.

Lemma importState_loads_the_snapshot_witness :
  let e' := importState defaultEngine startBoard Black [] [] [] None in
  board e' = startBoard ∧ turn e' = Black ∧ moveHistory e' = []
  ∧ capturedWhite e' = [] ∧ capturedBlack e' = [] ∧ lastMove e' = None
  ∧ check e' = isKingInCheck startBoard Black
  ∧ (gameOver e' = true ↔ noLegalMoveOn e' allSquares)
  ∧ moveCount e' = moveCount defaultEngine
  ∧ promotingPawn e' = promotingPawn defaultEngine
  ∧ importState e' startBoard Black [] [] [] None = e'.
Proof.
  apply (importState_loads_the_snapshot defaultEngine startBoard Black [] [] [] None).
  exact wf_startBoard.
Defined.

(** ** The bot engine: how [checkGameEnd] classifies a position *)

(** No piece of the side to move has a move. *)
Definition BotEngine_stuck (s : BotEngine.State) (squares : list Square) : Prop :=
  ∀ r c p, In (r, c) squares → getPiece (BotEngine.board s) r c = Some p →
    pcolor p = BotEngine.currentPlayer s → (BotEngine.getPossibleMoves s r c).1 = [].

Lemma BotEngine_countLegalMoves_zero s squares :
  wf_board (BotEngine.board s) →
  0 ≤ (BotEngine.countLegalMoves s (BotEngine.currentPlayer s) squares).1
  ∧ ((BotEngine.countLegalMoves s (BotEngine.currentPlayer s) squares).1 = 0
     ↔ BotEngine_stuck s squares).
Proof.
  intros Hwf. induction squares as [|[r c] rest IH].
  { split; [done|]. split; [|done]. intros _ r c p []. }
  destruct IH as [IHpos IHzero].
  assert (Htail : BotEngine_stuck s ((r, c) :: rest) → BotEngine_stuck s rest).
  { intros H r' c' p Hin. apply H. by right. }
  assert (Hskip : (∀ p, getPiece (BotEngine.board s) r c = Some p →
                        pcolor p ≠ BotEngine.currentPlayer s) →
                  BotEngine_stuck s rest → BotEngine_stuck s ((r, c) :: rest)).
  { intros Hno H r' c' p [[= <- <-]|Hin] Hp Hc; [by destruct (Hno p Hp)|].
    by apply (H r' c' p). }
  cbn [BotEngine.countLegalMoves].
  destruct (getPiece (BotEngine.board s) r c) as [p|] eqn:Hp.
  2: { split; [done|]. rewrite IHzero. split; [apply Hskip; by intros ?|apply Htail]. }
  unfold color_eqb. case_bool_decide as Hc.
  2: { split; [done|]. rewrite IHzero. split; [|apply Htail].
       apply Hskip. by intros q [= <-]. }
  pose proof (BotEngine_getPossibleMoves_restores s r c Hwf) as Hr.
  destruct (BotEngine.getPossibleMoves s r c) as [pieceMoves s1] eqn:Hgen.
  cbn [snd] in Hr. subst s1.
  destruct (BotEngine.countLegalMoves s (BotEngine.currentPlayer s) rest) as [n s2].
  cbn [fst] in *. split; [lia|]. split.
  - intros Hsum.
    assert (Hlen : pieceMoves = []) by (destruct pieceMoves; [done|cbn [length] in Hsum; lia]).
    assert (Hn : n = 0) by lia.
    intros r' c' q [[= <- <-]|Hin] Hq Hqc.
    + by rewrite Hgen.
    + apply IHzero in Hn. by apply (Hn r' c' q).
  - intros Hstuck.
    pose proof (Hstuck r c p ltac:(by left) Hp Hc) as Hnil.
    rewrite Hgen in Hnil. cbn [fst] in Hnil. subst pieceMoves.
    apply Htail, IHzero in Hstuck. cbn [length]. lia.
Qed.

(** X26.  [checkGameEnd] ends the game exactly when no piece of the
    side to move has a move: it sets [gameOver], and the winner is the
    other side if the side to move is in check (checkmate) and nobody
    if it is not (stalemate).  When some piece can move it changes
    nothing, so a game that was over stays over.  In each case the
    board, the side to move, the history, the en-passant target and the
    castling rights are as before. *)
Theorem BotEngine_checkGameEnd_classifies (s : BotEngine.State)
  (Hwf : wf_board (BotEngine.board s)) :
  (BotEngine_stuck s allSquares →
   BotEngine.checkGameEnd s
   = BotEngine.mkState (BotEngine.board s) (BotEngine.currentPlayer s)
       (BotEngine.moveHistory s) true
       (if BotEngine.isInCheck (BotEngine.board s) (BotEngine.enPassantTarget s)
             (BotEngine.currentPlayer s)
        then Some (opponent (BotEngine.currentPlayer s)) else None)
       (BotEngine.enPassantTarget s) (BotEngine.whiteKingside s)
       (BotEngine.whiteQueenside s) (BotEngine.blackKingside s)
       (BotEngine.blackQueenside s))
  ∧ (¬ BotEngine_stuck s allSquares → BotEngine.checkGameEnd s = s).
Proof.
  destruct (BotEngine_countLegalMoves_zero s allSquares Hwf) as [_ Hzero].
  pose proof (BotEngine_countLegalMoves_restores s (BotEngine.currentPlayer s) allSquares Hwf)
    as Hr.
  unfold BotEngine.checkGameEnd.
  destruct (BotEngine.countLegalMoves s (BotEngine.currentPlayer s) allSquares) as [n s1].
  cbn [fst snd] in *. subst s1. split.
  - intros Hstuck. apply Hzero in Hstuck. subst n. cbn [Z.eqb].
    by destruct (BotEngine.isInCheck _ _ _).
  - intros Hfree. destruct (n =? 0) eqn:Hn; [|done].
    apply Z.eqb_eq in Hn. by apply Hzero in Hn.
Qed.

Lemma BotEngine_checkGameEnd_classifies_witness :
  (BotEngine_stuck BotEngine.start allSquares →
   BotEngine.checkGameEnd BotEngine.start
   = BotEngine.mkState (BotEngine.board BotEngine.start)
       (BotEngine.currentPlayer BotEngine.start)
       (BotEngine.moveHistory BotEngine.start) true
       (if BotEngine.isInCheck (BotEngine.board BotEngine.start)
             (BotEngine.enPassantTarget BotEngine.start)
             (BotEngine.currentPlayer BotEngine.start)
        then Some (opponent (BotEngine.currentPlayer BotEngine.start)) else None)
       (BotEngine.enPassantTarget BotEngine.start) (BotEngine.whiteKingside BotEngine.start)
       (BotEngine.whiteQueenside BotEngine.start) (BotEngine.blackKingside BotEngine.start)
       (BotEngine.blackQueenside BotEngine.start))
  ∧ (¬ BotEngine_stuck BotEngine.start allSquares →
     BotEngine.checkGameEnd BotEngine.start = BotEngine.start).
Proof.
  apply (BotEngine_checkGameEnd_classifies BotEngine.start). exact wf_startBoard.
Defined.

(** ** ChessEngineSystem: mobility, random and second-rate moves *)

Lemma set_turn_set_turn e t1 t2 : set_turn (set_turn e t1) t2 = set_turn e t2.
Proof. done. Qed.

Lemma set_turn_id e : set_turn e (turn e) = e.
Proof. by destruct e. Qed.

Lemma System_mobility_loop_spec e forColor squares : ∀ mobility,
  wf_board (board e) →
  System_mobility_loop e forColor squares mobility
  = (mobility + Z.of_nat (length (System.getAllPossibleMoves_loop e forColor squares).1), e).
Proof.
  intros mobility Hwf. revert mobility.
  induction squares as [|[r c] rest IH]; intros mobility.
  { cbn. f_equal. lia. }
  cbn [System_mobility_loop System.getAllPossibleMoves_loop].
  destruct (getPiece (board e) r c) as [p|]; [|apply IH].
  destruct (color_eqb (pcolor p) forColor); [|apply IH].
  pose proof (calculatePossibleMoves_restores e r c Hwf) as Hr.
  destruct (calculatePossibleMoves e r c) as [moves e1]. cbn [snd] in Hr. subst e1.
  rewrite IH.
  destruct (System.getAllPossibleMoves_loop e forColor rest) as [more e2].
  cbn [fst]. f_equal. rewrite length_app, length_map. lia.
Qed.

(** X27.  [evaluateMobility] gives the engine back as it was, turn
    included, and returns twice the number of moves
    [getAllPossibleMoves] lists for the colour when that colour is to
    move; so it also counts for the side that is not to move, and the
    value is never negative. *)
Theorem evaluateMobility_counts_and_restores (e : Engine) (forColor : Color)
  (Hwf : wf_board (board e)) :
  System_evaluateMobility e forColor
  = (2 * Z.of_nat (length (System.getAllPossibleMoves (set_turn e forColor) forColor).1), e)
  ∧ 0 ≤ (System_evaluateMobility e forColor).1.
Proof.
  assert (Heq : System_evaluateMobility e forColor
    = (2 * Z.of_nat (length (System.getAllPossibleMoves (set_turn e forColor) forColor).1),
       e)).
  { unfold System_evaluateMobility. cbv zeta.
    rewrite (System_mobility_loop_spec (set_turn e forColor) forColor allSquares 0 Hwf).
    rewrite set_turn_set_turn, set_turn_id. unfold System.getAllPossibleMoves.
    f_equal. lia. }
  split; [exact Heq|]. rewrite Heq. cbn [fst]. lia.
Qed.

Lemma evaluateMobility_counts_and_restores_witness :
  System_evaluateMobility defaultEngine Black
  = (2 * Z.of_nat (length (System.getAllPossibleMoves (set_turn defaultEngine Black)
                             Black).1), defaultEngine)
  ∧ 0 ≤ (System_evaluateMobility defaultEngine Black).1.
Proof.
  apply (evaluateMobility_counts_and_restores defaultEngine Black). exact wf_startBoard.
Defined.

(** X28.  [getRandomMove] and [getSuboptimalMove] leave the engine
    unchanged and return [null] exactly when the colour has no move;
    otherwise each returns one of the moves [getAllPossibleMoves]
    lists.  With more than three moves [getSuboptimalMove] never
    returns one of the first three of that list. *)
Theorem random_moves_are_generated_moves (draw : nat → nat) (e : Engine) (color : Color)
  (Hwf : wf_board (board e))
  (Hdraw : ∀ n, (0 < n)%nat → (draw n < n)%nat) :
  let allMoves := (System.getAllPossibleMoves e color).1 in
  (System_getRandomMove draw e color).2 = e
  ∧ (System_getSuboptimalMove draw e color).2 = e
  ∧ ((System_getRandomMove draw e color).1 = None ↔ allMoves = [])
  ∧ ((System_getSuboptimalMove draw e color).1 = None ↔ allMoves = [])
  ∧ (∀ m, (System_getRandomMove draw e color).1 = Some m → In m allMoves)
  ∧ (∀ m, (System_getSuboptimalMove draw e color).1 = Some m →
       In m allMoves
       ∧ ((3 < length allMoves)%nat →
          ∃ i, (3 ≤ i)%nat ∧ allMoves !! i = Some m)).
Proof.
  intros allMoves. subst allMoves.
  destruct (getAllPossibleMoves_spec e color Hwf) as [Hr _].
  assert (Hrandom : System_getRandomMove draw e color
    = (if 0 <? Z.of_nat (length (System.getAllPossibleMoves e color).1)
       then (System.getAllPossibleMoves e color).1
              !! draw (length (System.getAllPossibleMoves e color).1)
       else None, e)).
  { unfold System_getRandomMove.
    destruct (System.getAllPossibleMoves e color) as [all e1]. cbn [fst snd] in *.
    by subst e1. }
  assert (Hsub : System_getSuboptimalMove draw e color
    = if Z.of_nat (length (System.getAllPossibleMoves e color).1) <=? 3
      then System_getRandomMove draw e color
      else (drop 3 (System.getAllPossibleMoves e color).1
              !! draw (length (drop 3 (System.getAllPossibleMoves e color).1)), e)).
  { unfold System_getSuboptimalMove, System_getRandomMove.
    destruct (System.getAllPossibleMoves e color) as [all e1] eqn:Hall.
    cbn [fst snd] in *. subst e1. by rewrite Hall. }
  rewrite Hsub, Hrandom. clear Hsub Hrandom.
  set (all := (System.getAllPossibleMoves e color).1). clearbody all.
  assert (Hpick : ∀ l : list System.Move, l ≠ [] → ∃ m, l !! draw (length l) = Some m).
  { intros l Hl. apply lookup_lt_is_Some_2. apply Hdraw. destruct l; [done|cbn; lia]. }
  assert (Hrnd : (if 0 <? Z.of_nat (length all) then all !! draw (length all) else None)
                 = None ↔ all = []).
  { destruct all as [|m0 rest]; [done|].
    replace (0 <? Z.of_nat (length (m0 :: rest))) with true
      by (symmetry; apply Z.ltb_lt; cbn [length]; lia).
    destruct (Hpick (m0 :: rest) ltac:(done)) as [m Hm]. by rewrite Hm. }
  assert (Hmem : ∀ m, (if 0 <? Z.of_nat (length all) then all !! draw (length all) else None)
                      = Some m → In m all).
  { intros m. destruct (0 <? _); [|done]. intros H.
    apply list_elem_of_In. by eapply list_elem_of_lookup_2. }
  split; [done|]. split; [by destruct (_ <=? 3)|].
  split; [exact Hrnd|].
  destruct (Z.of_nat (length all) <=? 3) eqn:Hlen; cbn [fst].
  - apply Z.leb_le in Hlen.
    split; [exact Hrnd|]. split; [exact Hmem|].
    intros m Hm. split; [by apply Hmem|lia].
  - apply Z.leb_gt in Hlen.
    assert (Hne : drop 3 all ≠ []).
    { intros Hnil. apply (f_equal (@length _)) in Hnil.
      rewrite length_drop in Hnil. cbn [length] in Hnil. lia. }
    split.
    { destruct (Hpick (drop 3 all) Hne) as [m Hm]. rewrite Hm.
      split; [done|]. intros ->. cbn [length] in Hlen. lia. }
    split; [exact Hmem|].
    intros m Hm. rewrite lookup_drop in Hm. split.
    + apply list_elem_of_In. by eapply list_elem_of_lookup_2.
    + intros _. eexists. split; [|exact Hm]. lia.
Qed.

Lemma random_moves_are_generated_moves_witness :
  let draw := λ n : nat, (n - 1)%nat in
  let allMoves := (System.getAllPossibleMoves defaultEngine White).1 in
  (System_getRandomMove draw defaultEngine White).2 = defaultEngine
  ∧ (System_getSuboptimalMove draw defaultEngine White).2 = defaultEngine
  ∧ ((System_getRandomMove draw defaultEngine White).1 = None ↔ allMoves = [])
  ∧ ((System_getSuboptimalMove draw defaultEngine White).1 = None ↔ allMoves = [])
  ∧ (∀ m, (System_getRandomMove draw defaultEngine White).1 = Some m → In m allMoves)
  ∧ (∀ m, (System_getSuboptimalMove draw defaultEngine White).1 = Some m →
       In m allMoves
       ∧ ((3 < length allMoves)%nat →
          ∃ i, (3 ≤ i)%nat ∧ allMoves !! i = Some m)).
Proof.
  apply (random_moves_are_generated_moves (λ n : nat, (n - 1)%nat) defaultEngine White).
  - exact wf_startBoard.
  - intros n Hn. lia.
Defined.

(** ** ChessEngine (stand-alone): the move generator *)

Lemma ChessEngine_filterLegal_safe b row col color moves sq :
  wf_board b → Forall inb moves →
  In sq (ChessEngine.filterLegal b row col color moves).1 →
  In sq moves
  ∧ ChessEngine.isKingInCheck
      (setPiece (setPiece b sq.1 sq.2 (getPiece b row col)) row col None) color = false.
Proof.
  intros Hwf. induction 1 as [|[tr tc] rest Ht Hrest IH]; [done|].
  rewrite ChessEngine_filterLegal_cons.
  rewrite (wouldBeInCheck_restores b row col tr tc color Hwf Ht).
  destruct (ChessEngine.filterLegal b row col color rest) as [kept b'].
  cbn [fst] in *.
  destruct (ChessEngine.isKingInCheck
              (setPiece (setPiece b tr tc (getPiece b row col)) row col None) color)
    eqn:Hchk.
  - intros Hin. destruct (IH Hin) as [H1 H2]. split; [by right|exact H2].
  - intros [<-|Hin].
    + cbn [fst snd]. split; [by left|exact Hchk].
    + destruct (IH Hin) as [H1 H2]. split; [by right|exact H2].
Qed.

(** X29.  [calculatePossibleMoves] of the stand-alone engine gives the
    game back as it was and lists only squares of the board; each is
    one of the piece's pseudo-legal moves, kept because the own king is
    not in check on the board with the piece set on the target and the
    origin cleared.  An empty square has no moves.  The side to move is
    not consulted: the list is the same when the turn is switched. *)
Theorem ChessEngine_generator_restores_and_filters (s : ChessEngine.State) (row col : Z)
  (Hwf : wf_board (ChessEngine.board s)) :
  (ChessEngine.calculatePossibleMoves s row col).2 = s
  ∧ (getPiece (ChessEngine.board s) row col = None →
     (ChessEngine.calculatePossibleMoves s row col).1 = [])
  ∧ (∀ tr tc, In (tr, tc) (ChessEngine.calculatePossibleMoves s row col).1 →
       isInBounds tr tc = true
       ∧ ∃ p, getPiece (ChessEngine.board s) row col = Some p
              ∧ In (tr, tc)
                  (ChessEngine.pseudoMoves (ChessEngine.board s) (ChessEngine.lastMove s)
                     row col p)
              ∧ ChessEngine.isKingInCheck
                  (setPiece (setPiece (ChessEngine.board s) tr tc (Some p)) row col None)
                  (pcolor p) = false)
  ∧ (ChessEngine.calculatePossibleMoves (ChessEngine.switchTurns s) row col).1
    = (ChessEngine.calculatePossibleMoves s row col).1.
Proof.
  destruct (ChessEngine_calculatePossibleMoves_spec s row col Hwf) as [Hr Hinb].
  split; [done|]. split.
  { intros Hnone. unfold ChessEngine.calculatePossibleMoves. by rewrite Hnone. }
  split.
  - intros tr tc Hin. rewrite List.Forall_forall in Hinb.
    split; [exact (Hinb _ Hin)|].
    revert Hin. unfold ChessEngine.calculatePossibleMoves.
    destruct (getPiece (ChessEngine.board s) row col) as [p|] eqn:Hp; [|done].
    pose proof (ChessEngine_filterLegal_safe (ChessEngine.board s) row col (pcolor p)
      (ChessEngine.pseudoMoves (ChessEngine.board s) (ChessEngine.lastMove s) row col p)
      (tr, tc) Hwf) as Hsafe.
    destruct (ChessEngine.filterLegal _ _ _ _ _) as [moves b']. cbn [fst] in *.
    intros Hin. exists p. split; [reflexivity|].
    rewrite Hp in Hsafe. cbn [fst snd] in Hsafe. apply Hsafe; [|exact Hin].
    apply ChessEngine_pseudoMoves_inb. by eapply getPiece_Some_inb.
  - unfold ChessEngine.calculatePossibleMoves, ChessEngine.switchTurns.
    cbn [ChessEngine.board ChessEngine.lastMove].
    destruct (getPiece (ChessEngine.board s) row col) as [p|]; [|done].
    by destruct (ChessEngine.filterLegal _ _ _ _ _).
Qed.

Lemma ChessEngine_generator_restores_and_filters_witness :
  let s := ChessEngine_start in
  (ChessEngine.calculatePossibleMoves s 1 4).2 = s
  ∧ (getPiece (ChessEngine.board s) 1 4 = None →
     (ChessEngine.calculatePossibleMoves s 1 4).1 = [])
  ∧ (∀ tr tc, In (tr, tc) (ChessEngine.calculatePossibleMoves s 1 4).1 →
       isInBounds tr tc = true
       ∧ ∃ p, getPiece (ChessEngine.board s) 1 4 = Some p
              ∧ In (tr, tc)
                  (ChessEngine.pseudoMoves (ChessEngine.board s) (ChessEngine.lastMove s)
                     1 4 p)
              ∧ ChessEngine.isKingInCheck
                  (setPiece (setPiece (ChessEngine.board s) tr tc (Some p)) 1 4 None)
                  (pcolor p) = false)
  ∧ (ChessEngine.calculatePossibleMoves (ChessEngine.switchTurns s) 1 4).1
    = (ChessEngine.calculatePossibleMoves s 1 4).1.
Proof.
  apply (ChessEngine_generator_restores_and_filters ChessEngine_start 1 4).
  exact wf_startBoard.
Defined.
